(** * Concurrent containers: a shallow embedding and its verification

    The containers of [containers.h] are modelled at the granularity of their
    shared-memory accesses.  Every [std::atomic] operation of the sources uses
    the default (sequentially consistent) ordering, so a thread is a small
    state machine whose transitions are the individual loads, stores and
    compare-and-swap operations, and a concurrent execution is an interleaving
    of such transitions.  A sequential execution is the special case in which
    one thread is run to completion. *)

From Stdlib Require Import ZArith List Bool Lia.
From stdpp Require Import base tactics option list gmap.
Import ListNotations.

Local Open Scope Z_scope.

(** ** Values returned to the caller *)

(** [void] return, [int] return, or [throw std::runtime_error("empty")]. *)
Inductive ret : Type :=
| Void
| Int (v : Z)
| Empty_error.

Global Instance ret_eq_dec : EqDecision ret.
Proof. solve_decision. Defined.

(** ** Linked nodes

    [struct node { int value; node* next; }] is shared by the Treiber stack,
    the Michael-Scott queue and the elimination stack.  A [node*] is an
    optional address, [None] being [nullptr]. *)

Definition ptr : Type := option nat.

Record node : Type := Node { value : Z; next : ptr }.

Global Instance node_eq_dec : EqDecision node.
Proof. solve_decision. Defined.

Module Heap.

(** The free store: cell [a] holds the node allocated at address [a], or
    [None] once it has been deleted. *)
Abbreviation heap := (list (option node)).

(** [new node(v)]: [value(v), next(nullptr)] at a fresh address. *)
Definition alloc (v : Z) (h : heap) : nat * heap :=
  (length h, h ++ [Some (Node v None)]).

(** Reading through a pointer; [None] for a dangling one. *)
Definition load (h : heap) (a : nat) : option node :=
  match h !! a with
  | Some (Some nd) => Some nd
  | _ => None
  end.

(** [a->next = p]. *)
Definition set_next (h : heap) (a : nat) (p : ptr) : option heap :=
  match load h a with
  | Some nd => Some (<[a := Some (Node (value nd) p)]> h)
  | None => None
  end.

(** [delete a]. *)
Definition free (h : heap) (a : nat) : option heap :=
  match load h a with
  | Some _ => Some (<[a := None]> h)
  | None => None
  end.

Lemma load_lt h a nd : load h a = Some nd → (a < length h)%nat.
Proof.
  unfold load. destruct (h !! a) eqn:E; [|done].
  intros _. eapply lookup_lt_Some; eauto.
Qed.

Lemma load_app_old (h h2 : heap) a :
  (a < length h)%nat → load (h ++ h2) a = load h a.
Proof. intros H. unfold load. by rewrite lookup_app_l. Qed.

Lemma load_app_new (h : heap) nd : load (h ++ [Some nd]) (length h) = Some nd.
Proof.
  unfold load. rewrite lookup_app_r by lia. by rewrite Nat.sub_diag.
Qed.

Lemma load_insert_ne h a b x : a ≠ b → load (<[a := x]> h) b = load h b.
Proof. intros H. unfold load. by rewrite list_lookup_insert_ne. Qed.

Lemma load_insert_eq h a nd :
  (a < length h)%nat → load (<[a := Some nd]> h) a = Some nd.
Proof. intros H. unfold load. by rewrite list_lookup_insert_eq. Qed.

Lemma set_next_Some h a p h' :
  set_next h a p = Some h' →
  ∃ nd, load h a = Some nd ∧ h' = <[a := Some (Node (value nd) p)]> h.
Proof.
  unfold set_next. destruct (load h a) as [nd|] eqn:E; [|done].
  intros [= <-]. eauto.
Qed.

End Heap.

(** ** Compare-and-swap

    [compare_exchange_weak] may fail although the cell holds the expected
    value; the flag [spurious] says whether it does at this attempt.
    [compare_exchange_strong] never does. *)

Definition cas_weak {A} `{EqDecision A} (spurious : bool) (cur expected : A) : bool :=
  negb spurious && bool_decide (cur = expected).

Definition cas_strong {A} `{EqDecision A} (cur expected : A) : bool :=
  bool_decide (cur = expected).

Lemma cas_weak_spurious {A} `{EqDecision A} (x y : A) : cas_weak true x y = false.
Proof. done. Qed.

Lemma cas_weak_same {A} `{EqDecision A} b (x : A) : cas_weak b x x = negb b.
Proof. unfold cas_weak. rewrite bool_decide_eq_true_2 by done. by destruct b. Qed.

Lemma cas_weak_true {A} `{EqDecision A} b (x y : A) :
  cas_weak b x y = true → x = y.
Proof.
  unfold cas_weak. intros [_ H1]%andb_true_iff. by apply bool_decide_eq_true in H1.
Qed.

(** ** Running threads

    A container is given by the type of its shared state, the type of the
    control points of a thread inside one of its operations, and the
    transition taken at each control point. *)

Inductive status : Type :=
| Running
| Done (r : ret)
| Crashed.

Inductive outcome (St : Type) : Type :=
| Finished (r : ret) (s : St) (rest : list bool)
| Faulted
| Out_of_fuel.
Arguments Finished {St} r s rest.
Arguments Faulted {St}.
Arguments Out_of_fuel {St}.

Section Run.
Context {Op PC St : Type}.
(** first control point of a call *)
Variable start : Op → PC.
(** one shared-memory access *)
Variable step : bool → PC → St → PC * St.
(** the access is a [compare_exchange_weak] *)
Variable weak : PC → bool.
Variable inspect : PC → status.

(** One thread alone, run until its call returns.  [o] lists, for the
    successive weak compare-and-swaps, whether they fail spuriously; once
    the list is used up none does. *)
Fixpoint run (fuel : nat) (o : list bool) (p : PC) (s : St) : outcome St :=
  match inspect p with
  | Done r => Finished r s o
  | Crashed => Faulted
  | Running =>
      match fuel with
      | O => Out_of_fuel
      | S fuel' =>
          let b := if weak p then hd false o else false in
          let o' := if weak p then tl o else o in
          let '(p', s') := step b p s in
          run fuel' o' p' s'
      end
  end.

(** A single-threaded program: the calls one after the other. *)
Fixpoint run_ops (fuel : nat) (o : list bool) (ops : list Op) (s : St)
  : option (list ret * St) :=
  match ops with
  | [] => Some ([], s)
  | op :: ops' =>
      match run fuel o (start op) s with
      | Finished r s' o' =>
          match run_ops fuel o' ops' s' with
          | Some (rs, s'') => Some (r :: rs, s'')
          | None => None
          end
      | _ => None
      end
  end.

(** Threads running in parallel: the shared state and the control point of
    every thread. *)
Record config : Type := Config { shared : St; threads : list PC }.

Inductive cstep : config → config → Prop :=
  | cstep_spawn c op :
    cstep c (Config (shared c) (threads c ++ [start op]))
  | cstep_call c t p r op :
    threads c !! t = Some p →
    inspect p = Done r →
    cstep c (Config (shared c) (<[t := start op]> (threads c)))
  | cstep_thread c t p b p' s' :
    threads c !! t = Some p →
    inspect p = Running →
    step b p (shared c) = (p', s') →
    cstep c (Config s' (<[t := p']> (threads c))).

(** States reachable from a freshly constructed container [s0]. *)
Inductive reachable (s0 : St) : config → Prop :=
  | reachable_init : reachable s0 (Config s0 [])
  | reachable_step c c' : reachable s0 c → cstep c c' → reachable s0 c'.

(** A schedule lists which thread moves next; playing it computes the state
    that the interleaving reaches. *)
Inductive event : Type :=
| Spawn (op : Op)
| Call (t : nat) (op : Op)
| Step (t : nat) (spurious : bool).

Definition fire (e : event) (c : config) : option config :=
  match e with
  | Spawn op => Some (Config (shared c) (threads c ++ [start op]))
  | Call t op =>
      match threads c !! t with
      | Some p =>
          match inspect p with
          | Done _ => Some (Config (shared c) (<[t := start op]> (threads c)))
          | _ => None
          end
      | None => None
      end
  | Step t b =>
      match threads c !! t with
      | Some p =>
          match inspect p with
          | Running =>
              Some (Config (snd (step b p (shared c)))
                           (<[t := fst (step b p (shared c))]> (threads c)))
          | _ => None
          end
      | None => None
      end
  end.

Fixpoint play (es : list event) (c : config) : option config :=
  match es with
  | [] => Some c
  | e :: es' =>
      match fire e c with
      | Some c' => play es' c'
      | None => None
      end
  end.

Lemma fire_cstep e c c' : fire e c = Some c' → cstep c c'.
Proof.
  destruct e as [op|t op|t b]; simpl.
  - intros [= <-]. constructor.
  - destruct (threads c !! t) as [p|] eqn:Ht; [|done].
    destruct (inspect p) eqn:Hp; try done.
    intros [= <-]. by econstructor.
  - destruct (threads c !! t) as [p|] eqn:Ht; [|done].
    destruct (inspect p) eqn:Hp; try done.
    intros [= <-]. eapply cstep_thread; [done|done|]. apply surjective_pairing.
Qed.

Lemma play_reachable s0 es : ∀ c c',
  reachable s0 c → play es c = Some c' → reachable s0 c'.
Proof.
  induction es as [|e es IH]; intros c c' Hr; simpl.
  - by intros [= <-].
  - destruct (fire e c) as [c1|] eqn:E; [|done].
    apply IH. eapply reachable_step; [done|]. by apply (fire_cstep e).
Qed.

Lemma run_fuel_mono fuel fuel' o p s r s' o' :
  run fuel o p s = Finished r s' o' → (fuel ≤ fuel')%nat →
  run fuel' o p s = Finished r s' o'.
Proof.
  revert fuel' o p s. induction fuel as [|fuel IH]; intros fuel' o p s.
  - simpl. destruct (inspect p) eqn:E; try done.
    intros H _. destruct fuel'; simpl; by rewrite E.
  - simpl. destruct (inspect p) eqn:E; try done.
    + intros H Hle. destruct fuel' as [|fuel']; [lia|]. simpl. rewrite E.
      destruct (step _ p s) as [p1 s1]. apply IH; [done|lia].
    + intros H _. destruct fuel'; simpl; by rewrite E.
Qed.

(** A run of one thread is an interleaving in which only that thread moves. *)
Lemma run_reachable s0 t fuel : ∀ o p c r s' o',
  reachable s0 c → threads c !! t = Some p →
  run fuel o p (shared c) = Finished r s' o' →
  ∃ p', inspect p' = Done r
        ∧ reachable s0 (Config s' (<[t := p']> (threads c))).
Proof.
  induction fuel as [|fuel IH]; intros o p c r s' o' Hr Ht; simpl.
  - destruct (inspect p) eqn:Hp; try done. intros [= <- <- <-].
    exists p. split; [done|]. rewrite list_insert_id by done. by destruct c.
  - destruct (inspect p) eqn:Hp; try done.
    + destruct (step _ p (shared c)) as [p1 s1] eqn:Hstep. intros Hrun.
      destruct (IH (if weak p then tl o else o) p1
                  (Config s1 (<[t := p1]> (threads c))) r s' o') as (p' & Hp' & Hr').
      * eapply reachable_step; [exact Hr|]. by eapply cstep_thread.
      * cbn [threads]. apply list_lookup_insert_eq. by eapply lookup_lt_Some.
      * exact Hrun.
      * exists p'. split; [done|]. cbn [threads] in Hr'.
        by rewrite list_insert_insert_eq in Hr'.
    + intros [= <- <- <-].
      exists p. split; [done|]. rewrite list_insert_id by done. by destruct c.
Qed.

(** The state after a single-threaded program is reachable, with no call in
    progress. *)
Lemma run_ops_reachable s0 fuel ops : ∀ o s ts rs s',
  reachable s0 (Config s ts) →
  (ts = [] ∨ ∃ p r, ts = [p] ∧ inspect p = Done r) →
  run_ops fuel o ops s = Some (rs, s') →
  ∃ ts', reachable s0 (Config s' ts')
         ∧ ∀ t p, ts' !! t = Some p → ∃ r, inspect p = Done r.
Proof.
  induction ops as [|op ops IH]; intros o s ts rs s' Hr Hts; simpl.
  - intros [= <- <-]. exists ts. split; [done|].
    destruct Hts as [->|(p & r & -> & Hp)]; [done|].
    intros [|t] p0 [= <-]. eauto.
  - destruct (run fuel o (start op) s) as [r s1 o1| |] eqn:Hrun; try done.
    destruct (run_ops fuel o1 ops s1) as [[rs1 s2]|] eqn:Hops; [|done].
    intros [= <- <-].
    assert (reachable s0 (Config s [start op])) as Hr0.
    { destruct Hts as [->|(p & r0 & -> & Hp)].
      - apply (reachable_step _ (Config s [])); [done|]. apply (cstep_spawn (Config s [])).
      - apply (reachable_step _ (Config s [p])); [done|].
        by apply (cstep_call (Config s [p]) 0 p r0 op). }
    destruct (run_reachable s0 0 fuel o (start op) (Config s [start op]) r s1 o1 Hr0)
      as (p' & Hp' & Hr1); [done|done|].
    eapply (IH o1 s1 [p']); [exact Hr1| |exact Hops]. right. eauto.
Qed.

Lemma run_unfold fuel o p s :
  inspect p = Running →
  run (S fuel) o p s =
    run fuel (if weak p then tl o else o)
        (fst (step (if weak p then hd false o else false) p s))
        (snd (step (if weak p then hd false o else false) p s)).
Proof. intros H. simpl. rewrite H. by destruct (step _ p s). Qed.

Lemma run_done fuel o p s r : inspect p = Done r → run fuel o p s = Finished r s o.
Proof. intros H. destruct fuel; simpl; by rewrite H. Qed.

(** *** Sequential refinement

  If every call, run alone from a state that represents the abstract
  value [a], returns what the sequential specification [spec] returns and
  leaves a state representing the specified value, then so does every
  single-threaded program. *)
Section Refine.
Context {Abs : Type}.
Variable repr : St → Abs → Prop.
Variable spec : Op → Abs → ret * Abs.
Variable bound : nat → nat.
Hypothesis bound_mono : ∀ n m, (n ≤ m)%nat → (bound n ≤ bound m)%nat.
Hypothesis call_refines : ∀ op s a o fuel,
  repr s a → (bound (length o) ≤ fuel)%nat →
  ∃ s' o', run fuel o (start op) s = Finished (fst (spec op a)) s' o'
           ∧ repr s' (snd (spec op a)) ∧ (length o' ≤ length o)%nat.

Fixpoint spec_ops (ops : list Op) (a : Abs) : list ret * Abs :=
  match ops with
  | [] => ([], a)
  | op :: ops' =>
      let '(r, a') := spec op a in
      let '(rs, a'') := spec_ops ops' a' in
      (r :: rs, a'')
  end.

Lemma run_ops_refines ops : ∀ s a o fuel,
  repr s a → (bound (length o) ≤ fuel)%nat →
  ∃ s', run_ops fuel o ops s = Some (fst (spec_ops ops a), s')
        ∧ repr s' (snd (spec_ops ops a)).
Proof.
  induction ops as [|op ops IH]; intros s a o fuel Hr Hf; simpl.
  - eauto.
  - destruct (call_refines op s a o fuel Hr Hf) as (s1 & o1 & -> & Hr1 & Hl).
    destruct (spec op a) as [r a1]; simpl in *.
    destruct (IH s1 a1 o1 fuel Hr1) as (s2 & -> & Hr2).
    { etrans; [apply bound_mono, Hl|done]. }
    destruct (spec_ops ops a1) as [rs a2]; simpl in *. eauto.
Qed.
End Refine.

End Run.

(** ** Sequential specifications *)

Inductive stack_op : Type := Push (v : Z) | Pop.
Inductive queue_op : Type := Enqueue (v : Z) | Dequeue.

(** A stack is a list with its top first. *)
Definition stack_spec (op : stack_op) (vs : list Z) : ret * list Z :=
  match op, vs with
  | Push v, _ => (Void, v :: vs)
  | Pop, [] => (Empty_error, [])
  | Pop, v :: vs' => (Int v, vs')
  end.

(** A queue is a list with its front first. *)
Definition queue_spec (op : queue_op) (vs : list Z) : ret * list Z :=
  match op, vs with
  | Enqueue v, _ => (Void, vs ++ [v])
  | Dequeue, [] => (Empty_error, [])
  | Dequeue, v :: vs' => (Int v, vs')
  end.

(** ** Treiber stack ([treiber_stack.cpp]) *)

Module Treiber.
Import Heap.

Record treiber_stack : Type := Stack { nodes : heap; top : ptr }.

(** [treiber_stack() : top(nullptr)] *)
Definition new : treiber_stack := Stack [] None.

(** Control points of [push] and [pop]; the arguments are the locals that
    are live there. *)
Inductive pc : Type :=
| Push_new (v : Z)                          (* node* n = new node(value) *)
| Push_load (n : nat)                       (* old_top = top.load() *)
| Push_link (n : nat) (old_top : ptr)       (* n->next = old_top *)
| Push_cas (n : nat) (old_top : ptr)        (* top.compare_exchange_weak(old_top, n) *)
| Pop_load                                  (* old_top = top.load(); if(!old_top) throw *)
| Pop_next (old_top : nat)                  (* next = old_top->next *)
| Pop_value (old_top : nat) (nxt : ptr)     (* v = old_top->value *)
| Pop_cas (old_top : nat) (nxt : ptr) (v : Z) (* top.compare_exchange_weak(old_top, next) *)
| Return (r : ret)
| Fault.

Definition start (op : stack_op) : pc :=
  match op with
  | Push v => Push_new v
  | Pop => Pop_load
  end.

Definition inspect (p : pc) : status :=
  match p with
  | Return r => Done r
  | Fault => Crashed
  | _ => Running
  end.

Definition weak (p : pc) : bool :=
  match p with
  | Push_cas _ _ | Pop_cas _ _ _ => true
  | _ => false
  end.

Definition step (spurious : bool) (p : pc) (s : treiber_stack) : pc * treiber_stack :=
  match p with
  | Push_new v =>
      let '(n, h) := alloc v (nodes s) in
      (Push_load n, Stack h (top s))
  | Push_load n => (Push_link n (top s), s)
  | Push_link n old_top =>
      match set_next (nodes s) n old_top with
      | Some h => (Push_cas n old_top, Stack h (top s))
      | None => (Fault, s)
      end
  | Push_cas n old_top =>
      if cas_weak spurious (top s) old_top
      then (Return Void, Stack (nodes s) (Some n))
      else (Push_load n, s)
  | Pop_load =>
      match top s with
      | None => (Return Empty_error, s)
      | Some old_top => (Pop_next old_top, s)
      end
  | Pop_next old_top =>
      match load (nodes s) old_top with
      | Some nd => (Pop_value old_top (next nd), s)
      | None => (Fault, s)
      end
  | Pop_value old_top nxt =>
      match load (nodes s) old_top with
      | Some nd => (Pop_cas old_top nxt (value nd), s)
      | None => (Fault, s)
      end
  | Pop_cas old_top nxt v =>
      if cas_weak spurious (top s) (Some old_top)
      then (Return (Int v), Stack (nodes s) nxt)
      else (Pop_load, s)
  | Return r => (Return r, s)
  | Fault => (Fault, s)
  end.

Definition exec := run step weak inspect.
Definition exec_ops := run_ops start step weak inspect.

(** The chain of nodes hanging from [p] holds the values [vs]. *)
Fixpoint linked (h : heap) (p : ptr) (vs : list Z) : Prop :=
  match vs with
  | [] => p = None
  | v :: vs' => ∃ a nx, p = Some a ∧ load h a = Some (Node v nx) ∧ linked h nx vs'
  end.

Definition holds (s : treiber_stack) (vs : list Z) : Prop :=
  linked (nodes s) (top s) vs.

Lemma linked_frame h h' p vs :
  linked h p vs →
  (∀ a, (a < length h)%nat → load h' a = load h a) →
  linked h' p vs.
Proof.
  revert p. induction vs as [|v vs IH]; intros p; simpl; [done|].
  intros (a & nx & -> & Ha & Hl) Hf. exists a, nx. split; [done|].
  split; [|by apply IH]. rewrite Hf; [done|]. by eapply load_lt.
Qed.

Lemma linked_inj h p vs vs' : linked h p vs → linked h p vs' → vs = vs'.
Proof.
  revert p vs'. induction vs as [|v vs IH]; intros p [|v' vs']; simpl.
  - done.
  - intros -> (a & nx & ? & _); done.
  - intros (a & nx & -> & _) ?; done.
  - intros (a & nx & -> & Ha & Hl) (a' & nx' & [= <-] & Ha' & Hl').
    rewrite Ha in Ha'. injection Ha' as <- <-. f_equal. by eapply IH.
Qed.

Ltac tick :=
  lazymatch goal with
  | |- context [run _ _ _ (S _) _ _ _] =>
      rewrite run_unfold by reflexivity; simpl
  | |- context [run _ _ _ ?fuel _ _ _] =>
      let f := fresh "fuel" in
      destruct fuel as [|f]; [simpl in *; lia|];
      rewrite run_unfold by reflexivity; simpl
  end.

(** The retry loop of [push]: every spurious failure uses up one entry of
    the oracle and starts the loop again. *)
Lemma push_loop o : ∀ s h0 n v nx vs fuel,
  linked h0 (top s) vs → n = length h0 →
  (∀ a, (a < n)%nat → load (nodes s) a = load h0 a) →
  load (nodes s) n = Some (Node v nx) →
  (3 * length o + 3 ≤ fuel)%nat →
  ∃ s' o', exec fuel o (Push_load n) s = Finished Void s' o'
           ∧ holds s' (v :: vs) ∧ (length o' ≤ length o)%nat.
Proof.
  unfold exec.
  induction o as [|b o IH]; intros [h t] h0 n v nx vs fuel Hl Hn Hf Hv Hfuel;
    cbn [top nodes length] in *.
  - do 2 tick. unfold set_next. rewrite Hv. simpl. tick.
    unfold cas_weak. rewrite bool_decide_eq_true_2 by done. simpl.
    erewrite run_done by reflexivity. eexists _, _. split; [done|]. split; [|done].
    unfold holds; simpl. exists n, t. split; [done|].
    assert (n < length h)%nat by (by eapply load_lt).
    split; [by rewrite load_insert_eq|].
    eapply linked_frame; [done|]. intros a Ha. subst n.
    rewrite load_insert_ne by lia. by apply Hf.
  - do 2 tick. unfold set_next. rewrite Hv. simpl. tick.
    assert (n < length h)%nat by (by eapply load_lt).
    unfold cas_weak. rewrite bool_decide_eq_true_2 by done. destruct b; simpl.
    + match goal with |- context [run _ _ _ ?f _ _ _] =>
        destruct (IH (Stack (<[n:=Some (Node v t)]> h) t) h0 n v t vs f)
          as (s' & o' & -> & Hh & Hlen) end; simpl; try done.
      * intros a Ha. subst n. rewrite load_insert_ne by lia. by apply Hf.
      * by rewrite load_insert_eq.
      * lia.
      * eexists _, _. split; [done|]. split; [done|]. lia.
    + erewrite run_done by reflexivity. eexists _, _. split; [done|]. split; [|lia].
      unfold holds; simpl. exists n, t. split; [done|].
      split; [by rewrite load_insert_eq|].
      eapply linked_frame; [done|]. intros a Ha. subst n.
      rewrite load_insert_ne by lia. by apply Hf.
Qed.

Lemma push_refines s vs v o fuel :
  holds s vs → (3 * length o + 4 ≤ fuel)%nat →
  ∃ s' o', exec fuel o (Push_new v) s = Finished Void s' o'
           ∧ holds s' (v :: vs) ∧ (length o' ≤ length o)%nat.
Proof.
  intros Hh Hfuel. destruct s as [h t]. unfold exec. tick. fold exec.
  eapply (push_loop o (Stack _ t) h); simpl; try done.
  - intros a Ha. by apply load_app_old.
  - apply load_app_new.
  - lia.
Qed.

Lemma pop_refines o : ∀ s vs fuel,
  holds s vs → (4 * length o + 4 ≤ fuel)%nat →
  ∃ s' o', exec fuel o Pop_load s = Finished (fst (stack_spec Pop vs)) s' o'
           ∧ holds s' (snd (stack_spec Pop vs)) ∧ (length o' ≤ length o)%nat.
Proof.
  unfold exec, holds.
  induction o as [|b o IH]; intros [h t] [|v vs] fuel Hh Hfuel;
    cbn [top nodes length linked stack_spec fst snd] in *.
  - subst t. tick. erewrite run_done by reflexivity. eauto.
  - destruct Hh as (a & nx & -> & Ha & Hl).
    tick. tick. rewrite Ha; simpl. tick. rewrite Ha; simpl. tick.
    unfold cas_weak. rewrite bool_decide_eq_true_2 by done. simpl.
    erewrite run_done by reflexivity. eauto.
  - subst t. tick. erewrite run_done by reflexivity. eauto.
  - destruct Hh as (a & nx & -> & Ha & Hl).
    tick. tick. rewrite Ha; simpl. tick. rewrite Ha; simpl. tick.
    unfold cas_weak. rewrite bool_decide_eq_true_2 by done.
    destruct b; simpl.
    + match goal with |- context [run _ _ _ ?f _ _ _] =>
        destruct (IH (Stack h (Some a)) (v :: vs) f)
          as (s' & o' & -> & Hh & Hlen) end;
        cbn [top nodes length linked stack_spec fst snd] in *.
      * eauto.
      * lia.
      * eexists _, _. split; [done|]. split; [done|]. lia.
    + erewrite run_done by reflexivity. eexists _, _.
      split; [done|]. split; [done|]. lia.
Qed.

(** Sequential refinement: a single-threaded program on a Treiber stack
    returns what the same program returns on a list. *)
Lemma call_refines op s vs o fuel :
  holds s vs → (4 * length o + 4 ≤ fuel)%nat →
  ∃ s' o', exec fuel o (start op) s = Finished (fst (stack_spec op vs)) s' o'
           ∧ holds s' (snd (stack_spec op vs)) ∧ (length o' ≤ length o)%nat.
Proof.
  intros Hh Hfuel. destruct op as [v|].
  - apply push_refines; [done|lia].
  - by apply pop_refines.
Qed.

Lemma holds_new : holds new [].
Proof. done. Qed.

(** A [pop] changes the stack only by the compare-and-swap that makes it
    return a value; every other transition of [pop] leaves it as it is. *)
Definition in_pop (p : pc) : Prop :=
  match p with
  | Pop_load | Pop_next _ | Pop_value _ _ | Pop_cas _ _ _ => True
  | _ => False
  end.

Lemma pop_empty_keeps fuel : ∀ o p s s' o',
  in_pop p → exec fuel o p s = Finished Empty_error s' o' → s' = s.
Proof.
  unfold exec. induction fuel as [|fuel IH]; intros o p s s' o' Hp.
  - destruct p; simpl in *; done.
  - destruct p; try done; rewrite run_unfold by reflexivity; simpl.
    + destruct (top s); simpl; [by apply IH|].
      erewrite run_done by reflexivity. congruence.
    + destruct (load _ _); simpl; [by apply IH|].
      destruct fuel; simpl; done.
    + destruct (load _ _); simpl; [by apply IH|].
      destruct fuel; simpl; done.
    + destruct (cas_weak _ _ _); simpl; [|by apply IH].
      erewrite run_done by reflexivity. congruence.
Qed.

Abbreviation conf := (@config pc treiber_stack).
Definition tstep : conf → conf → Prop := cstep start step inspect.
Definition treachable : conf → Prop := reachable start step inspect new.


(** In any interleaving: a step of [pop] other than the compare-and-swap that
    makes it return a value writes nothing. *)
Lemma pop_step_keeps b p s :
  in_pop p → (∀ v, fst (step b p s) ≠ Return (Int v)) → snd (step b p s) = s.
Proof.
  intros Hp Hne. destruct p; try done; cbn [step] in *.
  - by destruct (top s).
  - by destruct (load _ _).
  - by destruct (load _ _).
  - destruct (cas_weak _ _ _); [|done]. by destruct (Hne v).
Qed.


End Treiber.

(** C1. A fresh Treiber stack used by one thread: after [push(1); push(2);
    push(3)], three calls of [pop] return 3, 2 and 1, and a fourth throws the
    empty error.  This holds whichever of the weak compare-and-swaps fail
    spuriously ([o]), as soon as the fuel covers the retries they cause. *)
Theorem treiber_push3_pop4 (o : list bool) (k : nat) :
  fst <$> Treiber.exec_ops (4 * length o + 4 + k) o
            [Push 1; Push 2; Push 3; Pop; Pop; Pop; Pop] Treiber.new
  = Some [Void; Void; Void; Int 3; Int 2; Int 1; Empty_error].
Proof.
  destruct (run_ops_refines Treiber.start Treiber.step Treiber.weak
              Treiber.inspect Treiber.holds stack_spec (λ n, 4 * n + 4)%nat)
    with (ops := [Push 1; Push 2; Push 3; Pop; Pop; Pop; Pop])
         (s := Treiber.new) (a := @nil Z) (o := o)
         (fuel := (4 * length o + 4 + k)%nat) as (s' & Hrun & _).
  - intros n m Hnm. lia.
  - intros op s a o0 fuel. apply Treiber.call_refines.
  - apply Treiber.holds_new.
  - lia.
  - unfold Treiber.exec_ops. rewrite Hrun. reflexivity.
Qed.

(** ** Michael-Scott queue ([msqueue.cpp]) *)

Module MSQueue.
Import Heap.

Record msqueue : Type := Queue { nodes : heap; head : ptr; tail : ptr }.

(** [msqueue()]: [dummy = new node(0); head.store(dummy); tail.store(dummy)] *)
Definition new : msqueue :=
  let '(dummy, h) := alloc 0 [] in Queue h (Some dummy) (Some dummy).

Inductive pc : Type :=
| Enq_new (v : Z)                            (* node* n = new node(value) *)
| Enq_tail (n : nat)                         (* last = tail.load() *)
| Enq_next (n : nat) (last : ptr)            (* next = last->next.load() *)
| Enq_check (n : nat) (last nxt : ptr)       (* if(last == tail.load()) if(!next) *)
| Enq_link (n : nat) (last nxt : ptr)        (* last->next.compare_exchange_weak(next, n) *)
| Enq_swing (n : nat) (last : ptr)           (* tail.compare_exchange_weak(last, n); return *)
| Enq_help (n : nat) (last nxt : ptr)        (* tail.compare_exchange_weak(last, next) *)
| Deq_head                                   (* first = head.load() *)
| Deq_tail (first : ptr)                     (* last = tail.load() *)
| Deq_next (first last : ptr)                (* next = first->next.load() *)
| Deq_check (first last nxt : ptr)           (* if(first == head.load()) if(first == last) if(!next) throw *)
| Deq_help (last nxt : ptr)                  (* tail.compare_exchange_weak(last, next) *)
| Deq_value (first nxt : ptr)                (* v = next->value *)
| Deq_swing (first nxt : ptr) (v : Z)        (* head.compare_exchange_weak(first, next) *)
| Return (r : ret)
| Fault.

Definition start (op : queue_op) : pc :=
  match op with
  | Enqueue v => Enq_new v
  | Dequeue => Deq_head
  end.

Definition inspect (p : pc) : status :=
  match p with
  | Return r => Done r
  | Fault => Crashed
  | _ => Running
  end.

Definition weak (p : pc) : bool :=
  match p with
  | Enq_link _ _ _ | Enq_swing _ _ | Enq_help _ _ _
  | Deq_help _ _ | Deq_swing _ _ _ => true
  | _ => false
  end.

Definition step (spurious : bool) (p : pc) (q : msqueue) : pc * msqueue :=
  match p with
  | Enq_new v =>
      let '(n, h) := alloc v (nodes q) in
      (Enq_tail n, Queue h (head q) (tail q))
  | Enq_tail n => (Enq_next n (tail q), q)
  | Enq_next n last =>
      match last ≫= load (nodes q) with
      | Some nd => (Enq_check n last (next nd), q)
      | None => (Fault, q)
      end
  | Enq_check n last nxt =>
      if decide (last = tail q) then
        match nxt with
        | None => (Enq_link n last nxt, q)
        | Some _ => (Enq_help n last nxt, q)
        end
      else (Enq_tail n, q)
  | Enq_link n last nxt =>
      match last with
      | Some l =>
          match load (nodes q) l with
          | Some nd =>
              if cas_weak spurious (next nd) nxt
              then (Enq_swing n last,
                    Queue (<[l := Some (Node (value nd) (Some n))]> (nodes q))
                          (head q) (tail q))
              else (Enq_tail n, q)
          | None => (Fault, q)
          end
      | None => (Fault, q)
      end
  | Enq_swing n last =>
      if cas_weak spurious (tail q) last
      then (Return Void, Queue (nodes q) (head q) (Some n))
      else (Return Void, q)
  | Enq_help n last nxt =>
      if cas_weak spurious (tail q) last
      then (Enq_tail n, Queue (nodes q) (head q) nxt)
      else (Enq_tail n, q)
  | Deq_head => (Deq_tail (head q), q)
  | Deq_tail first => (Deq_next first (tail q), q)
  | Deq_next first last =>
      match first ≫= load (nodes q) with
      | Some nd => (Deq_check first last (next nd), q)
      | None => (Fault, q)
      end
  | Deq_check first last nxt =>
      if decide (first = head q) then
        if decide (first = last) then
          match nxt with
          | None => (Return Empty_error, q)
          | Some _ => (Deq_help last nxt, q)
          end
        else (Deq_value first nxt, q)
      else (Deq_head, q)
  | Deq_help last nxt =>
      if cas_weak spurious (tail q) last
      then (Deq_head, Queue (nodes q) (head q) nxt)
      else (Deq_head, q)
  | Deq_value first nxt =>
      match nxt ≫= load (nodes q) with
      | Some nd => (Deq_swing first nxt (value nd), q)
      | None => (Fault, q)
      end
  | Deq_swing first nxt v =>
      if cas_weak spurious (head q) first
      then (Return (Int v), Queue (nodes q) nxt (tail q))
      else (Deq_head, q)
  | Return r => (Return r, q)
  | Fault => (Fault, q)
  end.

Definition exec := run step weak inspect.
Definition exec_ops := run_ops start step weak inspect.

(** *** The shape of the queue

    [L] lists every node that was ever linked, the first dummy node first;
    [head] is its [i]-th node and [tail] its [j]-th. *)

Definition chained (h : heap) (L : list nat) : Prop :=
  ∀ k a, L !! k = Some a → ∃ nd, load h a = Some nd ∧ next nd = L !! S k.

Record shape (q : msqueue) (L : list nat) (i j : nat) : Prop := Shape {
  shape_nodup : NoDup L;
  shape_chain : chained (nodes q) L;
  shape_head : head q = L !! i;
  shape_tail : tail q = L !! j;
  shape_le : (i ≤ j)%nat;
  shape_lt : (j < length L)%nat;
  shape_lag : (length L ≤ j + 2)%nat;
}.

(** The values held by the nodes [l]. *)
Definition values (h : heap) (l : list nat) (vs : list Z) : Prop :=
  Forall2 (λ a v, value <$> load h a = Some v) l vs.

(** The queue holds [vs]: the values of the nodes that follow [head]. *)
Definition holds (q : msqueue) (vs : list Z) : Prop :=
  ∃ L i j, shape q L i j ∧ values (nodes q) (drop (S i) L) vs.

Lemma shape_head_Some q L i j : shape q L i j → ∃ a, head q = Some a ∧ L !! i = Some a.
Proof.
  intros [].
  destruct (lookup_lt_is_Some_2 L i) as [a Ha]; [lia|]. exists a. by rewrite <- Ha.
Qed.

Lemma shape_tail_Some q L i j : shape q L i j → ∃ a, tail q = Some a ∧ L !! j = Some a.
Proof.
  intros [].
  destruct (lookup_lt_is_Some_2 L j) as [a Ha]; [lia|]. exists a. by rewrite <- Ha.
Qed.

Lemma chained_lt h L k a : chained h L → L !! k = Some a → (a < length h)%nat.
Proof. intros Hc Hk. destruct (Hc k a Hk) as (nd & Hnd & _). by eapply load_lt. Qed.

(** Allocation leaves the shape alone. *)
Lemma shape_alloc q L i j x :
  shape q L i j → shape (Queue (nodes q ++ [x]) (head q) (tail q)) L i j.
Proof.
  intros []. split; simpl; try done.
  intros k a Hk. destruct (shape_chain0 k a Hk) as (nd & Hnd & Hnx).
  exists nd. split; [|done]. rewrite load_app_old; [done|]. by eapply load_lt.
Qed.

(** A successful [last->next.compare_exchange_weak(nullptr, n)] appends the
    private node [n] to the list. *)
Lemma shape_link q L i j k l nd n v :
  shape q L i j → L !! k = Some l → (k ≤ j)%nat →
  load (nodes q) l = Some nd → next nd = None →
  n ∉ L → load (nodes q) n = Some (Node v None) →
  shape (Queue (<[l := Some (Node (value nd) (Some n))]> (nodes q)) (head q) (tail q))
        (L ++ [n]) i j
  ∧ S k = length L.
Proof.
  intros [] Hk Hkj Hl Hnx Hn Hv.
  destruct (shape_chain0 k l Hk) as (nd' & Hnd' & Hnx').
  rewrite Hl in Hnd'. injection Hnd' as <-. rewrite Hnx in Hnx'.
  symmetry in Hnx'. apply lookup_ge_None in Hnx'.
  assert (S k = length L) as Hlen by lia.
  split; [|done]. split; simpl.
  - apply NoDup_app. split; [done|]. split; [|apply NoDup_singleton].
    intros x Hx ->%list_elem_of_singleton. done.
  - intros m a Hm. apply lookup_snoc_Some in Hm as [[Hlt Hm]|[-> <-]].
    + destruct (decide (a = l)) as [->|Hne].
      * assert (m = k) as -> by (by eapply NoDup_lookup).
        eexists. split; [apply load_insert_eq; by eapply load_lt|]. simpl.
        rewrite Hlen. symmetry. by apply list_lookup_middle.
      * destruct (shape_chain0 m a Hm) as (nd2 & Hnd2 & Hnx2).
        exists nd2. split; [by rewrite load_insert_ne|]. rewrite Hnx2.
        assert (m ≠ k) by (intros ->; congruence).
        rewrite lookup_app_l by lia. done.
    + assert (n ≠ l) by (intros ->; apply Hn; by eapply list_elem_of_lookup_2).
      exists (Node v None). split; [by rewrite load_insert_ne|]. simpl.
      symmetry. apply lookup_ge_None. rewrite length_app; simpl. lia.
  - rewrite lookup_app_l by lia. done.
  - rewrite lookup_app_l by lia. done.
  - done.
  - rewrite length_app; simpl; lia.
  - rewrite length_app; simpl; lia.
Qed.

(** A successful compare-and-swap on [tail] moves it one node forward. *)
Lemma shape_swing_tail q L i j :
  shape q L i j → (S j < length L)%nat →
  shape (Queue (nodes q) (head q) (L !! S j)) L i (S j).
Proof. intros [] Hj. split; simpl; try done; lia. Qed.

(** A successful compare-and-swap on [head] moves it one node forward. *)
Lemma shape_swing_head q L i j :
  shape q L i j → (i < j)%nat →
  shape (Queue (nodes q) (L !! S i) (tail q)) L (S i) j.
Proof. intros [] Hj. split; simpl; try done; lia. Qed.

Lemma values_frame h h' l vs :
  values h l vs →
  (∀ a, (a < length h)%nat → value <$> load h' a = value <$> load h a) →
  values h' l vs.
Proof.
  intros Hv Hf. eapply Forall2_impl; [exact Hv|]. simpl. intros a v Ha.
  rewrite Hf; [done|]. destruct (load h a) eqn:E; [|done]. by eapply load_lt.
Qed.

Lemma value_load_insert (h : heap) l nd p a :
  load h l = Some nd →
  value <$> load (<[l := Some (Node (value nd) p)]> h) a = value <$> load h a.
Proof.
  intros Hl. destruct (decide (l = a)) as [<-|Hne].
  - rewrite load_insert_eq by (by eapply load_lt). by rewrite Hl.
  - by rewrite load_insert_ne.
Qed.

Ltac qtick :=
  lazymatch goal with
  | |- context [run _ _ _ (S _) _ _ _] =>
      rewrite run_unfold by reflexivity
  | |- context [run _ _ _ ?fuel _ _ _] =>
      let f := fresh "fuel" in
      destruct fuel as [|f]; [simpl in *; lia|];
      rewrite run_unfold by reflexivity
  end;
  cbn [step weak fst snd nodes head tail mbind option_bind hd tl].

(** The last step of [enqueue]: whether or not [tail] is swung to the new
    node, the call returns. *)
Lemma enq_finish o q L i j n vs fuel :
  shape q L i j → L !! S j = Some n →
  values (nodes q) (drop (S i) L) vs →
  (1 ≤ fuel)%nat →
  ∃ q' o', exec fuel o (Enq_swing n (tail q)) q = Finished Void q' o'
           ∧ holds q' vs ∧ (length o' ≤ length o)%nat.
Proof.
  unfold exec. intros Hs Hn Hvs Hfuel. qtick.
  assert (length (tl o) ≤ length o)%nat by (destruct o; simpl; lia).
  destruct (cas_weak _ _ _); cbn [fst snd]; erewrite run_done by reflexivity;
    eexists _, _; (split; [done|]); (split; [|done]).
  - exists L, i, (S j). split; [|done]. rewrite <- Hn.
    apply (shape_swing_tail q); [done|]. by eapply lookup_lt_Some.
  - exists L, i, j. by destruct q.
Qed.

Lemma link_holds q L i j t nd n v vs :
  shape q L i j → S j = length L → L !! j = Some t →
  load (nodes q) t = Some nd → next nd = None →
  n ∉ L → load (nodes q) n = Some (Node v None) →
  values (nodes q) (drop (S i) L) vs →
  let q1 := Queue (<[t := Some (Node (value nd) (Some n))]> (nodes q))
                  (head q) (tail q) in
  shape q1 (L ++ [n]) i j ∧ (L ++ [n]) !! S j = Some n
  ∧ values (nodes q1) (drop (S i) (L ++ [n])) (vs ++ [v]).
Proof.
  intros Hs Hj Ht Hnd Hnx Hn Hv Hvs q1.
  pose proof (shape_le _ _ _ _ Hs) as Hle.
  destruct (shape_link _ _ _ _ j t nd n v Hs Ht) as [Hs' _]; try done.
  split; [done|]. split; [rewrite Hj; by apply list_lookup_middle|].
  rewrite drop_app_le by lia. apply Forall2_app.
  - eapply values_frame; [done|]. intros a _. by apply value_load_insert.
  - constructor; [|constructor]. cbn [nodes q1].
    rewrite value_load_insert by done. by rewrite Hv.
Qed.

(** The loop of [enqueue] when [tail] is the last node. *)
Lemma enq_loop_end o : ∀ q L i j n v vs fuel,
  shape q L i j → S j = length L → n ∉ L →
  load (nodes q) n = Some (Node v None) →
  values (nodes q) (drop (S i) L) vs →
  (5 * length o + 5 ≤ fuel)%nat →
  ∃ q' o', exec fuel o (Enq_tail n) q = Finished Void q' o'
           ∧ holds q' (vs ++ [v]) ∧ (length o' ≤ length o)%nat.
Proof.
  unfold exec.
  induction o as [|b o IH]; intros q L i j n v vs fuel Hs Hj Hn Hv Hvs Hfuel;
    destruct (shape_tail_Some _ _ _ _ Hs) as (t & Ht & HLt);
    destruct (shape_chain _ _ _ _ Hs j t HLt) as (nd & Hnd & Hnx);
    rewrite (lookup_ge_None_2 L (S j)) in Hnx by lia;
    destruct (link_holds _ _ _ _ _ _ _ _ _ Hs Hj HLt Hnd Hnx Hn Hv Hvs)
      as (Hs1 & Hn1 & Hvs1);
    destruct q as [h hp tp]; cbn [nodes head tail length] in *; subst tp;
    qtick; qtick; rewrite Hnd; cbn [fst snd]; qtick;
    rewrite decide_True by done; rewrite Hnx; cbn [fst snd]; qtick;
    rewrite Hnd, Hnx, cas_weak_same; try destruct b; cbn [negb fst snd].
  - match goal with |- context [run _ _ _ ?f ?o' (Enq_swing _ _) _] =>
      destruct (enq_finish o' _ _ _ _ _ _ f Hs1 Hn1 Hvs1)
        as (q' & o2 & Hrun & Hh & Hlen); [lia|] end.
    unfold exec in Hrun; cbn [tail] in Hrun; rewrite Hrun. eauto.
  - match goal with |- context [run _ _ _ ?f _ _ _] =>
      destruct (IH (Queue h hp (Some t)) L i j n v vs f)
        as (q' & o2 & Hrun & Hh & Hlen) end; try done; [lia|].
    rewrite Hrun. eexists _, _. split; [done|]. split; [done|]. lia.
  - match goal with |- context [run _ _ _ ?f ?o' (Enq_swing _ _) _] =>
      destruct (enq_finish o' _ _ _ _ _ _ f Hs1 Hn1 Hvs1)
        as (q' & o2 & Hrun & Hh & Hlen); [lia|] end.
    unfold exec in Hrun; cbn [tail] in Hrun; rewrite Hrun.
    eexists _, _. split; [done|]. split; [done|]. lia.
Qed.

(** The loop of [enqueue] from any state: a lagging [tail] is helped forward
    first. *)
Lemma enq_loop o : ∀ q L i j n v vs fuel,
  shape q L i j → n ∉ L →
  load (nodes q) n = Some (Node v None) →
  values (nodes q) (drop (S i) L) vs →
  (5 * length o + 9 ≤ fuel)%nat →
  ∃ q' o', exec fuel o (Enq_tail n) q = Finished Void q' o'
           ∧ holds q' (vs ++ [v]) ∧ (length o' ≤ length o)%nat.
Proof.
  induction o as [|b o IH]; intros q L i j n v vs fuel Hs Hn Hv Hvs Hfuel;
    pose proof (shape_lt _ _ _ _ Hs) as Hlt;
    pose proof (shape_lag _ _ _ _ Hs) as Hlag;
    (destruct (decide (S j = length L)) as [Hj|Hj];
     [eapply enq_loop_end; eauto; cbn [length] in *; lia|]);
    destruct (shape_tail_Some _ _ _ _ Hs) as (t & Ht & HLt);
    destruct (shape_chain _ _ _ _ Hs j t HLt) as (nd & Hnd & Hnx);
    destruct (lookup_lt_is_Some_2 L (S j)) as [t' Ht']; [lia| |lia|];
    pose proof (shape_swing_tail _ _ _ _ Hs ltac:(lia)) as Hs2;
    rewrite Ht' in Hnx, Hs2;
    destruct q as [h hp tp]; cbn [nodes head tail length] in *; subst tp;
    unfold exec; qtick; qtick; rewrite Hnd; cbn [fst snd]; qtick;
    rewrite decide_True by done; rewrite Hnx; cbn [fst snd]; qtick;
    rewrite cas_weak_same; try destruct b; cbn [negb fst snd].
  - match goal with |- context [run _ _ _ ?f ?o' _ ?q1] =>
      apply (enq_loop_end o' q1 L i (S j)) end; try done; cbn [length]; lia.
  - match goal with |- context [run _ _ _ ?f _ _ _] =>
      destruct (IH (Queue h hp (Some t)) L i j n v vs f)
        as (q' & o2 & Hrun & Hh & Hlen) end; try done; [lia|].
    unfold exec in Hrun. rewrite Hrun.
    eexists _, _. split; [done|]. split; [done|]. lia.
  - match goal with |- context [run _ _ _ ?f ?o' _ ?q1] =>
      destruct (enq_loop_end o' q1 L i (S j) n v vs f)
        as (q' & o2 & Hrun & Hh & Hlen) end; try done; [lia..|].
    unfold exec in Hrun. rewrite Hrun.
    eexists _, _. split; [done|]. split; [done|]. lia.
Qed.

Lemma enq_refines s vs v o fuel :
  holds s vs → (5 * length o + 10 ≤ fuel)%nat →
  ∃ s' o', exec fuel o (Enq_new v) s = Finished Void s' o'
           ∧ holds s' (vs ++ [v]) ∧ (length o' ≤ length o)%nat.
Proof.
  intros (L & i & j & Hs & Hvs) Hfuel. unfold exec. qtick. cbn [alloc fst snd].
  apply (enq_loop o _ L i j).
  - by apply shape_alloc.
  - intros [k Hk]%list_elem_of_lookup_1.
    pose proof (chained_lt _ _ _ _ (shape_chain _ _ _ _ Hs) Hk). lia.
  - apply load_app_new.
  - eapply values_frame; [done|]. intros a Ha. cbn [nodes].
    by rewrite load_app_old.
  - lia.
Qed.


(** The loop of [dequeue] when [tail] is ahead of [head]. *)
Lemma deq_loop_front o : ∀ q L i j a nd fuel,
  shape q L i j → (i < j)%nat →
  L !! S i = Some a → load (nodes q) a = Some nd →
  (6 * length o + 6 ≤ fuel)%nat →
  ∃ q' o', exec fuel o Deq_head q = Finished (Int (value nd)) q' o'
           ∧ shape q' L (S i) j ∧ nodes q' = nodes q
           ∧ (length o' ≤ length o)%nat.
Proof.
  unfold exec.
  induction o as [|b o IH]; intros q L i j a nd fuel Hs Hij Ha Hnd Hfuel;
    destruct (shape_head_Some _ _ _ _ Hs) as (f & Hf & HLf);
    destruct (shape_tail_Some _ _ _ _ Hs) as (t & Ht & HLt);
    destruct (shape_chain _ _ _ _ Hs i f HLf) as (ndf & Hndf & Hnx);
    pose proof (shape_swing_head _ _ _ _ Hs Hij) as Hs2;
    rewrite Ha in Hnx, Hs2;
    assert (f ≠ t) as Hft
      by (intros ->;
          pose proof (NoDup_lookup _ _ _ _ (shape_nodup _ _ _ _ Hs) HLf HLt); lia);
    destruct q as [h hp tp]; cbn [nodes head tail length] in *; subst hp tp;
    qtick; qtick; qtick; rewrite Hndf, Hnx; cbn [fst snd]; qtick;
    rewrite decide_True by done; rewrite decide_False by congruence;
    cbn [fst snd]; qtick; rewrite Hnd; cbn [fst snd]; qtick;
    rewrite cas_weak_same; try destruct b; cbn [negb fst snd].
  - erewrite run_done by reflexivity. eauto 10.
  - match goal with |- context [run _ _ _ ?f' _ _ _] =>
      destruct (IH (Queue h (Some f) (Some t)) L i j a nd f')
        as (q' & o2 & Hrun & Hh & Hlen) end; try done; [lia|].
    rewrite Hrun. eexists _, _. split; [done|]. split; [done|]. split; [tauto|]. lia.
  - erewrite run_done by reflexivity.
    eexists _, _. split; [done|]. split; [done|]. split; [done|]. lia.
Qed.

Lemma values_nil_inv h l : values h l [] → l = [].
Proof. by intros ->%Forall2_nil_inv_r. Qed.

Lemma values_cons_inv h L k v vs :
  values h (drop k L) (v :: vs) →
  ∃ a nd, L !! k = Some a ∧ load h a = Some nd ∧ value nd = v
          ∧ values h (drop (S k) L) vs.
Proof.
  intros (a & l' & Ha & Hl' & Hd)%Forall2_cons_inv_r.
  assert (L !! k = Some a) as Hk.
  { rewrite <- (Nat.add_0_r k), <- lookup_drop, Hd. done. }
  rewrite (drop_S _ _ _ Hk) in Hd. injection Hd as <-.
  destruct (load h a) as [nd|] eqn:E; [|done]. injection Ha as <-.
  exists a, nd. done.
Qed.

(** The loop of [dequeue] from any state. *)
Lemma deq_refines o : ∀ q vs fuel,
  holds q vs → (6 * length o + 11 ≤ fuel)%nat →
  ∃ q' o', exec fuel o Deq_head q = Finished (fst (queue_spec Dequeue vs)) q' o'
           ∧ holds q' (snd (queue_spec Dequeue vs))
           ∧ (length o' ≤ length o)%nat.
Proof.
  induction o as [|b o IH]; intros q [|v vs] fuel (L & i & j & Hs & Hvs) Hfuel;
    cbn [queue_spec fst snd];
    pose proof (shape_le _ _ _ _ Hs) as Hle;
    pose proof (shape_lt _ _ _ _ Hs) as Hlt;
    pose proof (shape_lag _ _ _ _ Hs) as Hlag;
    destruct (shape_head_Some _ _ _ _ Hs) as (f & Hf & HLf);
    destruct (shape_tail_Some _ _ _ _ Hs) as (t & Ht & HLt);
    destruct (shape_chain _ _ _ _ Hs i f HLf) as (ndf & Hndf & Hnx).
  1,3: apply values_nil_inv, drop_nil_inv in Hvs;
       assert (i = j) as -> by lia;
       rewrite (lookup_ge_None_2 L (S j)) in Hnx by lia;
       assert (f = t) as -> by congruence;
       destruct q as [h hp tp]; cbn [nodes head tail length] in *; subst hp tp;
       unfold exec; qtick; qtick; qtick; rewrite Hndf; cbn [fst snd]; qtick;
       rewrite !decide_True by done; rewrite Hnx; cbn [fst snd];
       erewrite run_done by reflexivity;
       eexists _, _; (split; [done|]); (split; [|done]);
       exists L, j, j; (split; [done|]);
       rewrite drop_ge by lia; constructor.
  all: destruct (values_cons_inv _ _ _ _ _ Hvs) as (a & nd & Ha & Hnd & <- & Hvs');
       (destruct (decide (i < j)%nat) as [Hij|Hij];
        [ match goal with |- context [exec _ ?o' _ _] =>
            destruct (deq_loop_front o' q L i j a nd fuel Hs Hij Ha Hnd)
              as (q' & o2 & Hrun & Hs' & Hnodes & Hlen) end;
          [cbn [length] in *; lia|];
          exists q', o2; split; [done|]; split; [|done];
          exists L, (S i), j; split; [done|]; by rewrite Hnodes |]);
       assert (i = j) as -> by lia;
       assert (f = t) as -> by congruence;
       pose proof (shape_swing_tail _ _ _ _ Hs ltac:(by eapply lookup_lt_Some)) as Hs2;
       rewrite Ha in Hnx, Hs2;
       destruct q as [h hp tp]; cbn [nodes head tail length] in *; subst hp tp;
       unfold exec; qtick; qtick; qtick; rewrite Hndf; cbn [fst snd]; qtick;
       rewrite !decide_True by done; rewrite Hnx; cbn [fst snd]; qtick;
       rewrite cas_weak_same; try destruct b; cbn [negb fst snd].
  1,3: match goal with |- context [run _ _ _ ?f' ?o' _ ?q1] =>
         destruct (deq_loop_front o' q1 L j (S j) a nd f' Hs2 ltac:(lia) Ha Hnd)
           as (q' & o2 & Hrun & Hs' & Hnodes & Hlen) end;
       [cbn [length] in *; lia|];
       unfold exec in Hrun; rewrite Hrun;
       exists q', o2; (split; [done|]); (split; [|cbn [length] in *; lia]);
       exists L, (S j), (S j); (split; [done|]); by rewrite Hnodes.
  match goal with |- context [run _ _ _ ?f' _ _ _] =>
    destruct (IH (Queue h (Some t) (Some t)) (value nd :: vs) f')
      as (q' & o2 & Hrun & Hh & Hlen) end.
  { by exists L, j, j. }
  { lia. }
  unfold exec in Hrun. rewrite Hrun.
  eexists _, _. split; [done|]. split; [done|]. lia.
Qed.

(** Sequential refinement: a single-threaded program on a Michael-Scott queue
    returns what the same program returns on a list. *)
Lemma queue_call_refines op s vs o fuel :
  holds s vs → (6 * length o + 11 ≤ fuel)%nat →
  ∃ s' o', exec fuel o (start op) s = Finished (fst (queue_spec op vs)) s' o'
           ∧ holds s' (snd (queue_spec op vs)) ∧ (length o' ≤ length o)%nat.
Proof.
  intros Hh Hfuel. destruct op as [v|].
  - apply enq_refines; [done|lia].
  - by apply deq_refines.
Qed.

Lemma shape_new : shape new [0%nat] 0 0.
Proof.
  split; simpl; try done; try lia.
  - apply NoDup_singleton.
  - intros [|k] a Hk; [|done]. injection Hk as <-. by eexists.
Qed.

Lemma queue_holds_new : holds new [].
Proof. exists [0%nat], 0%nat, 0%nat. split; [apply shape_new|constructor]. Qed.


(** *** Concurrent executions

    What a thread knows about its locals at each control point, in a queue
    of shape [L], [i], [j]. *)

(** The node a thread has allocated and not linked yet. *)
Definition owned (p : pc) : option nat :=
  match p with
  | Enq_tail n | Enq_next n _ | Enq_check n _ _ | Enq_link n _ _
  | Enq_help n _ _ => Some n
  | _ => None
  end.

Definition private (h : heap) (L : list nat) (n : nat) : Prop :=
  (n ∉ L) ∧ (∃ v, load h n = Some (Node v None)).

Definition local_ok (L : list nat) (i j : nat) (p : pc) : Prop :=
  match p with
  | Enq_new _ | Enq_tail _ | Deq_head | Return _ => True
  | Fault => False
  | Enq_next _ last => ∃ k, last = L !! k ∧ (k ≤ j)%nat
  | Enq_check _ last nxt =>
      ∃ k, last = L !! k ∧ (k ≤ j)%nat ∧ (nxt = None ∨ nxt = L !! S k)
  | Enq_link _ last nxt => ∃ k, last = L !! k ∧ (k ≤ j)%nat ∧ nxt = None
  | Enq_swing n last => ∃ k, last = L !! k ∧ L !! S k = Some n
  | Enq_help _ last nxt | Deq_help last nxt =>
      ∃ k a, last = L !! k ∧ nxt = Some a ∧ L !! S k = Some a
  | Deq_tail first => ∃ k, first = L !! k ∧ (k ≤ i)%nat
  | Deq_next first last =>
      ∃ k m, first = L !! k ∧ last = L !! m ∧ (k ≤ i)%nat ∧ (k ≤ m)%nat ∧ (m ≤ j)%nat
  | Deq_check first last nxt =>
      ∃ k m, first = L !! k ∧ last = L !! m ∧ (k ≤ i)%nat ∧ (k ≤ m)%nat ∧ (m ≤ j)%nat
             ∧ ((nxt = None ∧ k = m) ∨ (∃ a, nxt = Some a ∧ L !! S k = Some a))
  | Deq_value first nxt | Deq_swing first nxt _ =>
      ∃ k a, first = L !! k ∧ nxt = Some a ∧ L !! S k = Some a ∧ (S k ≤ j)%nat
  end.

Abbreviation conf := (@config pc msqueue).

(** The invariant of concurrent executions. *)
Definition inv (c : conf) : Prop :=
  ∃ L i j,
    shape (shared c) L i j
    ∧ (∀ t p, threads c !! t = Some p →
         local_ok L i j p
         ∧ ∀ n, owned p = Some n → private (nodes (shared c)) L n)
    ∧ (∀ t1 t2 p1 p2 n,
         threads c !! t1 = Some p1 → threads c !! t2 = Some p2 →
         owned p1 = Some n → owned p2 = Some n → t1 = t2).

Lemma lookup_ext {A} (L ext : list A) k (j : nat) :
  (k ≤ j)%nat → (j < length L)%nat → (L ++ ext) !! k = L !! k.
Proof. intros. apply lookup_app_l. lia. Qed.

(** Knowledge stays valid when nodes are appended and [head] and [tail] move
    forward. *)
Lemma local_ok_mono L ext i i' j j' p :
  local_ok L i j p → (i ≤ i')%nat → (j ≤ j')%nat → (i ≤ j)%nat →
  (j < length L)%nat →
  local_ok (L ++ ext) i' j' p.
Proof.
  intros Hp Hi Hj Hij Hlt. destruct p; simpl in *; try done.
  - destruct Hp as (k & -> & Hk). exists k.
    rewrite (lookup_ext _ _ k j) by done. split; [done|lia].
  - destruct Hp as (k & -> & Hk & Hn). exists k.
    rewrite (lookup_ext _ _ k j) by done. split; [done|]. split; [lia|].
    destruct Hn as [->| ->]; [by left|].
    destruct (L !! S k) eqn:E; [|by left]. right.
    symmetry. by apply lookup_app_l_Some.
  - destruct Hp as (k & -> & Hk & Hn). exists k.
    rewrite (lookup_ext _ _ k j) by done. split; [done|]. split; [lia|done].
  - destruct Hp as (k & -> & Hn). exists k.
    pose proof (lookup_lt_Some _ _ _ Hn).
    rewrite lookup_app_l by lia. split; [done|]. by apply lookup_app_l_Some.
  - destruct Hp as (k & a & -> & -> & Hn). exists k, a.
    pose proof (lookup_lt_Some _ _ _ Hn).
    rewrite lookup_app_l by lia. split; [done|]. split; [done|].
    by apply lookup_app_l_Some.
  - destruct Hp as (k & -> & Hk). exists k.
    rewrite (lookup_ext _ _ k j) by lia. split; [done|lia].
  - destruct Hp as (k & m & -> & -> & ? & ? & ?). exists k, m.
    rewrite (lookup_ext _ _ k j), (lookup_ext _ _ m j) by lia.
    repeat split; try done; lia.
  - destruct Hp as (k & m & -> & -> & ? & ? & ? & Hn). exists k, m.
    rewrite (lookup_ext _ _ k j), (lookup_ext _ _ m j) by lia.
    repeat split; try done; try lia.
    destruct Hn as [?|(a & -> & Ha)]; [by left|]. right. exists a.
    split; [done|]. by apply lookup_app_l_Some.
  - destruct Hp as (k & a & -> & -> & Hn). exists k, a.
    pose proof (lookup_lt_Some _ _ _ Hn).
    rewrite lookup_app_l by lia. split; [done|]. split; [done|].
    by apply lookup_app_l_Some.
  - destruct Hp as (k & a & -> & -> & Hn & ?). exists k, a.
    rewrite (lookup_ext _ _ k j) by lia. split; [done|]. split; [done|].
    split; [by apply lookup_app_l_Some|lia].
  - destruct Hp as (k & a & -> & -> & Hn & ?). exists k, a.
    rewrite (lookup_ext _ _ k j) by lia. split; [done|]. split; [done|].
    split; [by apply lookup_app_l_Some|lia].
Qed.


(** What one transition of a thread preserves: the shape (possibly one node
    longer, with [head] or [tail] one node further), the knowledge of the
    thread, and the private nodes of the other threads. *)
Definition step_ok (p p' : pc) (q q' : msqueue) (L : list nat) (i j : nat) : Prop :=
  ∃ ext i' j',
    shape q' (L ++ ext) i' j' ∧ local_ok (L ++ ext) i' j' p'
    ∧ (i ≤ i')%nat ∧ (j ≤ j')%nat
    ∧ (∀ n, owned p' = Some n → private (nodes q') (L ++ ext) n)
    ∧ (∀ n, owned p' = Some n → owned p = Some n ∨ (length (nodes q) ≤ n)%nat)
    ∧ (∀ n, private (nodes q) L n → owned p ≠ Some n →
            private (nodes q') (L ++ ext) n).

(** A transition that changes nothing in shared memory. *)
Lemma step_ok_stay p p' q L i j :
  shape q L i j → local_ok L i j p' →
  (∀ n, owned p = Some n → private (nodes q) L n) →
  (owned p' = owned p ∨ owned p' = None) →
  step_ok p p' q q L i j.
Proof.
  intros Hs Hl Hpriv Hown. exists [], i, j. rewrite app_nil_r.
  split; [done|]. split; [done|]. split; [done|]. split; [done|].
  split; [|split]; try done.
  - intros n Hn. apply Hpriv. destruct Hown as [<-|Hnone]; congruence.
  - intros n Hn. left. destruct Hown as [<-|Hnone]; congruence.
Qed.

(** A transition that moves [head] or [tail] forward. *)
Lemma step_ok_move p p' q q' L i j i' j' :
  shape q' L i' j' → local_ok L i' j' p' →
  nodes q' = nodes q → (i ≤ i')%nat → (j ≤ j')%nat →
  (∀ n, owned p = Some n → private (nodes q) L n) →
  (owned p' = owned p ∨ owned p' = None) →
  step_ok p p' q q' L i j.
Proof.
  intros Hs Hl Hn Hi Hj Hpriv Hown. exists [], i', j'. rewrite app_nil_r, Hn.
  split; [done|]. split; [done|]. split; [done|]. split; [done|].
  split; [|split]; try done.
  - intros n Hn'. apply Hpriv. destruct Hown as [<-|Hnone]; congruence.
  - intros n Hn'. left. destruct Hown as [<-|Hnone]; congruence.
Qed.

Lemma lookup_inj_nodup (L : list nat) k m :
  NoDup L → (k < length L)%nat → L !! k = L !! m → k = m.
Proof.
  intros Hnd Hk Heq. destruct (lookup_lt_is_Some_2 L k Hk) as [a Ha].
  eapply NoDup_lookup; [done|done|]. by rewrite <- Heq.
Qed.

Lemma thread_step_ok b p q p' q' L i j :
  shape q L i j → local_ok L i j p →
  (∀ n, owned p = Some n → private (nodes q) L n) →
  step b p q = (p', q') →
  step_ok p p' q q' L i j.
Proof.
  intros Hs Hl Hpriv Hstep.
  pose proof (shape_le _ _ _ _ Hs) as Hle.
  pose proof (shape_lt _ _ _ _ Hs) as Hlt.
  pose proof (shape_lag _ _ _ _ Hs) as Hlag.
  pose proof (shape_nodup _ _ _ _ Hs) as Hnd.
  pose proof (shape_head _ _ _ _ Hs) as Hhd.
  pose proof (shape_tail _ _ _ _ Hs) as Htl.
  destruct p; cbn [step local_ok] in *.
  - (* Enq_new *)
    injection Hstep as <- <-.
    exists [], i, j. rewrite app_nil_r. cbn [nodes owned local_ok].
    split; [by apply shape_alloc|]. split; [done|]. split; [done|]. split; [done|].
    split; [|split].
    + intros n [= <-]. split.
      * intros [k Hk]%list_elem_of_lookup_1.
        pose proof (chained_lt _ _ _ _ (shape_chain _ _ _ _ Hs) Hk). lia.
      * exists v. apply load_app_new.
    + intros n [= <-]. by right.
    + intros n [Hn (v' & Hv')] _. split; [done|]. exists v'.
      rewrite load_app_old; [done|]. by eapply load_lt.
  - (* Enq_tail *)
    injection Hstep as <- <-. apply step_ok_stay; try done; [|by left].
    exists j. done.
  - (* Enq_next *)
    destruct Hl as (k & -> & Hk).
    destruct (lookup_lt_is_Some_2 L k) as [a Ha]; [lia|].
    destruct (shape_chain _ _ _ _ Hs k a Ha) as (nd & Hnd' & Hnx).
    rewrite Ha in Hstep. cbn [mbind option_bind] in Hstep. rewrite Hnd' in Hstep.
    injection Hstep as <- <-. apply step_ok_stay; try done; [|by left].
    exists k. rewrite Ha. split; [done|]. split; [done|]. by right.
  - (* Enq_check *)
    destruct Hl as (k & -> & Hk & Hn).
    case_decide as Heq; [destruct nxt as [a|]|];
      injection Hstep as <- <-; apply step_ok_stay; try done; try by left.
    + destruct Hn as [?|Hn]; [done|]. exists k, a. done.
    + exists k. done.
  - (* Enq_link *)
    destruct Hl as (k & -> & Hk & ->).
    destruct (lookup_lt_is_Some_2 L k) as [a Ha]; [lia|].
    destruct (shape_chain _ _ _ _ Hs k a Ha) as (nd & Hnd' & Hnx).
    rewrite Ha in Hstep. rewrite Hnd' in Hstep.
    destruct (cas_weak _ _ _) eqn:Hcas; injection Hstep as <- <-.
    + apply cas_weak_true in Hcas.
      destruct (Hpriv n eq_refl) as (Hn & v & Hv).
      destruct (shape_link _ _ _ _ k a nd n v Hs Ha Hk Hnd' Hcas Hn Hv)
        as [Hs' Hlen].
      exists [n], i, j. cbn [nodes owned local_ok].
      split; [done|]. split.
      { exists k. rewrite lookup_app_l by lia. split; [done|].
        rewrite Hlen. by apply list_lookup_middle. }
      split; [done|]. split; [done|]. split; [done|]. split; [done|].
      intros n' [Hn' (v' & Hv')] Hne. split.
      * intros [?|?%list_elem_of_singleton]%elem_of_app; [done|congruence].
      * exists v'. rewrite load_insert_ne; [done|].
        intros <-. apply Hn'. by eapply list_elem_of_lookup_2.
    + apply step_ok_stay; try done. by left.
  - (* Enq_swing *)
    destruct Hl as (k & -> & Hn). pose proof (lookup_lt_Some _ _ _ Hn).
    destruct (cas_weak _ _ _) eqn:Hcas; injection Hstep as <- <-.
    + apply cas_weak_true in Hcas. rewrite Htl in Hcas.
      apply lookup_inj_nodup in Hcas; [|done..]. subst k.
      eapply step_ok_move with (i' := i) (j' := S j); try done; try lia; [|by left].
      rewrite <- Hn. apply (shape_swing_tail q); [done|lia].
    + apply step_ok_stay; try done. by left.
  - (* Enq_help *)
    destruct Hl as (k & a & -> & -> & Hn). pose proof (lookup_lt_Some _ _ _ Hn).
    destruct (cas_weak _ _ _) eqn:Hcas; injection Hstep as <- <-.
    + apply cas_weak_true in Hcas. rewrite Htl in Hcas.
      apply lookup_inj_nodup in Hcas; [|done..]. subst k.
      eapply step_ok_move with (i' := i) (j' := S j); try done; try lia; [|by left].
      rewrite <- Hn. apply (shape_swing_tail q); [done|lia].
    + apply step_ok_stay; try done. by left.
  - (* Deq_head *)
    injection Hstep as <- <-. apply step_ok_stay; try done; [|by left].
    exists i. done.
  - (* Deq_tail *)
    destruct Hl as (k & -> & Hk).
    injection Hstep as <- <-. apply step_ok_stay; try done; [|by left].
    exists k, j. repeat split; try done; lia.
  - (* Deq_next *)
    destruct Hl as (k & m & -> & -> & Hk & Hkm & Hm).
    destruct (lookup_lt_is_Some_2 L k) as [a Ha]; [lia|].
    destruct (shape_chain _ _ _ _ Hs k a Ha) as (nd & Hnd' & Hnx).
    rewrite Ha in Hstep. cbn [mbind option_bind] in Hstep. rewrite Hnd' in Hstep.
    injection Hstep as <- <-. apply step_ok_stay; try done; [|by left].
    exists k, m. rewrite Ha. repeat split; try done.
    rewrite Hnx. destruct (L !! S k) as [a'|] eqn:E; [right; eauto|left].
    split; [done|]. apply lookup_ge_None in E. lia.
  - (* Deq_check *)
    destruct Hl as (k & m & -> & -> & Hk & Hkm & Hm & Hn).
    case_decide as Heq; [case_decide as Heq2; [destruct nxt as [a|]|]|];
      injection Hstep as <- <-; apply step_ok_stay; try done; try by left.
    + destruct Hn as [[? _]|(a' & [= <-] & Ha)]; [done|].
      apply lookup_inj_nodup in Heq2; [|done|lia]. subst m.
      exists k, a. done.
    + destruct Hn as [[_ ->]|(a & -> & Ha)]; [done|].
      exists k, a. repeat split; try done.
      assert (k ≠ m) by congruence. lia.
  - (* Deq_help *)
    destruct Hl as (k & a & -> & -> & Hn). pose proof (lookup_lt_Some _ _ _ Hn).
    destruct (cas_weak _ _ _) eqn:Hcas; injection Hstep as <- <-.
    + apply cas_weak_true in Hcas. rewrite Htl in Hcas.
      apply lookup_inj_nodup in Hcas; [|done..]. subst k.
      eapply step_ok_move with (i' := i) (j' := S j); try done; try lia; [|by left].
      rewrite <- Hn. apply (shape_swing_tail q); [done|lia].
    + apply step_ok_stay; try done. by left.
  - (* Deq_value *)
    destruct Hl as (k & a & -> & -> & Hn & Hk).
    destruct (shape_chain _ _ _ _ Hs (S k) a Hn) as (nd & Hnd' & Hnx).
    cbn [mbind option_bind] in Hstep. rewrite Hnd' in Hstep.
    injection Hstep as <- <-. apply step_ok_stay; try done; [|by left].
    exists k, a. done.
  - (* Deq_swing *)
    destruct Hl as (k & a & -> & -> & Hn & Hk).
    destruct (cas_weak _ _ _) eqn:Hcas; injection Hstep as <- <-.
    + apply cas_weak_true in Hcas. rewrite Hhd in Hcas.
      apply lookup_inj_nodup in Hcas; [|done|lia]. subst k.
      eapply step_ok_move with (i' := S i) (j' := j); try done; try lia; [|by left].
      rewrite <- Hn. apply (shape_swing_head q); [done|lia].
    + apply step_ok_stay; try done. by left.
  - (* Return *)
    injection Hstep as <- <-. apply step_ok_stay; try done. by left.
  - done.
Qed.


Definition qstep : conf → conf → Prop := cstep start step inspect.
Definition qreachable : conf → Prop := reachable start step inspect new.

Lemma inv_init : inv (Config new []).
Proof.
  exists [0%nat], 0%nat, 0%nat. split; [apply shape_new|]. split.
  - intros t p Ht. done.
  - intros t1 t2 p1 p2 n Ht. done.
Qed.

Lemma owned_start op : owned (start op) = None.
Proof. by destruct op. Qed.

Lemma local_ok_start L i j op : local_ok L i j (start op).
Proof. by destruct op. Qed.

Lemma inv_step c c' : inv c → qstep c c' → inv c'.
Proof.
  intros (L & i & j & Hs & Hth & Hdis) Hstep.
  destruct Hstep as [c op|c t p r op Ht Hr|c t p b p' s' Ht Hrun Hstep];
    cbn [shared threads] in *.
  - (* a new thread *)
    exists L, i, j. split; [done|]. split.
    + intros t p [Hp|[_ Hp]]%lookup_app_Some; [by eapply Hth|].
      apply list_lookup_singleton_Some in Hp as [_ <-].
      split; [apply local_ok_start|]. intros n. by rewrite owned_start.
    + intros t1 t2 p1 p2 n [H1|[_ H1]]%lookup_app_Some [H2|[_ H2]]%lookup_app_Some
        Ho1 Ho2.
      * by eapply Hdis.
      * apply list_lookup_singleton_Some in H2 as [_ <-].
        by rewrite owned_start in Ho2.
      * apply list_lookup_singleton_Some in H1 as [_ <-].
        by rewrite owned_start in Ho1.
      * apply list_lookup_singleton_Some in H1 as [_ <-].
        by rewrite owned_start in Ho1.
  - (* a thread starts its next call *)
    exists L, i, j. split; [done|]. split.
    + intros t' p0 [[-> [<- _]]|[_ Hp]]%list_lookup_insert_Some; [|by eapply Hth].
      split; [apply local_ok_start|]. intros n. by rewrite owned_start.
    + intros t1 t2 p1 p2 n
        [[-> [<- _]]|[? H1]]%list_lookup_insert_Some
        [[-> [<- _]]|[? H2]]%list_lookup_insert_Some Ho1 Ho2;
        rewrite ?owned_start in *; try done.
      by eapply Hdis.
  - (* a thread takes a step *)
    destruct (Hth t p Ht) as [Hl Hpriv].
    destruct (thread_step_ok b p (shared c) p' s' L i j Hs Hl Hpriv Hstep)
      as (ext & i' & j' & Hs' & Hl' & Hi & Hj & Hpriv' & Hfresh & Hothers).
    exists (L ++ ext), i', j'. split; [done|]. split.
    + intros t' p0 [[-> [<- _]]|[Hne Hp]]%list_lookup_insert_Some; [done|].
      destruct (Hth t' p0 Hp) as [Hl0 Hpriv0]. split.
      * eapply local_ok_mono; try done.
        -- by eapply shape_le.
        -- by eapply shape_lt.
      * intros n Hn. apply Hothers; [by apply Hpriv0|].
        intros Hn'. apply Hne. by eapply Hdis.
    + assert (∀ t' p0 n, t ≠ t' → threads c !! t' = Some p0 →
                owned p0 = Some n → owned p' = Some n → False) as Hnew.
      { intros t' p0 n Hne Hp Ho Ho'.
        destruct (Hfresh n Ho') as [Hold|Hge].
        - apply Hne. by eapply Hdis.
        - destruct (Hth t' p0 Hp) as [_ Hpriv0].
          destruct (Hpriv0 n Ho) as (_ & v & Hv).
          apply load_lt in Hv. lia. }
      intros t1 t2 p1 p2 n
        [[-> [<- _]]|[? H1]]%list_lookup_insert_Some
        [[-> [<- _]]|[? H2]]%list_lookup_insert_Some Ho1 Ho2; try done.
      * exfalso. by eapply (Hnew t2 p2 n).
      * exfalso. by eapply (Hnew t1 p1 n).
      * by eapply Hdis.
Qed.

Lemma inv_reachable c : qreachable c → inv c.
Proof.
  induction 1 as [|c c' _ IH Hstep]; [apply inv_init|]. by eapply inv_step.
Qed.


(** *** The chain hanging from [head] *)

(** [l] lists the nodes met from [p] by following [next] up to [nullptr]. *)
Fixpoint chain (h : heap) (p : ptr) (l : list nat) : Prop :=
  match l with
  | [] => p = None
  | a :: l' => p = Some a ∧ ∃ nd, load h a = Some nd ∧ chain h (next nd) l'
  end.

Lemma chained_chain h L : chained h L → ∀ k, chain h (L !! k) (drop k L).
Proof.
  intros Hc k. remember (length L - k)%nat as d eqn:Hd.
  revert k Hd. induction d as [|d IH]; intros k Hd.
  - rewrite drop_ge by lia. simpl. apply lookup_ge_None. lia.
  - destruct (lookup_lt_is_Some_2 L k) as [a Ha]; [lia|].
    rewrite (drop_S _ _ _ Ha). simpl. split; [done|].
    destruct (Hc k a Ha) as (nd & Hnd & Hnx). exists nd. split; [done|].
    rewrite Hnx. apply IH. lia.
Qed.

Lemma chained_values h L : chained h L → ∀ k, ∃ vs, values h (drop k L) vs.
Proof.
  intros Hc k. remember (length L - k)%nat as d eqn:Hd.
  revert k Hd. induction d as [|d IH]; intros k Hd.
  - rewrite drop_ge by lia. exists []. constructor.
  - destruct (lookup_lt_is_Some_2 L k) as [a Ha]; [lia|].
    rewrite (drop_S _ _ _ Ha).
    destruct (Hc k a Ha) as (nd & Hnd & _).
    destruct (IH (S k)) as [vs Hvs]; [lia|].
    exists (value nd :: vs). constructor; [by rewrite Hnd|done].
Qed.

(** The position of [tail] in the chain [l] that hangs from [head]: on its
    last node, or on the node before it. *)
Definition tail_at (q : msqueue) (l : list nat) : Prop :=
  ∃ k, (k < length l)%nat ∧ tail q = l !! k ∧ (length l ≤ k + 2)%nat.


(** *** A [dequeue] that throws has changed nothing *)

(** [head.next] is set. *)
Definition has_next (q : msqueue) : Prop :=
  ∃ a nd x, head q = Some a ∧ load (nodes q) a = Some nd ∧ next nd = Some x.

(** [nxt] is what [first->next] holds. *)
Definition next_of (q : msqueue) (first nxt : ptr) : Prop :=
  ∃ a nd, first = Some a ∧ load (nodes q) a = Some nd ∧ nxt = next nd.

(** Inside [dequeue], once [head.next] is known to be set. *)
Definition not_empty (p : pc) (q : msqueue) : Prop :=
  match p with
  | Deq_head | Deq_tail _ | Deq_next _ _ | Deq_help _ _
  | Deq_value _ _ | Deq_swing _ _ _ => has_next q
  | Deq_check first _ nxt => has_next q ∧ next_of q first nxt
  | Return (Int _) => True
  | _ => False
  end.

(** Inside [dequeue], before any write. *)
Definition in_dequeue (p : pc) (q : msqueue) : Prop :=
  match p with
  | Deq_head | Deq_tail _ | Deq_next _ _ | Deq_value _ _ | Deq_swing _ _ _ => True
  | Deq_check first _ nxt => next_of q first nxt
  | Deq_help _ _ => has_next q
  | _ => False
  end.

Lemma not_empty_step b p q :
  not_empty p q → inspect p = Running →
  not_empty (fst (step b p q)) (snd (step b p q))
  ∨ fst (step b p q) = Fault.
Proof.
  intros Hne Hrun. destruct p; try done; cbn [step not_empty] in *.
  - by left.
  - by left.
  - destruct first as [a|]; cbn [mbind option_bind]; [|by right].
    destruct (load (nodes q) a) as [nd|] eqn:E; [|by right].
    left. split; [done|]. by exists a, nd.
  - destruct Hne as [Hn (a & nd & -> & Ha & ->)].
    case_decide as Heq; [|by left]. case_decide as Heq2.
    + destruct Hn as (a' & nd' & x & Hh & Ha' & Hx).
      rewrite <- Heq in Hh. injection Hh as <-.
      rewrite Ha in Ha'. injection Ha' as <-. rewrite Hx. left.
      by exists a, nd, x.
    + by left.
  - destruct (cas_weak _ _ _); by left.
  - destruct (nxt ≫= load (nodes q)); [by left|by right].
  - destruct (cas_weak _ _ _); by left.
Qed.

Lemma not_empty_never_throws fuel : ∀ o p q q' o',
  not_empty p q → exec fuel o p q ≠ Finished Empty_error q' o'.
Proof.
  unfold exec. induction fuel as [|fuel IH]; intros o p q q' o' Hne.
  - destruct p as [| | | | | | | | | | | | | |[]|]; simpl in *; done.
  - destruct (inspect p) eqn:Hp.
    + rewrite run_unfold by done.
      destruct (not_empty_step (if weak p then hd false o else false) p q Hne Hp)
        as [Hne'|Hf].
      * by apply IH.
      * rewrite Hf. by destruct fuel.
    + destruct p as [| | | | | | | | | | | | | |[]|]; simpl in *; done.
    + by destruct p.
Qed.

Lemma dequeue_empty_keeps fuel : ∀ o p q q' o',
  in_dequeue p q → exec fuel o p q = Finished Empty_error q' o' → q' = q.
Proof.
  unfold exec. induction fuel as [|fuel IH]; intros o p q q' o' Hp.
  - destruct p; simpl in *; done.
  - destruct p; try done; rewrite run_unfold by reflexivity;
      cbn [step weak fst snd in_dequeue] in *.
    + (* Deq_head *) by apply IH.
    + (* Deq_tail *) by apply IH.
    + (* Deq_next *)
      destruct first as [a|]; cbn [mbind option_bind]; [|by destruct fuel].
      destruct (load (nodes q) a) as [nd|] eqn:E; [|by destruct fuel].
      apply IH. by exists a, nd.
    + (* Deq_check *)
      destruct Hp as (a & nd & -> & Ha & ->).
      case_decide as Heq; [|by apply IH]. case_decide as Heq2; [|by apply IH].
      destruct (next nd) as [x|] eqn:Hx.
      * apply IH. by exists a, nd, x.
      * cbn [fst snd]. erewrite run_done by reflexivity. congruence.
    + (* Deq_help *)
      intros Hrun. exfalso. revert Hrun.
      apply (not_empty_never_throws fuel). cbn [not_empty].
      destruct (cas_weak _ _ _); cbn [fst snd]; done.
    + (* Deq_value *)
      destruct (nxt ≫= load (nodes q)); cbn [fst snd]; [by apply IH|by destruct fuel].
    + (* Deq_swing *)
      destruct (cas_weak _ _ _); cbn [fst snd]; [|by apply IH].
      erewrite run_done by reflexivity. congruence.
Qed.


Definition dequeuing (p : pc) : Prop :=
  match p with
  | Deq_head | Deq_tail _ | Deq_next _ _ | Deq_check _ _ _ | Deq_help _ _
  | Deq_value _ _ | Deq_swing _ _ _ => True
  | _ => False
  end.

(** In any interleaving: a step of [dequeue] other than the compare-and-swap
    that makes it return a value leaves [head] and every node as they are,
    and with them the values the queue holds; at most it helps [tail]
    forward. *)
Lemma dequeue_step_keeps b p q :
  dequeuing p → (∀ v, fst (step b p q) ≠ Return (Int v)) →
  head (snd (step b p q)) = head q ∧ nodes (snd (step b p q)) = nodes q.
Proof.
  intros Hp Hne. destruct p; try done; cbn [step] in *.
  - by destruct (first ≫= load (nodes q)).
  - repeat case_decide; try done. by destruct nxt.
  - by destruct (cas_weak _ _ _).
  - by destruct (nxt ≫= load (nodes q)).
  - destruct (cas_weak _ _ _); [|done]. by destruct (Hne v).
Qed.


End MSQueue.

(** C2. A fresh Michael-Scott queue used by one thread: after [enqueue(1);
    enqueue(2); enqueue(3)], three calls of [dequeue] return 1, 2 and 3, and
    a fourth throws the empty error, whichever weak compare-and-swaps fail
    spuriously. *)
Theorem msqueue_enqueue3_dequeue4 (o : list bool) (k : nat) :
  fst <$> MSQueue.exec_ops (6 * length o + 11 + k) o
            [Enqueue 1; Enqueue 2; Enqueue 3; Dequeue; Dequeue; Dequeue; Dequeue]
            MSQueue.new
  = Some [Void; Void; Void; Int 1; Int 2; Int 3; Empty_error].
Proof.
  destruct (run_ops_refines MSQueue.start MSQueue.step MSQueue.weak
              MSQueue.inspect MSQueue.holds queue_spec (λ n, 6 * n + 11)%nat)
    with (ops := [Enqueue 1; Enqueue 2; Enqueue 3; Dequeue; Dequeue; Dequeue; Dequeue])
         (s := MSQueue.new) (a := @nil Z) (o := o)
         (fuel := (6 * length o + 11 + k)%nat) as (s' & Hrun & _).
  - intros n m Hnm. lia.
  - intros op s a o0 fuel. apply MSQueue.queue_call_refines.
  - apply MSQueue.queue_holds_new.
  - lia.
  - unfold MSQueue.exec_ops. rewrite Hrun. reflexivity.
Qed.

(** C7. In every state reachable by threads that call [enqueue] and
    [dequeue] in any interleaving of their memory accesses: [head] is not
    null; the chain [hd :: rest] that hangs from it is finite and without
    repetition; [tail] is on the last node of that chain or on the one before
    it; and the queue holds the values [vs] of the nodes after the one [head]
    points to, so that a [dequeue] run from that state returns the value of
    [head.next] (or the empty error when there is none), never the value of
    the node [head] points to. *)
Theorem msqueue_invariants (c : MSQueue.conf) :
  MSQueue.qreachable c →
  ∃ (hd : nat) (rest : list nat) (vs : list Z),
    MSQueue.head (shared c) = Some hd
    ∧ MSQueue.chain (MSQueue.nodes (shared c)) (MSQueue.head (shared c)) (hd :: rest)
    ∧ NoDup (hd :: rest)
    ∧ MSQueue.tail_at (shared c) (hd :: rest)
    ∧ MSQueue.values (MSQueue.nodes (shared c)) rest vs
    ∧ ∀ (o : list bool) (k : nat), ∃ q' o',
        MSQueue.exec (6 * length o + 11 + k) o MSQueue.Deq_head (shared c)
        = Finished (fst (queue_spec Dequeue vs)) q' o'
        ∧ MSQueue.holds q' (snd (queue_spec Dequeue vs)).
Proof.
  intros Hr. destruct (MSQueue.inv_reachable c Hr) as (L & i & j & Hs & _).
  destruct (MSQueue.shape_head_Some _ _ _ _ Hs) as (hd & Hhd & HL).
  pose proof (MSQueue.shape_chain _ _ _ _ Hs) as Hc.
  pose proof (MSQueue.shape_le _ _ _ _ Hs) as Hle.
  pose proof (MSQueue.shape_lt _ _ _ _ Hs) as Hlt.
  pose proof (MSQueue.shape_lag _ _ _ _ Hs) as Hlag.
  destruct (MSQueue.chained_values _ _ Hc (S i)) as [vs Hvs].
  exists hd, (drop (S i) L), vs. rewrite <- (drop_S _ _ _ HL).
  split; [done|]. split.
  { rewrite Hhd, <- HL. by apply MSQueue.chained_chain. }
  split.
  { eapply sublist_NoDup; [by eapply MSQueue.shape_nodup|apply sublist_drop]. }
  split.
  { exists (j - i)%nat. rewrite length_drop, lookup_drop.
    replace (i + (j - i))%nat with j by lia.
    split; [lia|]. split; [by eapply MSQueue.shape_tail|lia]. }
  split; [done|].
  intros o k.
  destruct (MSQueue.deq_refines o (shared c) vs (6 * length o + 11 + k))
    as (q' & o' & Hrun & Hh & _); [by exists L, i, j|lia|]. eauto.
Qed.

(** A reachable state in which [tail] lags: a thread has linked its node and
    not yet swung [tail]. *)
Definition lagging : MSQueue.conf :=
  Config (MSQueue.Queue [Some (Node 0 (Some 1%nat)); Some (Node 7 None)]
                        (Some 0%nat) (Some 0%nat))
         [MSQueue.Enq_swing 1 (Some 0%nat)].

Lemma msqueue_invariants_witness :
  MSQueue.qreachable lagging
  ∧ ∃ (hd : nat) (rest : list nat) (vs : list Z),
      MSQueue.head (shared lagging) = Some hd
      ∧ MSQueue.chain (MSQueue.nodes (shared lagging))
                      (MSQueue.head (shared lagging)) (hd :: rest)
      ∧ NoDup (hd :: rest)
      ∧ MSQueue.tail_at (shared lagging) (hd :: rest)
      ∧ MSQueue.values (MSQueue.nodes (shared lagging)) rest vs
      ∧ ∀ (o : list bool) (k : nat), ∃ q' o',
          MSQueue.exec (6 * length o + 11 + k) o MSQueue.Deq_head (shared lagging)
          = Finished (fst (queue_spec Dequeue vs)) q' o'
          ∧ MSQueue.holds q' (snd (queue_spec Dequeue vs)).
Proof.
  assert (MSQueue.qreachable lagging) as Hr.
  { apply (play_reachable MSQueue.start MSQueue.step MSQueue.inspect MSQueue.new
             [Spawn (Enqueue 7); Step 0 false; Step 0 false; Step 0 false;
              Step 0 false; Step 0 false]
             (Config MSQueue.new [])).
    - apply reachable_init.
    - reflexivity. }
  split; [exact Hr|]. exact (msqueue_invariants lagging Hr).
Defined.

(** ** Elimination stack ([elimination_stack.cpp]) *)

Module Elimination.
Import Heap.

Definition ELIM_SIZE : nat := 8.

(** The C library's [rand()]: an arbitrary sequence of non-negative numbers,
    of which every call takes the next. *)
Record rng : Type := Rng { src : nat → nat; pos : nat }.

Definition rand (g : rng) : nat * rng :=
  (src g (pos g), Rng (src g) (S (pos g))).

Record elimination_stack : Type := EStack {
  nodes : heap;
  top : ptr;
  elim_ops : list Z;
  elim_vals : list Z;
  random : rng;
}.

(** [elimination_stack() : top(nullptr)], and every [elim_ops[i]] and
    [elim_vals[i]] set to 0. *)
Definition new (g : rng) : elimination_stack :=
  EStack [] None (replicate ELIM_SIZE 0) (replicate ELIM_SIZE 0) g.

Inductive pc : Type :=
| Push_new (v : Z)                          (* node* n = new node(value) *)
| Push_elim (n : nat) (v : Z)               (* slot = rand() % ELIM_SIZE;
                                               elim_ops[slot].compare_exchange_strong(2, 0) *)
| Push_deliver (n : nat) (v : Z) (slot : nat) (* elim_vals[slot] = value *)
| Push_delete (n : nat)                     (* delete n; return *)
| Push_load (n : nat)                       (* old_top = top.load() *)
| Push_link (n : nat) (old_top : ptr)       (* n->next = old_top *)
| Push_cas (n : nat) (old_top : ptr)        (* top.compare_exchange_weak(old_top, n) *)
| Pop_elim                                  (* slot = rand() % ELIM_SIZE;
                                               elim_ops[slot].compare_exchange_strong(1, 0) *)
| Pop_take (slot : nat)                     (* return elim_vals[slot].load() *)
| Pop_load                                  (* old_top = top.load(); if(!old_top) throw *)
| Pop_next (old_top : nat)                  (* next = old_top->next *)
| Pop_value (old_top : nat) (nxt : ptr)     (* v = old_top->value *)
| Pop_cas (old_top : nat) (nxt : ptr) (v : Z) (* top.compare_exchange_weak(old_top, next) *)
| Return (r : ret)
| Fault.

Definition start (op : stack_op) : pc :=
  match op with
  | Push v => Push_new v
  | Pop => Pop_elim
  end.

Definition inspect (p : pc) : status :=
  match p with
  | Return r => Done r
  | Fault => Crashed
  | _ => Running
  end.

Definition weak (p : pc) : bool :=
  match p with
  | Push_cas _ _ | Pop_cas _ _ _ => true
  | _ => false
  end.

Definition step (spurious : bool) (p : pc) (s : elimination_stack)
  : pc * elimination_stack :=
  match p with
  | Push_new v =>
      let '(n, h) := alloc v (nodes s) in
      (Push_elim n v, EStack h (top s) (elim_ops s) (elim_vals s) (random s))
  | Push_elim n v =>
      let '(r, g) := rand (random s) in
      let slot := (r mod ELIM_SIZE)%nat in
      match elim_ops s !! slot with
      | Some x =>
          if cas_strong x 2
          then (Push_deliver n v slot,
                EStack (nodes s) (top s) (<[slot := 0]> (elim_ops s)) (elim_vals s) g)
          else (Push_load n,
                EStack (nodes s) (top s) (elim_ops s) (elim_vals s) g)
      | None => (Fault, s)
      end
  | Push_deliver n v slot =>
      (Push_delete n,
       EStack (nodes s) (top s) (elim_ops s) (<[slot := v]> (elim_vals s)) (random s))
  | Push_delete n =>
      match free (nodes s) n with
      | Some h => (Return Void, EStack h (top s) (elim_ops s) (elim_vals s) (random s))
      | None => (Fault, s)
      end
  | Push_load n => (Push_link n (top s), s)
  | Push_link n old_top =>
      match set_next (nodes s) n old_top with
      | Some h =>
          (Push_cas n old_top, EStack h (top s) (elim_ops s) (elim_vals s) (random s))
      | None => (Fault, s)
      end
  | Push_cas n old_top =>
      if cas_weak spurious (top s) old_top
      then (Return Void,
            EStack (nodes s) (Some n) (elim_ops s) (elim_vals s) (random s))
      else (Push_load n, s)
  | Pop_elim =>
      let '(r, g) := rand (random s) in
      let slot := (r mod ELIM_SIZE)%nat in
      match elim_ops s !! slot with
      | Some x =>
          if cas_strong x 1
          then (Pop_take slot,
                EStack (nodes s) (top s) (<[slot := 0]> (elim_ops s)) (elim_vals s) g)
          else (Pop_load,
                EStack (nodes s) (top s) (elim_ops s) (elim_vals s) g)
      | None => (Fault, s)
      end
  | Pop_take slot =>
      match elim_vals s !! slot with
      | Some v => (Return (Int v), s)
      | None => (Fault, s)
      end
  | Pop_load =>
      match top s with
      | None => (Return Empty_error, s)
      | Some old_top => (Pop_next old_top, s)
      end
  | Pop_next old_top =>
      match load (nodes s) old_top with
      | Some nd => (Pop_value old_top (next nd), s)
      | None => (Fault, s)
      end
  | Pop_value old_top nxt =>
      match load (nodes s) old_top with
      | Some nd => (Pop_cas old_top nxt (value nd), s)
      | None => (Fault, s)
      end
  | Pop_cas old_top nxt v =>
      if cas_weak spurious (top s) (Some old_top)
      then (Return (Int v),
            EStack (nodes s) nxt (elim_ops s) (elim_vals s) (random s))
      else (Pop_load, s)
  | Return r => (Return r, s)
  | Fault => (Fault, s)
  end.

Definition exec := run step weak inspect.
Definition exec_ops := run_ops start step weak inspect.

Abbreviation conf := (@config pc elimination_stack).
Definition estep : conf → conf → Prop := cstep start step inspect.
Definition ereachable (g : rng) : conf → Prop := reachable start step inspect (new g).

(** *** The elimination array is never armed *)

(** No slot announces a waiting operation. *)
Definition idle (s : elimination_stack) : Prop :=
  length (elim_ops s) = ELIM_SIZE ∧ ∀ i x, elim_ops s !! i = Some x → x = 0.

(** The control points after a successful elimination. *)
Definition eliminated (p : pc) : bool :=
  match p with
  | Push_deliver _ _ _ | Push_delete _ | Pop_take _ => true
  | _ => false
  end.

Lemma idle_new g : idle (new g).
Proof.
  split; [done|]. intros i x Hx. cbn [new elim_ops] in Hx.
  by apply lookup_replicate in Hx as [-> _].
Qed.

Lemma idle_slot s r : idle s → elim_ops s !! (r mod ELIM_SIZE)%nat = Some 0.
Proof.
  intros [Hlen Hz].
  destruct (lookup_lt_is_Some_2 (elim_ops s) (r mod ELIM_SIZE)%nat) as [x Hx].
  { rewrite Hlen. apply Nat.mod_upper_bound. done. }
  by rewrite Hx, (Hz _ _ Hx).
Qed.

(** From an idle array, a transition out of a fallback control point leaves
    the array idle and does not enter the elimination path. *)
Lemma step_idle b p s :
  idle s → eliminated p = false →
  idle (snd (step b p s)) ∧ eliminated (fst (step b p s)) = false.
Proof.
  intros Hi Hp. destruct p; try done; cbn [step].
  - (* Push_elim *) cbn [rand]. rewrite idle_slot by done. destruct Hi. done.
  - (* Push_link *) destruct (set_next _ _ _); destruct Hi; done.
  - (* Push_cas *) destruct (cas_weak _ _ _); destruct Hi; done.
  - (* Pop_elim *) cbn [rand]. rewrite idle_slot by done. destruct Hi. done.
  - (* Pop_load *) destruct (top s); done.
  - (* Pop_next *) destruct (load _ _); done.
  - (* Pop_value *) destruct (load _ _); done.
  - (* Pop_cas *) destruct (cas_weak _ _ _); destruct Hi; done.
Qed.

Definition einv (c : conf) : Prop :=
  idle (shared c) ∧ ∀ t p, threads c !! t = Some p → eliminated p = false.

Lemma einv_step c c' : einv c → estep c c' → einv c'.
Proof.
  intros [Hi Hth] Hstep.
  destruct Hstep as [c op|c t p r op Ht Hr|c t p b p' s' Ht Hrun Hstep];
    cbn [shared threads] in *.
  - split; [done|].
    intros t p [Hp|[_ Hp]]%lookup_app_Some; [by eapply Hth|].
    apply list_lookup_singleton_Some in Hp as [_ <-]. by destruct op.
  - split; [done|].
    intros t' p0 [[-> [<- _]]|[_ Hp]]%list_lookup_insert_Some; [|by eapply Hth].
    by destruct op.
  - destruct (step_idle b p (shared c) Hi (Hth t p Ht)) as [Hi' Hp'].
    rewrite Hstep in Hi', Hp'. split; [done|].
    intros t' p0 [[-> [<- _]]|[_ Hp]]%list_lookup_insert_Some; [done|].
    by eapply Hth.
Qed.

Lemma einv_reachable g c : ereachable g c → einv c.
Proof.
  induction 1 as [|c c' _ IH Hstep].
  - split; [apply idle_new|]. intros t p Ht. done.
  - by eapply einv_step.
Qed.

(** *** The elimination stack seen as a Treiber stack

    Forgetting the elimination array, a thread of the elimination stack is a
    thread of the Treiber stack: the failed attempt to eliminate is a step
    that changes nothing. *)

Definition to_treiber_pc (p : pc) : Treiber.pc :=
  match p with
  | Push_new v => Treiber.Push_new v
  | Push_elim n _ | Push_load n => Treiber.Push_load n
  | Push_link n old_top => Treiber.Push_link n old_top
  | Push_cas n old_top => Treiber.Push_cas n old_top
  | Pop_elim | Pop_load => Treiber.Pop_load
  | Pop_next old_top => Treiber.Pop_next old_top
  | Pop_value old_top nxt => Treiber.Pop_value old_top nxt
  | Pop_cas old_top nxt v => Treiber.Pop_cas old_top nxt v
  | Return r => Treiber.Return r
  | Push_deliver _ _ _ | Push_delete _ | Pop_take _ | Fault => Treiber.Fault
  end.

Definition to_treiber (s : elimination_stack) : Treiber.treiber_stack :=
  Treiber.Stack (nodes s) (top s).

Definition project (c : conf) : Treiber.conf :=
  Config (to_treiber (shared c)) (to_treiber_pc <$> threads c).

(** The attempt to eliminate: the first transition of [pop], the second of
    [push]. *)
Definition attempt (p : pc) : bool :=
  match p with
  | Push_elim _ _ | Pop_elim => true
  | _ => false
  end.

Lemma attempt_fails b p s :
  idle s → attempt p = true →
  to_treiber_pc (fst (step b p s)) = to_treiber_pc p
  ∧ to_treiber (snd (step b p s)) = to_treiber s
  ∧ attempt (fst (step b p s)) = false
  ∧ inspect (fst (step b p s)) = Running.
Proof.
  intros Hi Hp. destruct p; try done; cbn [step rand];
    rewrite idle_slot by done; done.
Qed.

Lemma fallback_step b p s :
  attempt p = false → eliminated p = false →
  Treiber.step b (to_treiber_pc p) (to_treiber s)
  = (to_treiber_pc (fst (step b p s)), to_treiber (snd (step b p s))).
Proof.
  intros Ha He. destruct p; try done; cbn [step to_treiber_pc Treiber.step].
  - (* Push_link *) cbn [to_treiber Treiber.nodes]. by destruct (set_next _ _ _).
  - (* Push_cas *) cbn [to_treiber Treiber.top]. by destruct (cas_weak _ _ _).
  - (* Pop_load *) cbn [to_treiber Treiber.top]. by destruct (top s).
  - (* Pop_next *) cbn [to_treiber Treiber.nodes]. by destruct (load _ _).
  - (* Pop_value *) cbn [to_treiber Treiber.nodes]. by destruct (load _ _).
  - (* Pop_cas *) cbn [to_treiber Treiber.top]. by destruct (cas_weak _ _ _).
Qed.

Lemma to_treiber_inspect p :
  eliminated p = false → Treiber.inspect (to_treiber_pc p) = inspect p.
Proof. by destruct p. Qed.

Lemma to_treiber_start op : to_treiber_pc (start op) = Treiber.start op.
Proof. by destruct op. Qed.

Lemma project_insert c t p s :
  project (Config s (<[t := p]> (threads c)))
  = Config (to_treiber s) (<[t := to_treiber_pc p]> (threads (project c))).
Proof. unfold project; cbn [shared threads]. by rewrite list_fmap_insert. Qed.

(** Every step of the elimination stack is a step of the Treiber stack, or
    changes nothing that the Treiber stack has. *)
Lemma estep_simulates c c' :
  einv c → estep c c' →
  project c' = project c ∨ Treiber.tstep (project c) (project c').
Proof.
  intros [Hi Hth] Hstep.
  destruct Hstep as [c op|c t p r op Ht Hr|c t p b p' s' Ht Hrun Hstep].
  - right. unfold project; cbn [shared threads].
    rewrite fmap_app. cbn [fmap list_fmap]. rewrite to_treiber_start.
    apply (cstep_spawn _ _ _ (project c)).
  - right. rewrite project_insert, to_treiber_start. cbn [shared].
    eapply (cstep_call _ _ _ (project c)).
    + unfold project; cbn [threads]. by rewrite list_lookup_fmap, Ht.
    + rewrite to_treiber_inspect; [done|]. by eapply Hth.
  - rewrite project_insert.
    assert (threads (project c) !! t = Some (to_treiber_pc p)) as Ht'.
    { unfold project; cbn [threads]. by rewrite list_lookup_fmap, Ht. }
    destruct (attempt p) eqn:Ha.
    + left. destruct (attempt_fails b p (shared c) Hi Ha) as (Hp & Hs & _).
      rewrite Hstep in Hp, Hs. cbn [fst snd] in Hp, Hs. rewrite Hp, Hs.
      rewrite list_insert_id by done. done.
    + right. eapply (cstep_thread _ _ _ (project c)); [done| |].
      * rewrite to_treiber_inspect; [done|]. by eapply Hth.
      * cbn [project shared]. rewrite (fallback_step b p); [|done|by eapply Hth].
        by rewrite Hstep.
Qed.

Lemma project_reachable g c : ereachable g c → Treiber.treachable (project c).
Proof.
  induction 1 as [|c c' Hr IH Hstep]; [apply reachable_init|].
  destruct (estep_simulates c c' (einv_reachable g c Hr) Hstep) as [->|Hs]; [done|].
  by eapply reachable_step.
Qed.

(** Conversely, every step of the Treiber stack is matched by the elimination
    stack, after the failed attempt to eliminate if it is still to come. *)
Lemma project_complete g d :
  Treiber.treachable d → ∃ c, ereachable g c ∧ project c = d.
Proof.
  induction 1 as [|d d' _ (c & Hr & <-) Hstep].
  - exists (Config (new g) []). split; [apply reachable_init|done].
  - pose proof (einv_reachable g c Hr) as [Hi Hth].
    inversion Hstep as [d0 op Hd|d0 t pT r op Ht Hdone Hd|d0 t pT b pT' sT' Ht Hrun HstepT Hd];
      subst d0; clear Hstep.
    + exists (Config (shared c) (threads c ++ [start op])). split.
      * eapply reachable_step; [exact Hr|]. apply (cstep_spawn _ _ _ c).
      * unfold project; cbn [shared threads].
        by rewrite fmap_app; cbn [fmap list_fmap]; rewrite to_treiber_start.
    + cbn [project threads] in Ht. rewrite list_lookup_fmap in Ht.
      destruct (threads c !! t) as [p|] eqn:Hp; [|done]. injection Ht as <-.
      exists (Config (shared c) (<[t := start op]> (threads c))). split.
      * eapply reachable_step; [exact Hr|].
        eapply (cstep_call _ _ _ c); [done|].
        rewrite <- to_treiber_inspect; [done|]. by eapply Hth.
      * by rewrite project_insert, to_treiber_start.
    + cbn [project threads shared] in Ht, HstepT. rewrite list_lookup_fmap in Ht.
      destruct (threads c !! t) as [p|] eqn:Hp; [|done]. injection Ht as <-.
      pose proof (Hth t p Hp) as He.
      rewrite to_treiber_inspect in Hrun by done.
      destruct (attempt p) eqn:Ha.
      * (* the attempt to eliminate comes first *)
        destruct (attempt_fails false p (shared c) Hi Ha) as (Hp1 & Hs1 & Ha1 & Hrun1).
        set (p1 := fst (step false p (shared c))) in *.
        set (s1 := snd (step false p (shared c))) in *.
        set (c1 := Config s1 (<[t := p1]> (threads c))).
        assert (ereachable g c1) as Hr1.
        { eapply reachable_step; [exact Hr|].
          eapply (cstep_thread _ _ _ c); [done|done|apply surjective_pairing]. }
        pose proof (einv_reachable g c1 Hr1) as [Hi1 Hth1].
        assert (threads c1 !! t = Some p1) as Hp1'.
        { cbn [c1 threads]. apply list_lookup_insert_eq. by eapply lookup_lt_Some. }
        exists (Config (snd (step b p1 s1)) (<[t := fst (step b p1 s1)]> (threads c1))).
        split.
        -- eapply reachable_step; [exact Hr1|].
           eapply (cstep_thread _ _ _ c1); [done|done|apply surjective_pairing].
        -- rewrite project_insert.
           pose proof (fallback_step b p1 s1 Ha1 (Hth1 t p1 Hp1')) as Hfb.
           rewrite Hp1, Hs1, HstepT in Hfb. injection Hfb as <- <-.
           cbn [c1 project threads]. rewrite list_fmap_insert, list_insert_insert_eq.
           done.
      * exists (Config (snd (step b p (shared c))) (<[t := fst (step b p (shared c))]> (threads c))).
        split.
        -- eapply reachable_step; [exact Hr|].
           eapply (cstep_thread _ _ _ c); [done|done|apply surjective_pairing].
        -- rewrite project_insert.
           pose proof (fallback_step b p (shared c) Ha He) as Hfb.
           rewrite HstepT in Hfb. injection Hfb as <- <-. done.
Qed.


(** *** Sequential runs

    A thread past its attempt to eliminate runs step for step like a thread
    of the Treiber stack; a call costs one step more than on the Treiber
    stack, and returns the same. *)

Definition past_attempt (p : pc) : bool :=
  match p with
  | Push_new _ | Push_elim _ _ | Pop_elim => false
  | _ => negb (eliminated p)
  end.

Lemma past_attempt_step b p s :
  past_attempt p = true → past_attempt (fst (step b p s)) = true ∨ fst (step b p s) = Fault.
Proof.
  intros Hp. destruct p; try done; cbn [step]; try (by left).
  - destruct (set_next _ _ _); [by left|by right].
  - destruct (cas_weak _ _ _); by left.
  - destruct (top s); by left.
  - destruct (load _ _); [by left|by right].
  - destruct (load _ _); [by left|by right].
  - destruct (cas_weak _ _ _); by left.
Qed.

Lemma past_attempt_fallback p :
  past_attempt p = true → attempt p = false ∧ eliminated p = false.
Proof. by destruct p. Qed.

Lemma to_treiber_weak p : Treiber.weak (to_treiber_pc p) = weak p.
Proof. by destruct p. Qed.

Lemma run_past_attempt fuel : ∀ o p s r sT o',
  past_attempt p = true →
  Treiber.exec fuel o (to_treiber_pc p) (to_treiber s) = Finished r sT o' →
  ∃ s', exec fuel o p s = Finished r s' o'
        ∧ to_treiber s' = sT ∧ elim_ops s' = elim_ops s.
Proof.
  unfold Treiber.exec, exec.
  induction fuel as [|fuel IH]; intros o p s r sT o' Hp;
    destruct (past_attempt_fallback p Hp) as [Ha He];
    pose proof (to_treiber_inspect p He) as Hi.
  - simpl. rewrite Hi. destruct (inspect p); try done.
    intros [= <- <- <-]. eauto.
  - destruct (inspect p) eqn:Hrun.
    + rewrite !run_unfold by congruence.
      rewrite to_treiber_weak, (fallback_step _ p s Ha He). cbn [fst snd].
      destruct (past_attempt_step (if weak p then hd false o else false) p s Hp)
        as [Hp'|Hf].
      * intros Hrun'. destruct (IH _ _ _ _ _ _ Hp' Hrun') as (s' & -> & Hs' & Hops).
        exists s'. split; [done|]. split; [done|]. rewrite Hops.
        clear -Ha He. destruct p; try done; cbn [step].
        -- by destruct (set_next _ _ _).
        -- by destruct (cas_weak _ _ _).
        -- by destruct (top s).
        -- by destruct (load _ _).
        -- by destruct (load _ _).
        -- by destruct (cas_weak _ _ _).
      * rewrite Hf. cbn [to_treiber_pc]. by destruct fuel.
    + rewrite !run_done with (r := r0) by congruence.
      intros [= <- <- <-]. eauto.
    + simpl. by rewrite Hi, Hrun.
Qed.

(** A call on the elimination stack returns what the call returns on the
    Treiber stack it projects to, and leaves a stack that projects to the one
    the Treiber call leaves. *)
Lemma call_like_treiber fuel o op s r sT o' :
  idle s →
  Treiber.exec fuel o (Treiber.start op) (to_treiber s) = Finished r sT o' →
  ∃ s', exec (S fuel) o (start op) s = Finished r s' o'
        ∧ to_treiber s' = sT ∧ idle s'.
Proof.
  intros Hi Hrun. destruct op as [v|]; cbn [start Treiber.start] in *.
  - (* push: allocate, fail to eliminate, then as the Treiber stack *)
    destruct fuel as [|fuel]; [done|].
    unfold Treiber.exec in Hrun. rewrite run_unfold in Hrun by done.
    cbn [Treiber.weak Treiber.step to_treiber Treiber.nodes Treiber.top alloc fst snd]
      in Hrun.
    unfold exec. rewrite !run_unfold by done.
    cbn [weak step alloc fst snd rand nodes top elim_ops elim_vals random].
    rewrite (idle_slot s) by done.
    cbn [cas_strong bool_decide decide_rel fst snd].
    destruct (run_past_attempt fuel o (Push_load (length (nodes s)))
                (EStack (nodes s ++ [Some (Node v None)]) (top s) (elim_ops s)
                        (elim_vals s) (Rng (src (random s)) (S (pos (random s)))))
                r sT o' eq_refl Hrun) as (s' & Hs' & Hp & Hops).
    exists s'. split; [exact Hs'|]. split; [done|].
    unfold idle. rewrite Hops. exact Hi.
  - (* pop: fail to eliminate, then as the Treiber stack *)
    unfold exec. rewrite run_unfold by done.
    cbn [weak step fst snd rand].
    rewrite (idle_slot s) by done.
    cbn [cas_strong bool_decide decide_rel fst snd].
    destruct (run_past_attempt fuel o Pop_load
                (EStack (nodes s) (top s) (elim_ops s) (elim_vals s)
                        (Rng (src (random s)) (S (pos (random s)))))
                r sT o' eq_refl Hrun) as (s' & Hs' & Hp & Hops).
    exists s'. split; [exact Hs'|]. split; [done|].
    unfold idle. rewrite Hops. exact Hi.
Qed.

Lemma ops_like_treiber fuel ops : ∀ o s rs sT,
  idle s →
  Treiber.exec_ops fuel o ops (to_treiber s) = Some (rs, sT) →
  ∃ s', exec_ops (S fuel) o ops s = Some (rs, s') ∧ to_treiber s' = sT.
Proof.
  unfold Treiber.exec_ops, exec_ops.
  induction ops as [|op ops IH]; intros o s rs sT Hi; cbn [run_ops].
  - intros [= <- <-]. eauto.
  - destruct (run Treiber.step Treiber.weak Treiber.inspect fuel o
                (Treiber.start op) (to_treiber s)) as [r s1 o1| |] eqn:Hrun; try done.
    destruct (call_like_treiber fuel o op s r s1 o1 Hi Hrun) as (s1' & Hrun' & Hs1 & Hi1).
    unfold exec in Hrun'. rewrite Hrun'. rewrite <- Hs1.
    destruct (run_ops Treiber.start Treiber.step Treiber.weak Treiber.inspect
                fuel o1 ops (to_treiber s1')) as [[rs1 s2]|] eqn:Hops; [|done].
    intros [= <- <-].
    destruct (IH o1 s1' rs1 s2 Hi1 Hops) as (s2' & -> & Hs2). eauto.
Qed.


End Elimination.

(** C6. In every reachable state of the elimination stack all entries of
    [elim_ops] are 0; the compare-and-swap that would eliminate a [push]
    (expecting 2) or a [pop] (expecting 1) fails, so both continue at the
    Treiber loop and no thread is ever past a successful elimination; and,
    the elimination array forgotten, the stack is a Treiber stack: every
    reachable state projects to a reachable state of the Treiber stack, every
    step projects to a Treiber step or to no change, every reachable state
    of the Treiber stack is the projection of a reachable state of the
    elimination stack, and a single-threaded program returns on the
    elimination stack what it returns on the Treiber stack. *)
Theorem elimination_is_treiber (g : Elimination.rng) (c : Elimination.conf) :
  Elimination.ereachable g c →
  (length (Elimination.elim_ops (shared c)) = Elimination.ELIM_SIZE
   ∧ ∀ i x, Elimination.elim_ops (shared c) !! i = Some x → x = 0)
  ∧ (∀ b n v, fst (Elimination.step b (Elimination.Push_elim n v) (shared c))
              = Elimination.Push_load n)
  ∧ (∀ b, fst (Elimination.step b Elimination.Pop_elim (shared c))
          = Elimination.Pop_load)
  ∧ (∀ t p, threads c !! t = Some p → Elimination.eliminated p = false)
  ∧ Treiber.treachable (Elimination.project c)
  ∧ (∀ c', Elimination.estep c c' →
           Elimination.project c' = Elimination.project c
           ∨ Treiber.tstep (Elimination.project c) (Elimination.project c'))
  ∧ (∀ d, Treiber.treachable d →
          ∃ c0, Elimination.ereachable g c0 ∧ Elimination.project c0 = d)
  ∧ (∀ fuel o ops rs sT,
       Treiber.exec_ops fuel o ops Treiber.new = Some (rs, sT) →
       ∃ sE, Elimination.exec_ops (S fuel) o ops (Elimination.new g) = Some (rs, sE)
             ∧ Elimination.to_treiber sE = sT).
Proof.
  intros Hr. pose proof (Elimination.einv_reachable g c Hr) as [Hi Hth].
  split; [exact Hi|]. split.
  { intros b n v. cbn [Elimination.step Elimination.rand].
    by rewrite Elimination.idle_slot. }
  split.
  { intros b. cbn [Elimination.step Elimination.rand].
    by rewrite Elimination.idle_slot. }
  split; [exact Hth|]. split; [by eapply Elimination.project_reachable|].
  split.
  { intros c'. by apply Elimination.estep_simulates. }
  split.
  { intros d. apply Elimination.project_complete. }
  intros fuel o ops rs sT Hops.
  apply Elimination.ops_like_treiber; [apply Elimination.idle_new|exact Hops].
Qed.

(** A state with a [push] and a [pop] in flight, both past their attempt to
    eliminate ([rand()] returned 3 each time). *)
Definition threes : Elimination.rng := Elimination.Rng (λ _, 3%nat) 0.

Definition in_flight : Elimination.conf :=
  Config (Elimination.EStack [Some (Node 5 None)] None
            (replicate 8 0) (replicate 8 0)
            (Elimination.Rng (λ _, 3%nat) 2))
         [Elimination.Push_load 0; Elimination.Pop_load].

Lemma elimination_is_treiber_witness :
  Elimination.ereachable threes in_flight
  ∧ (length (Elimination.elim_ops (shared in_flight)) = Elimination.ELIM_SIZE
     ∧ ∀ i x, Elimination.elim_ops (shared in_flight) !! i = Some x → x = 0)
  ∧ (∀ b n v, fst (Elimination.step b (Elimination.Push_elim n v) (shared in_flight))
              = Elimination.Push_load n)
  ∧ (∀ b, fst (Elimination.step b Elimination.Pop_elim (shared in_flight))
          = Elimination.Pop_load)
  ∧ (∀ t p, threads in_flight !! t = Some p → Elimination.eliminated p = false)
  ∧ Treiber.treachable (Elimination.project in_flight)
  ∧ (∀ c', Elimination.estep in_flight c' →
           Elimination.project c' = Elimination.project in_flight
           ∨ Treiber.tstep (Elimination.project in_flight) (Elimination.project c'))
  ∧ (∀ d, Treiber.treachable d →
          ∃ c0, Elimination.ereachable threes c0 ∧ Elimination.project c0 = d)
  ∧ (∀ fuel o ops rs sT,
       Treiber.exec_ops fuel o ops Treiber.new = Some (rs, sT) →
       ∃ sE, Elimination.exec_ops (S fuel) o ops (Elimination.new threes)
             = Some (rs, sE)
             ∧ Elimination.to_treiber sE = sT).
Proof.
  assert (Elimination.ereachable threes in_flight) as Hr.
  { apply (play_reachable Elimination.start Elimination.step Elimination.inspect
             (Elimination.new threes)
             [Spawn (Push 5); Spawn Pop; Step 0 false; Step 0 false; Step 1 false]
             (Config (Elimination.new threes) [])).
    - apply reachable_init.
    - reflexivity. }
  split; [exact Hr|]. exact (elimination_is_treiber threes in_flight Hr).
Defined.

(** ** Single-global-lock stack and queue ([sgl_stack.cpp], [sgl_queue.cpp])

    The whole body of each operation runs under [std::lock_guard], which
    releases the mutex on return and on throw alike.  A call made while the
    mutex is held waits; it is [None] here. *)

Module Sgl.

(** [std::stack<int> data] with its top first; [std::mutex lock]. *)
Record sgl_stack : Type := SStack { sdata : list Z; slock : bool }.

(** [std::queue<int> data] with its front first; [std::mutex lock]. *)
Record sgl_queue : Type := SQueue { qdata : list Z; qlock : bool }.

Definition new_stack : sgl_stack := SStack [] false.
Definition new_queue : sgl_queue := SQueue [] false.

Definition push (value : Z) (s : sgl_stack) : option (ret * sgl_stack) :=
  if slock s then None
  else Some (Void, SStack (value :: sdata s) false).

Definition pop (s : sgl_stack) : option (ret * sgl_stack) :=
  if slock s then None
  else
    match sdata s with
    | [] => Some (Empty_error, SStack [] false)
    | v :: d => Some (Int v, SStack d false)
    end.

Definition enqueue (value : Z) (q : sgl_queue) : option (ret * sgl_queue) :=
  if qlock q then None
  else Some (Void, SQueue (qdata q ++ [value]) false).

Definition dequeue (q : sgl_queue) : option (ret * sgl_queue) :=
  if qlock q then None
  else
    match qdata q with
    | [] => Some (Empty_error, SQueue [] false)
    | v :: d => Some (Int v, SQueue d false)
    end.

Lemma sgl_pop_empty_keeps s s' : pop s = Some (Empty_error, s') → s' = s.
Proof.
  unfold pop. destruct s as [d [|]]; simpl; [done|].
  destruct d; [|done]. by intros [= <-].
Qed.

Lemma sgl_dequeue_empty_keeps q q' : dequeue q = Some (Empty_error, q') → q' = q.
Proof.
  unfold dequeue. destruct q as [d [|]]; simpl; [done|].
  destruct d; [|done]. by intros [= <-].
Qed.

End Sgl.

(** C10. A [pop] or [dequeue] of the lock-based stack and queue, of the
    Treiber stack and of the Michael-Scott queue that ends with the empty
    error leaves the whole state of the container as it was before the call,
    so that whatever is called next behaves as it would have without the
    failed call.  For the two lock-free containers this holds from any state,
    for any number of retries and whichever weak compare-and-swaps fail
    spuriously; and when other threads run in between, the only step of
    [pop] that writes is the compare-and-swap that makes it return a value,
    and the only steps of [dequeue] that write are that one and the help
    given to a lagging [tail], which changes neither [head] nor a node. *)
Theorem empty_error_changes_nothing :
  (∀ s s', Sgl.pop s = Some (Empty_error, s') → s' = s)
  ∧ (∀ q q', Sgl.dequeue q = Some (Empty_error, q') → q' = q)
  ∧ (∀ fuel o s s' o',
       Treiber.exec fuel o Treiber.Pop_load s = Finished Empty_error s' o' → s' = s)
  ∧ (∀ fuel o q q' o',
       MSQueue.exec fuel o MSQueue.Deq_head q = Finished Empty_error q' o' → q' = q)
  ∧ (∀ b p s, Treiber.in_pop p →
       (∀ v, fst (Treiber.step b p s) ≠ Treiber.Return (Int v)) →
       snd (Treiber.step b p s) = s)
  ∧ (∀ b p q, MSQueue.dequeuing p →
       (∀ v, fst (MSQueue.step b p q) ≠ MSQueue.Return (Int v)) →
       MSQueue.head (snd (MSQueue.step b p q)) = MSQueue.head q
       ∧ MSQueue.nodes (snd (MSQueue.step b p q)) = MSQueue.nodes q).
Proof.
  split; [exact Sgl.sgl_pop_empty_keeps|]. split; [exact Sgl.sgl_dequeue_empty_keeps|].
  split; [|split; [|split]].
  - intros fuel o s s' o'. by apply Treiber.pop_empty_keeps.
  - intros fuel o q q' o'. by apply MSQueue.dequeue_empty_keeps.
  - exact Treiber.pop_step_keeps.
  - exact MSQueue.dequeue_step_keeps.
Qed.

(** A queue whose [tail] lags behind the one node it holds. *)
Definition behind : MSQueue.msqueue :=
  MSQueue.Queue [Some (Node 0 (Some 1%nat)); Some (Node 7 None)]
                (Some 0%nat) (Some 0%nat).

Lemma empty_error_changes_nothing_witness :
  (Sgl.pop Sgl.new_stack = Some (Empty_error, Sgl.new_stack)
   ∧ Sgl.new_stack = Sgl.new_stack)
  ∧ (Sgl.dequeue Sgl.new_queue = Some (Empty_error, Sgl.new_queue)
     ∧ Sgl.new_queue = Sgl.new_queue)
  ∧ (Treiber.exec 1 [] Treiber.Pop_load Treiber.new
       = Finished Empty_error Treiber.new []
     ∧ Treiber.new = Treiber.new)
  ∧ (MSQueue.exec 4 [] MSQueue.Deq_head MSQueue.new
       = Finished Empty_error MSQueue.new []
     ∧ MSQueue.new = MSQueue.new)
  ∧ snd (Treiber.step false Treiber.Pop_load Treiber.new) = Treiber.new
  ∧ MSQueue.tail (snd (MSQueue.step false (MSQueue.Deq_help (Some 0%nat) (Some 1%nat))
                         behind)) = Some 1%nat
  ∧ MSQueue.head (snd (MSQueue.step false (MSQueue.Deq_help (Some 0%nat) (Some 1%nat))
                         behind)) = MSQueue.head behind
  ∧ MSQueue.nodes (snd (MSQueue.step false (MSQueue.Deq_help (Some 0%nat) (Some 1%nat))
                          behind)) = MSQueue.nodes behind.
Proof.
  destruct empty_error_changes_nothing as (H1 & H2 & H3 & H4 & H5 & H6).
  split; [split; [reflexivity|]|]. { apply H1. reflexivity. }
  split; [split; [reflexivity|]|]. { apply H2. reflexivity. }
  split; [split; [reflexivity|]|]. { apply (H3 1%nat [] _ _ []). reflexivity. }
  split; [split; [reflexivity|]|]. { apply (H4 4%nat [] _ _ []). reflexivity. }
  split. { apply H5; [exact I|]. intros v. discriminate. }
  split; [reflexivity|].
  apply H6; [exact I|]. intros v. discriminate.
Defined.

(** ** Flat-combining stack and queue ([fc_stack.cpp], [fc_queue.cpp]) *)

Module FC.

Definition MAX_THREADS : Z := 32.

(** [int] arithmetic on the atomic counters wraps around. *)
Definition wrap (z : Z) : Z := (z + 2 ^ 31) mod 2 ^ 32 - 2 ^ 31.

(** *** Slot assignment

    The counter is a function-level [static], shared by every container of
    the class; [my_slot] is a [thread_local] of the function. *)
Record registry : Type := Registry { counter : Z; my_slot : gmap nat Z }.

(** No thread has called [get_slot] yet. *)
Definition no_threads : registry := Registry 0 ∅.

(** [fc_stack::get_slot]:
    [static thread_local int my_slot = counter.fetch_add(1); return my_slot;] *)
Definition stack_get_slot (t : nat) (r : registry) : Z * registry :=
  match my_slot r !! t with
  | Some s => (s, r)
  | None =>
      (counter r, Registry (wrap (counter r + 1)) (<[t := counter r]> (my_slot r)))
  end.

(** [fc_queue::get_slot]:
    [static thread_local int my_slot = -1;
     if(my_slot == -1) my_slot = counter.fetch_add(1) % MAX_THREADS;
     return my_slot;] *)
Definition queue_get_slot (t : nat) (r : registry) : Z * registry :=
  let cur := match my_slot r !! t with Some s => s | None => -1 end in
  if cur =? -1 then
    let s := Z.rem (counter r) MAX_THREADS in
    (s, Registry (wrap (counter r + 1)) (<[t := s]> (my_slot r)))
  else (cur, r).

(** The threads [0 .. n-1] make their first call one after the other. *)
Fixpoint arrive (get_slot : nat → registry → Z * registry) (n : nat) (r : registry)
  : registry :=
  match n with
  | O => r
  | S n' => snd (get_slot n' (arrive get_slot n' r))
  end.

(** *** The containers *)

Record slot : Type := Slot { op : Z; val : Z; result : Z; done : bool }.

(** The sequential container [data], the combiner's mutex [lock], and the
    array [slots[MAX_THREADS]]. *)
Record container : Type := Container {
  data : list Z;
  lock : bool;
  slots : list slot;
}.

(** The constructors set [op = 0] and [done = false] in every slot and write
    neither [val] nor [result]: these start with what the object's storage
    holds, given here by [memory] (zero for zeroed storage, and for
    [std::atomic]'s value-initialising default constructor of C++20). *)
Definition new (memory : nat → Z * Z) : container :=
  Container [] false
    (map (λ i, Slot 0 (fst (memory i)) (snd (memory i)) false)
         (seq 0 (Z.to_nat MAX_THREADS))).

(** [slots[s]]; an index outside the array is undefined behaviour. *)
Definition slot_at (s : Z) (c : container) : option slot :=
  if (0 <=? s) && (s <? MAX_THREADS) then slots c !! Z.to_nat s else None.

Definition set_slot (s : Z) (x : slot) (c : container) : container :=
  Container (data c) (lock c) (<[Z.to_nat s := x]> (slots c)).

Inductive outcome : Type :=
| Returns (r : ret) (c : container)
| Undefined
| Spins (c : container).

(** [std::mutex::try_lock] may fail although the mutex is free. *)
Definition try_lock (spurious : bool) (c : container) : bool :=
  negb (lock c) && negb spurious.

Section Combining.
(** [data.push(v)]: on top of a [std::stack], at the back of a [std::queue].
    [data.top()] and [data.front()] are the head of the list, and [data.pop()]
    removes it. *)
Variable put : Z → list Z → list Z.
(** What the other threads do to the container while the caller yields. *)
Variable others : container → container.

(** One iteration of the loop of [combine]. *)
Definition combine_slot (c : container) (i : nat) : container :=
  match slots c !! i with
  | Some x =>
      if op x =? 1 then
        Container (put (val x) (data c)) (lock c)
                  (<[i := Slot (op x) (val x) (result x) true]> (slots c))
      else if op x =? 2 then
        match data c with
        | v :: d =>
            Container d (lock c) (<[i := Slot (op x) (val x) v true]> (slots c))
        | [] =>
            Container [] (lock c)
                      (<[i := Slot (op x) (val x) (result x) true]> (slots c))
        end
      else c
  | None => c
  end.

(** [for(int i = 0; i < MAX_THREADS; i++) ...] *)
Definition combine (c : container) : container :=
  foldl combine_slot c (seq 0 (Z.to_nat MAX_THREADS)).

(** [if(lock.try_lock()) { combine(); lock.unlock(); }
     else { while(!slots[s].done) std::this_thread::yield(); }]
    When the lock is not acquired the caller goes on once the other threads
    have set [done]; if they do not, it waits for ever. *)
Definition serve (spurious : bool) (s : Z) (c : container) : option container :=
  if try_lock spurious c then
    let c' := combine (Container (data c) true (slots c)) in
    Some (Container (data c') false (slots c'))
  else
    match slot_at s (others c) with
    | Some x => if done x then Some (others c) else None
    | None => None
    end.

(** [slots[s].op = 0]: what a caller does once it has been served. *)
Definition retire (s : Z) (c : container) : option container :=
  match slot_at s c with
  | Some x => Some (set_slot s (Slot 0 (val x) (result x) (done x)) c)
  | None => None
  end.

(** [if(slots[s].result == -1) throw std::runtime_error("empty");
     return slots[s].result;]
    with both reads of [result] seeing one value, as they do when no
    combiner writes the slot in between. *)
Definition report (s : Z) (c : container) : option ret :=
  match slot_at s c with
  | Some x => Some (if result x =? -1 then Empty_error else Int (result x))
  | None => None
  end.

(** [push] and [enqueue], called with [s = get_slot()], as one action: the
    other threads act only while the caller waits. *)
Definition push (spurious : bool) (s : Z) (value : Z) (c : container) : outcome :=
  match slot_at s c with
  | None => Undefined
  | Some x =>
      let c1 := set_slot s (Slot 1 value (result x) false) c in
      match serve spurious s c1 with
      | None => Spins c1
      | Some c2 =>
          match retire s c2 with
          | Some c3 => Returns Void c3
          | None => Undefined
          end
      end
  end.

(** [pop] and [dequeue], called with [s = get_slot()], as one action: the
    other threads act only while the caller waits.  This is the call of a
    thread that runs alone; [FCSteps] has the call statement by statement,
    for the interleavings. *)
Definition pop (spurious : bool) (s : Z) (c : container) : outcome :=
  match slot_at s c with
  | None => Undefined
  | Some x =>
      let c1 := set_slot s (Slot 2 (val x) (result x) false) c in
      match serve spurious s c1 with
      | None => Spins c1
      | Some c2 =>
          match retire s c2 with
          | Some c3 =>
              match report s c3 with
              | Some r => Returns r c3
              | None => Undefined
              end
          | None => Undefined
          end
      end
  end.


Lemma combine_slot_idle c i x :
  slots c !! i = Some x → op x = 0 → combine_slot c i = c.
Proof. intros Hx Hop. unfold combine_slot. by rewrite Hx, Hop. Qed.

Lemma combine_slot_other c i j :
  i ≠ j → slots (combine_slot c i) !! j = slots c !! j.
Proof.
  intros Hne. unfold combine_slot.
  destruct (slots c !! i) as [x|]; [|done].
  destruct (op x =? 1); [by apply list_lookup_insert_ne|].
  destruct (op x =? 2); [|done].
  destruct (data c); by apply list_lookup_insert_ne.
Qed.

Lemma combine_slot_length c i :
  length (slots (combine_slot c i)) = length (slots c).
Proof.
  unfold combine_slot.
  destruct (slots c !! i) as [x|]; [|done].
  destruct (op x =? 1); [by apply length_insert|].
  destruct (op x =? 2); [|done].
  destruct (data c); by apply length_insert.
Qed.

(** Slots without a request are passed over. *)
Lemma foldl_combine_idle l : ∀ c,
  (∀ i, i ∈ l → ∃ x, slots c !! i = Some x ∧ op x = 0) →
  foldl combine_slot c l = c.
Proof.
  induction l as [|i l IH]; intros c Hl; [done|]. simpl.
  destruct (Hl i) as (x & Hx & Hop); [by left|].
  rewrite (combine_slot_idle c i x) by done.
  apply IH. intros j Hj. apply Hl. by right.
Qed.

(** With a single request posted, [combine] serves that one. *)
Lemma combine_single c (s : nat) :
  (s < Z.to_nat MAX_THREADS)%nat →
  (∀ i, (i < Z.to_nat MAX_THREADS)%nat → i ≠ s →
        ∃ x, slots c !! i = Some x ∧ op x = 0) →
  combine c = combine_slot c s.
Proof.
  intros Hs Hidle. unfold combine.
  replace (Z.to_nat MAX_THREADS) with (s + (1 + (Z.to_nat MAX_THREADS - S s)))%nat
    by lia.
  rewrite !seq_app, !foldl_app. cbn [seq foldl].
  rewrite (foldl_combine_idle (seq 0 s) c).
  - apply foldl_combine_idle. intros i [Hi1 Hi2]%elem_of_seq.
    rewrite combine_slot_other by lia. apply Hidle; lia.
  - intros i [Hi1 Hi2]%elem_of_seq. apply Hidle; lia.
Qed.




(** No call in progress: the lock is free and no slot holds a request. *)
Definition quiescent (c : container) : Prop :=
  lock c = false
  ∧ length (slots c) = Z.to_nat MAX_THREADS
  ∧ ∀ i x, slots c !! i = Some x → op x = 0.

Lemma slot_at_Some s c :
  length (slots c) = Z.to_nat MAX_THREADS → 0 ≤ s < MAX_THREADS →
  ∃ x, slot_at s c = Some x ∧ slots c !! Z.to_nat s = Some x.
Proof.
  intros Hlen Hs. unfold slot_at.
  destruct (lookup_lt_is_Some_2 (slots c) (Z.to_nat s)) as [x Hx]; [lia|].
  exists x. rewrite Hx.
  replace (0 <=? s) with true by (symmetry; apply Z.leb_le; lia).
  replace (s <? MAX_THREADS) with true by (symmetry; apply Z.ltb_lt; lia).
  done.
Qed.

Lemma slot_at_set s x c :
  length (slots c) = Z.to_nat MAX_THREADS → 0 ≤ s < MAX_THREADS →
  slot_at s (set_slot s x c) = Some x.
Proof.
  intros Hlen Hs. unfold slot_at, set_slot; cbn [slots].
  replace (0 <=? s) with true by (symmetry; apply Z.leb_le; lia).
  replace (s <? MAX_THREADS) with true by (symmetry; apply Z.ltb_lt; lia).
  cbn [andb]. apply list_lookup_insert_eq. lia.
Qed.

(** What a caller that finds the container quiescent gets from the combiner:
    its own request is the only one served. *)
Lemma serve_alone s x c :
  quiescent c → 0 ≤ s < MAX_THREADS →
  serve false s (set_slot s x c)
  = Some (let c' := combine_slot (Container (data c) true (<[Z.to_nat s := x]> (slots c)))
                                 (Z.to_nat s) in
          Container (data c') false (slots c')).
Proof.
  intros (Hl & Hlen & Hidle) Hs. unfold serve, try_lock, set_slot; cbn [lock data slots].
  rewrite Hl. cbn [negb andb]. rewrite (combine_single _ (Z.to_nat s)); [done|lia|].
  intros i Hi Hne. cbn [slots]. rewrite list_lookup_insert_ne by done.
  destruct (lookup_lt_is_Some_2 (slots c) i) as [y Hy]; [lia|].
  exists y. split; [done|]. by eapply Hidle.
Qed.

Lemma push_alone s v c :
  quiescent c → 0 ≤ s < MAX_THREADS →
  ∃ x, slots c !! Z.to_nat s = Some x
       ∧ push false s v c
         = Returns Void
             (Container (put v (data c)) false
                (<[Z.to_nat s := Slot 0 v (result x) true]> (slots c))).
Proof.
  intros Hq Hs. pose proof Hq as (Hl & Hlen & Hidle).
  destruct (slot_at_Some s c Hlen Hs) as (x & Hat & Hx).
  exists x. split; [done|]. unfold push. rewrite Hat, serve_alone by done.
  cbn zeta. unfold combine_slot; cbn [slots data lock].
  rewrite list_lookup_insert_eq by lia. cbn [op val result Z.eqb Pos.eqb].
  cbn [data slots lock]. rewrite list_insert_insert_eq. unfold retire.
  assert (length (<[Z.to_nat s:=Slot 1 v (result x) true]> (slots c))
          = Z.to_nat MAX_THREADS) as Hlen' by (by rewrite length_insert).
  destruct (slot_at_Some s (Container (put v (data c)) false
              (<[Z.to_nat s:=Slot 1 v (result x) true]> (slots c))) Hlen' Hs)
    as (y & -> & Hy).
  cbn [slots] in Hy. rewrite list_lookup_insert_eq in Hy by lia.
  injection Hy as <-. unfold set_slot; cbn [data lock slots val result done].
  by rewrite list_insert_insert_eq.
Qed.

Lemma pop_alone s c :
  quiescent c → 0 ≤ s < MAX_THREADS →
  ∃ x, slots c !! Z.to_nat s = Some x
       ∧ pop false s c
         = match data c with
           | [] =>
               Returns (if result x =? -1 then Empty_error else Int (result x))
                 (Container [] false
                    (<[Z.to_nat s := Slot 0 (val x) (result x) true]> (slots c)))
           | v :: d =>
               Returns (if v =? -1 then Empty_error else Int v)
                 (Container d false
                    (<[Z.to_nat s := Slot 0 (val x) v true]> (slots c)))
           end.
Proof.
  intros Hq Hs. pose proof Hq as (Hl & Hlen & Hidle).
  destruct (slot_at_Some s c Hlen Hs) as (x & Hat & Hx).
  exists x. split; [done|]. unfold pop. rewrite Hat, serve_alone by done.
  cbn zeta. unfold combine_slot; cbn [slots data lock].
  rewrite list_lookup_insert_eq by lia. cbn [op val result Z.eqb Pos.eqb].
  destruct (data c) as [|v d]; cbn [data slots lock]; rewrite list_insert_insert_eq;
    unfold retire, report.
  - assert (length (<[Z.to_nat s:=Slot 2 (val x) (result x) true]> (slots c))
            = Z.to_nat MAX_THREADS) as Hlen' by (by rewrite length_insert).
    destruct (slot_at_Some s (Container [] false
                (<[Z.to_nat s:=Slot 2 (val x) (result x) true]> (slots c))) Hlen' Hs)
      as (y & -> & Hy).
    cbn [slots] in Hy. rewrite list_lookup_insert_eq in Hy by lia.
    injection Hy as <-. cbn [val result done].
    rewrite slot_at_set by done. cbn [result].
    unfold set_slot; cbn [data lock slots]. by rewrite list_insert_insert_eq.
  - assert (length (<[Z.to_nat s:=Slot 2 (val x) v true]> (slots c))
            = Z.to_nat MAX_THREADS) as Hlen' by (by rewrite length_insert).
    destruct (slot_at_Some s (Container d false
                (<[Z.to_nat s:=Slot 2 (val x) v true]> (slots c))) Hlen' Hs)
      as (y & -> & Hy).
    cbn [slots] in Hy. rewrite list_lookup_insert_eq in Hy by lia.
    injection Hy as <-. cbn [val result done].
    rewrite slot_at_set by done. cbn [result].
    unfold set_slot; cbn [data lock slots]. by rewrite list_insert_insert_eq.
Qed.



End Combining.

(** [std::stack::push] and [std::queue::push]. *)
Definition stack_put (v : Z) (d : list Z) : list Z := v :: d.
Definition queue_put (v : Z) (d : list Z) : list Z := d ++ [v].

(** No other thread is running. *)
Definition alone (c : container) : container := c.

(** A call by thread [t]: [int s = get_slot();] and the rest of the body. *)
Definition call_by {A} (get_slot : nat → registry → Z * registry)
    (body : Z → A) (t : nat) (r : registry) : A * registry :=
  (body (fst (get_slot t r)), snd (get_slot t r)).

Definition fc_stack_push := push stack_put.
Definition fc_stack_pop := pop stack_put.
Definition fc_queue_enqueue := push queue_put.
Definition fc_queue_dequeue := pop queue_put.

Lemma new_slot memory i :
  (i < Z.to_nat MAX_THREADS)%nat →
  slots (new memory) !! i = Some (Slot 0 (fst (memory i)) (snd (memory i)) false).
Proof.
  intros Hi. unfold new; cbn [slots].
  rewrite list_lookup_fmap, lookup_seq_lt by done. done.
Qed.

Lemma quiescent_new memory : quiescent (new memory).
Proof.
  split; [done|]. split.
  - unfold new; cbn [slots]. by rewrite length_map, length_seq.
  - intros i x Hx. assert (i < Z.to_nat MAX_THREADS)%nat as Hi.
    { apply lookup_lt_Some in Hx. unfold new in Hx; cbn [slots] in Hx.
      by rewrite length_map, length_seq in Hx. }
    rewrite new_slot in Hx by done. by injection Hx as <-.
Qed.

(** On a fresh container, alone: [pop] and [dequeue] find [data] empty and
    report what the storage of [result] held. *)
Lemma pop_new put others memory s :
  0 ≤ s < MAX_THREADS →
  ∃ c, pop put others false s (new memory)
       = Returns (if snd (memory (Z.to_nat s)) =? -1 then Empty_error
                  else Int (snd (memory (Z.to_nat s)))) c.
Proof.
  intros Hs.
  destruct (pop_alone put others s (new memory) (quiescent_new memory) Hs) as (x & Hx & ->).
  rewrite new_slot in Hx by lia. injection Hx as <-. cbn [data new result]. eauto.
Qed.

(** *** Slot indices *)

(** [fc_stack::get_slot] hands out the value of the counter. *)
Lemma stack_arrive_counter n :
  (n ≤ 1000)%nat →
  counter (arrive stack_get_slot n no_threads) = Z.of_nat n
  ∧ ∀ t, (n ≤ t)%nat → my_slot (arrive stack_get_slot n no_threads) !! t = None.
Proof.
  induction n as [|n IH]; intros Hn; [done|].
  destruct IH as [Hc Hm]; [lia|]. cbn [arrive].
  set (r := arrive stack_get_slot n no_threads) in *. unfold stack_get_slot.
  rewrite (Hm n) by lia. cbn [snd counter my_slot]. rewrite Hc. split.
  - unfold wrap. rewrite Z.mod_small by lia. lia.
  - intros t Ht. rewrite lookup_insert_ne by lia. apply Hm. lia.
Qed.

(** A thread keeps the index of its first call. *)
Lemma stack_get_slot_stable t r :
  fst (stack_get_slot t (snd (stack_get_slot t r))) = fst (stack_get_slot t r).
Proof.
  unfold stack_get_slot. destruct (my_slot r !! t) as [s|] eqn:E; cbn [fst snd].
  - by rewrite E.
  - cbn [my_slot]. by rewrite lookup_insert_eq.
Qed.

(** [fc_queue::get_slot] reduces the counter modulo [MAX_THREADS]: while the
    counter has not wrapped around, the index is in range and is kept. *)
Lemma queue_get_slot_range t r :
  0 ≤ counter r →
  (∀ s, my_slot r !! t = Some s → 0 ≤ s < MAX_THREADS) →
  0 ≤ fst (queue_get_slot t r) < MAX_THREADS.
Proof.
  intros Hc Hm. unfold queue_get_slot.
  destruct (my_slot r !! t) as [s|] eqn:E; cbn zeta.
  - specialize (Hm s eq_refl). destruct (s =? -1) eqn:Es; cbn [fst]; [|done].
    apply Z.eqb_eq in Es. lia.
  - cbn [Z.eqb Pos.eqb fst]. unfold MAX_THREADS.
    pose proof (Z.rem_bound_pos (counter r) 32). lia.
Qed.

Lemma queue_get_slot_stable t r :
  0 ≤ counter r →
  (∀ s, my_slot r !! t = Some s → 0 ≤ s < MAX_THREADS) →
  fst (queue_get_slot t (snd (queue_get_slot t r))) = fst (queue_get_slot t r).
Proof.
  intros Hc Hm. unfold queue_get_slot at 2 3.
  destruct (my_slot r !! t) as [s|] eqn:E; cbn zeta.
  - specialize (Hm s eq_refl). destruct (s =? -1) eqn:Es.
    { apply Z.eqb_eq in Es. lia. }
    cbn [fst snd]. unfold queue_get_slot. rewrite E; cbn zeta. by rewrite Es.
  - cbn [Z.eqb Pos.eqb fst snd]. unfold queue_get_slot; cbn [my_slot].
    rewrite lookup_insert_eq; cbn zeta.
    pose proof (Z.rem_bound_pos (counter r) 32). unfold MAX_THREADS.
    destruct (Z.rem (counter r) 32 =? -1) eqn:Es; [|done].
    apply Z.eqb_eq in Es. lia.
Qed.

Lemma wrap_succ z : wrap (wrap z + 1) = wrap (z + 1).
Proof.
  unfold wrap. f_equal.
  replace ((z + 2 ^ 31) mod 2 ^ 32 - 2 ^ 31 + 1 + 2 ^ 31)
    with ((z + 2 ^ 31) mod 2 ^ 32 + 1) by lia.
  rewrite Zplus_mod_idemp_l. f_equal. lia.
Qed.

(** After [n] first calls the counter of [fc_queue::get_slot] is [n],
    wrapped. *)
Lemma queue_arrive_counter n :
  counter (arrive queue_get_slot n no_threads) = wrap (Z.of_nat n)
  ∧ ∀ t, (n ≤ t)%nat → my_slot (arrive queue_get_slot n no_threads) !! t = None.
Proof.
  induction n as [|n [Hc Hm]]; [done|]. cbn [arrive].
  set (r := arrive queue_get_slot n no_threads) in *. unfold queue_get_slot.
  rewrite (Hm n) by lia. cbn [Z.eqb Pos.eqb snd counter my_slot]. rewrite Hc. split.
  - rewrite wrap_succ. f_equal. lia.
  - intros t Ht. rewrite lookup_insert_ne by lia. apply Hm. lia.
Qed.

(** Once the counter has wrapped around, the remainder is negative: the
    thread that makes first call number 2^31 + 2 is given index -31. *)
Lemma queue_slot_after_wrap :
  fst (queue_get_slot (Z.to_nat 2147483649)
         (arrive queue_get_slot (Z.to_nat 2147483649) no_threads)) = -31.
Proof.
  destruct (queue_arrive_counter (Z.to_nat 2147483649)) as [Hc Hm].
  specialize (Hm _ (le_n _)). rewrite Z2Nat.id in Hc by lia.
  set (r := arrive queue_get_slot (Z.to_nat 2147483649) no_threads) in *.
  unfold queue_get_slot. rewrite Hm. cbn [Z.eqb Pos.eqb fst].
  rewrite Hc. by vm_compute.
Qed.


End FC.

(** C3. [pop] or [dequeue] as the first call on a fresh container.  The
    lock-based stack and queue, the Treiber stack, the Michael-Scott queue and
    the elimination stack throw the empty error.  The flat-combining stack
    and queue do not: the combiner finds [data] empty and writes nothing, and
    the caller returns what the storage of [result] held, which no
    constructor sets to -1; on zeroed storage they return 0. *)
Theorem fresh_pop_reports :
  Sgl.pop Sgl.new_stack = Some (Empty_error, Sgl.new_stack)
  ∧ Sgl.dequeue Sgl.new_queue = Some (Empty_error, Sgl.new_queue)
  ∧ (∀ o, Treiber.exec 1 o Treiber.Pop_load Treiber.new
          = Finished Empty_error Treiber.new o)
  ∧ (∀ o, MSQueue.exec 4 o MSQueue.Deq_head MSQueue.new
          = Finished Empty_error MSQueue.new o)
  ∧ (∀ g o, ∃ s', Elimination.exec 2 o Elimination.Pop_elim (Elimination.new g)
                  = Finished Empty_error s' o)
  ∧ (∃ c, FC.fc_stack_pop FC.alone false 0 (FC.new (λ _, (0, 0)))
          = FC.Returns (Int 0) c)
  ∧ (∃ c, FC.fc_queue_dequeue FC.alone false 0 (FC.new (λ _, (0, 0)))
          = FC.Returns (Int 0) c).
Proof.
  split; [reflexivity|]. split; [reflexivity|]. split; [reflexivity|].
  split; [reflexivity|]. split.
  { intros g o. unfold Elimination.exec.
    rewrite run_unfold by reflexivity.
    cbn [Elimination.weak Elimination.step Elimination.rand].
    rewrite Elimination.idle_slot by apply Elimination.idle_new.
    cbn [cas_strong bool_decide decide_rel fst snd]. eexists. reflexivity. }
  split.
  - destruct (FC.pop_new FC.stack_put FC.alone (λ _, (0, 0)) 0) as [c Hc]; [done|].
    exists c. exact Hc.
  - destruct (FC.pop_new FC.queue_put FC.alone (λ _, (0, 0)) 0) as [c Hc]; [done|].
    exists c. exact Hc.
Qed.

(** C5. The 33rd thread that calls [fc_stack::get_slot] is given index 32,
    which [fc_stack::get_slot] does not reduce modulo [MAX_THREADS]: its
    [push] and [pop] access [slots[32]], outside the array.
    [fc_queue::get_slot] gives the same thread index 0, and its [enqueue]
    returns. *)
Theorem fc_stack_slot_out_of_range :
  fst (FC.stack_get_slot 32 (FC.arrive FC.stack_get_slot 32 FC.no_threads)) = 32
  ∧ (∀ others memory v spurious,
       fst (FC.call_by FC.stack_get_slot
              (λ s, FC.fc_stack_push others spurious s v (FC.new memory))
              32 (FC.arrive FC.stack_get_slot 32 FC.no_threads))
       = FC.Undefined)
  ∧ (∀ others memory spurious,
       fst (FC.call_by FC.stack_get_slot
              (λ s, FC.fc_stack_pop others spurious s (FC.new memory))
              32 (FC.arrive FC.stack_get_slot 32 FC.no_threads))
       = FC.Undefined)
  ∧ fst (FC.queue_get_slot 32 (FC.arrive FC.queue_get_slot 32 FC.no_threads)) = 0
  ∧ (∀ others memory v, ∃ c,
       fst (FC.call_by FC.queue_get_slot
              (λ s, FC.fc_queue_enqueue others false s v (FC.new memory))
              32 (FC.arrive FC.queue_get_slot 32 FC.no_threads))
       = FC.Returns Void c).
Proof.
  assert (fst (FC.stack_get_slot 32 (FC.arrive FC.stack_get_slot 32 FC.no_threads))
          = 32) as Hs by (by vm_compute).
  assert (fst (FC.queue_get_slot 32 (FC.arrive FC.queue_get_slot 32 FC.no_threads))
          = 0) as Hq by (by vm_compute).
  split; [exact Hs|]. split; [|split; [|split]].
  - intros others memory v spurious. unfold FC.call_by; cbn [fst]. by rewrite Hs.
  - intros others memory spurious. unfold FC.call_by; cbn [fst]. by rewrite Hs.
  - exact Hq.
  - intros others memory v. unfold FC.call_by; cbn [fst]. rewrite Hq.
    clear Hs Hq.
    destruct (FC.push_alone FC.queue_put others 0 v (FC.new memory)
                (FC.quiescent_new memory)) as (x & _ & Hpush);
      [unfold FC.MAX_THREADS; lia|].
    eexists. exact Hpush.
Qed.

(** ** Epoch condition variable and bounded queue ([condvar.cpp]) *)

Module Bounded.

Definition SIZE : Z := 50.

(** [++epoch] on a [std::size_t]. *)
Definition bump (epoch : Z) : Z := (epoch + 1) mod 2 ^ 64.

(** [int buffer[SIZE]; int head, tail, count; std::mutex lock;
     condvar_no_spurious not_full, not_empty;]
    Of a [condvar_no_spurious] only [epoch] is state of its own: the
    condition variable [cv] it wraps is the blocking of the waiting threads. *)
Record bounded_queue : Type := BQ {
  buffer : list Z;
  head : Z;
  tail : Z;
  count : Z;
  lock : bool;
  not_full : Z;
  not_empty : Z;
}.

(** [bounded_queue() : head(0), tail(0), count(0)]; the [SIZE] cells of
    [buffer] are not initialised and start with what [memory] holds. *)
Definition new (memory : nat → Z) : bounded_queue :=
  BQ (map memory (seq 0 (Z.to_nat SIZE))) 0 0 0 false 0 0.

(** Control points.  [condvar_no_spurious::wait] is
    [my_epoch = epoch; cv.wait(lock, [&]{ return epoch != my_epoch; })], and
    [cv.wait(lock, pred)] is [while(!pred()) cv.wait(lock)]: at [*_wait] the
    thread holds the mutex and tests the predicate; at [*_blocked] it has
    released the mutex and sleeps until it is woken, by a notification or
    spuriously, and takes the mutex again. *)
Inductive pc : Type :=
| Enq_lock (v : Z)                  (* std::unique_lock lk(lock) *)
| Enq_test (v : Z)                  (* while(count == SIZE); my_epoch = epoch *)
| Enq_wait (v : Z) (my_epoch : Z)   (* epoch != my_epoch ? *)
| Enq_blocked (v : Z) (my_epoch : Z)
| Enq_store (v : Z)                 (* buffer[tail] = v *)
| Enq_advance                       (* tail = (tail + 1) % SIZE *)
| Enq_count                         (* count++ *)
| Enq_signal                        (* not_empty.signal() *)
| Enq_unlock                        (* lk is destroyed *)
| Deq_lock                          (* std::unique_lock lk(lock) *)
| Deq_test                          (* while(count == 0); my_epoch = epoch *)
| Deq_wait (my_epoch : Z)           (* epoch != my_epoch ? *)
| Deq_blocked (my_epoch : Z)
| Deq_load                          (* v = buffer[head] *)
| Deq_advance (v : Z)               (* head = (head + 1) % SIZE *)
| Deq_count (v : Z)                 (* count-- *)
| Deq_signal (v : Z)                (* not_full.signal() *)
| Deq_unlock (v : Z)                (* return v; lk is destroyed *)
| Return (r : ret)
| Fault.

Definition start (op : queue_op) : pc :=
  match op with
  | Enqueue v => Enq_lock v
  | Dequeue => Deq_lock
  end.

Definition inspect (p : pc) : status :=
  match p with
  | Return r => Done r
  | Fault => Crashed
  | _ => Running
  end.

Definition weak (p : pc) : bool := false.

Definition set_lock (b : bool) (q : bounded_queue) : bounded_queue :=
  BQ (buffer q) (head q) (tail q) (count q) b (not_full q) (not_empty q).

(** A thread that finds the mutex taken stays where it is. *)
Definition acquire (p next : pc) (q : bounded_queue) : pc * bounded_queue :=
  if lock q then (p, q) else (next, set_lock true q).

Definition in_range (i : Z) : bool := (0 <=? i) && (i <? SIZE).

Definition step (wake : bool) (p : pc) (q : bounded_queue) : pc * bounded_queue :=
  match p with
  | Enq_lock v => acquire p (Enq_test v) q
  | Enq_test v =>
      if count q =? SIZE then (Enq_wait v (not_full q), q) else (Enq_store v, q)
  | Enq_wait v my_epoch =>
      if not_full q =? my_epoch
      then (Enq_blocked v my_epoch, set_lock false q)
      else (Enq_test v, q)
  | Enq_blocked v my_epoch => acquire p (Enq_wait v my_epoch) q
  | Enq_store v =>
      if in_range (tail q)
      then (Enq_advance,
            BQ (<[Z.to_nat (tail q) := v]> (buffer q)) (head q) (tail q) (count q)
               (lock q) (not_full q) (not_empty q))
      else (Fault, q)
  | Enq_advance =>
      (Enq_count,
       BQ (buffer q) (head q) (Z.rem (tail q + 1) SIZE) (count q)
          (lock q) (not_full q) (not_empty q))
  | Enq_count =>
      (Enq_signal,
       BQ (buffer q) (head q) (tail q) (count q + 1)
          (lock q) (not_full q) (not_empty q))
  | Enq_signal =>
      (Enq_unlock,
       BQ (buffer q) (head q) (tail q) (count q)
          (lock q) (not_full q) (bump (not_empty q)))
  | Enq_unlock => (Return Void, set_lock false q)
  | Deq_lock => acquire p Deq_test q
  | Deq_test =>
      if count q =? 0 then (Deq_wait (not_empty q), q) else (Deq_load, q)
  | Deq_wait my_epoch =>
      if not_empty q =? my_epoch
      then (Deq_blocked my_epoch, set_lock false q)
      else (Deq_test, q)
  | Deq_blocked my_epoch => acquire p (Deq_wait my_epoch) q
  | Deq_load =>
      if in_range (head q)
      then match buffer q !! Z.to_nat (head q) with
           | Some v => (Deq_advance v, q)
           | None => (Fault, q)
           end
      else (Fault, q)
  | Deq_advance v =>
      (Deq_count v,
       BQ (buffer q) (Z.rem (head q + 1) SIZE) (tail q) (count q)
          (lock q) (not_full q) (not_empty q))
  | Deq_count v =>
      (Deq_signal v,
       BQ (buffer q) (head q) (tail q) (count q - 1)
          (lock q) (not_full q) (not_empty q))
  | Deq_signal v =>
      (Deq_unlock v,
       BQ (buffer q) (head q) (tail q) (count q)
          (lock q) (bump (not_full q)) (not_empty q))
  | Deq_unlock v => (Return (Int v), set_lock false q)
  | Return r => (Return r, q)
  | Fault => (Fault, q)
  end.

Definition exec := run step weak inspect.
Definition exec_ops := run_ops start step weak inspect.

Abbreviation conf := (@config pc bounded_queue).
Definition bstep : conf → conf → Prop := cstep start step inspect.
Definition breachable (memory : nat → Z) : conf → Prop :=
  reachable start step inspect (new memory).

(** The invariant of the circular buffer. *)
Definition ring (q : bounded_queue) : Prop :=
  0 ≤ count q ≤ SIZE ∧ tail q = (head q + count q) mod SIZE.

(** The control points at which the thread holds the mutex. *)
Definition holding (p : pc) : bool :=
  match p with
  | Enq_lock _ | Enq_blocked _ _ | Deq_lock | Deq_blocked _ | Return _ | Fault => false
  | _ => true
  end.

Definition good (q : bounded_queue) : Prop := 0 ≤ head q < SIZE ∧ ring q.

(** What holds of the indices while the holder of the mutex is at [p]:
    between the update of an index and the update of [count] the two are one
    apart. *)
Definition ring_at (p : pc) (q : bounded_queue) : Prop :=
  match p with
  | Enq_store _ | Enq_advance => good q ∧ count q < SIZE
  | Enq_count =>
      0 ≤ head q < SIZE ∧ 0 ≤ count q < SIZE
      ∧ tail q = (head q + count q + 1) mod SIZE
  | Deq_load | Deq_advance _ => good q ∧ 0 < count q
  | Deq_count _ =>
      0 ≤ head q < SIZE ∧ 0 < count q ≤ SIZE
      ∧ tail q = (head q + count q - 1) mod SIZE
  | _ => good q
  end.

Lemma good_set_lock b q : good (set_lock b q) ↔ good q.
Proof. done. Qed.

(** A step of the holder of the mutex: it still holds it and the indices are
    as its new control point wants them, or it has released it and the ring
    invariant holds. *)
Lemma holder_step b p q :
  holding p = true → ring_at p q → lock q = true →
  (holding (fst (step b p q)) = true
   ∧ lock (snd (step b p q)) = true
   ∧ ring_at (fst (step b p q)) (snd (step b p q)))
  ∨ (holding (fst (step b p q)) = false ∧ good (snd (step b p q))).
Proof.
  intros Hh Hr Hl. unfold good, ring, SIZE in *.
  destruct p; try done; cbn [step ring_at] in *; unfold good, ring, SIZE in *.
  - (* Enq_test *)
    destruct (count q =? 50) eqn:E; cbn [fst snd holding ring_at]; left;
      unfold good, ring, SIZE.
    + done.
    + apply Z.eqb_neq in E. repeat split; try done; lia.
  - (* Enq_wait *)
    destruct (not_full q =? my_epoch); cbn [fst snd holding ring_at];
      [right|left]; done.
  - (* Enq_store *)
    unfold in_range, SIZE.
    destruct Hr as [(Hhd & Hc & Ht) Hlt].
    pose proof (Z.mod_pos_bound (head q + count q) 50).
    replace (0 <=? tail q) with true by (symmetry; apply Z.leb_le; lia).
    replace (tail q <? 50) with true by (symmetry; apply Z.ltb_lt; lia).
    left. cbn [andb fst snd holding ring_at head tail count lock].
    unfold good, ring, SIZE; cbn [head tail count]. done.
  - (* Enq_advance *)
    left. cbn [fst snd holding ring_at head tail count lock]; unfold good, ring, SIZE in *;
      cbn [head tail count].
    destruct Hr as [(Hhd & Hc & Ht) Hlt].
    pose proof (Z.mod_pos_bound (head q + count q) 50).
    split; [done|]. split; [done|]. split; [done|]. split; [lia|].
    rewrite Z.rem_mod_nonneg by lia. rewrite Ht.
    rewrite Zplus_mod_idemp_l. done.
  - (* Enq_count *)
    left. cbn [fst snd holding ring_at head tail count lock]; unfold good, ring, SIZE in *;
      cbn [head tail count].
    unfold good, ring, SIZE; cbn [head tail count].
    destruct Hr as (Hhd & Hc & Ht). repeat split; try done; try lia.
    rewrite Ht. f_equal. lia.
  - (* Enq_signal *)
    left. cbn [fst snd holding ring_at head tail count lock]; unfold good, ring, SIZE in *;
      cbn [head tail count]. done.
  - (* Enq_unlock *)
    right. cbn [fst snd holding]. done.
  - (* Deq_test *)
    destruct (count q =? 0) eqn:E; cbn [fst snd holding ring_at]; left;
      unfold good, ring, SIZE.
    + done.
    + apply Z.eqb_neq in E. repeat split; try done; lia.
  - (* Deq_wait *)
    destruct (not_empty q =? my_epoch); cbn [fst snd holding ring_at];
      [right|left]; done.
  - (* Deq_load *)
    destruct (in_range (head q)); [|by right; destruct Hr].
    destruct (buffer q !! Z.to_nat (head q)); [|by right; destruct Hr].
    left. done.
  - (* Deq_advance *)
    left. cbn [fst snd holding ring_at head tail count lock]; unfold good, ring, SIZE in *;
      cbn [head tail count].
    destruct Hr as [(Hhd & Hc & Ht) Hlt].
    pose proof (Z.mod_pos_bound (head q + 1) 50).
    split; [done|]. split; [done|].
    rewrite Z.rem_mod_nonneg by lia. split; [lia|]. split; [lia|].
    rewrite Ht. replace (head q + count q) with ((head q + 1) + (count q - 1)) by lia.
    rewrite <- (Zplus_mod_idemp_l (head q + 1)). f_equal. lia.
  - (* Deq_count *)
    left. cbn [fst snd holding ring_at head tail count lock]; unfold good, ring, SIZE in *;
      cbn [head tail count].
    unfold good, ring, SIZE; cbn [head tail count].
    destruct Hr as (Hhd & Hc & Ht). repeat split; try done; try lia.
    rewrite Ht. f_equal. lia.
  - (* Deq_signal *)
    left. cbn [fst snd holding ring_at head tail count lock]; unfold good, ring, SIZE in *;
      cbn [head tail count]. done.
  - (* Deq_unlock *)
    right. cbn [fst snd holding]. done.
Qed.

(** A step of a thread that does not hold the mutex: nothing happens, or it
    takes the free mutex. *)
Lemma outsider_step b p q :
  holding p = false →
  step b p q = (p, q)
  ∨ (lock q = false
     ∧ holding (fst (step b p q)) = true
     ∧ snd (step b p q) = set_lock true q
     ∧ ring_at (fst (step b p q)) (set_lock true q) = good q).
Proof.
  intros Hh. destruct p; try done; cbn [step]; unfold acquire;
    try (by left); destruct (lock q) eqn:E; try (by left); right; done.
Qed.

Definition binv (c : conf) : Prop :=
  (∀ t p, threads c !! t = Some p → holding p = true →
          lock (shared c) = true ∧ ring_at p (shared c))
  ∧ (∀ t1 t2 p1 p2, threads c !! t1 = Some p1 → threads c !! t2 = Some p2 →
                    holding p1 = true → holding p2 = true → t1 = t2)
  ∧ ((∀ t p, threads c !! t = Some p → holding p = false) → good (shared c)).

Lemma good_new memory : good (new memory).
Proof. unfold good, ring, new; cbn [head tail count]. unfold SIZE. by vm_compute. Qed.

Lemma holding_start op : holding (start op) = false.
Proof. by destruct op. Qed.

Lemma binv_step c c' : binv c → bstep c c' → binv c'.
Proof.
  intros (Hhold & Hex & Hfree) Hstep.
  destruct Hstep as [c op|c t p r op Ht Hr|c t p b p' s' Ht Hrun Hstep];
    cbn [shared threads] in *.
  - (* a new thread *)
    split; [|split].
    + intros t p [Hp|[_ Hp]]%lookup_app_Some; [by eapply Hhold|].
      apply list_lookup_singleton_Some in Hp as [_ <-]. by rewrite holding_start.
    + intros t1 t2 p1 p2 [H1|[_ H1]]%lookup_app_Some [H2|[_ H2]]%lookup_app_Some.
      * by eapply Hex.
      * apply list_lookup_singleton_Some in H2 as [_ <-]. by rewrite holding_start.
      * apply list_lookup_singleton_Some in H1 as [_ <-]. by rewrite holding_start.
      * apply list_lookup_singleton_Some in H1 as [_ <-]. by rewrite holding_start.
    + intros Hnone. apply Hfree. intros t p Hp. apply (Hnone t).
      cbn [threads]. by apply lookup_app_l_Some.
  - (* a thread starts its next call *)
    assert (holding p = false) as Hp by (by destruct p).
    split; [|split].
    + intros t' p0 [[-> [<- _]]|[_ Hp0]]%list_lookup_insert_Some;
        [by rewrite holding_start|by eapply Hhold].
    + intros t1 t2 p1 p2
        [[-> [<- _]]|[? H1]]%list_lookup_insert_Some
        [[-> [<- _]]|[? H2]]%list_lookup_insert_Some;
        rewrite ?holding_start; try done.
      by eapply Hex.
    + intros Hnone. apply Hfree. intros t' p0 Hp0.
      destruct (decide (t' = t)) as [->|Hne]; [congruence|].
      apply (Hnone t'). cbn [threads]. rewrite list_lookup_insert_ne; [done|congruence].
  - (* a thread takes a step *)
    destruct (holding p) eqn:Hp.
    + (* the holder of the mutex *)
      destruct (Hhold t p Ht Hp) as [Hl Hr].
      assert (∀ t' p0, t' ≠ t → threads c !! t' = Some p0 → holding p0 = false)
        as Hothers.
      { intros t' p0 Hne Hp0. destruct (holding p0) eqn:E; [|done].
        destruct Hne. by eapply Hex. }
      destruct (holder_step b p (shared c) Hp Hr Hl) as [(Hh' & Hl' & Hr')|[Hh' Hg']];
        rewrite Hstep in *; cbn [fst snd] in *.
      * split; [|split].
        -- intros t' p0 [[-> [<- _]]|[Hne Hp0]]%list_lookup_insert_Some Hh0; [done|].
           rewrite (Hothers t' p0) in Hh0 by done. done.
        -- intros t1 t2 p1 p2
             [[-> [<- _]]|[Hne1 H1]]%list_lookup_insert_Some
             [[-> [<- _]]|[Hne2 H2]]%list_lookup_insert_Some Hh1 Hh2; try done.
           ++ rewrite (Hothers t2 p2) in Hh2 by done. done.
           ++ rewrite (Hothers t1 p1) in Hh1 by done. done.
           ++ rewrite (Hothers t1 p1) in Hh1 by done. done.
        -- intros Hnone. specialize (Hnone t p'). cbn [threads] in Hnone.
           rewrite list_lookup_insert_eq in Hnone by (by eapply lookup_lt_Some).
           specialize (Hnone eq_refl). congruence.
      * split; [|split].
        -- intros t' p0 [[-> [<- _]]|[Hne Hp0]]%list_lookup_insert_Some Hh0;
             [congruence|].
           rewrite (Hothers t' p0) in Hh0 by done. done.
        -- intros t1 t2 p1 p2
             [[-> [<- _]]|[Hne1 H1]]%list_lookup_insert_Some
             [[-> [<- _]]|[Hne2 H2]]%list_lookup_insert_Some Hh1 Hh2;
             try congruence.
           rewrite (Hothers t1 p1) in Hh1 by done. done.
        -- done.
    + (* another thread *)
      destruct (outsider_step b p (shared c) Hp) as [Hsame|(Hl & Hh' & Hs' & Hr')];
        rewrite Hstep in *; cbn [fst snd] in *.
      * injection Hsame as -> ->. rewrite list_insert_id by done. done.
      * assert (∀ t' p0, threads c !! t' = Some p0 → holding p0 = false) as Hnone.
        { intros t' p0 Hp0. destruct (holding p0) eqn:E; [|done].
          destruct (Hhold t' p0 Hp0 E) as [Hl' _]. congruence. }
        subst s'. split; [|split].
        -- intros t' p0 [[-> [<- _]]|[Hne Hp0]]%list_lookup_insert_Some Hh0.
           ++ cbn [shared]. split; [done|]. rewrite Hr'. by apply Hfree.
           ++ rewrite (Hnone t' p0) in Hh0 by done. done.
        -- intros t1 t2 p1 p2
             [[-> [<- _]]|[Hne1 H1]]%list_lookup_insert_Some
             [[-> [<- _]]|[Hne2 H2]]%list_lookup_insert_Some Hh1 Hh2; try done.
           ++ rewrite (Hnone t2 p2) in Hh2 by done. done.
           ++ rewrite (Hnone t1 p1) in Hh1 by done. done.
           ++ rewrite (Hnone t1 p1) in Hh1 by done. done.
        -- intros Hnone'. specialize (Hnone' t p'). cbn [threads] in Hnone'.
           rewrite list_lookup_insert_eq in Hnone' by (by eapply lookup_lt_Some).
           specialize (Hnone' eq_refl). congruence.
Qed.

Lemma binv_reachable memory c : breachable memory c → binv c.
Proof.
  induction 1 as [|c c' _ IH Hstep]; [|by eapply binv_step].
  split; [done|]. split; [done|]. intros _. apply good_new.
Qed.


(** *** Waiting on an epoch condition variable *)

Inductive condvar_no_spurious : Type := Not_full | Not_empty.

Definition epoch (cv : condvar_no_spurious) (q : bounded_queue) : Z :=
  match cv with
  | Not_full => not_full q
  | Not_empty => not_empty q
  end.

(** The thread is inside [cv.wait] with the snapshot [my_epoch]. *)
Definition waiting (p : pc) : option (condvar_no_spurious * Z) :=
  match p with
  | Enq_wait _ my_epoch | Enq_blocked _ my_epoch => Some (Not_full, my_epoch)
  | Deq_wait my_epoch | Deq_blocked my_epoch => Some (Not_empty, my_epoch)
  | _ => None
  end.

(** [n] wake-ups of a thread while no other thread runs. *)
Fixpoint wake (n : nat) (p : pc) (q : bounded_queue) : pc * bounded_queue :=
  match n with
  | O => (p, q)
  | S n' => wake n' (fst (step true p q)) (snd (step true p q))
  end.

(** While the epoch equals the snapshot, whatever the waiter does leaves it
    waiting. *)
Lemma waiter_stays b p q cv e :
  waiting p = Some (cv, e) → epoch cv q = e →
  waiting (fst (step b p q)) = Some (cv, e) ∧ epoch cv (snd (step b p q)) = e.
Proof.
  intros Hw He. destruct p; try done; cbn [waiting] in Hw;
    injection Hw as <- <-; cbn [step epoch] in *; unfold acquire.
  - rewrite He, Z.eqb_refl. done.
  - destruct (lock q); done.
  - rewrite He, Z.eqb_refl. done.
  - destruct (lock q); done.
Qed.

Lemma wake_stays n : ∀ p q cv e,
  waiting p = Some (cv, e) → epoch cv q = e →
  waiting (fst (wake n p q)) = Some (cv, e) ∧ epoch cv (snd (wake n p q)) = e.
Proof.
  induction n as [|n IH]; intros p q cv e Hw He; [done|]. cbn [wake].
  destruct (waiter_stays true p q cv e Hw He) as [Hw' He']. by apply IH.
Qed.

(** A waiter that holds the mutex returns from [wait] as soon as the epoch
    differs from its snapshot. *)
Lemma waiter_returns b p q cv e :
  waiting p = Some (cv, e) → holding p = true → epoch cv q ≠ e →
  waiting (fst (step b p q)) = None.
Proof.
  intros Hw Hh He. destruct p; try done; cbn [waiting] in Hw;
    injection Hw as <- <-; cbn [step epoch] in *.
  - apply Z.eqb_neq in He. by rewrite He.
  - apply Z.eqb_neq in He. by rewrite He.
Qed.

(** In an interleaving, a thread leaves [wait] only by a step of its own,
    taken when the epoch differs from its snapshot. *)
Lemma wait_left c c' t p p' cv e :
  bstep c c' →
  threads c !! t = Some p → threads c' !! t = Some p' →
  waiting p = Some (cv, e) → waiting p' ≠ Some (cv, e) →
  epoch cv (shared c) ≠ e.
Proof.
  intros Hstep Ht Ht' Hw Hw'.
  destruct Hstep as [c op|c t0 p0 r op Ht0 Hr|c t0 p0 b p1 s' Ht0 Hrun Hstep];
    cbn [shared threads] in *.
  - rewrite lookup_app_l in Ht' by (by eapply lookup_lt_Some). congruence.
  - destruct (decide (t0 = t)) as [->|Hne].
    + rewrite Ht in Ht0. injection Ht0 as <-. by destruct p.
    + rewrite list_lookup_insert_ne in Ht' by done. congruence.
  - destruct (decide (t0 = t)) as [->|Hne].
    + rewrite Ht in Ht0. injection Ht0 as <-.
      rewrite list_lookup_insert_eq in Ht' by (by eapply lookup_lt_Some).
      injection Ht' as <-. intros He.
      destruct (waiter_stays b p (shared c) cv e Hw He) as [Hw2 _].
      rewrite Hstep in Hw2. done.
    + rewrite list_lookup_insert_ne in Ht' by done. congruence.
Qed.


End Bounded.

(** C8. From the initial state [head = tail = count = 0], in every
    interleaving of calls of [enqueue] and [dequeue]: whenever the mutex is
    free, [0 <= count <= SIZE] and [tail = (head + count) mod SIZE]; these
    hold in particular in the state in which a call returns, and after every
    single-threaded program that runs to completion. *)
Theorem bounded_queue_ring (memory : nat → Z) (c : Bounded.conf) :
  Bounded.breachable memory c →
  (Bounded.lock (shared c) = false →
   0 ≤ Bounded.count (shared c) ≤ Bounded.SIZE
   ∧ Bounded.tail (shared c)
     = (Bounded.head (shared c) + Bounded.count (shared c)) mod Bounded.SIZE)
  ∧ (∀ t p b r, threads c !! t = Some p → Bounded.inspect p = Running →
       Bounded.inspect (fst (Bounded.step b p (shared c))) = Done r →
       Bounded.ring (snd (Bounded.step b p (shared c))))
  ∧ (∀ fuel o ops rs q,
       Bounded.exec_ops fuel o ops (Bounded.new memory) = Some (rs, q) →
       Bounded.ring q).
Proof.
  intros Hr. pose proof (Bounded.binv_reachable memory c Hr) as (Hhold & Hex & Hfree).
  split; [|split].
  - intros Hl. apply Hfree. intros t p Hp.
    destruct (Bounded.holding p) eqn:E; [|done].
    destruct (Hhold t p Hp E) as [Hl' _]. congruence.
  - intros t p b r Hp Hrun Hdone.
    destruct (Bounded.holding p) eqn:E.
    + destruct (Hhold t p Hp E) as [Hl Hr'].
      destruct (Bounded.holder_step b p (shared c) E Hr' Hl) as [(Hh & _)|[_ Hg]].
      * by destruct (fst (Bounded.step b p (shared c))).
      * apply Hg.
    + destruct (Bounded.outsider_step b p (shared c) E) as [Hsame|(_ & Hh & _)].
      * rewrite Hsame in Hdone. cbn [fst] in Hdone. congruence.
      * by destruct (fst (Bounded.step b p (shared c))).
  - intros fuel o ops rs q Hops.
    destruct (run_ops_reachable Bounded.start Bounded.step Bounded.weak
                Bounded.inspect (Bounded.new memory) fuel ops o
                (Bounded.new memory) [] rs q) as (ts & Hr' & Hdone).
    + apply reachable_init.
    + by left.
    + exact Hops.
    + pose proof (Bounded.binv_reachable memory _ Hr') as (_ & _ & Hfree').
      apply Hfree'. intros t p Hp. cbn [threads] in Hp.
      destruct (Hdone t p Hp) as [r Hpr]. by destruct p.
Qed.

(** A state reached with two producers and one consumer: one item is in the
    buffer and the mutex is free. *)
Definition handed_over : Bounded.conf :=
  Config (Bounded.BQ (<[0%nat := 7]> (map (λ _, 0) (seq 0 50))) 0 1 1 false 0 1)
         [Bounded.Return Void; Bounded.Enq_lock 8; Bounded.Deq_lock].

Lemma bounded_queue_ring_witness :
  Bounded.breachable (λ _, 0) handed_over
  ∧ (Bounded.lock (shared handed_over) = false →
     0 ≤ Bounded.count (shared handed_over) ≤ Bounded.SIZE
     ∧ Bounded.tail (shared handed_over)
       = (Bounded.head (shared handed_over) + Bounded.count (shared handed_over))
         mod Bounded.SIZE)
  ∧ (∀ t p b r, threads handed_over !! t = Some p → Bounded.inspect p = Running →
       Bounded.inspect (fst (Bounded.step b p (shared handed_over))) = Done r →
       Bounded.ring (snd (Bounded.step b p (shared handed_over))))
  ∧ (∀ fuel o ops rs q,
       Bounded.exec_ops fuel o ops (Bounded.new (λ _, 0)) = Some (rs, q) →
       Bounded.ring q).
Proof.
  assert (Bounded.breachable (λ _, 0) handed_over) as Hr.
  { apply (play_reachable Bounded.start Bounded.step Bounded.inspect
             (Bounded.new (λ _, 0))
             [Spawn (Enqueue 7); Spawn (Enqueue 8); Spawn Dequeue;
              Step 0 false; Step 1 false; Step 0 false; Step 0 false;
              Step 2 false; Step 0 false; Step 0 false; Step 0 false;
              Step 0 false]
             (Config (Bounded.new (λ _, 0)) [])).
    - apply reachable_init.
    - reflexivity. }
  split; [exact Hr|]. exact (bounded_queue_ring (λ _, 0) handed_over Hr).
Defined.

(** C9. A thread inside [condvar_no_spurious::wait] with the snapshot [e]
    of the epoch stays inside it whatever it does while the epoch equals [e],
    hence after any number of wake-ups with which no [signal] or [broadcast]
    came; in an interleaving it leaves [wait] only by a step of its own taken
    when the epoch differs from [e]; and, holding the mutex with the epoch
    different from [e], it does leave. *)
Theorem wait_returns_on_new_epoch (cv : Bounded.condvar_no_spurious) (e : Z) :
  (∀ b p q, Bounded.waiting p = Some (cv, e) → Bounded.epoch cv q = e →
            Bounded.waiting (fst (Bounded.step b p q)) = Some (cv, e)
            ∧ Bounded.epoch cv (snd (Bounded.step b p q)) = e)
  ∧ (∀ n p q, Bounded.waiting p = Some (cv, e) → Bounded.epoch cv q = e →
              Bounded.waiting (fst (Bounded.wake n p q)) = Some (cv, e)
              ∧ Bounded.epoch cv (snd (Bounded.wake n p q)) = e)
  ∧ (∀ c c' t p p', Bounded.bstep c c' →
       threads c !! t = Some p → threads c' !! t = Some p' →
       Bounded.waiting p = Some (cv, e) → Bounded.waiting p' ≠ Some (cv, e) →
       Bounded.epoch cv (shared c) ≠ e)
  ∧ (∀ b p q, Bounded.waiting p = Some (cv, e) → Bounded.holding p = true →
              Bounded.epoch cv q ≠ e →
              Bounded.waiting (fst (Bounded.step b p q)) = None).
Proof.
  split; [|split; [|split]].
  - intros b p q. apply Bounded.waiter_stays.
  - intros n p q. apply Bounded.wake_stays.
  - intros c c' t p p'. apply Bounded.wait_left.
  - intros b p q. apply Bounded.waiter_returns.
Qed.

(** A consumer asleep on the empty queue is woken 5 times with no signal. *)
Lemma wait_returns_on_new_epoch_witness :
  Bounded.waiting (Bounded.Deq_blocked 0) = Some (Bounded.Not_empty, 0)
  ∧ Bounded.epoch Bounded.Not_empty (Bounded.new (λ _, 0)) = 0
  ∧ Bounded.waiting (fst (Bounded.wake 5 (Bounded.Deq_blocked 0) (Bounded.new (λ _, 0))))
    = Some (Bounded.Not_empty, 0)
  ∧ Bounded.epoch Bounded.Not_empty
      (snd (Bounded.wake 5 (Bounded.Deq_blocked 0) (Bounded.new (λ _, 0)))) = 0.
Proof.
  split; [reflexivity|]. split; [reflexivity|].
  destruct (wait_returns_on_new_epoch Bounded.Not_empty 0) as (_ & Hwake & _).
  apply (Hwake 5%nat (Bounded.Deq_blocked 0) (Bounded.new (λ _, 0))); reflexivity.
Defined.

(** * The operations under concurrency, the destructors and the drivers *)

(** ** Treiber stack: interleaved calls *)

Module TreiberInv.
Import Heap Treiber.

(** The node a thread inside [push] has allocated and not yet made the top. *)
Definition owned (p : pc) : option nat :=
  match p with
  | Push_load n | Push_link n _ | Push_cas n _ => Some n
  | _ => None
  end.

(** [l] lists the nodes met from [p] by following [next] up to [nullptr]. *)
Fixpoint path (h : heap) (p : ptr) (l : list nat) : Prop :=
  match l with
  | [] => p = None
  | a :: l' => p = Some a ∧ ∃ nd, load h a = Some nd ∧ path h (next nd) l'
  end.

(** [H] lists the nodes that have been the top of the stack at some time. *)
Definition private (h : heap) (H : list nat) (n : nat) : Prop :=
  (n ∉ H) ∧ is_Some (load h n).

(** What a thread knows about its locals at each control point. *)
Definition local_ok (h : heap) (H : list nat) (p : pc) : Prop :=
  match p with
  | Push_cas n old_top => ∃ v, load h n = Some (Node v old_top)
  | Pop_next a => a ∈ H
  | Pop_value a nx => a ∈ H ∧ ∃ v, load h a = Some (Node v nx)
  | Pop_cas a nx v => a ∈ H ∧ load h a = Some (Node v nx)
  | Fault => False
  | _ => True
  end.

Record shape (s : treiber_stack) (H L : list nat) : Prop := Shape {
  shape_path : path (nodes s) (top s) L;
  shape_published : ∀ a, a ∈ L → a ∈ H;
  shape_allocated : ∀ a, a ∈ H → is_Some (load (nodes s) a);
  shape_full : ∀ a, (a < length (nodes s))%nat → is_Some (load (nodes s) a);
}.

Definition inv (c : conf) : Prop :=
  ∃ H L,
    shape (shared c) H L
    ∧ (∀ t p, threads c !! t = Some p →
         local_ok (nodes (shared c)) H p
         ∧ ∀ n, owned p = Some n → private (nodes (shared c)) H n)
    ∧ (∀ t1 t2 p1 p2 n,
         threads c !! t1 = Some p1 → threads c !! t2 = Some p2 →
         owned p1 = Some n → owned p2 = Some n → t1 = t2).

Lemma is_Some_load_lt (h : heap) a : is_Some (load h a) → (a < length h)%nat.
Proof. intros [nd Hnd]. by eapply load_lt. Qed.

Lemma path_frame h h' p l :
  path h p l → (∀ a, a ∈ l → load h' a = load h a) → path h' p l.
Proof.
  revert p. induction l as [|a l IH]; intros p; simpl; [done|].
  intros (-> & nd & Hnd & Hp) Hf. split; [done|]. exists nd. split.
  - rewrite Hf; [done|]. by left.
  - apply IH; [done|]. intros b Hb. apply Hf. by right.
Qed.

Lemma path_inj h p l l' : path h p l → path h p l' → l = l'.
Proof.
  revert p l'. induction l as [|a l IH]; intros p [|a' l']; simpl.
  - done.
  - intros -> [? _]. done.
  - intros [-> _] ?. done.
  - intros (-> & nd & Hnd & Hp) ([= <-] & nd' & Hnd' & Hp').
    rewrite Hnd in Hnd'. injection Hnd' as <-. f_equal. by eapply IH.
Qed.

(** The values along a path. *)
Lemma path_linked h p l : path h p l → ∃ vs, linked h p vs ∧ length vs = length l.
Proof.
  revert p. induction l as [|a l IH]; intros p; simpl.
  - intros ->. by exists [].
  - intros (-> & [v nx] & Hnd & Hp). destruct (IH _ Hp) as (vs & Hvs & Hlen).
    exists (v :: vs). split; [|simpl; by rewrite Hlen]. simpl. by exists a, nx.
Qed.

Lemma linked_path h p l vs :
  path h p l → linked h p vs → Forall2 (λ a v, value <$> load h a = Some v) l vs.
Proof.
  revert p vs. induction l as [|a l IH]; intros p [|v vs]; simpl.
  - constructor.
  - intros -> (? & ? & ? & _). done.
  - intros [-> _] ?. done.
  - intros (-> & nd & Hnd & Hp) (a' & nx & [= <-] & Ha & Hl).
    rewrite Hnd in Ha. injection Ha as ->. constructor; [by rewrite Hnd|].
    by eapply IH.
Qed.

Lemma linked_frame_path h h' p l vs :
  path h p l → linked h p vs → (∀ a, a ∈ l → load h' a = load h a) →
  linked h' p vs.
Proof.
  revert p vs. induction l as [|a l IH]; intros p [|v vs]; simpl; try done.
  { intros -> (? & ? & [=] & _). }
  intros (-> & nd & Hnd & Hp) (a' & nx & [= <-] & Ha & Hl) Hf.
  rewrite Hnd in Ha. injection Ha as ->. exists a, nx. split; [done|]. split.
  - rewrite Hf; [done|]. by left.
  - eapply IH; [exact Hp|exact Hl|]. intros b Hb. apply Hf. by right.
Qed.

(** What one transition of a thread preserves. *)
Definition step_ok (p p' : pc) (s s' : treiber_stack) (H : list nat) : Prop :=
  ∃ H' L',
    shape s' H' L' ∧ local_ok (nodes s') H' p'
    ∧ (∀ a, a ∈ H → a ∈ H')
    ∧ (∀ a, a ∈ H' → a ∈ H ∨ owned p = Some a)
    ∧ (∀ n, owned p' = Some n → private (nodes s') H' n)
    ∧ (∀ n, owned p' = Some n → owned p = Some n ∨ (length (nodes s) ≤ n)%nat)
    ∧ (∀ a, (a < length (nodes s))%nat → owned p ≠ Some a →
            load (nodes s') a = load (nodes s) a).

Lemma step_ok_same p p' s H L :
  shape s H L → local_ok (nodes s) H p' →
  (∀ n, owned p = Some n → private (nodes s) H n) →
  (owned p' = owned p ∨ owned p' = None) →
  step_ok p p' s s H.
Proof.
  intros Hs Hl Hpriv Hown. exists H, L.
  split; [done|]. split; [done|]. split; [done|]. split; [by left|].
  split; [|split]; try done.
  - intros n Hn. apply Hpriv. destruct Hown as [<-|Hnone]; congruence.
  - intros n Hn. left. destruct Hown as [<-|Hnone]; congruence.
Qed.

Lemma path_head h a l : path h (Some a) l → ∃ l', l = a :: l'.
Proof. destruct l as [|b l]; simpl; [done|]. intros [[= <-] _]. eauto. Qed.

Lemma thread_step_shape b p s p' s' H L :
  shape s H L → local_ok (nodes s) H p →
  (∀ n, owned p = Some n → private (nodes s) H n) →
  step b p s = (p', s') →
  step_ok p p' s s' H.
Proof.
  intros Hs Hl Hpriv Hstep.
  destruct p; cbn [step local_ok owned] in *.
  - (* Push_new *)
    injection Hstep as <- <-. destruct Hs as [Hp Hpub Hal Hfull].
    exists H, L. cbn [nodes top local_ok owned].
    assert (∀ a, a ∈ H → load (nodes s ++ [Some (Node v None)]) a = load (nodes s) a)
      as Hold.
    { intros a Ha. apply load_app_old. by apply is_Some_load_lt, Hal. }
    split; [split; cbn [nodes top]|].
    + eapply path_frame; [done|]. intros a Ha. by apply Hold, Hpub.
    + done.
    + intros a Ha. rewrite Hold by done. by apply Hal.
    + intros a Ha. rewrite length_app in Ha; simpl in Ha.
      destruct (decide (a = length (nodes s))) as [->|Hne].
      * by rewrite load_app_new.
      * rewrite load_app_old by lia. apply Hfull. lia.
    + split; [done|]. split; [done|]. split; [by left|].
      split; [|split].
      * intros n [= <-]. split; [|by rewrite load_app_new].
        intros Hin. apply Hal, is_Some_load_lt in Hin. lia.
      * intros n [= <-]. by right.
      * intros a Ha _. by apply load_app_old.
  - (* Push_load *)
    injection Hstep as <- <-. by eapply step_ok_same; [done|done|done|left].
  - (* Push_link *)
    destruct (Hpriv n eq_refl) as [Hn [nd Hnd]].
    unfold set_next in Hstep. rewrite Hnd in Hstep. injection Hstep as <- <-.
    destruct Hs as [Hp Hpub Hal Hfull]. pose proof (load_lt _ _ _ Hnd) as Hlt.
    exists H, L. cbn [nodes top local_ok owned].
    assert (∀ a, a ∈ H → load (<[n:=Some (Node (value nd) old_top)]> (nodes s)) a
                         = load (nodes s) a) as Hold.
    { intros a Ha. apply load_insert_ne. by intros ->. }
    split; [split; cbn [nodes top]|].
    + eapply path_frame; [done|]. intros a Ha. by apply Hold, Hpub.
    + done.
    + intros a Ha. rewrite Hold by done. by apply Hal.
    + intros a Ha. rewrite length_insert in Ha.
      destruct (decide (n = a)) as [->|Hne].
      * by rewrite load_insert_eq.
      * rewrite load_insert_ne by done. by apply Hfull.
    + split; [exists (value nd); by apply load_insert_eq|].
      split; [done|]. split; [by left|]. split; [|split].
      * intros ? [= <-]. split; [done|]. by rewrite load_insert_eq.
      * intros ? [= <-]. by left.
      * intros a Ha Hne. apply load_insert_ne. congruence.
  - (* Push_cas *)
    destruct Hl as [v Hv].
    destruct (cas_weak b (top s) old_top) eqn:Hcas; injection Hstep as <- <-.
    + apply cas_weak_true in Hcas. destruct Hs as [Hp Hpub Hal Hfull].
      exists (H ++ [n]), (n :: L). cbn [nodes top local_ok owned].
      split; [split; cbn [nodes top path]|].
      * split; [done|]. exists (Node v old_top). split; [done|]. by rewrite <- Hcas.
      * intros a [-> |Ha]%elem_of_cons; apply elem_of_app; [right; by left|left; auto].
      * intros a [Ha| ->%list_elem_of_singleton]%elem_of_app; [by apply Hal|by eexists].
      * done.
      * split; [done|]. split; [intros a Ha; apply elem_of_app; by left|].
        split; [|done].
        intros a [Ha| ->%list_elem_of_singleton]%elem_of_app; [by left|by right].
    + by eapply step_ok_same; [done|done|done|left].
  - (* Pop_load *)
    destruct (top s) as [a|] eqn:Ht; injection Hstep as <- <-.
    + eapply step_ok_same; [done| |done|by left]. cbn [local_ok].
      destruct Hs as [Hp Hpub _ _]. rewrite Ht in Hp.
      destruct (path_head _ _ _ Hp) as [l' ->]. apply Hpub. by left.
    + by eapply step_ok_same; [done|done|done|left].
  - (* Pop_next *)
    destruct (shape_allocated _ _ _ Hs _ Hl) as [[v nx] Hnd].
    rewrite Hnd in Hstep. injection Hstep as <- <-.
    eapply step_ok_same; [done| |done|by left]. cbn [local_ok next]. eauto.
  - (* Pop_value *)
    destruct Hl as [Ha [v Hnd]]. rewrite Hnd in Hstep. injection Hstep as <- <-.
    by eapply step_ok_same; [done| |done|left].
  - (* Pop_cas *)
    destruct Hl as [Ha Hnd].
    destruct (cas_weak b (top s) (Some old_top)) eqn:Hcas; injection Hstep as <- <-.
    + apply cas_weak_true in Hcas. destruct Hs as [Hp Hpub Hal Hfull].
      rewrite Hcas in Hp. destruct (path_head _ _ _ Hp) as [l' ->].
      cbn [path] in Hp. destruct Hp as (_ & nd & Hnd' & Hp).
      rewrite Hnd in Hnd'. injection Hnd' as <-. cbn [next] in Hp.
      exists H, l'. cbn [nodes top local_ok owned].
      split; [split; cbn [nodes top]; try done|].
      * intros a Hin. apply Hpub. by right.
      * split; [done|]. split; [done|]. split; [by left|]. done.
    + by eapply step_ok_same; [done|done|done|left].
  - (* Return *)
    injection Hstep as <- <-. by eapply step_ok_same; [done|done|done|left].
  - done.
Qed.

Lemma no_call_in_progress op : owned (start op) = None ∧ ∀ h H, local_ok h H (start op).
Proof. by destruct op. Qed.

Lemma inv_new : inv (Config new []).
Proof.
  exists [], []. split; [|done]. split; cbn [new nodes top path]; try done.
  - intros a Ha. by apply elem_of_nil in Ha.
  - intros a Ha. simpl in Ha. lia.
Qed.

Lemma inv_tstep c c' : inv c → tstep c c' → inv c'.
Proof.
  intros (H & L & Hs & Hth & Hdis) Hstep.
  destruct Hstep as [c op|c t p r op Ht Hr|c t p b p' s' Ht Hrun Hstep];
    cbn [shared threads] in *.
  - (* a new thread *)
    destruct (no_call_in_progress op) as [Hown Hloc].
    exists H, L. split; [done|]. split.
    + intros t p [Hp|[_ Hp]]%lookup_app_Some; [by eapply Hth|].
      apply list_lookup_singleton_Some in Hp as [_ <-].
      split; [apply Hloc|]. intros n. by rewrite Hown.
    + intros t1 t2 p1 p2 n [H1|[_ H1]]%lookup_app_Some [H2|[_ H2]]%lookup_app_Some
        Ho1 Ho2.
      * by eapply Hdis.
      * apply list_lookup_singleton_Some in H2 as [_ <-]. by rewrite Hown in Ho2.
      * apply list_lookup_singleton_Some in H1 as [_ <-]. by rewrite Hown in Ho1.
      * apply list_lookup_singleton_Some in H1 as [_ <-]. by rewrite Hown in Ho1.
  - (* a thread starts its next call *)
    destruct (no_call_in_progress op) as [Hown Hloc].
    exists H, L. split; [done|]. split.
    + intros t' p0 [[-> [<- _]]|[_ Hp]]%list_lookup_insert_Some; [|by eapply Hth].
      split; [apply Hloc|]. intros n. by rewrite Hown.
    + intros t1 t2 p1 p2 n
        [[-> [<- _]]|[? H1]]%list_lookup_insert_Some
        [[-> [<- _]]|[? H2]]%list_lookup_insert_Some Ho1 Ho2;
        rewrite ?Hown in *; try done.
      by eapply Hdis.
  - (* a thread takes a step *)
    destruct (Hth t p Ht) as [Hl Hpriv].
    destruct (thread_step_shape b p (shared c) p' s' H L Hs Hl Hpriv Hstep)
      as (H' & L' & Hs' & Hl' & Hmono & Hnew & Hpriv' & Hfresh & Hframe).
    assert (∀ t' p0 n, t ≠ t' → threads c !! t' = Some p0 →
              owned p0 = Some n → owned p ≠ Some n) as Hother.
    { intros t' p0 n Hne Hp Ho Ho'. apply Hne. by eapply Hdis. }
    exists H', L'. split; [done|]. split.
    + intros t' p0 [[-> [<- _]]|[Hne Hp]]%list_lookup_insert_Some; [done|].
      destruct (Hth t' p0 Hp) as [Hl0 Hpriv0].
      assert (∀ a, a ∈ H → load (nodes s') a = load (nodes (shared c)) a) as Hpub.
      { intros a Ha. apply Hframe.
        - by apply is_Some_load_lt, (shape_allocated _ _ _ Hs).
        - intros Ho. by destruct (Hpriv a Ho). }
      split.
      * destruct p0; cbn [local_ok] in *; try done.
        -- destruct Hl0 as [v Hv]. exists v. rewrite Hframe; [done| |].
           ++ by eapply load_lt.
           ++ by eapply (Hother t' (Push_cas n old_top)).
        -- by apply Hmono.
        -- destruct Hl0 as [Ha [v Hv]]. split; [by apply Hmono|].
           exists v. by rewrite Hpub.
        -- destruct Hl0 as [Ha Hv]. split; [by apply Hmono|]. by rewrite Hpub.
      * intros n Hn. destruct (Hpriv0 n Hn) as [Hnot Hsome]. split.
        -- intros [Hin|Ho]%Hnew; [done|]. by eapply (Hother t' p0 n).
        -- rewrite Hframe; [done|by apply is_Some_load_lt|by eapply (Hother t' p0)].
    + assert (∀ t' p0 n, t ≠ t' → threads c !! t' = Some p0 →
                owned p0 = Some n → owned p' = Some n → False) as Hfr.
      { intros t' p0 n Hne Hp Ho Ho'.
        destruct (Hfresh n Ho') as [Hold|Hge].
        - by eapply (Hother t' p0 n).
        - destruct (Hth t' p0 Hp) as [_ Hpriv0].
          destruct (Hpriv0 n Ho) as [_ Hsome%is_Some_load_lt]. lia. }
      intros t1 t2 p1 p2 n
        [[-> [<- _]]|[? H1]]%list_lookup_insert_Some
        [[-> [<- _]]|[? H2]]%list_lookup_insert_Some Ho1 Ho2; try done.
      * exfalso. by eapply (Hfr t2 p2 n).
      * exfalso. by eapply (Hfr t1 p1 n).
      * by eapply Hdis.
Qed.

Lemma inv_treachable c : treachable c → inv c.
Proof.
  induction 1 as [|c c' _ IH Hstep]; [apply inv_new|]. by eapply inv_tstep.
Qed.


(** *** The effect of each step on the values the stack holds *)

(** The call a thread is executing.  The argument of [push] lives on in the
    [value] of the node that the call has allocated. *)
Definition pending (h : heap) (p : pc) : option stack_op :=
  match p with
  | Push_new v => Some (Push v)
  | Push_load n | Push_link n _ | Push_cas n _ => Push <$> (value <$> load h n)
  | Pop_load | Pop_next _ | Pop_value _ _ | Pop_cas _ _ _ => Some Pop
  | Return _ | Fault => None
  end.

Lemma pending_start h op : pending h (start op) = Some op.
Proof. by destruct op. Qed.

(** No step changes the [value] of a node. *)
Lemma step_keeps_values b p s a :
  (a < length (nodes s))%nat →
  value <$> load (nodes (snd (step b p s))) a = value <$> load (nodes s) a.
Proof.
  intros Ha. destruct p; cbn [step]; try done.
  - cbn [alloc snd nodes]. by rewrite load_app_old.
  - unfold set_next. destruct (load (nodes s) n) as [nd|] eqn:Hnd; [|done].
    cbn [snd nodes]. destruct (decide (n = a)) as [->|Hne].
    + rewrite load_insert_eq by done. by rewrite Hnd.
    + by rewrite load_insert_ne.
  - by destruct (cas_weak _ _ _).
  - by destruct (top s).
  - by destruct (load (nodes s) old_top).
  - by destruct (load (nodes s) old_top).
  - by destruct (cas_weak _ _ _).
Qed.

(** A thread keeps executing the same call until it returns. *)
Lemma pending_kept b p s :
  inspect (fst (step b p s)) = Running →
  pending (nodes (snd (step b p s))) (fst (step b p s)) = pending (nodes s) p.
Proof.
  destruct p; cbn [step]; try done.
  - cbn [alloc fst snd nodes pending]. by rewrite load_app_new.
  - unfold set_next. destruct (load (nodes s) n) as [nd|] eqn:Hnd; [|done].
    intros _. cbn [fst snd nodes pending].
    rewrite load_insert_eq by (by eapply load_lt). by rewrite Hnd.
  - by destruct (cas_weak _ _ _).
  - by destruct (top s).
  - by destruct (load (nodes s) old_top).
  - by destruct (load (nodes s) old_top).
  - by destruct (cas_weak _ _ _).
Qed.

Lemma pending_frame b p s p2 :
  (∀ n, owned p2 = Some n → (n < length (nodes s))%nat) →
  pending (nodes (snd (step b p s))) p2 = pending (nodes s) p2.
Proof.
  intros Hn. destruct p2; cbn [pending owned] in *; try done;
    by rewrite step_keeps_values by (by apply Hn).
Qed.

(** A step that does not return leaves the values of the stack as they are;
    the step that returns applies the call to them. *)
Lemma step_effect b p s H L vs :
  shape s H L → local_ok (nodes s) H p →
  (∀ n, owned p = Some n → private (nodes s) H n) →
  inspect p = Running → holds s vs →
  (inspect (fst (step b p s)) = Running → holds (snd (step b p s)) vs)
  ∧ (∀ r, fst (step b p s) = Return r →
       ∃ op, pending (nodes s) p = Some op
             ∧ r = fst (stack_spec op vs)
             ∧ holds (snd (step b p s)) (snd (stack_spec op vs))).
Proof.
  intros Hs Hl Hpriv Hrun Hh. destruct Hs as [Hp Hpub Hal Hfull].
  unfold holds in *.
  destruct p; try done; cbn [step local_ok owned pending] in *.
  - (* Push_new *)
    split; [|done]. intros _. cbn [alloc snd nodes top].
    eapply linked_frame; [done|]. intros a Ha. by apply load_app_old.
  - (* Push_link *)
    destruct (Hpriv n eq_refl) as [Hn [nd Hnd]].
    unfold set_next. rewrite Hnd. cbn [fst snd nodes top]. split; [|done].
    intros _. eapply linked_frame_path; [done|done|].
    intros a Ha. apply load_insert_ne. intros ->. by apply Hn, Hpub.
  - (* Push_cas *)
    destruct Hl as [v Hv].
    destruct (cas_weak b (top s) old_top) eqn:Hcas; cbn [fst snd nodes top]; [|done].
    split; [done|]. intros r [= <-]. apply cas_weak_true in Hcas.
    exists (Push v). rewrite Hv. split; [done|]. split; [done|].
    cbn [stack_spec snd linked]. exists n, old_top.
    split; [done|]. split; [done|]. by rewrite <- Hcas.
  - (* Pop_load *)
    destruct (top s) as [a|] eqn:Ht; cbn [fst snd]; rewrite ?Ht; [done|].
    split; [done|]. intros r [= <-]. exists Pop. split; [done|].
    destruct vs as [|v vs]; [done|]. cbn [linked] in Hh.
    by destruct Hh as (? & ? & [=] & _).
  - (* Pop_next *)
    by destruct (load (nodes s) old_top).
  - (* Pop_value *)
    by destruct (load (nodes s) old_top).
  - (* Pop_cas *)
    destruct Hl as [Ha Hnd].
    destruct (cas_weak b (top s) (Some old_top)) eqn:Hcas; cbn [fst snd nodes top];
      [|done].
    split; [done|]. intros r [= <-]. apply cas_weak_true in Hcas.
    exists Pop. split; [done|]. rewrite Hcas in Hh.
    destruct vs as [|v' vs]; cbn [linked] in Hh; [done|].
    destruct Hh as (a & nx & [= <-] & Ha' & Hlk).
    rewrite Hnd in Ha'. injection Ha' as <- <-. done.
Qed.

(** *** The destructor

    [while(top.load()) { node* n = top.load(); top.store(n->next); delete n; }] *)
Fixpoint destroy (fuel : nat) (s : treiber_stack) : outcome treiber_stack :=
  match top s with
  | None => Finished Void s []
  | Some n =>
      match fuel with
      | O => Out_of_fuel
      | S fuel' =>
          match load (nodes s) n with
          | Some nd =>
              match free (nodes s) n with
              | Some h => destroy fuel' (Stack h (next nd))
              | None => Faulted
              end
          | None => Faulted
          end
      end
  end.

(** The number of nodes that are allocated. *)
Definition live (h : heap) : nat := length (omap id h).

Lemma path_suffix h p l1 a l2 : path h p (l1 ++ a :: l2) → path h (Some a) (a :: l2).
Proof.
  revert p. induction l1 as [|b l1 IH]; intros p; simpl.
  - by intros [-> ?].
  - intros (-> & nd & _ & Hp). by eapply IH.
Qed.

Lemma path_NoDup h p l : path h p l → NoDup l.
Proof.
  revert p. induction l as [|a l IH]; intros p; [constructor|].
  intros Hp. pose proof Hp as (-> & nd & Hnd & Hp'). constructor; [|by eapply IH].
  intros (l1 & l2 & ->)%list_elem_of_split.
  pose proof (path_suffix _ _ _ _ _ Hp') as Hs.
  pose proof (path_inj _ _ _ _ Hp Hs) as Heq.
  apply (f_equal length) in Heq. simpl in Heq. rewrite length_app in Heq.
  simpl in Heq. lia.
Qed.

Lemma live_free (h : heap) a nd :
  load h a = Some nd → S (live (<[a := None]> h)) = live h.
Proof.
  unfold load, live. revert a.
  induction h as [|[y|] h IH]; intros [|a]; simpl; try done.
  - intros Ha. f_equal. by apply IH.
  - intros Ha. by apply IH.
Qed.

Lemma live_full (h : heap) :
  (∀ a, (a < length h)%nat → is_Some (load h a)) → live h = length h.
Proof.
  unfold live, load. induction h as [|x h IH]; intros Hf; [done|].
  destruct (Hf 0%nat) as [nd Hnd]; [simpl; lia|]. simpl in Hnd.
  destruct x as [y|]; [|done]. simpl. f_equal.
  apply IH. intros a Ha. apply (Hf (S a)). simpl. lia.
Qed.

Lemma load_free_eq (h : heap) a : load (<[a := None]> h) a = None.
Proof.
  unfold load. destruct (decide (a < length h)%nat).
  - by rewrite list_lookup_insert_eq.
  - rewrite lookup_ge_None_2; [done|]. rewrite length_insert. lia.
Qed.

(** The destructor frees the nodes of the chain that hangs from [top], and
    no other node. *)
Lemma destroy_frees l : ∀ s fuel,
  path (nodes s) (top s) l → (length l ≤ fuel)%nat →
  ∃ h', destroy fuel s = Finished Void (Stack h' None) []
        ∧ (live h' + length l)%nat = live (nodes s)
        ∧ ∀ a, load h' a = if decide (a ∈ l) then None else load (nodes s) a.
Proof.
  induction l as [|a l IH]; intros [h t] fuel Hp Hfuel; cbn [nodes top] in *.
  - simpl in Hp. subst t. exists h. split; [by destruct fuel|].
    split; [simpl; lia|]. intros a.
    destruct (decide (a ∈ [])) as [Hin|]; [by apply elem_of_nil in Hin|done].
  - pose proof (path_NoDup _ _ _ Hp) as Hnd%NoDup_cons.
    destruct Hp as (-> & nd & Hload & Hp). destruct fuel as [|fuel]; [simpl in *; lia|].
    cbn [destroy top nodes]. rewrite Hload. unfold free. rewrite Hload.
    destruct (IH (Stack (<[a := None]> h) (next nd)) fuel) as (h' & -> & Hlive & Hfr).
    { cbn [nodes top]. eapply path_frame; [done|]. intros b Hb.
      apply load_insert_ne. intros ->. by destruct Hnd. }
    { simpl in Hfuel. lia. }
    exists h'. split; [done|]. cbn [nodes] in *. split.
    + rewrite <- (live_free h a nd) by done. simpl. lia.
    + intros b. rewrite Hfr. destruct (decide (b = a)) as [->|Hne].
      * rewrite (decide_True (P := a ∈ a :: l)) by (by left).
        destruct (decide (a ∈ l)); [done|]. apply load_free_eq.
      * rewrite load_insert_ne by done.
        destruct (decide (b ∈ l)) as [Hin|Hnin].
        -- by rewrite decide_True by (by right).
        -- rewrite decide_False; [done|]. by intros [?|?]%elem_of_cons.
Qed.

(** Calls allocate one node for each [push] and free none. *)
Definition allocates (p : pc) : nat :=
  match p with
  | Push_new _ => 1
  | _ => 0
  end.

Lemma step_allocates b p s :
  length (nodes (snd (step b p s))) = (length (nodes s) + allocates p)%nat
  ∧ allocates (fst (step b p s)) = 0%nat.
Proof.
  destruct p; cbn [step allocates].
  - cbn [alloc fst snd nodes]. rewrite length_app. done.
  - split; [cbn [snd]; lia|done].
  - unfold set_next. destruct (load (nodes s) n); cbn [fst snd nodes allocates].
    + rewrite length_insert. split; [lia|done].
    + split; [lia|done].
  - destruct (cas_weak _ _ _); cbn [fst snd nodes allocates]; split; (lia || done).
  - destruct (top s); cbn [fst snd nodes allocates]; split; (lia || done).
  - destruct (load _ _); cbn [fst snd nodes allocates]; split; (lia || done).
  - destruct (load _ _); cbn [fst snd nodes allocates]; split; (lia || done).
  - destruct (cas_weak _ _ _); cbn [fst snd nodes allocates]; split; (lia || done).
  - split; [cbn [snd]; lia|done].
  - split; [cbn [snd]; lia|done].
Qed.

Lemma exec_allocates fuel : ∀ o p s r s' o',
  exec fuel o p s = Finished r s' o' →
  length (nodes s') = (length (nodes s) + allocates p)%nat.
Proof.
  unfold exec. induction fuel as [|fuel IH]; intros o p s r s' o'.
  - simpl. destruct (inspect p) eqn:Hp; try done. intros [= _ <- _].
    destruct p; try done; simpl; lia.
  - destruct (inspect p) eqn:Hp.
    + rewrite run_unfold by done. intros Hrun. apply IH in Hrun.
      destruct (step_allocates (if weak p then hd false o else false) p s) as [H1 H2].
      rewrite H2 in Hrun. lia.
    + erewrite run_done by done. intros [= _ <- _]. destruct p; try done; simpl; lia.
    + simpl. by rewrite Hp.
Qed.


(** The values given to [push] and the values returned by [pop]. *)
Definition pushed (ops : list stack_op) : list Z :=
  omap (λ op, match op with Push v => Some v | Pop => None end) ops.

Definition popped (rs : list ret) : list Z :=
  omap (λ r, match r with Int v => Some v | _ => None end) rs.

Lemma exec_ops_allocates fuel ops : ∀ o s rs s',
  exec_ops fuel o ops s = Some (rs, s') →
  length (nodes s') = (length (nodes s) + length (pushed ops))%nat.
Proof.
  unfold exec_ops. induction ops as [|op ops IH]; intros o s rs s'; simpl.
  - intros [= _ <-]. lia.
  - destruct (run _ _ _ _ _ (start op) s) as [r s1 o1| |] eqn:Hrun; try done.
    destruct (run_ops _ _ _ _ _ o1 ops s1) as [[rs1 s2]|] eqn:Hops; [|done].
    intros [= _ <-]. apply IH in Hops. apply exec_allocates in Hrun.
    rewrite Hops, Hrun. destruct op; simpl; lia.
Qed.

Lemma spec_ops_balance ops : ∀ vs,
  (length (snd (spec_ops stack_spec ops vs))
   + length (popped (fst (spec_ops stack_spec ops vs)))
   = length vs + length (pushed ops))%nat.
Proof.
  induction ops as [|op ops IH]; intros vs; simpl; [lia|].
  destruct (stack_spec op vs) as [r vs1] eqn:Hop.
  specialize (IH vs1). destruct (spec_ops stack_spec ops vs1) as [rs vs2].
  simpl in *. destruct op as [v|]; simpl in Hop.
  - injection Hop as <- <-. simpl in *. lia.
  - destruct vs as [|v vs]; injection Hop as <- <-; simpl in *; lia.
Qed.


Lemma pushed_length ops : (length (pushed ops) ≤ length ops)%nat.
Proof. induction ops as [|[v|] ops IH]; simpl; lia. Qed.


End TreiberInv.

(** X1. Used by one thread, the Treiber stack is a last-in first-out stack:
    from a state that holds the values [vs], any sequence of calls of [push]
    and [pop] returns what the same sequence returns on the list [vs]
    ([pop] the most recently pushed value that is left, and the empty error
    when none is), and leaves the stack holding the list the calls leave.
    This holds whichever weak compare-and-swaps fail spuriously, once the
    fuel covers the retries. *)
Theorem treiber_sequential_lifo (ops : list stack_op) (s : Treiber.treiber_stack)
    (vs : list Z) (o : list bool) (k : nat) :
  Treiber.holds s vs →
  ∃ s', Treiber.exec_ops (4 * length o + 4 + k) o ops s
        = Some (fst (spec_ops stack_spec ops vs), s')
        ∧ Treiber.holds s' (snd (spec_ops stack_spec ops vs)).
Proof.
  intros Hh.
  apply (run_ops_refines Treiber.start Treiber.step Treiber.weak
           Treiber.inspect Treiber.holds stack_spec (λ n, 4 * n + 4)%nat).
  - intros n m Hnm. lia.
  - intros op s0 a o0 fuel. apply Treiber.call_refines.
  - exact Hh.
  - lia.
Qed.

Lemma treiber_sequential_lifo_witness :
  Treiber.holds Treiber.new []
  ∧ ∃ s', Treiber.exec_ops (4 * 1 + 4 + 0) [true] [Push 4; Pop; Push 6; Push 7; Pop; Pop; Pop]
            Treiber.new
          = Some (fst (spec_ops stack_spec [Push 4; Pop; Push 6; Push 7; Pop; Pop; Pop] []), s')
          ∧ Treiber.holds s'
              (snd (spec_ops stack_spec [Push 4; Pop; Push 6; Push 7; Pop; Pop; Pop] [])).
Proof.
  split; [exact Treiber.holds_new|].
  exact (treiber_sequential_lifo [Push 4; Pop; Push 6; Push 7; Pop; Pop; Pop]
           Treiber.new [] [true] 0 Treiber.holds_new).
Defined.

(** X2. In every interleaving of calls of [push] and [pop] on a Treiber
    stack, by any number of threads and with any spurious failures: no thread
    ever dereferences a pointer to a node that is not allocated, [top] heads
    a finite chain of allocated nodes that ends in [nullptr], no node is ever
    freed, and the node a [push] has allocated and not yet published is
    neither in that chain nor the node of another [push]. *)
Theorem treiber_interleavings_safe (c : Treiber.conf) :
  Treiber.treachable c →
  (∀ t p, threads c !! t = Some p → p ≠ Treiber.Fault)
  ∧ (∃ l vs, TreiberInv.path (Treiber.nodes (shared c)) (Treiber.top (shared c)) l
             ∧ Treiber.holds (shared c) vs ∧ length vs = length l
             ∧ ∀ t p n, threads c !! t = Some p → TreiberInv.owned p = Some n → n ∉ l)
  ∧ (∀ a, (a < length (Treiber.nodes (shared c)))%nat →
          is_Some (Heap.load (Treiber.nodes (shared c)) a))
  ∧ (∀ t1 t2 p1 p2 n, threads c !! t1 = Some p1 → threads c !! t2 = Some p2 →
       TreiberInv.owned p1 = Some n → TreiberInv.owned p2 = Some n → t1 = t2).
Proof.
  intros (H & L & Hs & Hth & Hdis)%TreiberInv.inv_treachable.
  split; [|split; [|split]].
  - intros t p Hp ->. by destruct (Hth t _ Hp) as [Hl _].
  - destruct (TreiberInv.path_linked _ _ _ (TreiberInv.shape_path _ _ _ Hs))
      as (vs & Hvs & Hlen).
    exists L, vs. split; [by destruct Hs|]. split; [done|]. split; [done|].
    intros t p n Hp Hn Hin. destruct (Hth t p Hp) as [_ Hpriv].
    destruct (Hpriv n Hn) as [Hnot _]. apply Hnot.
    by apply (TreiberInv.shape_published _ _ _ Hs).
  - by destruct Hs.
  - exact Hdis.
Qed.

(** Two threads inside [push(5)] and [push(6)], each about to publish its
    node, after a [push(4)] has returned. *)
Definition two_pushes : Treiber.conf :=
  Config (Treiber.Stack [Some (Node 4 None); Some (Node 5 (Some 0%nat));
                         Some (Node 6 (Some 0%nat))] (Some 0%nat))
         [Treiber.Push_cas 1 (Some 0%nat); Treiber.Push_cas 2 (Some 0%nat)].

Lemma two_pushes_reachable : Treiber.treachable two_pushes.
Proof.
  apply (play_reachable Treiber.start Treiber.step Treiber.inspect Treiber.new
           [Spawn (Push 4); Step 0 false; Step 0 false; Step 0 false; Step 0 false;
            Call 0 (Push 5); Spawn (Push 6);
            Step 0 false; Step 1 false; Step 0 false; Step 1 false;
            Step 0 false; Step 1 false]
           (Config Treiber.new [])).
  - apply reachable_init.
  - reflexivity.
Defined.

Lemma treiber_interleavings_safe_witness :
  Treiber.treachable two_pushes
  ∧ (∀ t p, threads two_pushes !! t = Some p → p ≠ Treiber.Fault)
  ∧ (∃ l vs, TreiberInv.path (Treiber.nodes (shared two_pushes))
               (Treiber.top (shared two_pushes)) l
             ∧ Treiber.holds (shared two_pushes) vs ∧ length vs = length l
             ∧ ∀ t p n, threads two_pushes !! t = Some p →
                        TreiberInv.owned p = Some n → n ∉ l)
  ∧ (∀ a, (a < length (Treiber.nodes (shared two_pushes)))%nat →
          is_Some (Heap.load (Treiber.nodes (shared two_pushes)) a))
  ∧ (∀ t1 t2 p1 p2 n, threads two_pushes !! t1 = Some p1 →
       threads two_pushes !! t2 = Some p2 →
       TreiberInv.owned p1 = Some n → TreiberInv.owned p2 = Some n → t1 = t2).
Proof.
  split; [exact two_pushes_reachable|].
  exact (treiber_interleavings_safe two_pushes two_pushes_reachable).
Defined.

(** X3. Every call on a Treiber stack takes effect at once, at the step on
    which it returns, whatever the other threads do in between.  In a state
    reached by any interleaving in which the stack holds [vs], a step of a
    thread that does not make its call return leaves the stack holding [vs]
    and the thread inside the same call; a step that makes the call return
    [r] turns [vs] into what the call gives on the list [vs], and [r] is
    what it returns there.  The steps of a thread leave every other thread
    inside its call, and a call starts as the call that was made. *)
Theorem treiber_calls_take_effect_at_once (c : Treiber.conf) (t : nat)
    (p : Treiber.pc) (b : bool) (vs : list Z) :
  Treiber.treachable c → threads c !! t = Some p → Treiber.inspect p = Running →
  Treiber.holds (shared c) vs →
  let p' := fst (Treiber.step b p (shared c)) in
  let s' := snd (Treiber.step b p (shared c)) in
  (Treiber.inspect p' = Running →
     Treiber.holds s' vs
     ∧ TreiberInv.pending (Treiber.nodes s') p'
       = TreiberInv.pending (Treiber.nodes (shared c)) p)
  ∧ (∀ r, p' = Treiber.Return r →
       ∃ op, TreiberInv.pending (Treiber.nodes (shared c)) p = Some op
             ∧ r = fst (stack_spec op vs)
             ∧ Treiber.holds s' (snd (stack_spec op vs)))
  ∧ (∀ t2 p2, t2 ≠ t → threads c !! t2 = Some p2 →
       TreiberInv.pending (Treiber.nodes s') p2
       = TreiberInv.pending (Treiber.nodes (shared c)) p2)
  ∧ (∀ h op, TreiberInv.pending h (Treiber.start op) = Some op).
Proof.
  intros (H & L & Hs & Hth & Hdis)%TreiberInv.inv_treachable Hp Hrun Hh p' s'.
  destruct (Hth t p Hp) as [Hl Hpriv].
  destruct (TreiberInv.step_effect b p (shared c) H L vs Hs Hl Hpriv Hrun Hh)
    as [Hstay Hret].
  split; [|split; [|split]].
  - intros Hrun'. split; [by apply Hstay|]. by apply TreiberInv.pending_kept.
  - exact Hret.
  - intros t2 p2 _ Hp2. apply TreiberInv.pending_frame. intros n Hn.
    destruct (Hth t2 p2 Hp2) as [_ Hpriv2].
    destruct (Hpriv2 n Hn) as [_ Hsome]. by apply TreiberInv.is_Some_load_lt.
  - intros h op. apply TreiberInv.pending_start.
Qed.

(** The first of the two threads of [two_pushes] publishes its node. *)
Lemma treiber_calls_take_effect_at_once_witness :
  Treiber.treachable two_pushes
  ∧ threads two_pushes !! 0%nat = Some (Treiber.Push_cas 1 (Some 0%nat))
  ∧ Treiber.holds (shared two_pushes) [4]
  ∧ fst (Treiber.step false (Treiber.Push_cas 1 (Some 0%nat)) (shared two_pushes))
    = Treiber.Return Void
  ∧ ∃ op, TreiberInv.pending (Treiber.nodes (shared two_pushes))
            (Treiber.Push_cas 1 (Some 0%nat)) = Some op
          ∧ Void = fst (stack_spec op [4])
          ∧ Treiber.holds
              (snd (Treiber.step false (Treiber.Push_cas 1 (Some 0%nat))
                      (shared two_pushes)))
              (snd (stack_spec op [4])).
Proof.
  assert (Treiber.holds (shared two_pushes) [4]) as Hh.
  { exists 0%nat, None. done. }
  split; [exact two_pushes_reachable|]. split; [reflexivity|].
  split; [exact Hh|]. split; [reflexivity|].
  apply (treiber_calls_take_effect_at_once two_pushes 0
           (Treiber.Push_cas 1 (Some 0%nat)) false [4]
           two_pushes_reachable eq_refl eq_refl Hh).
  reflexivity.
Defined.

(** X4. The destructor of the Treiber stack, run on a state reached by any
    interleaving of calls, terminates with [top] null after as many
    iterations as the chain from [top] has nodes; it frees exactly the
    nodes of that chain, each once, and leaves every other node as it was:
    the nodes that [pop] has taken off the stack stay allocated. *)
Theorem treiber_destructor_frees_chain (c : Treiber.conf) :
  Treiber.treachable c →
  ∃ l, TreiberInv.path (Treiber.nodes (shared c)) (Treiber.top (shared c)) l
       ∧ NoDup l
       ∧ ∀ fuel, (length l ≤ fuel)%nat →
           ∃ h', TreiberInv.destroy fuel (shared c)
                 = Finished Void (Treiber.Stack h' None) []
                 ∧ ∀ a, Heap.load h' a
                        = if decide (a ∈ l) then None
                          else Heap.load (Treiber.nodes (shared c)) a.
Proof.
  intros (H & L & Hs & _)%TreiberInv.inv_treachable.
  pose proof (TreiberInv.shape_path _ _ _ Hs) as Hp.
  exists L. split; [done|]. split; [by eapply TreiberInv.path_NoDup|].
  intros fuel Hfuel.
  destruct (TreiberInv.destroy_frees L (shared c) fuel Hp Hfuel) as (h' & Hd & _ & Hfr).
  by exists h'.
Qed.

(** After [push(4); push(5); pop()] the destructor frees the node of 4 and
    leaves the node of 5. *)
Definition one_popped : Treiber.conf :=
  Config (Treiber.Stack [Some (Node 4 None); Some (Node 5 (Some 0%nat))] (Some 0%nat))
         [Treiber.Return (Int 5)].

Lemma one_popped_reachable : Treiber.treachable one_popped.
Proof.
  apply (play_reachable Treiber.start Treiber.step Treiber.inspect Treiber.new
           [Spawn (Push 4); Step 0 false; Step 0 false; Step 0 false; Step 0 false;
            Call 0 (Push 5); Step 0 false; Step 0 false; Step 0 false; Step 0 false;
            Call 0 Pop; Step 0 false; Step 0 false; Step 0 false; Step 0 false]
           (Config Treiber.new [])).
  - apply reachable_init.
  - reflexivity.
Defined.

Lemma treiber_destructor_frees_chain_witness :
  Treiber.treachable one_popped
  ∧ TreiberInv.destroy 1 (shared one_popped)
    = Finished Void (Treiber.Stack [None; Some (Node 5 (Some 0%nat))] None) []
  ∧ ∃ l, TreiberInv.path (Treiber.nodes (shared one_popped))
           (Treiber.top (shared one_popped)) l
         ∧ NoDup l
         ∧ ∀ fuel, (length l ≤ fuel)%nat →
             ∃ h', TreiberInv.destroy fuel (shared one_popped)
                   = Finished Void (Treiber.Stack h' None) []
                   ∧ ∀ a, Heap.load h' a
                          = if decide (a ∈ l) then None
                            else Heap.load (Treiber.nodes (shared one_popped)) a.
Proof.
  split; [exact one_popped_reachable|]. split; [reflexivity|].
  exact (treiber_destructor_frees_chain one_popped one_popped_reachable).
Defined.

(** X5. The Treiber stack leaks one node for each [pop] that returns a
    value.  A thread that runs any sequence of calls on a fresh stack and
    then destroys it is left with as many allocated nodes as calls of [pop]
    have returned a value: [pop] unlinks its node and never deletes it, and
    the destructor only frees what is still linked. *)
Theorem treiber_leaks_popped_nodes (ops : list stack_op) (o : list bool) (k : nat) :
  ∃ s h', Treiber.exec_ops (4 * length o + 4 + k) o ops Treiber.new
          = Some (fst (spec_ops stack_spec ops []), s)
          ∧ TreiberInv.destroy (length ops) s
            = Finished Void (Treiber.Stack h' None) []
          ∧ TreiberInv.live h'
            = length (TreiberInv.popped (fst (spec_ops stack_spec ops []))).
Proof.
  destruct (run_ops_refines Treiber.start Treiber.step Treiber.weak
              Treiber.inspect Treiber.holds stack_spec (λ n, 4 * n + 4)%nat)
    with (ops := ops) (s := Treiber.new) (a := @nil Z) (o := o)
         (fuel := (4 * length o + 4 + k)%nat) as (s & Hrun & Hh).
  { intros n m Hnm. lia. }
  { intros op s a o0 fuel. apply Treiber.call_refines. }
  { apply Treiber.holds_new. }
  { lia. }
  destruct (run_ops_reachable Treiber.start Treiber.step Treiber.weak Treiber.inspect
              Treiber.new _ ops o Treiber.new [] _ s (reachable_init _ _ _ _)
              (or_introl eq_refl) Hrun) as (ts & Hreach & _).
  apply TreiberInv.inv_treachable in Hreach as (H & L & Hs & _).
  cbn [shared] in Hs. destruct Hs as [Hp _ _ Hfull].
  destruct (TreiberInv.path_linked _ _ _ Hp) as (vs & Hvs & Hlen).
  pose proof (Treiber.linked_inj _ _ _ _ Hvs Hh) as ->.
  pose proof (TreiberInv.exec_ops_allocates _ _ _ _ _ _ Hrun) as Hal.
  pose proof (TreiberInv.spec_ops_balance ops []) as Hbal.
  cbn [Treiber.new Treiber.nodes length] in Hal. simpl in Hbal.
  pose proof (TreiberInv.pushed_length ops) as Hle.
  destruct (TreiberInv.destroy_frees L s (length ops) Hp) as (h' & Hd & Hlive & _);
    [lia|].
  exists s, h'. split; [exact Hrun|]. split; [exact Hd|].
  rewrite (TreiberInv.live_full _ Hfull) in Hlive. lia.
Qed.

(** ** Invariants of interleavings *)

Section Invariants.
Context {Op PC St : Type}.
Variable start : Op → PC.
Variable step : bool → PC → St → PC * St.
Variable inspect : PC → status.

(** A property [P] of the shared state that every step keeps, and a property
    [Q] of a thread that its own steps establish and that no step of any
    thread breaks, hold in every state that an interleaving reaches. *)
Lemma reachable_local (P : St → Prop) (Q : St → PC → Prop) s0 c :
  P s0 →
  (∀ b p s, P s → Q s p → P (snd (step b p s))) →
  (∀ s op, P s → Q s (start op)) →
  (∀ b p s, P s → Q s p → Q (snd (step b p s)) (fst (step b p s))) →
  (∀ b p s p2, P s → Q s p2 → Q (snd (step b p s)) p2) →
  reachable start step inspect s0 c →
  P (shared c) ∧ ∀ t p, threads c !! t = Some p → Q (shared c) p.
Proof.
  intros H0 HP Hstart Hown Hframe.
  induction 1 as [|c c' _ [IHP IHQ] Hstep]; [done|].
  destruct Hstep as [c op|c t p r op Ht Hr|c t p b p' s' Ht Hrun Hstep];
    cbn [shared threads].
  - split; [done|].
    intros t p [Hp|[_ Hp]]%lookup_app_Some; [by eapply IHQ|].
    apply list_lookup_singleton_Some in Hp as [_ <-]. by apply Hstart.
  - split; [done|].
    intros t' p0 [[-> [<- _]]|[_ Hp]]%list_lookup_insert_Some; [|by eapply IHQ].
    by apply Hstart.
  - pose proof (HP b p (shared c) IHP (IHQ t p Ht)) as HP'.
    pose proof (Hown b p (shared c) IHP (IHQ t p Ht)) as HQ'.
    rewrite Hstep in HP', HQ'. cbn [fst snd] in *. split; [done|].
    intros t' p0 [[-> [<- _]]|[_ Hp]]%list_lookup_insert_Some; [done|].
    pose proof (Hframe b p (shared c) p0 IHP (IHQ t' p0 Hp)) as HQ0.
    by rewrite Hstep in HQ0.
Qed.

End Invariants.

(** ** Michael-Scott queue: the effect of each step, and the destructor *)

Module MSQueueSteps.
Import Heap MSQueue.

(** The call a thread is executing and that has not taken effect yet.  An
    [enqueue] has taken effect once its node is linked. *)
Definition pending (h : heap) (p : pc) : option queue_op :=
  match p with
  | Enq_new v => Some (Enqueue v)
  | Enq_tail n | Enq_next n _ | Enq_check n _ _ | Enq_link n _ _ | Enq_help n _ _ =>
      Enqueue <$> (value <$> load h n)
  | Deq_head | Deq_tail _ | Deq_next _ _ | Deq_check _ _ _ | Deq_help _ _
  | Deq_value _ _ | Deq_swing _ _ _ => Some Dequeue
  | Enq_swing _ _ | Return _ | Fault => None
  end.

(** The two steps that change what the queue holds: the compare-and-swap
    that links a node after the last one, and the compare-and-swap that moves
    [head] forward. *)
Definition commit (p p' : pc) : bool :=
  match p, p' with
  | Enq_link _ _ _, Enq_swing _ _ => true
  | Deq_swing _ _ _, Return _ => true
  | _, _ => false
  end.

(** What [dequeue] knows of the value it has read. *)
Definition swing_ok (h : heap) (p : pc) : Prop :=
  match p with
  | Deq_swing _ nxt v => ∃ a, nxt = Some a ∧ value <$> load h a = Some v
  | _ => True
  end.

(** No node has been freed. *)
Definition full (h : heap) : Prop := ∀ a, (a < length h)%nat → is_Some (load h a).

Lemma queue_pending_start h op : pending h (start op) = Some op.
Proof. by destruct op. Qed.

Ltac by_pc p :=
  destruct p as [v|n|n lst|n lst nxt|n lst nxt|n lst|n lst nxt
                | |first|first lst|first lst nxt|lst nxt|first nxt|first nxt v|r|].

Lemma queue_step_keeps_values b p q a :
  (a < length (nodes q))%nat →
  value <$> load (nodes (snd (step b p q))) a = value <$> load (nodes q) a.
Proof.
  intros Ha. by_pc p; cbn [step]; try done.
  - cbn [alloc snd nodes]. by rewrite load_app_old.
  - by destruct (lst ≫= load (nodes q)).
  - repeat case_decide; try done. by destruct nxt.
  - destruct lst as [l|]; [|done].
    destruct (load (nodes q) l) as [nd|] eqn:Hnd; [|done].
    destruct (cas_weak _ _ _); [|done]. cbn [snd nodes]. by apply value_load_insert.
  - by destruct (cas_weak _ _ _).
  - by destruct (cas_weak _ _ _).
  - by destruct (first ≫= load (nodes q)).
  - repeat case_decide; try done. by destruct nxt.
  - by destruct (cas_weak _ _ _).
  - by destruct (nxt ≫= load (nodes q)).
  - by destruct (cas_weak _ _ _).
Qed.

Lemma step_full b p q : full (nodes q) → full (nodes (snd (step b p q))).
Proof.
  intros Hf. by_pc p; cbn [step]; try done.
  - cbn [alloc snd nodes]. intros a Ha. rewrite length_app in Ha; simpl in Ha.
    destruct (decide (a = length (nodes q))) as [->|Hne].
    + by rewrite load_app_new.
    + rewrite load_app_old by lia. apply Hf. lia.
  - by destruct (lst ≫= load (nodes q)).
  - repeat case_decide; try done. by destruct nxt.
  - destruct lst as [l|]; [|done].
    destruct (load (nodes q) l) as [nd|] eqn:Hnd; [|done].
    destruct (cas_weak _ _ _); [|done]. cbn [snd nodes].
    intros a Ha. rewrite length_insert in Ha.
    destruct (decide (l = a)) as [->|Hne].
    + by rewrite load_insert_eq.
    + rewrite load_insert_ne by done. by apply Hf.
  - by destruct (cas_weak _ _ _).
  - by destruct (cas_weak _ _ _).
  - by destruct (first ≫= load (nodes q)).
  - repeat case_decide; try done. by destruct nxt.
  - by destruct (cas_weak _ _ _).
  - by destruct (nxt ≫= load (nodes q)).
  - by destruct (cas_weak _ _ _).
Qed.

Lemma step_swing_ok b p q :
  swing_ok (nodes (snd (step b p q))) (fst (step b p q)).
Proof.
  by_pc p; cbn [step]; try done.
  - by destruct (lst ≫= load (nodes q)).
  - repeat case_decide; try done. by destruct nxt.
  - destruct lst as [l|]; [|done]. destruct (load (nodes q) l); [|done].
    by destruct (cas_weak _ _ _).
  - by destruct (cas_weak _ _ _).
  - by destruct (cas_weak _ _ _).
  - by destruct (first ≫= load (nodes q)).
  - repeat case_decide; try done. by destruct nxt.
  - by destruct (cas_weak _ _ _).
  - destruct nxt as [a|]; cbn [mbind option_bind]; [|done].
    destruct (load (nodes q) a) as [nd|] eqn:Hnd; [|done].
    cbn [fst snd swing_ok]. exists a. by rewrite Hnd.
  - by destruct (cas_weak _ _ _).
Qed.

Lemma swing_ok_frame b p q p2 :
  swing_ok (nodes q) p2 → swing_ok (nodes (snd (step b p q))) p2.
Proof.
  destruct p2; try done. cbn [swing_ok]. intros (a & -> & Ha). exists a.
  split; [done|]. rewrite queue_step_keeps_values; [done|].
  destruct (load (nodes q) a) eqn:E; [|done]. by eapply load_lt.
Qed.

Lemma full_new : full (nodes new).
Proof. intros [|a] Ha; simpl in *; [by eexists|lia]. Qed.

Lemma reachable_swing_ok c :
  qreachable c →
  full (nodes (shared c)) ∧ ∀ t p, threads c !! t = Some p → swing_ok (nodes (shared c)) p.
Proof.
  apply (reachable_local start step inspect (λ q, full (nodes q))
           (λ q p, swing_ok (nodes q) p)).
  - apply full_new.
  - intros b p q Hf _. by apply step_full.
  - intros q op _. by destruct op.
  - intros b p q _ _. apply step_swing_ok.
  - intros b p q p2 _. apply swing_ok_frame.
Qed.

(** *** What the queue holds, step by step *)

Lemma chain_inj h p l l' : chain h p l → chain h p l' → l = l'.
Proof.
  revert p l'. induction l as [|a l IH]; intros p [|a' l']; simpl.
  - done.
  - intros -> [[=] _].
  - intros [-> _] [=].
  - intros (-> & nd & Hnd & Hp) ([= <-] & nd' & Hnd' & Hp').
    rewrite Hnd in Hnd'. injection Hnd' as <-. f_equal. by eapply IH.
Qed.

(** The values of a queue are those of the chain that follows [head],
    whichever list of nodes describes its shape. *)
Lemma holds_move q q' L i j L' i' j' vs :
  shape q L i j → values (nodes q) (drop (S i) L) vs →
  shape q' L' i' j' → nodes q' = nodes q → head q' = head q →
  holds q' vs.
Proof.
  intros Hs Hvs Hs' Hn Hh. exists L', i', j'. split; [done|].
  pose proof (chained_chain _ _ (shape_chain _ _ _ _ Hs) i) as Hc.
  pose proof (chained_chain _ _ (shape_chain _ _ _ _ Hs') i') as Hc'.
  rewrite <- (shape_head _ _ _ _ Hs) in Hc.
  rewrite <- (shape_head _ _ _ _ Hs'), Hn, Hh in Hc'.
  pose proof (chain_inj _ _ _ _ Hc Hc') as Heq.
  rewrite Hn. replace (S i') with (i' + 1)%nat by lia.
  rewrite <- drop_drop, <- Heq, drop_drop. by replace (i + 1)%nat with (S i) by lia.
Qed.

Lemma holds_values q L i j vs :
  shape q L i j → holds q vs → values (nodes q) (drop (S i) L) vs.
Proof.
  intros Hs (L0 & i0 & j0 & Hs0 & Hvs).
  destruct (holds_move q q L0 i0 j0 L i j vs Hs0 Hvs Hs eq_refl eq_refl)
    as (L1 & i1 & j1 & Hs1 & Hvs1).
  pose proof (chained_chain _ _ (shape_chain _ _ _ _ Hs) i) as Hc.
  pose proof (chained_chain _ _ (shape_chain _ _ _ _ Hs1) i1) as Hc1.
  rewrite <- (shape_head _ _ _ _ Hs) in Hc.
  rewrite <- (shape_head _ _ _ _ Hs1) in Hc1.
  pose proof (chain_inj _ _ _ _ Hc Hc1) as Heq.
  replace (S i) with (i + 1)%nat by lia.
  rewrite <- drop_drop, Heq, drop_drop. by replace (i1 + 1)%nat with (S i1) by lia.
Qed.

(** Apart from the allocation of a node and the two steps that take effect,
    no step writes to [head] or to a node. *)
Lemma step_quiet b p q :
  commit p (fst (step b p q)) = false →
  (∀ v, p ≠ Enq_new v) →
  nodes (snd (step b p q)) = nodes q ∧ head (snd (step b p q)) = head q.
Proof.
  intros Hc Hnew. by_pc p; cbn [step] in *; try done.
  - by destruct (Hnew v).
  - by destruct (lst ≫= load (nodes q)).
  - repeat case_decide; try done. by destruct nxt.
  - destruct lst as [l|]; [|done]. destruct (load (nodes q) l); [|done].
    by destruct (cas_weak _ _ _).
  - by destruct (cas_weak _ _ _).
  - by destruct (cas_weak _ _ _).
  - by destruct (first ≫= load (nodes q)).
  - repeat case_decide; try done. by destruct nxt.
  - by destruct (cas_weak _ _ _).
  - by destruct (nxt ≫= load (nodes q)).
  - by destruct (cas_weak _ _ _).
Qed.

Lemma step_holds b p q L i j vs :
  shape q L i j → local_ok L i j p →
  (∀ n, owned p = Some n → private (nodes q) L n) →
  swing_ok (nodes q) p →
  values (nodes q) (drop (S i) L) vs →
  if commit p (fst (step b p q)) then
    ∃ op, pending (nodes q) p = Some op
          ∧ holds (snd (step b p q)) (snd (queue_spec op vs))
          ∧ ∀ r, fst (step b p q) = Return r → r = fst (queue_spec op vs)
  else holds (snd (step b p q)) vs.
Proof.
  intros Hs Hl Hpriv Hsw Hvs.
  destruct (thread_step_ok b p q _ _ L i j Hs Hl Hpriv (surjective_pairing _))
    as (ext & i' & j' & Hs' & _).
  destruct (commit p (fst (step b p q))) eqn:Hc.
  - by_pc p; cbn [step] in *; try done.
    + (* the node is linked *)
      destruct Hl as (k & -> & Hk & ->).
      destruct (lookup_lt_is_Some_2 L k) as [a Ha];
        [pose proof (shape_lt _ _ _ _ Hs); lia|].
      destruct (shape_chain _ _ _ _ Hs k a Ha) as (nd & Hnd & Hnx).
      rewrite Ha in Hc |- *. rewrite Hnd in Hc |- *.
      destruct (cas_weak b (next nd) None) eqn:Hcas; [|done].
      apply cas_weak_true in Hcas. destruct (Hpriv n eq_refl) as (Hn & v & Hv).
      destruct (shape_link _ _ _ _ k a nd n v Hs Ha Hk Hnd Hcas Hn Hv) as [_ Hlen].
      assert (k = j) as -> by (pose proof (shape_lt _ _ _ _ Hs); lia).
      destruct (link_holds q L i j a nd n v vs Hs Hlen Ha Hnd Hcas Hn Hv Hvs)
        as (Hs1 & _ & Hvs1).
      exists (Enqueue v). cbn [pending fst snd queue_spec]. rewrite Hv.
      split; [done|]. split; [|done]. by exists (L ++ [n]), i, j.
    + (* [head] moves to the next node *)
      destruct Hl as (k & a & -> & -> & Hn & Hk). destruct Hsw as (a' & [= <-] & Hv).
      destruct (cas_weak b (head q) (L !! k)) eqn:Hcas; [|done].
      apply cas_weak_true in Hcas. rewrite (shape_head _ _ _ _ Hs) in Hcas.
      apply lookup_inj_nodup in Hcas;
        [|by destruct Hs|pose proof (shape_lt _ _ _ _ Hs); pose proof (shape_le _ _ _ _ Hs); lia].
      subst k. rewrite (drop_S _ _ _ Hn) in Hvs.
      apply Forall2_cons_inv_l in Hvs as (v' & vs' & Hv' & Hvs' & ->).
      rewrite Hv in Hv'. injection Hv' as <-.
      exists Dequeue. cbn [pending fst snd queue_spec]. split; [done|].
      split; [|by intros r [= <-]].
      exists L, (S i), j. split; [|done]. rewrite <- Hn.
      apply (shape_swing_head q); [done|lia].
  - assert ((∃ v, p = Enq_new v) ∨ ∀ v, p ≠ Enq_new v) as [[v ->]|Hnew]
      by (destruct p; [left; eauto|right; done..]).
    + cbn [step alloc snd]. exists L, i, j. split; [by apply shape_alloc|].
      eapply values_frame; [done|]. intros a Ha. cbn [nodes]. by rewrite load_app_old.
    + destruct (step_quiet b p q Hc Hnew) as [Hn Hh].
      exact (holds_move q _ L i j _ _ _ vs Hs Hvs Hs' Hn Hh).
Qed.

(** A thread keeps executing the same call until the call takes effect. *)
Lemma queue_pending_kept b p q :
  commit p (fst (step b p q)) = false →
  inspect (fst (step b p q)) = Running →
  pending (nodes (snd (step b p q))) (fst (step b p q)) = pending (nodes q) p.
Proof.
  by_pc p; cbn [step]; try done.
  - intros _ _. cbn [alloc fst snd nodes pending]. by rewrite load_app_new.
  - by destruct (lst ≫= load (nodes q)).
  - repeat case_decide; try done. by destruct nxt.
  - destruct lst as [l|]; [|done]. destruct (load (nodes q) l); [|done].
    by destruct (cas_weak _ _ _).
  - by destruct (cas_weak _ _ _).
  - by destruct (cas_weak _ _ _).
  - by destruct (first ≫= load (nodes q)).
  - repeat case_decide; try done. by destruct nxt.
  - by destruct (cas_weak _ _ _).
  - by destruct (nxt ≫= load (nodes q)).
  - by destruct (cas_weak _ _ _).
Qed.

Lemma queue_pending_frame b p q p2 :
  (∀ n, owned p2 = Some n → (n < length (nodes q))%nat) →
  pending (nodes (snd (step b p q))) p2 = pending (nodes q) p2.
Proof.
  intros Hn. destruct p2; cbn [pending owned] in *; try done;
    by rewrite queue_step_keeps_values by (by apply Hn).
Qed.


(** *** The destructor

    [while(head.load() != tail.load()) {
       node* n = head.load(); head.store(n->next); delete n; }
     delete head.load();]
    Deleting a null pointer does nothing. *)
Fixpoint destroy (fuel : nat) (q : msqueue) : outcome msqueue :=
  if decide (head q = tail q) then
    match head q with
    | Some a =>
        match free (nodes q) a with
        | Some h => Finished Void (Queue h (head q) (tail q)) []
        | None => Faulted
        end
    | None => Finished Void q []
    end
  else
    match fuel with
    | O => Out_of_fuel
    | S fuel' =>
        match head q with
        | Some n =>
            match load (nodes q) n with
            | Some nd =>
                match free (nodes q) n with
                | Some h => destroy fuel' (Queue h (next nd) (tail q))
                | None => Faulted
                end
            | None => Faulted
            end
        | None => Faulted
        end
    end.

(** What the loop of the destructor relies on: [head] is at or before
    [tail] in a list of distinct nodes, chained from [head] on. *)
Definition segment (q : msqueue) (L : list nat) (i j : nat) : Prop :=
  NoDup L ∧ head q = L !! i ∧ tail q = L !! j ∧ (i ≤ j < length L)%nat
  ∧ ∀ k a, (i ≤ k)%nat → L !! k = Some a →
           ∃ nd, load (nodes q) a = Some nd ∧ next nd = L !! S k.

Lemma shape_segment q L i j : shape q L i j → segment q L i j.
Proof.
  intros [Hnd Hc Hh Ht Hle Hlt _]. split; [done|]. split; [done|]. split; [done|].
  split; [lia|]. intros k a _. apply Hc.
Qed.

Lemma load_freed (h : heap) a : load (<[a := None]> h) a = None.
Proof.
  unfold load. destruct (decide (a < length h)%nat).
  - by rewrite list_lookup_insert_eq.
  - rewrite lookup_ge_None_2; [done|]. rewrite length_insert. lia.
Qed.

Lemma destroy_segment L j d : ∀ q i fuel,
  segment q L i j → (j - i)%nat = d → (d ≤ fuel)%nat →
  ∃ h', destroy fuel q = Finished Void (Queue h' (tail q) (tail q)) []
        ∧ (∀ k a, (i ≤ k ≤ j)%nat → L !! k = Some a → load h' a = None)
        ∧ (∀ a, (∀ k, (i ≤ k ≤ j)%nat → L !! k ≠ Some a) →
                load h' a = load (nodes q) a).
Proof.
  induction d as [|d IH]; intros [h hp tp] i fuel (Hnd & Hh & Ht & Hij & Hc) Hd Hfuel;
    cbn [head tail nodes] in *;
    (destruct (lookup_lt_is_Some_2 L i) as [f Hf]; [lia|]);
    destruct (Hc i f (le_n _) Hf) as (ndf & Hndf & Hnx).
  - assert (i = j) as -> by lia. subst hp tp.
    assert (destroy fuel (Queue h (L !! j) (L !! j))
            = Finished Void (Queue (<[f := None]> h) (L !! j) (L !! j)) []) as ->.
    { destruct fuel; cbn [destroy head tail nodes]; rewrite decide_True by done;
        rewrite Hf; unfold free; by rewrite Hndf. }
    eexists. split; [done|]. split.
    + intros k a Hk Ha. assert (k = j) as -> by lia.
      rewrite Hf in Ha. injection Ha as <-. apply load_freed.
    + intros a Ha. apply load_insert_ne. intros <-. by apply (Ha j).
  - destruct fuel as [|fuel]; [lia|].
    destruct (lookup_lt_is_Some_2 L j) as [t Htj]; [lia|].
    assert (f ≠ t) as Hft.
    { intros ->. pose proof (NoDup_lookup _ _ _ _ Hnd Hf Htj). lia. }
    subst hp tp. cbn [destroy head tail nodes].
    rewrite decide_False by (rewrite Hf, Htj; congruence).
    rewrite Hf, Hndf. unfold free. rewrite Hndf, Hnx.
    destruct (IH (Queue (<[f := None]> h) (L !! S i) (L !! j)) (S i) fuel)
      as (h' & -> & Hfreed & Hkept); [|lia|lia|].
    { split; [done|]. split; [done|]. split; [done|]. split; [lia|].
      intros k a Hk Ha. cbn [nodes]. rewrite load_insert_ne; [apply Hc; [lia|done]|].
      intros <-. pose proof (NoDup_lookup _ _ _ _ Hnd Hf Ha). lia. }
    cbn [tail nodes] in *. eexists. split; [done|]. split.
    + intros k a Hk Ha. destruct (decide (k = i)) as [->|Hne].
      * rewrite Hf in Ha. injection Ha as <-. rewrite Hkept; [apply load_freed|].
        intros k Hk' Hk2. pose proof (NoDup_lookup _ _ _ _ Hnd Hf Hk2). lia.
      * apply (Hfreed k); [lia|done].
    + intros a Ha. rewrite Hkept.
      * apply load_insert_ne. intros <-. apply (Ha i); [lia|done].
      * intros k Hk. apply Ha. lia.
Qed.


End MSQueueSteps.

(** X6. Used by one thread, the Michael-Scott queue is a first-in first-out
    queue: from a state that holds the values [vs], any sequence of calls of
    [enqueue] and [dequeue] returns what the same sequence returns on the
    list [vs] ([dequeue] the oldest value that is left, and the empty error
    when none is), and leaves the queue holding the list the calls leave.
    This holds whichever weak compare-and-swaps fail spuriously, once the
    fuel covers the retries. *)
Theorem msqueue_sequential_fifo (ops : list queue_op) (q : MSQueue.msqueue)
    (vs : list Z) (o : list bool) (k : nat) :
  MSQueue.holds q vs →
  ∃ q', MSQueue.exec_ops (6 * length o + 11 + k) o ops q
        = Some (fst (spec_ops queue_spec ops vs), q')
        ∧ MSQueue.holds q' (snd (spec_ops queue_spec ops vs)).
Proof.
  intros Hh.
  apply (run_ops_refines MSQueue.start MSQueue.step MSQueue.weak
           MSQueue.inspect MSQueue.holds queue_spec (λ n, 6 * n + 11)%nat).
  - intros n m Hnm. lia.
  - intros op s0 a o0 fuel. apply MSQueue.queue_call_refines.
  - exact Hh.
  - lia.
Qed.

Lemma msqueue_sequential_fifo_witness :
  MSQueue.holds MSQueue.new []
  ∧ ∃ q', MSQueue.exec_ops (6 * 2 + 11 + 0) [false; true]
            [Enqueue 4; Dequeue; Enqueue 6; Enqueue 7; Dequeue; Dequeue; Dequeue]
            MSQueue.new
          = Some (fst (spec_ops queue_spec
                         [Enqueue 4; Dequeue; Enqueue 6; Enqueue 7; Dequeue; Dequeue; Dequeue]
                         []), q')
          ∧ MSQueue.holds q'
              (snd (spec_ops queue_spec
                      [Enqueue 4; Dequeue; Enqueue 6; Enqueue 7; Dequeue; Dequeue; Dequeue]
                      [])).
Proof.
  split; [exact MSQueue.queue_holds_new|].
  exact (msqueue_sequential_fifo
           [Enqueue 4; Dequeue; Enqueue 6; Enqueue 7; Dequeue; Dequeue; Dequeue]
           MSQueue.new [] [false; true] 0 MSQueue.queue_holds_new).
Defined.

(** X7. In every interleaving of calls of [enqueue] and [dequeue] on a
    Michael-Scott queue, by any number of threads and with any spurious
    failures: no thread ever dereferences a null pointer or a pointer to a
    node that is not allocated, no node is ever freed, the queue holds a
    list of values, and the node an [enqueue] has allocated and not yet
    linked has a null [next], is not among the linked nodes and is not the
    node of another [enqueue]. *)
Theorem msqueue_interleavings_safe (c : MSQueue.conf) :
  MSQueue.qreachable c →
  (∀ t p, threads c !! t = Some p → p ≠ MSQueue.Fault)
  ∧ (∀ a, (a < length (MSQueue.nodes (shared c)))%nat →
          is_Some (Heap.load (MSQueue.nodes (shared c)) a))
  ∧ (∃ vs, MSQueue.holds (shared c) vs)
  ∧ (∃ L i j, MSQueue.shape (shared c) L i j
       ∧ ∀ t p n, threads c !! t = Some p → MSQueue.owned p = Some n →
           (n ∉ L) ∧ ∃ v, Heap.load (MSQueue.nodes (shared c)) n = Some (Node v None))
  ∧ (∀ t1 t2 p1 p2 n, threads c !! t1 = Some p1 → threads c !! t2 = Some p2 →
       MSQueue.owned p1 = Some n → MSQueue.owned p2 = Some n → t1 = t2).
Proof.
  intros Hr. destruct (MSQueueSteps.reachable_swing_ok c Hr) as [Hfull _].
  apply MSQueue.inv_reachable in Hr as (L & i & j & Hs & Hth & Hdis).
  split; [|split; [|split; [|split]]].
  - intros t p Hp ->. by destruct (Hth t _ Hp) as [Hl _].
  - exact Hfull.
  - destruct (MSQueue.chained_values _ _ (MSQueue.shape_chain _ _ _ _ Hs) (S i))
      as [vs Hvs].
    exists vs, L, i, j. done.
  - exists L, i, j. split; [done|]. intros t p n Hp Hn.
    destruct (Hth t p Hp) as [_ Hpriv]. by apply Hpriv.
  - exact Hdis.
Qed.

(** After [enqueue(7)]: one thread inside [enqueue(8)], about to link its
    node, and one inside [dequeue], about to move [head]. *)
Definition link_and_swing : MSQueue.conf :=
  Config (MSQueue.Queue [Some (Node 0 (Some 1%nat)); Some (Node 7 None);
                         Some (Node 8 None)] (Some 0%nat) (Some 1%nat))
         [MSQueue.Enq_link 2 (Some 1%nat) None;
          MSQueue.Deq_swing (Some 0%nat) (Some 1%nat) 7].

Lemma link_and_swing_reachable : MSQueue.qreachable link_and_swing.
Proof.
  apply (play_reachable MSQueue.start MSQueue.step MSQueue.inspect MSQueue.new
           [Spawn (Enqueue 7); Step 0 false; Step 0 false; Step 0 false;
            Step 0 false; Step 0 false; Step 0 false;
            Call 0 (Enqueue 8); Spawn Dequeue;
            Step 0 false; Step 0 false; Step 0 false; Step 0 false;
            Step 1 false; Step 1 false; Step 1 false; Step 1 false; Step 1 false]
           (Config MSQueue.new [])).
  - apply reachable_init.
  - reflexivity.
Defined.

Lemma msqueue_interleavings_safe_witness :
  MSQueue.qreachable link_and_swing
  ∧ (∀ t p, threads link_and_swing !! t = Some p → p ≠ MSQueue.Fault)
  ∧ (∀ a, (a < length (MSQueue.nodes (shared link_and_swing)))%nat →
          is_Some (Heap.load (MSQueue.nodes (shared link_and_swing)) a))
  ∧ (∃ vs, MSQueue.holds (shared link_and_swing) vs)
  ∧ (∃ L i j, MSQueue.shape (shared link_and_swing) L i j
       ∧ ∀ t p n, threads link_and_swing !! t = Some p → MSQueue.owned p = Some n →
           (n ∉ L)
           ∧ ∃ v, Heap.load (MSQueue.nodes (shared link_and_swing)) n
                  = Some (Node v None))
  ∧ (∀ t1 t2 p1 p2 n, threads link_and_swing !! t1 = Some p1 →
       threads link_and_swing !! t2 = Some p2 →
       MSQueue.owned p1 = Some n → MSQueue.owned p2 = Some n → t1 = t2).
Proof.
  split; [exact link_and_swing_reachable|].
  exact (msqueue_interleavings_safe link_and_swing link_and_swing_reachable).
Defined.

(** X8. Every [enqueue] and every [dequeue] that returns a value takes
    effect at once, at one compare-and-swap of its own, whatever the other
    threads do in between.  In a state reached by any interleaving in which
    the queue holds [vs]: the compare-and-swap that links the node of
    [enqueue(v)] turns [vs] into [vs] followed by [v]; the compare-and-swap
    of [dequeue] that moves [head] removes the first value of [vs], and
    that value is what the call returns; every other step, the help given
    to a lagging [tail] and the return of the empty error included, leaves
    the queue holding [vs] and the thread inside the same call.  The steps
    of a thread leave every other thread inside its call, a call starts as
    the call that was made, and an [enqueue] whose node is linked returns
    on its next step. *)
Theorem msqueue_calls_take_effect_at_once (c : MSQueue.conf) (t : nat)
    (p : MSQueue.pc) (b : bool) (vs : list Z) :
  MSQueue.qreachable c → threads c !! t = Some p → MSQueue.holds (shared c) vs →
  let p' := fst (MSQueue.step b p (shared c)) in
  let q' := snd (MSQueue.step b p (shared c)) in
  (if MSQueueSteps.commit p p' then
     ∃ op, MSQueueSteps.pending (MSQueue.nodes (shared c)) p = Some op
           ∧ MSQueue.holds q' (snd (queue_spec op vs))
           ∧ ∀ r, p' = MSQueue.Return r → r = fst (queue_spec op vs)
   else
     MSQueue.holds q' vs
     ∧ (MSQueue.inspect p' = Running →
        MSQueueSteps.pending (MSQueue.nodes q') p'
        = MSQueueSteps.pending (MSQueue.nodes (shared c)) p))
  ∧ (∀ t2 p2, t2 ≠ t → threads c !! t2 = Some p2 →
       MSQueueSteps.pending (MSQueue.nodes q') p2
       = MSQueueSteps.pending (MSQueue.nodes (shared c)) p2)
  ∧ (∀ h op, MSQueueSteps.pending h (MSQueue.start op) = Some op)
  ∧ (∀ b' n lst q, fst (MSQueue.step b' (MSQueue.Enq_swing n lst) q)
                   = MSQueue.Return Void).
Proof.
  intros Hr Hp Hh p' q'.
  destruct (MSQueueSteps.reachable_swing_ok c Hr) as [_ Hsw].
  apply MSQueue.inv_reachable in Hr as (L & i & j & Hs & Hth & Hdis).
  destruct (Hth t p Hp) as [Hl Hpriv].
  pose proof (MSQueueSteps.holds_values _ _ _ _ _ Hs Hh) as Hvs.
  pose proof (MSQueueSteps.step_holds b p (shared c) L i j vs Hs Hl Hpriv
                (Hsw t p Hp) Hvs) as Heff.
  split; [|split; [|split]].
  - fold p' q' in Heff. destruct (MSQueueSteps.commit p p') eqn:Hc; [done|].
    split; [done|]. by apply MSQueueSteps.queue_pending_kept.
  - intros t2 p2 _ Hp2. apply MSQueueSteps.queue_pending_frame. intros n Hn.
    destruct (Hth t2 p2 Hp2) as [_ Hpriv2].
    destruct (Hpriv2 n Hn) as (_ & v & Hv). by eapply Heap.load_lt.
  - intros h op. apply MSQueueSteps.queue_pending_start.
  - intros b' n lst q. cbn [MSQueue.step]. by destruct (cas_weak _ _ _).
Qed.

(** In [link_and_swing] the queue holds 7: the step of the first thread
    makes it hold 7 and 8, the step of the second one returns 7 and leaves
    it empty. *)
Lemma msqueue_calls_take_effect_at_once_witness :
  MSQueue.qreachable link_and_swing
  ∧ MSQueue.holds (shared link_and_swing) [7]
  ∧ (∃ op, MSQueueSteps.pending (MSQueue.nodes (shared link_and_swing))
             (MSQueue.Enq_link 2 (Some 1%nat) None) = Some op
           ∧ MSQueue.holds
               (snd (MSQueue.step false (MSQueue.Enq_link 2 (Some 1%nat) None)
                       (shared link_and_swing)))
               (snd (queue_spec op [7]))
           ∧ ∀ r, fst (MSQueue.step false (MSQueue.Enq_link 2 (Some 1%nat) None)
                         (shared link_and_swing)) = MSQueue.Return r →
                  r = fst (queue_spec op [7]))
  ∧ fst (MSQueue.step false (MSQueue.Deq_swing (Some 0%nat) (Some 1%nat) 7)
           (shared link_and_swing)) = MSQueue.Return (Int 7).
Proof.
  assert (MSQueue.holds (shared link_and_swing) [7]) as Hh.
  { exists [0; 1]%nat, 0%nat, 1%nat. split; [|by repeat constructor].
    split; simpl; try done; try lia.
    - apply NoDup_cons. split; [by intros ?%list_elem_of_singleton|apply NoDup_singleton].
    - intros [|[|k]] a [= <-]; by eexists. }
  split; [exact link_and_swing_reachable|]. split; [exact Hh|].
  split; [|reflexivity].
  exact (proj1 (msqueue_calls_take_effect_at_once link_and_swing 0
                  (MSQueue.Enq_link 2 (Some 1%nat) None) false [7]
                  link_and_swing_reachable eq_refl Hh)).
Defined.

(** X9. The destructor of the Michael-Scott queue, run on a state reached
    by any interleaving of calls, terminates after as many iterations as
    [tail] is ahead of [head]; it frees the nodes from [head] up to [tail],
    each once, and leaves every other node as it was.  Hence the nodes that
    [dequeue] has moved [head] past stay allocated, and so does the last
    node when [tail] lags behind it. *)
Theorem msqueue_destructor_frees_head_to_tail (c : MSQueue.conf) :
  MSQueue.qreachable c →
  ∃ L i j, MSQueue.shape (shared c) L i j
    ∧ ∀ fuel, (j - i ≤ fuel)%nat →
        ∃ h', MSQueueSteps.destroy fuel (shared c)
              = Finished Void
                  (MSQueue.Queue h' (MSQueue.tail (shared c)) (MSQueue.tail (shared c))) []
              ∧ (∀ k a, (i ≤ k ≤ j)%nat → L !! k = Some a → Heap.load h' a = None)
              ∧ (∀ a, (∀ k, (i ≤ k ≤ j)%nat → L !! k ≠ Some a) →
                      Heap.load h' a = Heap.load (MSQueue.nodes (shared c)) a)
              ∧ (∀ k a, (k < i ∨ j < k)%nat → L !! k = Some a →
                        is_Some (Heap.load h' a)).
Proof.
  intros (L & i & j & Hs & _)%MSQueue.inv_reachable.
  exists L, i, j. split; [done|]. intros fuel Hfuel.
  destruct (MSQueueSteps.destroy_segment L j (j - i) (shared c) i fuel)
    as (h' & Hd & Hfreed & Hkept); [by apply MSQueueSteps.shape_segment|done|done|].
  exists h'. split; [done|]. split; [done|]. split; [done|].
  intros k a Hk Ha. rewrite Hkept.
  - destruct (MSQueue.shape_chain _ _ _ _ Hs k a Ha) as (nd & -> & _). by eexists.
  - intros k' Hk' Ha'.
    pose proof (NoDup_lookup _ _ _ _ (MSQueue.shape_nodup _ _ _ _ Hs) Ha Ha'). lia.
Qed.

(** After an [enqueue(7)] whose last compare-and-swap has failed spuriously
    [tail] is still the dummy node: the destructor frees the dummy node and
    leaves the node of 7. *)
Definition left_behind : MSQueue.conf :=
  Config (MSQueue.Queue [Some (Node 0 (Some 1%nat)); Some (Node 7 None)]
            (Some 0%nat) (Some 0%nat))
         [MSQueue.Return Void].

Lemma left_behind_reachable : MSQueue.qreachable left_behind.
Proof.
  apply (play_reachable MSQueue.start MSQueue.step MSQueue.inspect MSQueue.new
           [Spawn (Enqueue 7); Step 0 false; Step 0 false; Step 0 false;
            Step 0 false; Step 0 false; Step 0 true]
           (Config MSQueue.new [])).
  - apply reachable_init.
  - reflexivity.
Defined.

Lemma msqueue_destructor_frees_head_to_tail_witness :
  MSQueue.qreachable left_behind
  ∧ MSQueueSteps.destroy 0 (shared left_behind)
    = Finished Void
        (MSQueue.Queue [None; Some (Node 7 None)] (Some 0%nat) (Some 0%nat)) []
  ∧ ∃ L i j, MSQueue.shape (shared left_behind) L i j
      ∧ ∀ fuel, (j - i ≤ fuel)%nat →
          ∃ h', MSQueueSteps.destroy fuel (shared left_behind)
                = Finished Void
                    (MSQueue.Queue h' (MSQueue.tail (shared left_behind))
                       (MSQueue.tail (shared left_behind))) []
                ∧ (∀ k a, (i ≤ k ≤ j)%nat → L !! k = Some a → Heap.load h' a = None)
                ∧ (∀ a, (∀ k, (i ≤ k ≤ j)%nat → L !! k ≠ Some a) →
                        Heap.load h' a = Heap.load (MSQueue.nodes (shared left_behind)) a)
                ∧ (∀ k a, (k < i ∨ j < k)%nat → L !! k = Some a →
                          is_Some (Heap.load h' a)).
Proof.
  split; [exact left_behind_reachable|]. split; [reflexivity|].
  exact (msqueue_destructor_frees_head_to_tail left_behind left_behind_reachable).
Defined.

(** ** Elimination stack: random draws, interleaved calls and the destructor *)

Module EliminationSteps.
Import Heap Elimination.

(** The calls to [rand()] that a thread at [p] still has to make before its
    call returns. *)
Definition draws (p : pc) : nat :=
  match p with
  | Push_new _ | Push_elim _ _ | Pop_elim => 1
  | _ => 0
  end.

(** What no step changes while the elimination array is idle: the array of
    exchanged values, and the sequence that [rand()] runs through. *)
Definition untouched (g : rng) (s : elimination_stack) : Prop :=
  idle s ∧ elim_vals s = replicate ELIM_SIZE 0 ∧ src (random s) = src g
  ∧ ∀ a, (a < length (nodes s))%nat → is_Some (load (nodes s) a).

Lemma untouched_new g : untouched g (new g).
Proof.
  split; [apply idle_new|]. split; [done|]. split; [done|].
  intros a Ha. simpl in Ha. lia.
Qed.

Lemma step_untouched g b p s :
  untouched g s → eliminated p = false →
  untouched g (snd (step b p s))
  ∧ (pos (random (snd (step b p s))) + draws (fst (step b p s)))%nat
    = (pos (random s) + draws p)%nat
  ∧ eliminated (fst (step b p s)) = false.
Proof.
  intros (Hi & Hv & Hg & Hf) Hp.
  destruct (step_idle b p s Hi Hp) as [Hi' Hp'].
  split; [|split; [|done]].
  - split; [done|]. clear Hi' Hp'.
    destruct p; try done; cbn [step rand] in *; rewrite ?idle_slot by done;
      change (cas_strong 0 2) with false; change (cas_strong 0 1) with false;
      cbn [fst snd elim_vals random src nodes]; try done.
    + cbn [alloc snd elim_vals random nodes]. split; [done|]. split; [done|].
      intros a Ha. rewrite length_app in Ha; simpl in Ha.
      destruct (decide (a = length (nodes s))) as [->|Hne].
      * by rewrite load_app_new.
      * rewrite load_app_old by lia. apply Hf. lia.
    + unfold set_next. destruct (load (nodes s) n) as [nd|] eqn:Hnd; [|done].
      cbn [snd elim_vals random nodes]. split; [done|]. split; [done|].
      intros a Ha. rewrite length_insert in Ha.
      destruct (decide (n = a)) as [->|Hne].
      * by rewrite load_insert_eq.
      * rewrite load_insert_ne by done. by apply Hf.
    + by destruct (cas_weak _ _ _).
    + by destruct (top s).
    + by destruct (load (nodes s) old_top).
    + by destruct (load (nodes s) old_top).
    + by destruct (cas_weak _ _ _).
  - clear Hi' Hp'.
    destruct p; try done; cbn [step rand] in *; rewrite ?idle_slot by done;
      change (cas_strong 0 2) with false; change (cas_strong 0 1) with false;
      cbn [fst snd random pos draws alloc]; try lia.
    + destruct (set_next _ _ _); cbn [fst snd random draws]; lia.
    + destruct (cas_weak _ _ _); cbn [fst snd random draws]; lia.
    + destruct (top s); cbn [fst snd random draws]; lia.
    + destruct (load (nodes s) old_top); cbn [fst snd random draws]; lia.
    + destruct (load (nodes s) old_top); cbn [fst snd random draws]; lia.
    + destruct (cas_weak _ _ _); cbn [fst snd random draws]; lia.
Qed.

(** A call draws one number. *)
Lemma exec_untouched g fuel : ∀ o p s r s' o',
  untouched g s → eliminated p = false →
  exec fuel o p s = Finished r s' o' →
  untouched g s' ∧ pos (random s') = (pos (random s) + draws p)%nat.
Proof.
  unfold exec. induction fuel as [|fuel IH]; intros o p s r s' o' Hu Hp.
  - simpl. destruct (inspect p) eqn:Hrun; try done. intros [= _ <- _].
    split; [done|]. destruct p; try done; simpl; lia.
  - destruct (inspect p) eqn:Hrun.
    + rewrite run_unfold by done. intros Hexec.
      destruct (step_untouched g (if weak p then hd false o else false) p s Hu Hp)
        as (Hu' & Hpos & Hp').
      destruct (IH _ _ _ _ _ _ Hu' Hp' Hexec) as [Hu2 Hpos2]. split; [done|]. lia.
    + erewrite run_done by done. intros [= _ <- _]. split; [done|].
      destruct p; try done; simpl; lia.
    + simpl. by rewrite Hrun.
Qed.

Lemma exec_ops_untouched g fuel ops : ∀ o s rs s',
  untouched g s → exec_ops fuel o ops s = Some (rs, s') →
  untouched g s' ∧ pos (random s') = (pos (random s) + length ops)%nat.
Proof.
  unfold exec_ops. induction ops as [|op ops IH]; intros o s rs s' Hu; simpl.
  - intros [= _ <-]. split; [done|]. lia.
  - destruct (run _ _ _ _ _ (start op) s) as [r s1 o1| |] eqn:Hrun; try done.
    destruct (run_ops _ _ _ _ _ o1 ops s1) as [[rs1 s2]|] eqn:Hops; [|done].
    intros [= _ <-].
    destruct (exec_untouched g fuel o (start op) s r s1 o1 Hu) as [Hu1 Hpos1];
      [by destruct op|done|].
    destruct (IH o1 s1 rs1 s2 Hu1 Hops) as [Hu2 Hpos2]. split; [done|].
    rewrite Hpos2, Hpos1. destruct op; simpl; lia.
Qed.

Lemma reachable_untouched g c :
  ereachable g c →
  untouched g (shared c) ∧ ∀ t p, threads c !! t = Some p → eliminated p = false.
Proof.
  apply (reachable_local start step inspect (untouched g)
           (λ _ p, eliminated p = false)).
  - apply untouched_new.
  - intros b p s Hu Hp. by apply step_untouched.
  - intros s op _. by destruct op.
  - intros b p s Hu Hp. by eapply step_untouched.
  - done.
Qed.

(** *** The effect of each step *)

(** The call a thread is executing and the values the stack holds: those of
    the Treiber stack that the elimination stack projects to. *)
Definition pending (h : heap) (p : pc) : option stack_op :=
  TreiberInv.pending h (to_treiber_pc p).

Definition holds (s : elimination_stack) (vs : list Z) : Prop :=
  Treiber.holds (to_treiber s) vs.

Lemma elimination_step_effect g c t p b vs :
  ereachable g c → threads c !! t = Some p → inspect p = Running →
  holds (shared c) vs →
  (inspect (fst (step b p (shared c))) = Running →
     holds (snd (step b p (shared c))) vs
     ∧ pending (nodes (snd (step b p (shared c)))) (fst (step b p (shared c)))
       = pending (nodes (shared c)) p)
  ∧ (∀ r, fst (step b p (shared c)) = Return r →
       ∃ op, pending (nodes (shared c)) p = Some op
             ∧ r = fst (stack_spec op vs)
             ∧ holds (snd (step b p (shared c))) (snd (stack_spec op vs)))
  ∧ (∀ t2 p2, t2 ≠ t → threads c !! t2 = Some p2 →
       pending (nodes (snd (step b p (shared c)))) p2 = pending (nodes (shared c)) p2).
Proof.
  intros Hr Hp Hrun Hh. unfold holds, pending in *.
  destruct (einv_reachable g c Hr) as [Hi Hel].
  pose proof (Hel t p Hp) as He.
  apply project_reachable, TreiberInv.inv_treachable in Hr as (H & L & Hs & Hth & _).
  cbn [project shared threads] in Hs, Hth.
  assert (∀ t' p', threads c !! t' = Some p' →
            (to_treiber_pc <$> threads c) !! t' = Some (to_treiber_pc p')) as Hproj.
  { intros t' p' Hp'. by rewrite list_lookup_fmap, Hp'. }
  destruct (Hth t _ (Hproj t p Hp)) as [Hl Hpriv].
  destruct (attempt p) eqn:Ha.
  - destruct (attempt_fails b p (shared c) Hi Ha) as (Hpc & Hst & _ & Hrun').
    assert (nodes (snd (step b p (shared c))) = nodes (shared c)) as Hn
      by (by injection Hst).
    rewrite Hpc, Hst, Hn. split; [done|]. split; [|done].
    intros r Hret. rewrite Hret in Hrun'. done.
  - pose proof (fallback_step b p (shared c) Ha He) as Hfb.
    destruct (step_idle b p (shared c) Hi He) as [_ He'].
    rewrite <- (to_treiber_inspect p He) in Hrun.
    destruct (TreiberInv.step_effect b (to_treiber_pc p) (to_treiber (shared c)) H L vs
                Hs Hl Hpriv Hrun Hh) as [Hstay Hret].
    pose proof (TreiberInv.pending_kept b (to_treiber_pc p) (to_treiber (shared c)))
      as Hkept.
    rewrite Hfb in Hstay, Hret, Hkept. cbn [fst snd] in Hstay, Hret, Hkept.
    rewrite (to_treiber_inspect _ He') in Hstay, Hkept.
    split; [|split].
    + intros Hrun'. split; [by apply Hstay|]. by apply Hkept.
    + intros r Hr'. apply Hret. by rewrite Hr'.
    + intros t2 p2 _ Hp2.
      pose proof (TreiberInv.pending_frame b (to_treiber_pc p) (to_treiber (shared c))
                    (to_treiber_pc p2)) as Hframe.
      rewrite Hfb in Hframe. apply Hframe. intros n Hn.
      destruct (Hth t2 _ (Hproj t2 p2 Hp2)) as [_ Hpriv2].
      destruct (Hpriv2 n Hn) as [_ Hsome]. by apply TreiberInv.is_Some_load_lt.
Qed.

(** *** The destructor

    [while(top.load()) { node* n = top.load(); top.store(n->next); delete n; }] *)
Fixpoint destroy (fuel : nat) (s : elimination_stack) : outcome elimination_stack :=
  match top s with
  | None => Finished Void s []
  | Some n =>
      match fuel with
      | O => Out_of_fuel
      | S fuel' =>
          match load (nodes s) n with
          | Some nd =>
              match free (nodes s) n with
              | Some h =>
                  destroy fuel' (EStack h (next nd) (elim_ops s) (elim_vals s) (random s))
              | None => Faulted
              end
          | None => Faulted
          end
      end
  end.

(** It is the destructor of the Treiber stack. *)
Lemma destroy_like_treiber fuel : ∀ s h',
  TreiberInv.destroy fuel (to_treiber s) = Finished Void (Treiber.Stack h' None) [] →
  destroy fuel s
  = Finished Void (EStack h' None (elim_ops s) (elim_vals s) (random s)) [].
Proof.
  induction fuel as [|fuel IH]; intros [h t eo ev g] h';
    cbn [TreiberInv.destroy destroy to_treiber Treiber.top Treiber.nodes
         nodes top elim_ops elim_vals random].
  - destruct t; [done|]. by intros [= <-].
  - destruct t as [n|]; [|by intros [= <-]].
    destruct (load h n) as [nd|]; [|done]. destruct (free h n) as [h1|]; [|done].
    intros Hd. by rewrite (IH (EStack h1 (next nd) eo ev g) h').
Qed.


End EliminationSteps.

(** X10. Used by one thread, the elimination stack is a last-in first-out
    stack: on a fresh stack any sequence of calls of [push] and [pop]
    returns what the same sequence returns on a list, and leaves the linked
    nodes holding the list the calls leave.  Each call draws exactly one
    number from [rand()], the values of [elim_vals] and the entries of
    [elim_ops] are all still 0, and no node has been freed: the branch of
    [push] that deletes its node is never taken.  This holds whichever weak
    compare-and-swaps fail spuriously, once the fuel covers the retries. *)
Theorem elimination_sequential_lifo (g : Elimination.rng) (ops : list stack_op)
    (o : list bool) (k : nat) :
  ∃ s', Elimination.exec_ops (4 * length o + 5 + k) o ops (Elimination.new g)
        = Some (fst (spec_ops stack_spec ops []), s')
        ∧ EliminationSteps.holds s' (snd (spec_ops stack_spec ops []))
        ∧ Elimination.random s'
          = Elimination.Rng (Elimination.src g) (Elimination.pos g + length ops)
        ∧ Elimination.elim_vals s' = replicate Elimination.ELIM_SIZE 0
        ∧ Elimination.elim_ops s' = replicate Elimination.ELIM_SIZE 0
        ∧ ∀ a, (a < length (Elimination.nodes s'))%nat →
               is_Some (Heap.load (Elimination.nodes s') a).
Proof.
  destruct (run_ops_refines Treiber.start Treiber.step Treiber.weak
              Treiber.inspect Treiber.holds stack_spec (λ n, 4 * n + 4)%nat)
    with (ops := ops) (s := Treiber.new) (a := @nil Z) (o := o)
         (fuel := (4 * length o + 4 + k)%nat) as (sT & Hrun & Hh).
  { intros n m Hnm. lia. }
  { intros op s a o0 fuel. apply Treiber.call_refines. }
  { apply Treiber.holds_new. }
  { lia. }
  destruct (Elimination.ops_like_treiber (4 * length o + 4 + k) ops o
              (Elimination.new g) _ sT (Elimination.idle_new g) Hrun)
    as (s' & Hrun' & Hs').
  replace (S (4 * length o + 4 + k)) with (4 * length o + 5 + k)%nat in Hrun' by lia.
  destruct (EliminationSteps.exec_ops_untouched g _ ops o (Elimination.new g) _ s'
              (EliminationSteps.untouched_new g) Hrun')
    as [([Hlen Hz] & Hv & Hsrc & Hfull) Hpos].
  exists s'. split; [exact Hrun'|]. split; [unfold EliminationSteps.holds; by rewrite Hs'|].
  split; [|split; [done|split; [|done]]].
  - destruct (Elimination.random s') as [f n]. cbn [Elimination.src Elimination.pos] in *.
    by rewrite Hsrc, Hpos.
  - apply list_eq. intros i. destruct (Elimination.elim_ops s' !! i) as [x|] eqn:Hx.
    + rewrite (Hz i x Hx). symmetry. apply lookup_replicate_2.
      apply lookup_lt_Some in Hx. by rewrite <- Hlen.
    + symmetry. apply lookup_ge_None. rewrite length_replicate, <- Hlen.
      by apply lookup_ge_None.
Qed.

(** X11. In every interleaving of calls of [push] and [pop] on an
    elimination stack, whatever [rand()] returns: no thread ever indexes the
    elimination arrays out of bounds or dereferences a pointer to a node
    that is not allocated, no value is ever written to [elim_vals], no node
    is ever freed, and [top] heads a finite chain of allocated nodes. *)
Theorem elimination_interleavings_safe (g : Elimination.rng) (c : Elimination.conf) :
  Elimination.ereachable g c →
  (∀ t p, threads c !! t = Some p → p ≠ Elimination.Fault)
  ∧ Elimination.elim_vals (shared c) = replicate Elimination.ELIM_SIZE 0
  ∧ Elimination.src (Elimination.random (shared c)) = Elimination.src g
  ∧ (∀ a, (a < length (Elimination.nodes (shared c)))%nat →
          is_Some (Heap.load (Elimination.nodes (shared c)) a))
  ∧ (∃ vs, EliminationSteps.holds (shared c) vs).
Proof.
  intros Hr.
  destruct (EliminationSteps.reachable_untouched g c Hr) as [(Hi & Hv & Hsrc & Hfull) Hel].
  apply Elimination.project_reachable, TreiberInv.inv_treachable in Hr
    as (H & L & Hs & Hth & _).
  split; [|split; [done|split; [done|split; [done|]]]].
  - intros t p Hp ->.
    destruct (Hth t Treiber.Fault) as [Hl _]; [|done].
    cbn [Elimination.project threads]. by rewrite list_lookup_fmap, Hp.
  - destruct (TreiberInv.path_linked _ _ _ (TreiberInv.shape_path _ _ _ Hs))
      as (vs & Hvs & _).
    by exists vs.
Qed.

Lemma in_flight_reachable : Elimination.ereachable threes in_flight.
Proof.
  apply (play_reachable Elimination.start Elimination.step Elimination.inspect
           (Elimination.new threes)
           [Spawn (Push 5); Spawn Pop; Step 0 false; Step 0 false; Step 1 false]
           (Config (Elimination.new threes) [])).
  - apply reachable_init.
  - reflexivity.
Defined.

Lemma elimination_interleavings_safe_witness :
  Elimination.ereachable threes in_flight
  ∧ (∀ t p, threads in_flight !! t = Some p → p ≠ Elimination.Fault)
  ∧ Elimination.elim_vals (shared in_flight) = replicate Elimination.ELIM_SIZE 0
  ∧ Elimination.src (Elimination.random (shared in_flight)) = Elimination.src threes
  ∧ (∀ a, (a < length (Elimination.nodes (shared in_flight)))%nat →
          is_Some (Heap.load (Elimination.nodes (shared in_flight)) a))
  ∧ (∃ vs, EliminationSteps.holds (shared in_flight) vs).
Proof.
  split; [exact in_flight_reachable|].
  exact (elimination_interleavings_safe threes in_flight in_flight_reachable).
Defined.

(** X12. Every call on an elimination stack takes effect at once, at the
    step on which it returns, whatever the other threads do in between.  In
    a state reached by any interleaving in which the linked nodes hold
    [vs], a step of a thread that does not make its call return (the
    attempt to eliminate included) leaves them holding [vs] and the thread
    inside the same call; a step that makes the call return [r] turns [vs]
    into what the call gives on the list [vs], and [r] is what it returns
    there.  The steps of a thread leave every other thread inside its
    call. *)
Theorem elimination_calls_take_effect_at_once (g : Elimination.rng)
    (c : Elimination.conf) (t : nat) (p : Elimination.pc) (b : bool) (vs : list Z) :
  Elimination.ereachable g c → threads c !! t = Some p →
  Elimination.inspect p = Running → EliminationSteps.holds (shared c) vs →
  let p' := fst (Elimination.step b p (shared c)) in
  let s' := snd (Elimination.step b p (shared c)) in
  (Elimination.inspect p' = Running →
     EliminationSteps.holds s' vs
     ∧ EliminationSteps.pending (Elimination.nodes s') p'
       = EliminationSteps.pending (Elimination.nodes (shared c)) p)
  ∧ (∀ r, p' = Elimination.Return r →
       ∃ op, EliminationSteps.pending (Elimination.nodes (shared c)) p = Some op
             ∧ r = fst (stack_spec op vs)
             ∧ EliminationSteps.holds s' (snd (stack_spec op vs)))
  ∧ (∀ t2 p2, t2 ≠ t → threads c !! t2 = Some p2 →
       EliminationSteps.pending (Elimination.nodes s') p2
       = EliminationSteps.pending (Elimination.nodes (shared c)) p2)
  ∧ (∀ h op, EliminationSteps.pending h (Elimination.start op) = Some op).
Proof.
  intros Hr Hp Hrun Hh p' s'.
  destruct (EliminationSteps.elimination_step_effect g c t p b vs Hr Hp Hrun Hh)
    as (H1 & H2 & H3).
  split; [exact H1|]. split; [exact H2|]. split; [exact H3|].
  intros h op. by destruct op.
Qed.

(** The [pop] of [in_flight] finds the stack empty. *)
Lemma elimination_calls_take_effect_at_once_witness :
  Elimination.ereachable threes in_flight
  ∧ threads in_flight !! 1%nat = Some Elimination.Pop_load
  ∧ EliminationSteps.holds (shared in_flight) []
  ∧ fst (Elimination.step false Elimination.Pop_load (shared in_flight))
    = Elimination.Return Empty_error
  ∧ ∃ op, EliminationSteps.pending (Elimination.nodes (shared in_flight))
            Elimination.Pop_load = Some op
          ∧ Empty_error = fst (stack_spec op [])
          ∧ EliminationSteps.holds
              (snd (Elimination.step false Elimination.Pop_load (shared in_flight)))
              (snd (stack_spec op [])).
Proof.
  assert (EliminationSteps.holds (shared in_flight) []) as Hh by done.
  split; [exact in_flight_reachable|]. split; [reflexivity|].
  split; [exact Hh|]. split; [reflexivity|].
  apply (elimination_calls_take_effect_at_once threes in_flight 1
           Elimination.Pop_load false [] in_flight_reachable eq_refl eq_refl Hh).
  reflexivity.
Defined.

(** X13. The destructor of the elimination stack, run on a state reached by
    any interleaving of calls, terminates with [top] null after as many
    iterations as the chain from [top] has nodes; it frees exactly the
    nodes of that chain, each once, leaves every other node as it was (so
    the nodes that [pop] has taken off the stack stay allocated), and
    touches neither elimination array. *)
Theorem elimination_destructor_frees_chain (g : Elimination.rng) (c : Elimination.conf) :
  Elimination.ereachable g c →
  ∃ l, TreiberInv.path (Elimination.nodes (shared c)) (Elimination.top (shared c)) l
       ∧ NoDup l
       ∧ ∀ fuel, (length l ≤ fuel)%nat →
           ∃ h', EliminationSteps.destroy fuel (shared c)
                 = Finished Void
                     (Elimination.EStack h' None (Elimination.elim_ops (shared c))
                        (Elimination.elim_vals (shared c))
                        (Elimination.random (shared c))) []
                 ∧ ∀ a, Heap.load h' a
                        = if decide (a ∈ l) then None
                          else Heap.load (Elimination.nodes (shared c)) a.
Proof.
  intros (H & L & Hs & _)%Elimination.project_reachable%TreiberInv.inv_treachable.
  pose proof (TreiberInv.shape_path _ _ _ Hs) as Hp.
  exists L. split; [done|]. split; [by eapply TreiberInv.path_NoDup|].
  intros fuel Hfuel.
  destruct (TreiberInv.destroy_frees L _ fuel Hp Hfuel) as (h' & Hd & _ & Hfr).
  exists h'. split; [|done]. by apply EliminationSteps.destroy_like_treiber.
Qed.

(** After [push(4); push(5); pop()], with [rand()] returning 3 each time. *)
Definition one_taken : Elimination.conf :=
  Config (Elimination.EStack [Some (Node 4 None); Some (Node 5 (Some 0%nat))]
            (Some 0%nat) (replicate 8 0) (replicate 8 0)
            (Elimination.Rng (λ _, 3%nat) 3))
         [Elimination.Return (Int 5)].

Lemma one_taken_reachable : Elimination.ereachable threes one_taken.
Proof.
  apply (play_reachable Elimination.start Elimination.step Elimination.inspect
           (Elimination.new threes)
           [Spawn (Push 4); Step 0 false; Step 0 false; Step 0 false; Step 0 false;
            Step 0 false;
            Call 0 (Push 5); Step 0 false; Step 0 false; Step 0 false; Step 0 false;
            Step 0 false;
            Call 0 Pop; Step 0 false; Step 0 false; Step 0 false; Step 0 false;
            Step 0 false]
           (Config (Elimination.new threes) [])).
  - apply reachable_init.
  - reflexivity.
Defined.

Lemma elimination_destructor_frees_chain_witness :
  Elimination.ereachable threes one_taken
  ∧ EliminationSteps.destroy 1 (shared one_taken)
    = Finished Void
        (Elimination.EStack [None; Some (Node 5 (Some 0%nat))] None
           (replicate 8 0) (replicate 8 0) (Elimination.Rng (λ _, 3%nat) 3)) []
  ∧ ∃ l, TreiberInv.path (Elimination.nodes (shared one_taken))
           (Elimination.top (shared one_taken)) l
         ∧ NoDup l
         ∧ ∀ fuel, (length l ≤ fuel)%nat →
             ∃ h', EliminationSteps.destroy fuel (shared one_taken)
                   = Finished Void
                       (Elimination.EStack h' None
                          (Elimination.elim_ops (shared one_taken))
                          (Elimination.elim_vals (shared one_taken))
                          (Elimination.random (shared one_taken))) []
                   ∧ ∀ a, Heap.load h' a
                          = if decide (a ∈ l) then None
                            else Heap.load (Elimination.nodes (shared one_taken)) a.
Proof.
  split; [exact one_taken_reachable|]. split; [reflexivity|].
  exact (elimination_destructor_frees_chain threes one_taken one_taken_reachable).
Defined.

(** ** Calls that never return *)

Section Stuck.
Context {PC St : Type}.
Variable step : bool → PC → St → PC * St.
Variable weak : PC → bool.
Variable inspect : PC → status.
(** A set of states that a thread alone cannot leave and in which its call
    has not returned. *)
Variable stuck : PC → St → Prop.
Hypothesis stuck_running : ∀ p s, stuck p s → inspect p = Running.
Hypothesis stuck_step : ∀ b p s, stuck p s → stuck (fst (step b p s)) (snd (step b p s)).

Lemma run_stuck fuel : ∀ o p s, stuck p s → run step weak inspect fuel o p s = Out_of_fuel.
Proof.
  induction fuel as [|fuel IH]; intros o p s Hs.
  - simpl. by rewrite (stuck_running p s Hs).
  - rewrite run_unfold by (by eapply stuck_running). by apply IH, stuck_step.
Qed.

End Stuck.

(** ** Bounded queue: bounds, mutual exclusion, order and blocking *)

Module BoundedSteps.
Import Bounded.

Lemma step_buffer_length b p q :
  length (buffer (snd (step b p q))) = length (buffer q).
Proof.
  destruct p; cbn [step]; unfold acquire; try done.
  - by destruct (lock q).
  - by destruct (count q =? SIZE).
  - by destruct (not_full q =? my_epoch).
  - by destruct (lock q).
  - destruct (in_range (tail q)); [|done]. cbn [snd buffer]. by rewrite length_insert.
  - by destruct (lock q).
  - by destruct (count q =? 0).
  - by destruct (not_empty q =? my_epoch).
  - by destruct (lock q).
  - destruct (in_range (head q)); [|done]. by destruct (buffer q !! Z.to_nat (head q)).
Qed.

Lemma new_buffer_length memory : length (buffer (new memory)) = Z.to_nat SIZE.
Proof. unfold new; cbn [buffer]. by rewrite length_map, length_seq. Qed.

Lemma reachable_buffer_length memory c :
  breachable memory c → length (buffer (shared c)) = Z.to_nat SIZE.
Proof.
  intros Hr.
  apply (reachable_local start step inspect
           (λ q, length (buffer q) = Z.to_nat SIZE) (λ _ _, True) (new memory) c);
    try done.
  intros b p q Hq _. by rewrite step_buffer_length.
Qed.

(** With the indices as the invariant of the ring wants them, no access to
    [buffer] is out of bounds. *)
Lemma step_in_bounds b p q :
  length (buffer q) = Z.to_nat SIZE →
  (holding p = true → ring_at p q) → p ≠ Fault →
  fst (step b p q) ≠ Fault.
Proof.
  intros Hlen Hr Hp. unfold SIZE in *.
  destruct p; try done; cbn [step holding ring_at] in *; unfold acquire.
  - by destruct (lock q).
  - by destruct (count q =? SIZE).
  - by destruct (not_full q =? my_epoch).
  - by destruct (lock q).
  - destruct (Hr eq_refl) as [(Hhd & Hc & Ht) Hlt]. unfold in_range, SIZE in *.
    pose proof (Z.mod_pos_bound (head q + count q) 50).
    replace (0 <=? tail q) with true by (symmetry; apply Z.leb_le; lia).
    replace (tail q <? 50) with true by (symmetry; apply Z.ltb_lt; lia).
    done.
  - by destruct (lock q).
  - by destruct (count q =? 0).
  - by destruct (not_empty q =? my_epoch).
  - by destruct (lock q).
  - destruct (Hr eq_refl) as [(Hhd & _) _]. unfold in_range, SIZE in *.
    replace (0 <=? head q) with true by (symmetry; apply Z.leb_le; lia).
    replace (head q <? 50) with true by (symmetry; apply Z.ltb_lt; lia).
    cbn [andb].
    destruct (lookup_lt_is_Some_2 (buffer q) (Z.to_nat (head q))) as [v ->]; [lia|].
    done.
Qed.

Lemma reachable_in_bounds memory c :
  breachable memory c → ∀ t p, threads c !! t = Some p → p ≠ Fault.
Proof.
  induction 1 as [|c c' Hr IH Hstep]; [done|].
  pose proof (binv_reachable memory c Hr) as (Hhold & _ & _).
  pose proof (reachable_buffer_length memory c Hr) as Hlen.
  destruct Hstep as [c op|c t p r op Ht Hdone|c t p b p' s' Ht Hrun Hstep];
    cbn [shared threads] in *.
  - intros t p [Hp|[_ Hp]]%lookup_app_Some; [by eapply IH|].
    apply list_lookup_singleton_Some in Hp as [_ <-]. by destruct op.
  - intros t' p0 [[-> [<- _]]|[_ Hp]]%list_lookup_insert_Some; [|by eapply IH].
    by destruct op.
  - pose proof (step_in_bounds b p (shared c) Hlen) as Hin.
    rewrite Hstep in Hin. pose proof (Hhold t p Ht) as Hhp. pose proof (IH t p Ht) as Hnf.
    intros t' p0 [[-> [<- _]]|[_ Hp]]%list_lookup_insert_Some; [|by eapply IH].
    apply Hin; [|done]. intros Hh. by destruct (Hhp Hh).
Qed.

(** *** The values the queue holds *)

(** The [k]-th cell of the ring, counted from [head]. *)
Definition cell (q : bounded_queue) (k : nat) : Z :=
  match buffer q !! Z.to_nat ((head q + Z.of_nat k) mod SIZE) with
  | Some v => v
  | None => 0
  end.

(** The queue holds the [count] cells from [head] on, the oldest first. *)
Definition contents (q : bounded_queue) : list Z :=
  cell q <$> seq 0 (Z.to_nat (count q)).

(** No call in progress. *)
Definition ready (q : bounded_queue) : Prop :=
  good q ∧ lock q = false ∧ length (buffer q) = Z.to_nat SIZE.

Lemma ready_new memory : ready (new memory).
Proof. split; [apply good_new|]. split; [done|apply new_buffer_length]. Qed.

Lemma contents_new memory : contents (new memory) = [].
Proof. done. Qed.

Lemma mod_inj_small x k n :
  0 ≤ k < 50 → 0 ≤ n < 50 → (x + k) mod 50 = (x + n) mod 50 → k = n.
Proof. intros Hk Hn. rewrite !Z.mod_eq by lia. lia. Qed.

(** [enqueue] on a queue that is not full, with no other thread running. *)
Lemma enqueue_runs q v o fuel :
  ready q → count q < SIZE → (7 ≤ fuel)%nat →
  ∃ q', exec fuel o (Enq_lock v) q = Finished Void q' o
        ∧ ready q' ∧ contents q' = contents q ++ [v]
        ∧ not_empty q' = bump (not_empty q) ∧ not_full q' = not_full q.
Proof.
  intros ((Hhd & Hc & Ht) & Hl & Hlen) Hlt Hfuel.
  destruct q as [buf hd tl cnt lk nf ne]. unfold SIZE in *.
  cbn [head tail count lock buffer not_full not_empty] in *. subst lk.
  pose proof (Z.mod_pos_bound (hd + cnt) 50) as Hb.
  destruct fuel as [|[|[|[|[|[|[|fuel]]]]]]]; try lia.
  unfold exec. do 2 (rewrite run_unfold by reflexivity;
    cbn [step weak fst snd acquire set_lock head tail count lock buffer not_full not_empty]).
  replace (cnt =? SIZE) with false by (symmetry; apply Z.eqb_neq; unfold SIZE; lia).
  rewrite run_unfold by reflexivity;
    cbn [step weak fst snd acquire set_lock head tail count lock buffer not_full not_empty].
  unfold in_range, SIZE.
  replace (0 <=? tl) with true by (symmetry; apply Z.leb_le; lia).
  replace (tl <? 50) with true by (symmetry; apply Z.ltb_lt; lia).
  cbn [andb].
  do 4 (rewrite run_unfold by reflexivity;
    cbn [step weak fst snd acquire set_lock head tail count lock buffer not_full not_empty]).
  erewrite run_done by reflexivity. eexists. split; [reflexivity|].
  unfold ready, good, ring, contents, SIZE, set_lock;
    cbn [head tail count lock buffer not_full not_empty].
  split; [|split; [|done]].
  - split; [|split; [done|by rewrite length_insert]].
    split; [done|]. split; [lia|]. rewrite Z.rem_mod_nonneg by lia.
    rewrite Ht, Zplus_mod_idemp_l. f_equal. lia.
  - replace (Z.to_nat (cnt + 1)) with (S (Z.to_nat cnt)) by lia.
    rewrite seq_S, fmap_app. cbn [fmap list_fmap Nat.add]. f_equal.
    + apply list_fmap_ext. intros i k [-> Hk]%lookup_seq. unfold cell, SIZE.
      cbn [head buffer Nat.add]. rewrite list_lookup_insert_ne; [done|].
      pose proof (Z.mod_pos_bound (hd + Z.of_nat i) 50).
      intros Heq. apply Z2Nat.inj in Heq; [|lia..].
      rewrite Ht in Heq. apply mod_inj_small in Heq; lia.
    + unfold cell, SIZE. cbn [head buffer]. rewrite Z2Nat.id by lia. rewrite <- Ht.
      rewrite list_lookup_insert_eq by lia. done.
Qed.

(** [dequeue] on a queue that is not empty, with no other thread running. *)
Lemma dequeue_runs q o fuel :
  ready q → 0 < count q → (7 ≤ fuel)%nat →
  ∃ q' v, exec fuel o Deq_lock q = Finished (Int v) q' o
          ∧ ready q' ∧ contents q = v :: contents q'
          ∧ not_full q' = bump (not_full q) ∧ not_empty q' = not_empty q.
Proof.
  intros ((Hhd & Hc & Ht) & Hl & Hlen) Hlt Hfuel.
  destruct q as [buf hd tl cnt lk nf ne]. unfold SIZE in *.
  cbn [head tail count lock buffer not_full not_empty] in *. subst lk.
  destruct (lookup_lt_is_Some_2 buf (Z.to_nat hd)) as [v Hv]; [lia|].
  destruct fuel as [|[|[|[|[|[|[|fuel]]]]]]]; try lia.
  unfold exec. do 2 (rewrite run_unfold by reflexivity;
    cbn [step weak fst snd acquire set_lock head tail count lock buffer not_full not_empty]).
  replace (cnt =? 0) with false by (symmetry; apply Z.eqb_neq; lia).
  rewrite run_unfold by reflexivity;
    cbn [step weak fst snd acquire set_lock head tail count lock buffer not_full not_empty].
  unfold in_range, SIZE.
  replace (0 <=? hd) with true by (symmetry; apply Z.leb_le; lia).
  replace (hd <? 50) with true by (symmetry; apply Z.ltb_lt; lia).
  cbn [andb]. rewrite Hv.
  do 4 (rewrite run_unfold by reflexivity;
    cbn [step weak fst snd acquire set_lock head tail count lock buffer not_full not_empty]).
  erewrite run_done by reflexivity. eexists _, v. split; [reflexivity|].
  unfold ready, good, ring, contents, SIZE, set_lock;
    cbn [head tail count lock buffer not_full not_empty].
  pose proof (Z.mod_pos_bound (hd + 1) 50) as Hb.
  rewrite Z.rem_mod_nonneg by lia.
  split; [|split; [|done]].
  - split; [|done]. split; [lia|]. split; [lia|].
    rewrite Ht. replace (hd + cnt) with ((hd + 1) + (cnt - 1)) by lia.
    rewrite <- (Zplus_mod_idemp_l (hd + 1)). f_equal.
  - replace (Z.to_nat cnt) with (S (Z.to_nat (cnt - 1))) by lia.
    cbn [seq fmap list_fmap]. f_equal.
    + unfold cell, SIZE. cbn [head buffer]. rewrite Z.add_0_r, Z.mod_small by lia.
      by rewrite Hv.
    + rewrite <- fmap_S_seq, <- list_fmap_compose. apply list_fmap_ext.
      intros i k _. unfold cell, SIZE, compose. cbn [head buffer].
      rewrite Zplus_mod_idemp_l.
      by replace (hd + Z.of_nat (S k)) with (hd + 1 + Z.of_nat k) by lia.
Qed.

(** The programs that a thread can run alone without waiting: no [enqueue]
    on [SIZE] values, no [dequeue] on none. *)
Fixpoint fits (ops : list queue_op) (n : nat) : Prop :=
  match ops with
  | [] => True
  | Enqueue _ :: ops' => (n < Z.to_nat SIZE)%nat ∧ fits ops' (S n)
  | Dequeue :: ops' => (0 < n)%nat ∧ fits ops' (n - 1)
  end.

Lemma contents_length q : length (contents q) = Z.to_nat (count q).
Proof. unfold contents. by rewrite length_fmap, length_seq. Qed.

Lemma exec_ops_fifo ops : ∀ q o fuel,
  ready q → fits ops (length (contents q)) → (7 ≤ fuel)%nat →
  ∃ q', exec_ops fuel o ops q = Some (fst (spec_ops queue_spec ops (contents q)), q')
        ∧ ready q' ∧ contents q' = snd (spec_ops queue_spec ops (contents q)).
Proof.
  unfold exec_ops.
  induction ops as [|op ops IH]; intros q o fuel Hr Hfit Hfuel; cbn [run_ops spec_ops].
  - eauto.
  - pose proof Hr as ((_ & Hc & _) & _). rewrite contents_length in Hfit.
    destruct op as [v|]; cbn [fits start queue_spec] in *; destruct Hfit as [Hn Hfit].
    + destruct (enqueue_runs q v o fuel Hr) as (q1 & Hrun & Hr1 & Hc1 & _); [lia|done|].
      unfold exec in Hrun. rewrite Hrun.
      destruct (IH q1 o fuel Hr1) as (q2 & -> & Hr2 & Hc2); [|done|].
      { rewrite Hc1, length_app, contents_length. simpl.
        by replace (Z.to_nat (count q) + 1)%nat with (S (Z.to_nat (count q))) by lia. }
      rewrite Hc1 in *. destruct (spec_ops queue_spec ops (contents q ++ [v])).
      eauto.
    + destruct (dequeue_runs q o fuel Hr) as (q1 & v & Hrun & Hr1 & Hc1 & _); [lia|done|].
      unfold exec in Hrun. rewrite Hrun.
      destruct (IH q1 o fuel Hr1) as (q2 & -> & Hr2 & Hc2); [|done|].
      { apply (f_equal length) in Hc1. rewrite contents_length in Hc1. simpl in Hc1.
        by replace (length (contents q1)) with (Z.to_nat (count q) - 1)%nat by lia. }
      rewrite Hc1 in *. cbn [queue_spec].
      destruct (spec_ops queue_spec ops (contents q1)). eauto.
Qed.

(** *** Waiting for ever *)

(** A consumer on an empty queue. *)
Definition starved (p : pc) (q : bounded_queue) : Prop :=
  count q = 0
  ∧ match p with
    | Deq_lock | Deq_test => True
    | Deq_wait e | Deq_blocked e => not_empty q = e
    | _ => False
    end.

(** A producer on a full queue. *)
Definition choked (p : pc) (q : bounded_queue) : Prop :=
  count q = SIZE
  ∧ match p with
    | Enq_lock _ | Enq_test _ => True
    | Enq_wait _ e | Enq_blocked _ e => not_full q = e
    | _ => False
    end.

Lemma starved_step b p q : starved p q → starved (fst (step b p q)) (snd (step b p q)).
Proof.
  intros [Hc Hp]. destruct p; try done; cbn [step] in *; unfold acquire.
  - by destruct (lock q).
  - by rewrite Hc.
  - rewrite Hp, Z.eqb_refl. done.
  - by destruct (lock q).
Qed.

Lemma choked_step b p q : choked p q → choked (fst (step b p q)) (snd (step b p q)).
Proof.
  intros [Hc Hp]. destruct p; try done; cbn [step] in *; unfold acquire.
  - by destruct (lock q).
  - by rewrite Hc.
  - rewrite Hp, Z.eqb_refl. done.
  - by destruct (lock q).
Qed.


Lemma fits_enqueues vs : ∀ n,
  (n + length vs ≤ Z.to_nat SIZE)%nat → fits (Enqueue <$> vs) n.
Proof.
  induction vs as [|x vs IH]; intros n Hn; [done|]. cbn [fmap list_fmap fits length] in *.
  split; [lia|]. apply IH. lia.
Qed.

Lemma spec_enqueues vs : ∀ ws,
  spec_ops queue_spec (Enqueue <$> vs) ws = (replicate (length vs) Void, ws ++ vs).
Proof.
  induction vs as [|x vs IH]; intros ws; cbn [fmap list_fmap spec_ops queue_spec].
  - by rewrite app_nil_r.
  - rewrite IH. cbn [length replicate]. by rewrite <- app_assoc.
Qed.


(** *** No value is overwritten or read twice *)

(** The cell that [enqueue] writes is not one of the cells that hold a
    value. *)
Lemma store_keeps_contents b v q :
  good q → count q < SIZE →
  fst (step b (Enq_store v) q) = Enq_advance
  ∧ contents (snd (step b (Enq_store v) q)) = contents q.
Proof.
  intros (Hhd & Hc & Ht) Hlt. unfold SIZE in *. cbn [step]. unfold in_range, SIZE.
  pose proof (Z.mod_pos_bound (head q + count q) 50) as Hb.
  replace (0 <=? tail q) with true by (symmetry; apply Z.leb_le; lia).
  replace (tail q <? 50) with true by (symmetry; apply Z.ltb_lt; lia).
  cbn [andb fst snd]. split; [done|]. unfold contents. cbn [count].
  apply list_fmap_ext. intros i k [-> Hk]%lookup_seq. unfold cell, SIZE.
  cbn [head buffer Nat.add]. rewrite list_lookup_insert_ne; [done|].
  pose proof (Z.mod_pos_bound (head q + Z.of_nat i) 50).
  intros Heq. apply Z2Nat.inj in Heq; [|lia..].
  rewrite Ht in Heq. apply mod_inj_small in Heq; lia.
Qed.

(** The cell that [dequeue] reads holds the oldest value. *)
Lemma load_reads_oldest b q :
  good q → 0 < count q → length (buffer q) = Z.to_nat SIZE →
  ∃ v vs, contents q = v :: vs ∧ step b Deq_load q = (Deq_advance v, q).
Proof.
  intros (Hhd & Hc & Ht) Hlt Hlen. unfold SIZE in *. cbn [step]. unfold in_range, SIZE.
  replace (0 <=? head q) with true by (symmetry; apply Z.leb_le; lia).
  replace (head q <? 50) with true by (symmetry; apply Z.ltb_lt; lia).
  cbn [andb].
  destruct (lookup_lt_is_Some_2 (buffer q) (Z.to_nat (head q))) as [v Hv]; [lia|].
  rewrite Hv. exists v. unfold contents.
  replace (Z.to_nat (count q)) with (S (Z.to_nat (count q - 1))) by lia.
  cbn [seq fmap list_fmap]. eexists. split; [|done]. f_equal.
  unfold cell, SIZE. rewrite Z.add_0_r, Z.mod_small by lia. by rewrite Hv.
Qed.


End BoundedSteps.

(** X14. In every interleaving of calls of [enqueue] and [dequeue] on a
    bounded queue, by any number of threads and with any wake-ups: every
    access to [buffer] is within its [SIZE] cells, at most one thread is
    between taking the mutex and releasing it (a thread asleep in [wait]
    has released it), the mutex is locked whenever a thread is there, and
    while a thread is there no step of another thread changes anything. *)
Theorem bounded_queue_interleavings_safe (memory : nat → Z) (c : Bounded.conf) :
  Bounded.breachable memory c →
  (∀ t p, threads c !! t = Some p → p ≠ Bounded.Fault)
  ∧ length (Bounded.buffer (shared c)) = Z.to_nat Bounded.SIZE
  ∧ (∀ t1 t2 p1 p2, threads c !! t1 = Some p1 → threads c !! t2 = Some p2 →
       Bounded.holding p1 = true → Bounded.holding p2 = true → t1 = t2)
  ∧ (∀ t p, threads c !! t = Some p → Bounded.holding p = true →
            Bounded.lock (shared c) = true)
  ∧ (∀ t1 t2 p1 p2 b, t1 ≠ t2 →
       threads c !! t1 = Some p1 → Bounded.holding p1 = true →
       threads c !! t2 = Some p2 →
       Bounded.step b p2 (shared c) = (p2, shared c)).
Proof.
  intros Hr. pose proof (Bounded.binv_reachable memory c Hr) as (Hhold & Hex & _).
  split; [by apply BoundedSteps.reachable_in_bounds with memory|].
  split; [by apply BoundedSteps.reachable_buffer_length with memory|].
  split; [exact Hex|]. split.
  - intros t p Hp Hh. by destruct (Hhold t p Hp Hh).
  - intros t1 t2 p1 p2 b Hne Hp1 Hh1 Hp2.
    destruct (Hhold t1 p1 Hp1 Hh1) as [Hl _].
    assert (Bounded.holding p2 = false) as Hh2.
    { destruct (Bounded.holding p2) eqn:E; [|done]. destruct Hne. by eapply Hex. }
    destruct (Bounded.outsider_step b p2 (shared c) Hh2) as [Hs|[Hl' _]]; [done|].
    congruence.
Qed.

(** A producer that has stored 5 and not yet moved [tail], and a consumer
    that finds the mutex taken. *)
Definition mid_enqueue : Bounded.conf :=
  Config (Bounded.BQ (<[0%nat := 5]> (map (λ _, 0) (seq 0 50))) 0 0 0 true 0 0)
         [Bounded.Enq_advance; Bounded.Deq_lock].

Lemma mid_enqueue_reachable : Bounded.breachable (λ _, 0) mid_enqueue.
Proof.
  apply (play_reachable Bounded.start Bounded.step Bounded.inspect (Bounded.new (λ _, 0))
           [Spawn (Enqueue 5); Spawn Dequeue; Step 0 false; Step 0 false; Step 0 false;
            Step 1 false]
           (Config (Bounded.new (λ _, 0)) [])).
  - apply reachable_init.
  - reflexivity.
Defined.

Lemma bounded_queue_interleavings_safe_witness :
  Bounded.breachable (λ _, 0) mid_enqueue
  ∧ (∀ t p, threads mid_enqueue !! t = Some p → p ≠ Bounded.Fault)
  ∧ length (Bounded.buffer (shared mid_enqueue)) = Z.to_nat Bounded.SIZE
  ∧ (∀ t1 t2 p1 p2, threads mid_enqueue !! t1 = Some p1 →
       threads mid_enqueue !! t2 = Some p2 →
       Bounded.holding p1 = true → Bounded.holding p2 = true → t1 = t2)
  ∧ (∀ t p, threads mid_enqueue !! t = Some p → Bounded.holding p = true →
            Bounded.lock (shared mid_enqueue) = true)
  ∧ (∀ t1 t2 p1 p2 b, t1 ≠ t2 →
       threads mid_enqueue !! t1 = Some p1 → Bounded.holding p1 = true →
       threads mid_enqueue !! t2 = Some p2 →
       Bounded.step b p2 (shared mid_enqueue) = (p2, shared mid_enqueue)).
Proof.
  split; [exact mid_enqueue_reachable|].
  exact (bounded_queue_interleavings_safe (λ _, 0) mid_enqueue mid_enqueue_reachable).
Defined.

(** X15. Used by one thread, the bounded queue is a first-in first-out
    queue of at most [SIZE] values: from a state with no call in progress,
    any sequence of calls in which no [enqueue] finds the queue full and no
    [dequeue] finds it empty runs to completion, [dequeue] returns the
    values in the order in which they were put in, and the queue is left
    holding the list that the calls leave, with no call in progress. *)
Theorem bounded_queue_sequential_fifo (ops : list queue_op) (q : Bounded.bounded_queue)
    (o : list bool) (k : nat) :
  BoundedSteps.ready q →
  BoundedSteps.fits ops (length (BoundedSteps.contents q)) →
  ∃ q', Bounded.exec_ops (7 + k) o ops q
        = Some (fst (spec_ops queue_spec ops (BoundedSteps.contents q)), q')
        ∧ BoundedSteps.ready q'
        ∧ BoundedSteps.contents q'
          = snd (spec_ops queue_spec ops (BoundedSteps.contents q)).
Proof. intros Hr Hfit. apply BoundedSteps.exec_ops_fifo; [done|done|lia]. Qed.

Lemma bounded_queue_sequential_fifo_witness :
  BoundedSteps.ready (Bounded.new (λ _, 9))
  ∧ BoundedSteps.fits [Enqueue 4; Dequeue; Enqueue 6; Enqueue 7; Dequeue; Dequeue]
      (length (BoundedSteps.contents (Bounded.new (λ _, 9))))
  ∧ ∃ q', Bounded.exec_ops (7 + 0) []
            [Enqueue 4; Dequeue; Enqueue 6; Enqueue 7; Dequeue; Dequeue]
            (Bounded.new (λ _, 9))
          = Some (fst (spec_ops queue_spec
                         [Enqueue 4; Dequeue; Enqueue 6; Enqueue 7; Dequeue; Dequeue]
                         (BoundedSteps.contents (Bounded.new (λ _, 9)))), q')
          ∧ BoundedSteps.ready q'
          ∧ BoundedSteps.contents q'
            = snd (spec_ops queue_spec
                     [Enqueue 4; Dequeue; Enqueue 6; Enqueue 7; Dequeue; Dequeue]
                     (BoundedSteps.contents (Bounded.new (λ _, 9)))).
Proof.
  assert (BoundedSteps.fits [Enqueue 4; Dequeue; Enqueue 6; Enqueue 7; Dequeue; Dequeue]
            (length (BoundedSteps.contents (Bounded.new (λ _, 9))))) as Hfit.
  { simpl. unfold Bounded.SIZE. lia. }
  split; [apply BoundedSteps.ready_new|]. split; [exact Hfit|].
  exact (bounded_queue_sequential_fifo
           [Enqueue 4; Dequeue; Enqueue 6; Enqueue 7; Dequeue; Dequeue]
           (Bounded.new (λ _, 9)) [] 0 (BoundedSteps.ready_new (λ _, 9)) Hfit).
Defined.

(** X16. With no other thread running, [dequeue] on an empty bounded queue
    and [enqueue] on a full one never return, however long they run: the
    thread goes to sleep in [wait] and, woken up, finds the epoch as it was
    and sleeps again.  So a thread alone never gets a result from [dequeue]
    on a fresh queue, and after [SIZE] calls of [enqueue] in a row, which
    all return, it never gets one from the next. *)
Theorem bounded_queue_waits_for_ever :
  (∀ q fuel o, Bounded.count q = 0 →
     Bounded.exec fuel o Bounded.Deq_lock q = Out_of_fuel)
  ∧ (∀ q v fuel o, Bounded.count q = Bounded.SIZE →
       Bounded.exec fuel o (Bounded.Enq_lock v) q = Out_of_fuel)
  ∧ (∀ memory fuel o ops,
       Bounded.exec_ops fuel o (Dequeue :: ops) (Bounded.new memory) = None)
  ∧ (∀ memory vs o k, length vs = Z.to_nat Bounded.SIZE →
       ∃ q', Bounded.exec_ops (7 + k) o (Enqueue <$> vs) (Bounded.new memory)
             = Some (replicate (length vs) Void, q')
             ∧ BoundedSteps.contents q' = vs
             ∧ ∀ v fuel o', Bounded.exec fuel o' (Bounded.Enq_lock v) q' = Out_of_fuel).
Proof.
  assert (∀ q fuel o, Bounded.count q = 0 →
            Bounded.exec fuel o Bounded.Deq_lock q = Out_of_fuel) as Hdeq.
  { intros q fuel o Hc.
    apply (run_stuck Bounded.step Bounded.weak Bounded.inspect BoundedSteps.starved).
    - intros p s [_ Hp]. by destruct p.
    - intros b p s. apply BoundedSteps.starved_step.
    - done. }
  assert (∀ q v fuel o, Bounded.count q = Bounded.SIZE →
            Bounded.exec fuel o (Bounded.Enq_lock v) q = Out_of_fuel) as Henq.
  { intros q v fuel o Hc.
    apply (run_stuck Bounded.step Bounded.weak Bounded.inspect BoundedSteps.choked).
    - intros p s [_ Hp]. by destruct p.
    - intros b p s. apply BoundedSteps.choked_step.
    - done. }
  split; [exact Hdeq|]. split; [exact Henq|]. split.
  - intros memory fuel o ops. unfold Bounded.exec_ops. cbn [run_ops Bounded.start].
    unfold Bounded.exec in Hdeq. by rewrite Hdeq.
  - intros memory vs o k Hlen.
    destruct (BoundedSteps.exec_ops_fifo (Enqueue <$> vs) (Bounded.new memory) o (7 + k))
      as (q' & Hrun & Hr & Hc); [apply BoundedSteps.ready_new| |lia|].
    { rewrite BoundedSteps.contents_new. apply BoundedSteps.fits_enqueues. simpl. lia. }
    rewrite BoundedSteps.contents_new, BoundedSteps.spec_enqueues in Hrun, Hc.
    cbn [fst snd app] in Hrun, Hc.
    exists q'. split; [exact Hrun|]. split; [exact Hc|].
    intros v fuel o'. apply Henq.
    apply (f_equal length) in Hc. rewrite BoundedSteps.contents_length in Hc.
    destruct Hr as ((_ & Hcnt & _) & _). unfold Bounded.SIZE in *. lia.
Qed.

(** X17. In every interleaving of calls on a bounded queue, [enqueue] never
    overwrites a value that has not been taken and [dequeue] never reads a
    cell that holds none: when a thread is about to store, [count] is below
    [SIZE] and the store leaves the values that the queue holds as they
    are; when a thread is about to load, [count] is positive and the value
    it loads is the oldest that the queue holds. *)
Theorem bounded_queue_no_overwrite (memory : nat → Z) (c : Bounded.conf) :
  Bounded.breachable memory c →
  (∀ t v b, threads c !! t = Some (Bounded.Enq_store v) →
     Bounded.count (shared c) < Bounded.SIZE
     ∧ fst (Bounded.step b (Bounded.Enq_store v) (shared c)) = Bounded.Enq_advance
     ∧ BoundedSteps.contents (snd (Bounded.step b (Bounded.Enq_store v) (shared c)))
       = BoundedSteps.contents (shared c))
  ∧ (∀ t b, threads c !! t = Some Bounded.Deq_load →
       0 < Bounded.count (shared c)
       ∧ ∃ v vs, BoundedSteps.contents (shared c) = v :: vs
                 ∧ Bounded.step b Bounded.Deq_load (shared c)
                   = (Bounded.Deq_advance v, shared c)).
Proof.
  intros Hr. pose proof (Bounded.binv_reachable memory c Hr) as (Hhold & _ & _).
  pose proof (BoundedSteps.reachable_buffer_length memory c Hr) as Hlen.
  split.
  - intros t v b Ht. destruct (Hhold t _ Ht eq_refl) as [_ [Hg Hlt]].
    split; [done|]. by apply BoundedSteps.store_keeps_contents.
  - intros t b Ht. destruct (Hhold t _ Ht eq_refl) as [_ [Hg Hlt]].
    split; [done|]. by apply BoundedSteps.load_reads_oldest.
Qed.

(** After [enqueue(5)], a consumer about to load and a producer waiting for
    the mutex. *)
Definition mid_dequeue : Bounded.conf :=
  Config (Bounded.BQ (<[0%nat := 5]> (map (λ _, 0) (seq 0 50))) 0 1 1 true 0 1)
         [Bounded.Enq_lock 6; Bounded.Deq_load].

Lemma mid_dequeue_reachable : Bounded.breachable (λ _, 0) mid_dequeue.
Proof.
  apply (play_reachable Bounded.start Bounded.step Bounded.inspect (Bounded.new (λ _, 0))
           [Spawn (Enqueue 5); Spawn Dequeue; Step 0 false; Step 0 false; Step 0 false;
            Step 0 false; Step 0 false; Step 0 false; Step 0 false;
            Call 0 (Enqueue 6); Step 1 false; Step 1 false]
           (Config (Bounded.new (λ _, 0)) [])).
  - apply reachable_init.
  - reflexivity.
Defined.

Lemma bounded_queue_no_overwrite_witness :
  Bounded.breachable (λ _, 0) mid_dequeue
  ∧ threads mid_dequeue !! 1%nat = Some Bounded.Deq_load
  ∧ Bounded.step false Bounded.Deq_load (shared mid_dequeue)
    = (Bounded.Deq_advance 5, shared mid_dequeue)
  ∧ (∀ t v b, threads mid_dequeue !! t = Some (Bounded.Enq_store v) →
       Bounded.count (shared mid_dequeue) < Bounded.SIZE
       ∧ fst (Bounded.step b (Bounded.Enq_store v) (shared mid_dequeue))
         = Bounded.Enq_advance
       ∧ BoundedSteps.contents
           (snd (Bounded.step b (Bounded.Enq_store v) (shared mid_dequeue)))
         = BoundedSteps.contents (shared mid_dequeue))
  ∧ (∀ t b, threads mid_dequeue !! t = Some Bounded.Deq_load →
       0 < Bounded.count (shared mid_dequeue)
       ∧ ∃ v vs, BoundedSteps.contents (shared mid_dequeue) = v :: vs
                 ∧ Bounded.step b Bounded.Deq_load (shared mid_dequeue)
                   = (Bounded.Deq_advance v, shared mid_dequeue)).
Proof.
  split; [exact mid_dequeue_reachable|]. split; [reflexivity|]. split; [reflexivity|].
  exact (bounded_queue_no_overwrite (λ _, 0) mid_dequeue mid_dequeue_reachable).
Defined.

(** ** Lock-based stack and queue: the steps of a call

    [sgl_stack] and [sgl_queue] run the same code on a [std::stack] and on
    a [std::queue]: [push] and [enqueue] take the mutex, put the value into
    [data] and release the mutex; [pop] and [dequeue] take the mutex, throw
    if [data] is empty, and otherwise read the first value, remove it and
    return it.  [std::lock_guard] releases the mutex on return and on throw.
    Only the holder of the mutex touches [data]. *)

Module SglSteps.

Inductive pc : Type :=
| Put_lock (v : Z)       (* std::lock_guard<std::mutex> lk(lock) *)
| Put_data (v : Z)       (* data.push(value) *)
| Put_unlock             (* lk is destroyed *)
| Take_lock              (* std::lock_guard<std::mutex> lk(lock) *)
| Take_empty             (* if(data.empty()) throw *)
| Take_throw             (* the exception leaves the scope: lk is destroyed *)
| Take_top               (* v = data.top(), v = data.front() *)
| Take_pop (v : Z)       (* data.pop() *)
| Take_unlock (v : Z)    (* return v; lk is destroyed *)
| Return (r : ret)
| Fault.

Definition inspect (p : pc) : status :=
  match p with
  | Return r => Done r
  | Fault => Crashed
  | _ => Running
  end.

Definition weak (p : pc) : bool := false.

Definition stack_start (op : stack_op) : pc :=
  match op with
  | Push v => Put_lock v
  | Pop => Take_lock
  end.

Definition queue_start (op : queue_op) : pc :=
  match op with
  | Enqueue v => Put_lock v
  | Dequeue => Take_lock
  end.

Section Guarded.
(** The container: [data] and [lock]. *)
Context {St : Type}.
Variable data : St → list Z.
Variable locked : St → bool.
Variable make : list Z → bool → St.
Hypothesis data_make : ∀ d l, data (make d l) = d.
Hypothesis locked_make : ∀ d l, locked (make d l) = l.
(** [data.push(v)]: on top of a [std::stack], at the back of a
    [std::queue]. *)
Variable put : Z → list Z → list Z.

(** A thread that finds the mutex taken stays where it is.  [top()],
    [front()] and [pop()] on an empty container are undefined. *)
Definition step (b : bool) (p : pc) (s : St) : pc * St :=
  match p with
  | Put_lock v => if locked s then (p, s) else (Put_data v, make (data s) true)
  | Put_data v => (Put_unlock, make (put v (data s)) (locked s))
  | Put_unlock => (Return Void, make (data s) false)
  | Take_lock => if locked s then (p, s) else (Take_empty, make (data s) true)
  | Take_empty =>
      match data s with
      | [] => (Take_throw, s)
      | _ :: _ => (Take_top, s)
      end
  | Take_throw => (Return Empty_error, make (data s) false)
  | Take_top =>
      match data s with
      | v :: _ => (Take_pop v, s)
      | [] => (Fault, s)
      end
  | Take_pop v =>
      match data s with
      | _ :: d => (Take_unlock v, make d (locked s))
      | [] => (Fault, s)
      end
  | Take_unlock v => (Return (Int v), make (data s) false)
  | Return r => (Return r, s)
  | Fault => (Fault, s)
  end.

(** The control points between taking the mutex and releasing it. *)
Definition holding (p : pc) : bool :=
  match p with
  | Put_lock _ | Take_lock | Return _ | Fault => false
  | _ => true
  end.

(** What the holder of the mutex knows of [data]. *)
Definition local_ok (p : pc) (s : St) : Prop :=
  match p with
  | Take_throw => data s = []
  | Take_top => data s ≠ []
  | Take_pop v => ∃ d, data s = v :: d
  | Fault => False
  | _ => True
  end.

(** The call that a thread has not carried out yet ([None] stands for [pop]
    and [dequeue]), and the result that it returns once it has. *)
Definition pending (p : pc) : option (option Z) :=
  match p with
  | Put_lock v | Put_data v => Some (Some v)
  | Take_lock | Take_empty | Take_top | Take_pop _ => Some None
  | _ => None
  end.

Definition promised (p : pc) : option ret :=
  match p with
  | Put_unlock => Some Void
  | Take_throw => Some Empty_error
  | Take_unlock v => Some (Int v)
  | Return r => Some r
  | _ => None
  end.

(** The call on the contents of [data]. *)
Definition apply (call : option Z) (d : list Z) : ret * list Z :=
  match call, d with
  | Some v, _ => (Void, put v d)
  | None, [] => (Empty_error, [])
  | None, v :: d' => (Int v, d')
  end.

(** The steps at which a call is carried out. *)
Definition commit (p p' : pc) : bool :=
  match p, p' with
  | Put_data _, Put_unlock => true
  | Take_empty, Take_throw => true
  | Take_pop _, Take_unlock _ => true
  | _, _ => false
  end.

(** A step of the holder of the mutex. *)
Lemma guarded_holder_step b p s :
  holding p = true → local_ok p s → locked s = true →
  fst (step b p s) ≠ Fault
  ∧ (if holding (fst (step b p s))
     then locked (snd (step b p s)) = true ∧ local_ok (fst (step b p s)) (snd (step b p s))
     else locked (snd (step b p s)) = false)
  ∧ (if commit p (fst (step b p s))
     then ∃ call, pending p = Some call
                  ∧ data (snd (step b p s)) = snd (apply call (data s))
                  ∧ promised (fst (step b p s)) = Some (fst (apply call (data s)))
     else data (snd (step b p s)) = data s
          ∧ pending (fst (step b p s)) = pending p
          ∧ promised (fst (step b p s)) = promised p).
Proof.
  intros Hh Hl Hlk. destruct p; try done; cbn [step local_ok] in *.
  - (* Put_data *)
    cbn [fst snd holding commit]. rewrite data_make, locked_make.
    split; [done|]. split; [done|]. exists (Some v). done.
  - (* Put_unlock *)
    cbn [fst snd holding commit]. by rewrite data_make, locked_make.
  - (* Take_empty *)
    destruct (data s) as [|v d] eqn:Hd; cbn [fst snd holding commit local_ok].
    + split; [done|]. split; [done|]. exists None. by rewrite Hd.
    + split; [done|]. split; [|done]. split; [done|]. by rewrite Hd.
  - (* Take_throw *)
    cbn [fst snd holding commit]. by rewrite data_make, locked_make.
  - (* Take_top *)
    destruct (data s) as [|v d] eqn:Hd; [done|]. cbn [fst snd holding commit local_ok].
    split; [done|]. split; [|done]. split; [done|]. rewrite Hd. eauto.
  - (* Take_pop *)
    destruct Hl as [d Hd]. rewrite Hd. cbn [fst snd holding commit local_ok].
    rewrite data_make, locked_make. split; [done|]. split; [done|].
    by exists None.
  - (* Take_unlock *)
    cbn [fst snd holding commit]. by rewrite data_make, locked_make.
Qed.

(** A step of a thread that does not hold the mutex: nothing happens, or it
    takes the free mutex. *)
Lemma guarded_outsider_step b p s :
  holding p = false → p ≠ Fault →
  step b p s = (p, s)
  ∨ (locked s = false
     ∧ holding (fst (step b p s)) = true
     ∧ locked (snd (step b p s)) = true
     ∧ local_ok (fst (step b p s)) (snd (step b p s))
     ∧ data (snd (step b p s)) = data s
     ∧ pending (fst (step b p s)) = pending p
     ∧ promised (fst (step b p s)) = promised p
     ∧ commit p (fst (step b p s)) = false).
Proof.
  intros Hh Hf. destruct p; try done; cbn [step]; try (by left).
  - destruct (locked s) eqn:E; [by left|right].
    cbn [fst snd]. by rewrite data_make, locked_make.
  - destruct (locked s) eqn:E; [by left|right].
    cbn [fst snd]. by rewrite data_make, locked_make.
Qed.

Context {Op : Type}.
Variable start : Op → pc.
Hypothesis start_outside : ∀ op, holding (start op) = false ∧ start op ≠ Fault.

Abbreviation conf := (@config pc St).

(** The invariant of interleavings. *)
Definition ginv (c : conf) : Prop :=
  (∀ t p, threads c !! t = Some p →
          p ≠ Fault ∧ (holding p = true → locked (shared c) = true ∧ local_ok p (shared c)))
  ∧ (∀ t1 t2 p1 p2, threads c !! t1 = Some p1 → threads c !! t2 = Some p2 →
                    holding p1 = true → holding p2 = true → t1 = t2).

Lemma ginv_step c c' : ginv c → cstep start step inspect c c' → ginv c'.
Proof.
  intros (Hth & Hex) Hstep.
  destruct Hstep as [c op|c t p r op Ht Hr|c t p b p' s' Ht Hrun Hstep];
    cbn [shared threads] in *.
  - (* a new thread *)
    destruct (start_outside op) as [Hout Hnf]. split.
    + intros t p [Hp|[_ Hp]]%lookup_app_Some; [by eapply Hth|].
      apply list_lookup_singleton_Some in Hp as [_ <-]. split; [done|]. by rewrite Hout.
    + intros t1 t2 p1 p2 [H1|[_ H1]]%lookup_app_Some [H2|[_ H2]]%lookup_app_Some.
      * by eapply Hex.
      * apply list_lookup_singleton_Some in H2 as [_ <-]. by rewrite Hout.
      * apply list_lookup_singleton_Some in H1 as [_ <-]. by rewrite Hout.
      * apply list_lookup_singleton_Some in H1 as [_ <-]. by rewrite Hout.
  - (* a thread starts its next call *)
    destruct (start_outside op) as [Hout Hnf]. split.
    + intros t' p0 [[-> [<- _]]|[_ Hp0]]%list_lookup_insert_Some; [|by eapply Hth].
      split; [done|]. by rewrite Hout.
    + intros t1 t2 p1 p2
        [[-> [<- _]]|[? H1]]%list_lookup_insert_Some
        [[-> [<- _]]|[? H2]]%list_lookup_insert_Some;
        rewrite ?Hout; try done.
      by eapply Hex.
  - (* a thread takes a step *)
    destruct (Hth t p Ht) as [Hnf Hhp].
    destruct (holding p) eqn:Hp.
    + (* the holder of the mutex *)
      destruct (Hhp eq_refl) as [Hlk Hl].
      assert (∀ t' p0, t' ≠ t → threads c !! t' = Some p0 → holding p0 = false)
        as Hothers.
      { intros t' p0 Hne Hp0. destruct (holding p0) eqn:E; [|done].
        destruct Hne. by eapply Hex. }
      destruct (guarded_holder_step b p (shared c) Hp Hl Hlk) as (Hnf' & Hh' & _).
      rewrite Hstep in Hnf', Hh'. cbn [fst snd] in Hnf', Hh'. split.
      * intros t' p0 [[-> [<- _]]|[Hne Hp0]]%list_lookup_insert_Some.
        -- split; [done|]. intros Hh0. by rewrite Hh0 in Hh'.
        -- split; [by eapply Hth|]. intros Hh0.
           rewrite (Hothers t' p0) in Hh0 by done. done.
      * intros t1 t2 p1 p2
          [[-> [<- _]]|[Hne1 H1]]%list_lookup_insert_Some
          [[-> [<- _]]|[Hne2 H2]]%list_lookup_insert_Some Hh1 Hh2; try done.
        -- rewrite (Hothers t2 p2) in Hh2 by done. done.
        -- rewrite (Hothers t1 p1) in Hh1 by done. done.
        -- rewrite (Hothers t1 p1) in Hh1 by done. done.
    + (* another thread *)
      destruct (guarded_outsider_step b p (shared c) Hp Hnf)
        as [Hsame|(Hlk & Hh' & Hlk' & Hl' & _)];
        rewrite Hstep in *; cbn [fst snd] in *.
      * injection Hsame as -> ->. rewrite list_insert_id by done. done.
      * assert (∀ t' p0, threads c !! t' = Some p0 → holding p0 = false) as Hnone.
        { intros t' p0 Hp0. destruct (holding p0) eqn:E; [|done].
          destruct (Hth t' p0 Hp0) as [_ Hh0]. destruct (Hh0 E) as [Hl0 _].
          congruence. }
        split.
        -- intros t' p0 [[-> [<- _]]|[Hne Hp0]]%list_lookup_insert_Some.
           ++ split; [by destruct p'|]. done.
           ++ split; [by eapply Hth|]. intros Hh0.
              rewrite (Hnone t' p0) in Hh0 by done. done.
        -- intros t1 t2 p1 p2
             [[-> [<- _]]|[Hne1 H1]]%list_lookup_insert_Some
             [[-> [<- _]]|[Hne2 H2]]%list_lookup_insert_Some Hh1 Hh2; try done.
           ++ rewrite (Hnone t2 p2) in Hh2 by done. done.
           ++ rewrite (Hnone t1 p1) in Hh1 by done. done.
           ++ rewrite (Hnone t1 p1) in Hh1 by done. done.
Qed.

Lemma ginv_reachable s0 c : reachable start step inspect s0 c → ginv c.
Proof. induction 1 as [|c c' _ IH Hstep]; [done|]. by eapply ginv_step. Qed.

(** What a step does to [data], in any interleaving. *)
Lemma guarded_step_effect s0 c t p b :
  reachable start step inspect s0 c → threads c !! t = Some p → inspect p = Running →
  fst (step b p (shared c)) ≠ Fault
  ∧ (if commit p (fst (step b p (shared c)))
     then ∃ call, pending p = Some call
                  ∧ data (snd (step b p (shared c))) = snd (apply call (data (shared c)))
                  ∧ promised (fst (step b p (shared c)))
                    = Some (fst (apply call (data (shared c))))
     else data (snd (step b p (shared c))) = data (shared c)
          ∧ pending (fst (step b p (shared c))) = pending p
          ∧ promised (fst (step b p (shared c))) = promised p).
Proof.
  intros (Hth & Hex)%ginv_reachable Hp Hrun.
  destruct (Hth t p Hp) as [Hnf Hhp]. destruct (holding p) eqn:Hh.
  - destruct (Hhp eq_refl) as [Hlk Hl].
    destruct (guarded_holder_step b p (shared c) Hh Hl Hlk) as (H1 & _ & H2). done.
  - destruct (guarded_outsider_step b p (shared c) Hh Hnf)
      as [Hsame|(_ & Hh' & _ & _ & Hd & Hpe & Hpr & Hc)].
    + rewrite Hsame. cbn [fst snd]. split; [done|].
      by destruct p.
    + rewrite Hc. split; [by destruct (fst (step b p (shared c)))|done].
Qed.

(** A call by a thread alone, on a container whose mutex is free. *)
Lemma guarded_call_alone o call s fuel :
  locked s = false → (5 ≤ fuel)%nat →
  ∃ s', run step weak inspect fuel o
          (match call with Some v => Put_lock v | None => Take_lock end) s
        = Finished (fst (apply call (data s))) s' o
        ∧ data s' = snd (apply call (data s)) ∧ locked s' = false.
Proof.
  intros Hl Hfuel. destruct fuel as [|[|[|[|[|fuel]]]]]; try lia.
  destruct call as [v|].
  - do 3 (rewrite run_unfold by reflexivity; cbn [step weak fst snd]; rewrite ?Hl).
    erewrite run_done by reflexivity.
    eexists. split; [reflexivity|]. by rewrite !data_make, !locked_make.
  - rewrite run_unfold by reflexivity; cbn [step weak fst snd].
    rewrite Hl. cbn [fst snd]. rewrite run_unfold by reflexivity; cbn [step weak fst snd].
    rewrite data_make. destruct (data s) as [|v d] eqn:Hd; cbn [fst snd apply].
    + rewrite run_unfold by reflexivity; cbn [step weak fst snd].
      erewrite run_done by reflexivity.
      eexists. split; [reflexivity|]. by rewrite !data_make, !locked_make.
    + do 3 (rewrite run_unfold by reflexivity; cbn [step weak fst snd];
            rewrite ?data_make; cbn [fst snd]).
      erewrite run_done by reflexivity.
      eexists. split; [reflexivity|]. by rewrite !data_make, !locked_make.
Qed.

End Guarded.

(** [sgl_stack]: [data] is a [std::stack]. *)
Definition stack_step : bool → pc → Sgl.sgl_stack → pc * Sgl.sgl_stack :=
  step Sgl.sdata Sgl.slock Sgl.SStack (λ v d, v :: d).

(** [sgl_queue]: [data] is a [std::queue]. *)
Definition queue_step : bool → pc → Sgl.sgl_queue → pc * Sgl.sgl_queue :=
  step Sgl.qdata Sgl.qlock Sgl.SQueue (λ v d, d ++ [v]).

Definition stack_reachable : @config pc Sgl.sgl_stack → Prop :=
  reachable stack_start stack_step inspect Sgl.new_stack.

Definition queue_reachable : @config pc Sgl.sgl_queue → Prop :=
  reachable queue_start queue_step inspect Sgl.new_queue.

(** The calls as operations of a stack and of a queue. *)
Definition stack_call (call : option Z) : stack_op :=
  match call with
  | Some v => Push v
  | None => Pop
  end.

Definition queue_call (call : option Z) : queue_op :=
  match call with
  | Some v => Enqueue v
  | None => Dequeue
  end.

Lemma apply_stack call d : apply (λ v d, v :: d) call d = stack_spec (stack_call call) d.
Proof. by destruct call, d. Qed.

Lemma apply_queue call d : apply (λ v d, d ++ [v]) call d = queue_spec (queue_call call) d.
Proof. by destruct call, d. Qed.

Lemma stack_start_outside op : holding (stack_start op) = false ∧ stack_start op ≠ Fault.
Proof. by destruct op. Qed.

Lemma queue_start_outside op : holding (queue_start op) = false ∧ queue_start op ≠ Fault.
Proof. by destruct op. Qed.

Lemma stack_start_call op :
  stack_start op = match op with Push v => Put_lock v | Pop => Take_lock end.
Proof. done. Qed.

(** A single-threaded program on the lock-based stack. *)
Lemma stack_program ops : ∀ s o fuel,
  Sgl.slock s = false → (5 ≤ fuel)%nat →
  ∃ s', run_ops stack_start stack_step weak inspect fuel o ops s
        = Some (fst (spec_ops stack_spec ops (Sgl.sdata s)), s')
        ∧ Sgl.sdata s' = snd (spec_ops stack_spec ops (Sgl.sdata s))
        ∧ Sgl.slock s' = false.
Proof.
  induction ops as [|op ops IH]; intros s o fuel Hl Hfuel; cbn [run_ops spec_ops].
  - eauto.
  - destruct (guarded_call_alone Sgl.sdata Sgl.slock Sgl.SStack (λ _ _, eq_refl)
                (λ _ _, eq_refl) (λ v d, v :: d) o
                (match op with Push v => Some v | Pop => None end) s fuel Hl Hfuel)
      as (s1 & Hrun & Hd1 & Hl1).
    rewrite apply_stack in Hrun, Hd1.
    replace (stack_call match op with Push v => Some v | Pop => None end) with op
      in Hrun, Hd1 by (by destruct op).
    replace (stack_start op)
      with (match match op with Push v => Some v | Pop => None end with
            | Some v => Put_lock v | None => Take_lock end) by (by destruct op).
    unfold stack_step. rewrite Hrun.
    destruct (IH s1 o fuel Hl1 Hfuel) as (s2 & Hrun2 & Hd2 & Hl2).
    unfold stack_step in Hrun2. rewrite Hrun2. rewrite Hd1 in *.
    destruct (stack_spec op (Sgl.sdata s)) as [r d1]. cbn [fst snd] in *.
    destruct (spec_ops stack_spec ops d1) as [rs d2]. eauto.
Qed.

(** A single-threaded program on the lock-based queue. *)
Lemma queue_program ops : ∀ s o fuel,
  Sgl.qlock s = false → (5 ≤ fuel)%nat →
  ∃ s', run_ops queue_start queue_step weak inspect fuel o ops s
        = Some (fst (spec_ops queue_spec ops (Sgl.qdata s)), s')
        ∧ Sgl.qdata s' = snd (spec_ops queue_spec ops (Sgl.qdata s))
        ∧ Sgl.qlock s' = false.
Proof.
  induction ops as [|op ops IH]; intros s o fuel Hl Hfuel; cbn [run_ops spec_ops].
  - eauto.
  - destruct (guarded_call_alone Sgl.qdata Sgl.qlock Sgl.SQueue (λ _ _, eq_refl)
                (λ _ _, eq_refl) (λ v d, d ++ [v]) o
                (match op with Enqueue v => Some v | Dequeue => None end) s fuel Hl Hfuel)
      as (s1 & Hrun & Hd1 & Hl1).
    rewrite apply_queue in Hrun, Hd1.
    replace (queue_call match op with Enqueue v => Some v | Dequeue => None end) with op
      in Hrun, Hd1 by (by destruct op).
    replace (queue_start op)
      with (match match op with Enqueue v => Some v | Dequeue => None end with
            | Some v => Put_lock v | None => Take_lock end) by (by destruct op).
    unfold queue_step. rewrite Hrun.
    destruct (IH s1 o fuel Hl1 Hfuel) as (s2 & Hrun2 & Hd2 & Hl2).
    unfold queue_step in Hrun2. rewrite Hrun2. rewrite Hd1 in *.
    destruct (queue_spec op (Sgl.qdata s)) as [r d1]. cbn [fst snd] in *.
    destruct (spec_ops queue_spec ops d1) as [rs d2]. eauto.
Qed.


End SglSteps.

(** X18. Used by one thread, the lock-based stack is a last-in first-out
    stack and the lock-based queue a first-in first-out queue: from a state
    whose mutex is free, any sequence of calls returns what the same
    sequence returns on the list [data], leaves in [data] the list that the
    calls leave, and leaves the mutex free, also after a call that has
    thrown the empty error.  Run step by step, a call gives the result and
    the state that the call as a whole is defined to give. *)
Theorem sgl_sequential_order :
  (∀ ops s o k, Sgl.slock s = false →
     ∃ s', run_ops SglSteps.stack_start SglSteps.stack_step SglSteps.weak
             SglSteps.inspect (5 + k) o ops s
           = Some (fst (spec_ops stack_spec ops (Sgl.sdata s)), s')
           ∧ Sgl.sdata s' = snd (spec_ops stack_spec ops (Sgl.sdata s))
           ∧ Sgl.slock s' = false)
  ∧ (∀ ops q o k, Sgl.qlock q = false →
       ∃ q', run_ops SglSteps.queue_start SglSteps.queue_step SglSteps.weak
               SglSteps.inspect (5 + k) o ops q
             = Some (fst (spec_ops queue_spec ops (Sgl.qdata q)), q')
             ∧ Sgl.qdata q' = snd (spec_ops queue_spec ops (Sgl.qdata q))
             ∧ Sgl.qlock q' = false)
  ∧ (∀ op s o k, Sgl.slock s = false →
       ∃ r s', match op with Push v => Sgl.push v s | Pop => Sgl.pop s end = Some (r, s')
               ∧ run SglSteps.stack_step SglSteps.weak SglSteps.inspect (5 + k) o
                   (SglSteps.stack_start op) s = Finished r s' o)
  ∧ (∀ op q o k, Sgl.qlock q = false →
       ∃ r q', match op with Enqueue v => Sgl.enqueue v q | Dequeue => Sgl.dequeue q end
               = Some (r, q')
               ∧ run SglSteps.queue_step SglSteps.weak SglSteps.inspect (5 + k) o
                   (SglSteps.queue_start op) q = Finished r q' o).
Proof.
  split; [|split; [|split]].
  - intros ops s o k Hl. apply SglSteps.stack_program; [done|lia].
  - intros ops q o k Hl. apply SglSteps.queue_program; [done|lia].
  - intros op s o k Hl.
    destruct (SglSteps.stack_program [op] s o (5 + k) Hl) as (s' & Hrun & Hd & Hl');
      [lia|].
    cbn [run_ops spec_ops] in Hrun, Hd.
    destruct (run _ _ _ _ _ (SglSteps.stack_start op) s) as [r s1 o1| |] eqn:Hr; try done.
    destruct (stack_spec op (Sgl.sdata s)) as [r' d'] eqn:Hspec.
    injection Hrun as -> ->. cbn [snd] in Hd.
    assert (o1 = o) as ->.
    { clear -Hr. revert Hr. generalize (SglSteps.stack_start op). generalize (5 + k)%nat.
      intros fuel. revert s. induction fuel as [|fuel IH]; intros s p; simpl;
        destruct (SglSteps.inspect p); try done; try (by intros [= _ _ ->]).
      destruct (SglSteps.stack_step false p s). apply IH. }
    exists r', s'. split; [|done].
    destruct s as [d l]. cbn [Sgl.slock Sgl.sdata] in *. subst l.
    destruct s' as [d2 l2]. cbn [Sgl.slock Sgl.sdata] in *. subst d2 l2.
    destruct op as [v|]; unfold Sgl.push, Sgl.pop; cbn [Sgl.slock Sgl.sdata stack_spec] in *.
    + by injection Hspec as <- <-.
    + destruct d; by injection Hspec as <- <-.
  - intros op q o k Hl.
    destruct (SglSteps.queue_program [op] q o (5 + k) Hl) as (q' & Hrun & Hd & Hl');
      [lia|].
    cbn [run_ops spec_ops] in Hrun, Hd.
    destruct (run _ _ _ _ _ (SglSteps.queue_start op) q) as [r q1 o1| |] eqn:Hr; try done.
    destruct (queue_spec op (Sgl.qdata q)) as [r' d'] eqn:Hspec.
    injection Hrun as -> ->. cbn [snd] in Hd.
    assert (o1 = o) as ->.
    { clear -Hr. revert Hr. generalize (SglSteps.queue_start op). generalize (5 + k)%nat.
      intros fuel. revert q. induction fuel as [|fuel IH]; intros q p; simpl;
        destruct (SglSteps.inspect p); try done; try (by intros [= _ _ ->]).
      destruct (SglSteps.queue_step false p q). apply IH. }
    exists r', q'. split; [|done].
    destruct q as [d l]. cbn [Sgl.qlock Sgl.qdata] in *. subst l.
    destruct q' as [d2 l2]. cbn [Sgl.qlock Sgl.qdata] in *. subst d2 l2.
    destruct op as [v|]; unfold Sgl.enqueue, Sgl.dequeue;
      cbn [Sgl.qlock Sgl.qdata queue_spec] in *.
    + by injection Hspec as <- <-.
    + destruct d; by injection Hspec as <- <-.
Qed.

(** X19. In every interleaving of [push] and [pop] calls on the lock-based
    stack, at most one thread is between taking the mutex and releasing it,
    and no step calls [top()] or [pop()] on an empty [data].  A call acts on
    [data] at one step only, taken with the mutex held, and at that step it
    acts as the call on a last-in first-out list: [push] puts its value on
    top, [pop] removes the top and fixes it as its result, or fixes the
    empty error when there is none.  Every other step leaves [data], the
    call still to carry out and the result already fixed as they are. *)
Theorem sgl_stack_interleavings_safe (c : @config SglSteps.pc Sgl.sgl_stack) t p b :
  SglSteps.stack_reachable c → threads c !! t = Some p →
  SglSteps.inspect p = Running →
  (∀ t1 t2 p1 p2, threads c !! t1 = Some p1 → threads c !! t2 = Some p2 →
     SglSteps.holding p1 = true → SglSteps.holding p2 = true → t1 = t2)
  ∧ (∀ t1 p1, threads c !! t1 = Some p1 → SglSteps.holding p1 = true →
       Sgl.slock (shared c) = true)
  ∧ fst (SglSteps.stack_step b p (shared c)) ≠ SglSteps.Fault
  ∧ (if SglSteps.commit p (fst (SglSteps.stack_step b p (shared c)))
     then SglSteps.holding p = true
          ∧ ∃ call, SglSteps.pending p = Some call
             ∧ Sgl.sdata (snd (SglSteps.stack_step b p (shared c)))
               = snd (stack_spec (SglSteps.stack_call call) (Sgl.sdata (shared c)))
             ∧ SglSteps.promised (fst (SglSteps.stack_step b p (shared c)))
               = Some (fst (stack_spec (SglSteps.stack_call call) (Sgl.sdata (shared c))))
     else Sgl.sdata (snd (SglSteps.stack_step b p (shared c))) = Sgl.sdata (shared c)
          ∧ SglSteps.pending (fst (SglSteps.stack_step b p (shared c))) = SglSteps.pending p
          ∧ SglSteps.promised (fst (SglSteps.stack_step b p (shared c)))
            = SglSteps.promised p).
Proof.
  intros Hr Hp Hrun.
  pose proof (SglSteps.ginv_reachable Sgl.sdata Sgl.slock Sgl.SStack (λ _ _, eq_refl)
                (λ _ _, eq_refl) (λ v d, v :: d) SglSteps.stack_start
                SglSteps.stack_start_outside _ _ Hr) as (Hth & Hex).
  split; [exact Hex|]. split.
  { intros t1 p1 H1 Hh. destruct (Hth t1 p1 H1) as [_ Hl]. by destruct (Hl Hh). }
  pose proof (SglSteps.guarded_step_effect Sgl.sdata Sgl.slock Sgl.SStack (λ _ _, eq_refl)
                (λ _ _, eq_refl) (λ v d, v :: d) SglSteps.stack_start
                SglSteps.stack_start_outside _ c t p b Hr Hp Hrun) as (Hnf & Heff).
  split; [exact Hnf|]. unfold SglSteps.stack_step.
  destruct (SglSteps.commit p _) eqn:Hc; [|done].
  split.
  { destruct p; try done; by destruct (fst _). }
  destruct Heff as (call & Hpe & Hd & Hpr). exists call.
  by rewrite <- SglSteps.apply_stack.
Qed.

(** A thread that has taken the mutex to push 5, and a thread that waits
    for the mutex to pop. *)
Definition stack_mid_push : @config SglSteps.pc Sgl.sgl_stack :=
  Config (Sgl.SStack [] true) [SglSteps.Put_data 5; SglSteps.Take_lock].

Lemma stack_mid_push_reachable : SglSteps.stack_reachable stack_mid_push.
Proof.
  apply (play_reachable SglSteps.stack_start SglSteps.stack_step SglSteps.inspect
           Sgl.new_stack [Spawn (Push 5); Spawn Pop; Step 0 false; Step 1 false]
           (Config Sgl.new_stack [])).
  - apply reachable_init.
  - reflexivity.
Defined.

Lemma sgl_stack_interleavings_safe_witness :
  SglSteps.stack_reachable stack_mid_push
  ∧ SglSteps.commit (SglSteps.Put_data 5)
      (fst (SglSteps.stack_step false (SglSteps.Put_data 5) (shared stack_mid_push))) = true
  ∧ Sgl.sdata (snd (SglSteps.stack_step false (SglSteps.Put_data 5) (shared stack_mid_push)))
    = [5]
  ∧ fst (SglSteps.stack_step false (SglSteps.Put_data 5) (shared stack_mid_push))
    ≠ SglSteps.Fault.
Proof.
  split; [exact stack_mid_push_reachable|]. split; [reflexivity|]. split; [reflexivity|].
  exact (proj1 (proj2 (proj2
    (sgl_stack_interleavings_safe stack_mid_push 0 (SglSteps.Put_data 5) false
       stack_mid_push_reachable eq_refl eq_refl)))).
Defined.

(** X20. In every interleaving of [enqueue] and [dequeue] calls on the
    lock-based queue, at most one thread is between taking the mutex and
    releasing it, and no step calls [front()] or [pop()] on an empty [data].
    A call acts on [data] at one step only, taken with the mutex held, and
    at that step it acts as the call on a first-in first-out list: [enqueue]
    puts its value at the back, [dequeue] removes the front and fixes it as
    its result, or fixes the empty error when there is none.  Every other
    step leaves [data], the call still to carry out and the result already
    fixed as they are. *)
Theorem sgl_queue_interleavings_safe (c : @config SglSteps.pc Sgl.sgl_queue) t p b :
  SglSteps.queue_reachable c → threads c !! t = Some p →
  SglSteps.inspect p = Running →
  (∀ t1 t2 p1 p2, threads c !! t1 = Some p1 → threads c !! t2 = Some p2 →
     SglSteps.holding p1 = true → SglSteps.holding p2 = true → t1 = t2)
  ∧ (∀ t1 p1, threads c !! t1 = Some p1 → SglSteps.holding p1 = true →
       Sgl.qlock (shared c) = true)
  ∧ fst (SglSteps.queue_step b p (shared c)) ≠ SglSteps.Fault
  ∧ (if SglSteps.commit p (fst (SglSteps.queue_step b p (shared c)))
     then SglSteps.holding p = true
          ∧ ∃ call, SglSteps.pending p = Some call
             ∧ Sgl.qdata (snd (SglSteps.queue_step b p (shared c)))
               = snd (queue_spec (SglSteps.queue_call call) (Sgl.qdata (shared c)))
             ∧ SglSteps.promised (fst (SglSteps.queue_step b p (shared c)))
               = Some (fst (queue_spec (SglSteps.queue_call call) (Sgl.qdata (shared c))))
     else Sgl.qdata (snd (SglSteps.queue_step b p (shared c))) = Sgl.qdata (shared c)
          ∧ SglSteps.pending (fst (SglSteps.queue_step b p (shared c))) = SglSteps.pending p
          ∧ SglSteps.promised (fst (SglSteps.queue_step b p (shared c)))
            = SglSteps.promised p).
Proof.
  intros Hr Hp Hrun.
  pose proof (SglSteps.ginv_reachable Sgl.qdata Sgl.qlock Sgl.SQueue (λ _ _, eq_refl)
                (λ _ _, eq_refl) (λ v d, d ++ [v]) SglSteps.queue_start
                SglSteps.queue_start_outside _ _ Hr) as (Hth & Hex).
  split; [exact Hex|]. split.
  { intros t1 p1 H1 Hh. destruct (Hth t1 p1 H1) as [_ Hl]. by destruct (Hl Hh). }
  pose proof (SglSteps.guarded_step_effect Sgl.qdata Sgl.qlock Sgl.SQueue (λ _ _, eq_refl)
                (λ _ _, eq_refl) (λ v d, d ++ [v]) SglSteps.queue_start
                SglSteps.queue_start_outside _ c t p b Hr Hp Hrun) as (Hnf & Heff).
  split; [exact Hnf|]. unfold SglSteps.queue_step.
  destruct (SglSteps.commit p _) eqn:Hc; [|done].
  split.
  { destruct p; try done; by destruct (fst _). }
  destruct Heff as (call & Hpe & Hd & Hpr). exists call.
  by rewrite <- SglSteps.apply_queue.
Qed.

(** Two values in the queue, a thread about to remove the front, and a
    thread that waits for the mutex to enqueue. *)
Definition queue_mid_dequeue : @config SglSteps.pc Sgl.sgl_queue :=
  Config (Sgl.SQueue [5; 6] true)
         [SglSteps.Take_pop 5; SglSteps.Return Void; SglSteps.Put_lock 7].

Lemma queue_mid_dequeue_reachable : SglSteps.queue_reachable queue_mid_dequeue.
Proof.
  apply (play_reachable SglSteps.queue_start SglSteps.queue_step SglSteps.inspect
           Sgl.new_queue
           [Spawn (Enqueue 5); Spawn (Enqueue 6); Step 0 false; Step 1 false;
            Step 0 false; Step 0 false; Step 1 false; Step 1 false; Step 1 false;
            Call 0 Dequeue; Spawn (Enqueue 7); Step 0 false; Step 2 false;
            Step 0 false; Step 0 false]
           (Config Sgl.new_queue [])).
  - apply reachable_init.
  - reflexivity.
Defined.

Lemma sgl_queue_interleavings_safe_witness :
  SglSteps.queue_reachable queue_mid_dequeue
  ∧ SglSteps.commit (SglSteps.Take_pop 5)
      (fst (SglSteps.queue_step false (SglSteps.Take_pop 5) (shared queue_mid_dequeue)))
    = true
  ∧ Sgl.qdata (snd (SglSteps.queue_step false (SglSteps.Take_pop 5)
                      (shared queue_mid_dequeue))) = [6]
  ∧ fst (SglSteps.queue_step false (SglSteps.Take_pop 5) (shared queue_mid_dequeue))
    ≠ SglSteps.Fault.
Proof.
  split; [exact queue_mid_dequeue_reachable|]. split; [reflexivity|]. split; [reflexivity|].
  exact (proj1 (proj2 (proj2
    (sgl_queue_interleavings_safe queue_mid_dequeue 0 (SglSteps.Take_pop 5) false
       queue_mid_dequeue_reachable eq_refl eq_refl)))).
Defined.

(** ** Flat combining: the calls statement by statement

    [fc_stack] and [fc_queue] differ in [data] only.  Every field of a slot
    is a [std::atomic], so an access to one is one step; [data] is local to
    the thread that holds [lock]. *)

Module FCSteps.
Import FC.

(** A call by the thread whose [get_slot()] is [slot_of]: [Some v] is
    [push(v)] or [enqueue(v)], [None] is [pop()] or [dequeue()]. *)
Record request : Type := Request { slot_of : Z; arg : option Z }.

Inductive pc : Type :=
| Post_op (s : Z) (a : option Z)               (* slots[s].op = 1, slots[s].op = 2 *)
| Post_val (s : Z) (v : Z)                     (* slots[s].val = value *)
| Post_done (s : Z) (a : option Z)             (* slots[s].done = false *)
| Try_lock (s : Z) (a : option Z)              (* if(lock.try_lock()) *)
| Scan (s : Z) (a : option Z) (i : nat)        (* int op = slots[i].op.load() *)
| Serve_push (s : Z) (a : option Z) (i : nat)  (* data.push(slots[i].val) *)
| Serve_pop (s : Z) (a : option Z) (i : nat)   (* if(!data.empty()) { slots[i].result = ...; data.pop(); } *)
| Set_done (s : Z) (a : option Z) (i : nat)    (* slots[i].done = true *)
| Unlock (s : Z) (a : option Z)                (* lock.unlock() *)
| Wait (s : Z) (a : option Z)                  (* while(!slots[s].done) std::this_thread::yield() *)
| Retire (s : Z) (a : option Z)                (* slots[s].op = 0 *)
| Check_result (s : Z)                         (* if(slots[s].result == -1) throw *)
| Load_result (s : Z)                          (* return slots[s].result *)
| Return (r : ret)
| Fault.

Definition inspect (p : pc) : status :=
  match p with
  | Return r => Done r
  | Fault => Crashed
  | _ => Running
  end.

(** [try_lock] is the one access that may fail spuriously. *)
Definition weak (p : pc) : bool :=
  match p with
  | Try_lock _ _ => true
  | _ => false
  end.

Definition start (q : request) : pc := Post_op (slot_of q) (arg q).

(** [i++] and the test [i < MAX_THREADS] of the loop of [combine]. *)
Definition next (s : Z) (a : option Z) (i : nat) : pc :=
  if Z.of_nat (S i) <? MAX_THREADS then Scan s a (S i) else Unlock s a.

Section Steps.
(** [data.push(v)]: on top of a [std::stack], at the back of a
    [std::queue]. *)
Variable put : Z → list Z → list Z.

Definition step (b : bool) (p : pc) (c : container) : pc * container :=
  match p with
  | Post_op s a =>
      match slot_at s c with
      | Some x =>
          match a with
          | Some v => (Post_val s v, set_slot s (Slot 1 (val x) (result x) (done x)) c)
          | None => (Post_done s None, set_slot s (Slot 2 (val x) (result x) (done x)) c)
          end
      | None => (Fault, c)
      end
  | Post_val s v =>
      match slot_at s c with
      | Some x => (Post_done s (Some v), set_slot s (Slot (op x) v (result x) (done x)) c)
      | None => (Fault, c)
      end
  | Post_done s a =>
      match slot_at s c with
      | Some x => (Try_lock s a, set_slot s (Slot (op x) (val x) (result x) false) c)
      | None => (Fault, c)
      end
  | Try_lock s a =>
      if try_lock b c then (Scan s a 0, Container (data c) true (slots c))
      else (Wait s a, c)
  | Scan s a i =>
      match slots c !! i with
      | Some x =>
          if op x =? 1 then (Serve_push s a i, c)
          else if op x =? 2 then (Serve_pop s a i, c)
          else (next s a i, c)
      | None => (Fault, c)
      end
  | Serve_push s a i =>
      match slots c !! i with
      | Some x => (Set_done s a i, Container (put (val x) (data c)) (lock c) (slots c))
      | None => (Fault, c)
      end
  | Serve_pop s a i =>
      match slots c !! i with
      | Some x =>
          match data c with
          | v :: d =>
              (Set_done s a i,
               Container d (lock c) (<[i := Slot (op x) (val x) v (done x)]> (slots c)))
          | [] => (Set_done s a i, c)
          end
      | None => (Fault, c)
      end
  | Set_done s a i =>
      match slots c !! i with
      | Some x =>
          (next s a i,
           Container (data c) (lock c)
                     (<[i := Slot (op x) (val x) (result x) true]> (slots c)))
      | None => (Fault, c)
      end
  | Unlock s a => (Retire s a, Container (data c) false (slots c))
  | Wait s a =>
      match slot_at s c with
      | Some x => if done x then (Retire s a, c) else (Wait s a, c)
      | None => (Fault, c)
      end
  | Retire s a =>
      match slot_at s c with
      | Some x =>
          (match a with Some _ => Return Void | None => Check_result s end,
           set_slot s (Slot 0 (val x) (result x) (done x)) c)
      | None => (Fault, c)
      end
  | Check_result s =>
      match slot_at s c with
      | Some x => if result x =? -1 then (Return Empty_error, c) else (Load_result s, c)
      | None => (Fault, c)
      end
  | Load_result s =>
      match slot_at s c with
      | Some x => (Return (Int (result x)), c)
      | None => (Fault, c)
      end
  | Return r => (Return r, c)
  | Fault => (Fault, c)
  end.

(** The control points of the combiner: between [try_lock] and [unlock]. *)
Definition combining (p : pc) : bool :=
  match p with
  | Scan _ _ _ | Serve_push _ _ _ | Serve_pop _ _ _ | Set_done _ _ _ | Unlock _ _ => true
  | _ => false
  end.

(** The slot of the call and the slot being served are inside the array. *)
Definition in_array (p : pc) : Prop :=
  match p with
  | Post_op s _ | Post_val s _ | Post_done s _ | Try_lock s _ | Unlock s _ | Wait s _
  | Retire s _ | Check_result s | Load_result s => 0 ≤ s < MAX_THREADS
  | Scan s _ i | Serve_push s _ i | Serve_pop s _ i | Set_done s _ i =>
      0 ≤ s < MAX_THREADS ∧ Z.of_nat i < MAX_THREADS
  | Return _ => True
  | Fault => False
  end.

(** The calls of a schedule are made with slots inside the array. *)
Definition in_range (e : @event request) : Prop :=
  match e with
  | Spawn q | Call _ q => 0 ≤ slot_of q < MAX_THREADS
  | Step _ _ => True
  end.

Definition is_step (e : @event request) : Prop :=
  match e with
  | Step _ _ => True
  | _ => False
  end.

Abbreviation conf := (@config pc container).

Definition inv (c : conf) : Prop :=
  length (slots (shared c)) = Z.to_nat MAX_THREADS
  ∧ (∀ t p, threads c !! t = Some p →
            in_array p ∧ (combining p = true → lock (shared c) = true))
  ∧ (∀ t1 t2 p1 p2, threads c !! t1 = Some p1 → threads c !! t2 = Some p2 →
                    combining p1 = true → combining p2 = true → t1 = t2).

Lemma step_length b p c :
  length (slots (snd (step b p c))) = length (slots c).
Proof.
  destruct p; cbn [step]; try done;
    unfold slot_at, set_slot;
    repeat match goal with
           | |- context [match ?x with _ => _ end] => destruct x
           end; cbn [snd slots]; by rewrite ?length_insert.
Qed.

Lemma slot_at_in s c :
  length (slots c) = Z.to_nat MAX_THREADS → 0 ≤ s < MAX_THREADS →
  is_Some (slot_at s c).
Proof. intros Hl Hs. destruct (slot_at_Some s c Hl Hs) as (x & -> & _). eauto. Qed.

Lemma next_in_array s a i :
  0 ≤ s < MAX_THREADS → in_array (next s a i) ∧ combining (next s a i) = true.
Proof.
  intros Hs. unfold next. destruct (Z.of_nat (S i) <? MAX_THREADS) eqn:E; [|done].
  apply Z.ltb_lt in E. done.
Qed.

(** A step of a thread whose slots are inside the array is defined. *)
Lemma step_in_array b p c :
  length (slots c) = Z.to_nat MAX_THREADS → in_array p →
  in_array (fst (step b p c)).
Proof.
  intros Hl Hp. destruct p; cbn [step in_array] in *; try done.
  - destruct (slot_at_in s c Hl Hp) as [x ->]. by destruct a.
  - by destruct (slot_at_in s c Hl Hp) as [x ->].
  - by destruct (slot_at_in s c Hl Hp) as [x ->].
  - destruct (try_lock b c); cbn [fst in_array]; [|done]. split; [done|]. done.
  - destruct Hp as [Hs Hi].
    destruct (lookup_lt_is_Some_2 (slots c) i) as [x ->]; [lia|].
    destruct (op x =? 1); [done|]. destruct (op x =? 2); [done|].
    by apply next_in_array.
  - destruct Hp as [Hs Hi].
    by destruct (lookup_lt_is_Some_2 (slots c) i) as [x ->]; [lia|].
  - destruct Hp as [Hs Hi].
    destruct (lookup_lt_is_Some_2 (slots c) i) as [x ->]; [lia|].
    by destruct (data c).
  - destruct Hp as [Hs Hi].
    destruct (lookup_lt_is_Some_2 (slots c) i) as [x ->]; [lia|].
    by apply next_in_array.
  - destruct (slot_at_in s c Hl Hp) as [x ->]. by destruct (done x).
  - destruct (slot_at_in s c Hl Hp) as [x ->]. by destruct a.
  - destruct (slot_at_in s c Hl Hp) as [x ->]. by destruct (result x =? -1).
  - by destruct (slot_at_in s c Hl Hp) as [x ->].
Qed.

(** Only the combiner touches [data] and [lock]. *)
Lemma fc_outsider_step b p c :
  combining p = false →
  data (snd (step b p c)) = data c
  ∧ (combining (fst (step b p c)) = true
     → lock c = false ∧ lock (snd (step b p c)) = true)
  ∧ (combining (fst (step b p c)) = false → lock (snd (step b p c)) = lock c).
Proof.
  intros Hp. destruct p; try done; cbn [step]; unfold set_slot;
    repeat match goal with
           | |- context [match ?x with _ => _ end] => destruct x eqn:?
           end; cbn [fst snd data lock combining]; try done.
  split; [done|]. split; [|done]. intros _. split; [|done].
  unfold try_lock in *. by destruct (lock c).
Qed.

Lemma combiner_step b p c :
  combining p = true → length (slots c) = Z.to_nat MAX_THREADS → in_array p →
  lock c = true →
  if combining (fst (step b p c)) then lock (snd (step b p c)) = true
  else lock (snd (step b p c)) = false.
Proof.
  intros Hp Hl Ha Hlk. destruct p; try done; cbn [step in_array] in *.
  - destruct Ha as [Hs Hi]. destruct (lookup_lt_is_Some_2 (slots c) i) as [x ->]; [lia|].
    destruct (op x =? 1); [done|]. destruct (op x =? 2); [done|].
    cbn [fst snd]. by rewrite (proj2 (next_in_array s a i Hs)).
  - destruct Ha as [Hs Hi]. by destruct (lookup_lt_is_Some_2 (slots c) i) as [x ->]; [lia|].
  - destruct Ha as [Hs Hi]. destruct (lookup_lt_is_Some_2 (slots c) i) as [x ->]; [lia|].
    by destruct (data c).
  - destruct Ha as [Hs Hi]. destruct (lookup_lt_is_Some_2 (slots c) i) as [x ->]; [lia|].
    cbn [fst snd]. by rewrite (proj2 (next_in_array s a i Hs)).
Qed.

Lemma inv_fire e c c' :
  inv c → in_range e → fire start step inspect e c = Some c' → inv c'.
Proof.
  intros (Hlen & Hth & Hex) He. destruct e as [q|t q|t b]; cbn [fire in_range] in *.
  - (* a new thread *)
    intros [= <-]. unfold inv. cbn [shared threads]. split; [done|]. split.
    + intros t p [Hp|[_ Hp]]%lookup_app_Some; [by eapply Hth|].
      by apply list_lookup_singleton_Some in Hp as [_ <-].
    + intros t1 t2 p1 p2 [H1|[_ H1]]%lookup_app_Some [H2|[_ H2]]%lookup_app_Some.
      * by eapply Hex.
      * by apply list_lookup_singleton_Some in H2 as [_ <-].
      * by apply list_lookup_singleton_Some in H1 as [_ <-].
      * by apply list_lookup_singleton_Some in H1 as [_ <-].
  - (* a thread makes its next call *)
    destruct (threads c !! t) as [p|] eqn:Ht; [|done].
    destruct (inspect p) eqn:Hp; try done.
    intros [= <-]. unfold inv. cbn [shared threads]. split; [done|]. split.
    + intros t' p0 [[-> [<- _]]|[_ Hp0]]%list_lookup_insert_Some; [done|by eapply Hth].
    + intros t1 t2 p1 p2
        [[-> [<- _]]|[? H1]]%list_lookup_insert_Some
        [[-> [<- _]]|[? H2]]%list_lookup_insert_Some; try done.
      by eapply Hex.
  - (* a thread takes a step *)
    destruct (threads c !! t) as [p|] eqn:Ht; [|done].
    destruct (inspect p) eqn:Hp; try done.
    intros [= <-]. unfold inv. cbn [shared threads].
    destruct (Hth t p Ht) as [Ha Hlk].
    pose proof (step_in_array b p (shared c) Hlen Ha) as Ha'.
    split; [by rewrite step_length|].
    destruct (combining p) eqn:Hc.
    + (* the combiner *)
      pose proof (combiner_step b p (shared c) Hc Hlen Ha (Hlk eq_refl)) as Hlk'.
      assert (∀ t' p0, t' ≠ t → threads c !! t' = Some p0 → combining p0 = false)
        as Hothers.
      { intros t' p0 Hne Hp0. destruct (combining p0) eqn:E; [|done].
        destruct Hne. by eapply Hex. }
      split.
      * intros t' p0 [[-> [<- _]]|[Hne Hp0]]%list_lookup_insert_Some.
        -- split; [done|]. intros Hc'. by rewrite Hc' in Hlk'.
        -- split; [by eapply Hth|]. intros Hc0.
           rewrite (Hothers t' p0) in Hc0 by done. done.
      * intros t1 t2 p1 p2
          [[-> [<- _]]|[Hne1 H1]]%list_lookup_insert_Some
          [[-> [<- _]]|[Hne2 H2]]%list_lookup_insert_Some Hc1 Hc2; try done.
        -- rewrite (Hothers t2 p2) in Hc2 by done. done.
        -- rewrite (Hothers t1 p1) in Hc1 by done. done.
        -- rewrite (Hothers t1 p1) in Hc1 by done. done.
    + (* another thread *)
      destruct (fc_outsider_step b p (shared c) Hc) as (_ & Hin & Hout).
      destruct (combining (fst (step b p (shared c)))) eqn:Hc'.
      * destruct (Hin eq_refl) as [Hfree Hlk'].
        assert (∀ t' p0, threads c !! t' = Some p0 → combining p0 = false) as Hnone.
        { intros t' p0 Hp0. destruct (combining p0) eqn:E; [|done].
          destruct (Hth t' p0 Hp0) as [_ Hl0]. specialize (Hl0 E). congruence. }
        split.
        -- intros t' p0 [[-> [<- _]]|[Hne Hp0]]%list_lookup_insert_Some; [done|].
           split; [by eapply Hth|]. intros Hc0.
           rewrite (Hnone t' p0) in Hc0 by done. done.
        -- intros t1 t2 p1 p2
             [[-> [<- _]]|[Hne1 H1]]%list_lookup_insert_Some
             [[-> [<- _]]|[Hne2 H2]]%list_lookup_insert_Some Hc1 Hc2; try done.
           ++ rewrite (Hnone t2 p2) in Hc2 by done. done.
           ++ rewrite (Hnone t1 p1) in Hc1 by done. done.
           ++ rewrite (Hnone t1 p1) in Hc1 by done. done.
      * rewrite (Hout eq_refl). split.
        -- intros t' p0 [[-> [<- _]]|[Hne Hp0]]%list_lookup_insert_Some.
           ++ split; [done|]. by rewrite Hc'.
           ++ by eapply Hth.
        -- intros t1 t2 p1 p2
             [[-> [<- _]]|[Hne1 H1]]%list_lookup_insert_Some
             [[-> [<- _]]|[Hne2 H2]]%list_lookup_insert_Some Hc1 Hc2; try done;
             try congruence.
           by eapply Hex.
Qed.

Lemma fc_inv_new memory : inv (Config (new memory) []).
Proof.
  split; [|done]. unfold new; cbn [shared slots]. by rewrite length_map, length_seq.
Qed.

Lemma inv_play es : ∀ c c',
  inv c → Forall in_range es → play start step inspect es c = Some c' → inv c'.
Proof.
  induction es as [|e es IH]; intros c c' Hi Hes; cbn [play].
  - by intros [= <-].
  - destruct (fire start step inspect e c) as [c1|] eqn:E; [|done].
    apply Forall_cons in Hes as [He Hes]. apply IH; [|done]. by eapply inv_fire.
Qed.

(** *** One thread alone *)

(** The combiner at slot [i], run alone: what [combine_slot] gives. *)
Lemma scan_slot s a i c :
  is_Some (slots c !! i) →
  ∃ k, (k ≤ 3)%nat ∧ ∀ fuel o,
    run step weak inspect (k + fuel) o (Scan s a i) c
    = run step weak inspect fuel o (next s a i) (combine_slot put c i).
Proof.
  intros [x Hx]. unfold combine_slot. rewrite Hx.
  destruct (op x =? 1) eqn:E1; [|destruct (op x =? 2) eqn:E2].
  - exists 3%nat. split; [lia|]. intros fuel o. cbn [Nat.add].
    rewrite run_unfold by reflexivity. cbn [weak step]. rewrite Hx, E1. cbn [fst snd].
    rewrite run_unfold by reflexivity. cbn [weak step]. rewrite Hx. cbn [fst snd].
    rewrite run_unfold by reflexivity. cbn [weak step slots]. rewrite Hx. cbn [fst snd].
    done.
  - exists 3%nat. split; [lia|]. intros fuel o. cbn [Nat.add].
    rewrite run_unfold by reflexivity. cbn [weak step]. rewrite Hx, E1, E2. cbn [fst snd].
    rewrite run_unfold by reflexivity. cbn [weak step]. rewrite Hx.
    destruct (data c) as [|v d] eqn:Hd; cbn [fst snd].
    + rewrite run_unfold by reflexivity. cbn [weak step]. rewrite Hx, Hd. cbn [fst snd].
      destruct c as [d0 l0 sl0]; cbn [data lock slots] in *. by subst d0.
    + rewrite run_unfold by reflexivity. cbn [weak step slots data lock].
      rewrite list_lookup_insert_eq by (by eapply lookup_lt_Some).
      cbn [fst snd op val result]. by rewrite list_insert_insert_eq.
  - exists 1%nat. split; [lia|]. intros fuel o. cbn [Nat.add].
    rewrite run_unfold by reflexivity. cbn [weak step]. rewrite Hx, E1, E2. done.
Qed.

Lemma foldl_combine_length l : ∀ c,
  length (slots (foldl (combine_slot put) c l)) = length (slots c).
Proof.
  induction l as [|i l IH]; intros c; [done|]. cbn [foldl].
  by rewrite IH, combine_slot_length.
Qed.

(** The loop of [combine] from index [i] on, run alone. *)
Lemma scan_combine s a n : ∀ i c,
  (i + S n)%nat = Z.to_nat MAX_THREADS →
  length (slots c) = Z.to_nat MAX_THREADS →
  ∃ k, (k ≤ 3 * S n)%nat ∧ ∀ fuel o,
    run step weak inspect (k + fuel) o (Scan s a i) c
    = run step weak inspect fuel o (Unlock s a)
        (foldl (combine_slot put) c (seq i (S n))).
Proof.
  induction n as [|n IH]; intros i c Hi Hlen.
  - destruct (scan_slot s a i c) as (k & Hk & Hrun).
    { apply lookup_lt_is_Some_2. lia. }
    exists k. split; [lia|]. intros fuel o. rewrite Hrun. cbn [seq foldl].
    unfold next. replace (Z.of_nat (S i) <? MAX_THREADS) with false; [done|].
    symmetry. apply Z.ltb_ge. lia.
  - destruct (scan_slot s a i c) as (k & Hk & Hrun).
    { apply lookup_lt_is_Some_2. lia. }
    destruct (IH (S i) (combine_slot put c i)) as (k' & Hk' & Hrun').
    { lia. }
    { by rewrite combine_slot_length. }
    exists (k + k')%nat. split; [lia|]. intros fuel o.
    rewrite <- Nat.add_assoc, Hrun. unfold next.
    replace (Z.of_nat (S i) <? MAX_THREADS) with true
      by (symmetry; apply Z.ltb_lt; lia).
    rewrite Hrun'. done.
Qed.

Lemma set_slot_twice s x y c : set_slot s y (set_slot s x c) = set_slot s y c.
Proof. unfold set_slot; cbn [data lock slots]. by rewrite list_insert_insert_eq. Qed.

(** The call of request [q] as a whole, with no other thread running and
    [try_lock] not failing spuriously. *)
Definition call (q : request) (c : container) : outcome :=
  match arg q with
  | Some v => push put alone false (slot_of q) v c
  | None => pop put alone false (slot_of q) c
  end.

(** Statement by statement, a call alone gives what the call as a whole is
    defined to give. *)
Lemma call_alone q c :
  lock c = false → length (slots c) = Z.to_nat MAX_THREADS →
  0 ≤ slot_of q < MAX_THREADS →
  ∃ r c', call q c = Returns r c'
          ∧ ∀ fuel, (104 ≤ fuel)%nat →
              run step weak inspect fuel [] (start q) c = Finished r c' [].
Proof.
  intros Hl Hlen Hs. destruct q as [s a]. cbn [slot_of arg] in *.
  unfold call, start; cbn [slot_of arg].
  destruct (slot_at_Some s c Hlen Hs) as (x & Hat & Hx).
  assert (∀ y c0, length (slots c0) = Z.to_nat MAX_THREADS →
                  slot_at s (set_slot s y c0) = Some y) as Hset.
  { intros y c0 H0. by apply slot_at_set. }
  assert (∀ y, lock (set_slot s y c) = false
               ∧ length (slots (set_slot s y c)) = Z.to_nat MAX_THREADS) as Hposted.
  { intros y. unfold set_slot; cbn [lock slots]. by rewrite length_insert. }
  destruct a as [v|].
  - (* push, enqueue *)
    unfold push. rewrite Hat.
    set (c0 := set_slot s (Slot 1 v (result x) false) c).
    destruct (Hposted (Slot 1 v (result x) false)) as [Hl0 Hlen0]. fold c0 in Hl0, Hlen0.
    unfold serve, try_lock. rewrite Hl0. cbn [negb andb].
    set (c1 := Container (data c0) true (slots c0)).
    assert ((0 + S 31)%nat = Z.to_nat MAX_THREADS) as H32 by reflexivity.
    destruct (scan_combine s (Some v) 31 0 c1 H32 Hlen0) as (k & Hk & Hscan).
    assert (foldl (combine_slot put) c1 (seq 0 32) = combine put c1) as Hcomb
      by (unfold combine; reflexivity).
    rewrite Hcomb in Hscan. clear Hcomb H32.
    set (c2 := combine put c1) in *.
    assert (length (slots c2) = Z.to_nat MAX_THREADS) as Hlen2.
    { unfold c2, combine. by rewrite foldl_combine_length. }
    destruct (slot_at_Some s (Container (data c2) false (slots c2)) Hlen2 Hs)
      as (y & Hat2 & Hy).
    unfold retire. rewrite Hat2. eexists _, _. split; [reflexivity|].
    intros fuel Hfuel.
    replace fuel with (4 + (k + (2 + (fuel - 6 - k))))%nat by lia.
    cbn [Nat.add].
    rewrite run_unfold by reflexivity. cbn [weak step]. rewrite Hat. cbn [fst snd].
    rewrite run_unfold by reflexivity. cbn [weak step]. rewrite Hset by done.
    cbn [fst snd op val result done]. rewrite set_slot_twice.
    rewrite run_unfold by reflexivity. cbn [weak step]. rewrite Hset by done.
    cbn [fst snd op val result done]. rewrite set_slot_twice. fold c0.
    rewrite run_unfold by reflexivity. cbn [weak step hd tl]. unfold try_lock.
    rewrite Hl0. cbn [negb andb fst snd].
    fold c1. rewrite Hscan. cbn [Nat.add].
    rewrite run_unfold by reflexivity. cbn [weak step fst snd].
    rewrite run_unfold by reflexivity. cbn [weak step]. rewrite Hat2. cbn [fst snd].
    by apply run_done.
  - (* pop, dequeue *)
    unfold pop. rewrite Hat.
    set (c0 := set_slot s (Slot 2 (val x) (result x) false) c).
    destruct (Hposted (Slot 2 (val x) (result x) false)) as [Hl0 Hlen0].
    fold c0 in Hl0, Hlen0.
    unfold serve, try_lock. rewrite Hl0. cbn [negb andb].
    set (c1 := Container (data c0) true (slots c0)).
    assert ((0 + S 31)%nat = Z.to_nat MAX_THREADS) as H32 by reflexivity.
    destruct (scan_combine s None 31 0 c1 H32 Hlen0) as (k & Hk & Hscan).
    assert (foldl (combine_slot put) c1 (seq 0 32) = combine put c1) as Hcomb
      by (unfold combine; reflexivity).
    rewrite Hcomb in Hscan. clear Hcomb H32.
    set (c2 := combine put c1) in *.
    assert (length (slots c2) = Z.to_nat MAX_THREADS) as Hlen2.
    { unfold c2, combine. by rewrite foldl_combine_length. }
    destruct (slot_at_Some s (Container (data c2) false (slots c2)) Hlen2 Hs)
      as (y & Hat2 & Hy).
    unfold retire, report. rewrite Hat2. rewrite Hset by done. cbn [result].
    eexists _, _. split; [reflexivity|].
    intros fuel Hfuel.
    replace fuel with (3 + (k + (4 + (fuel - 7 - k))))%nat by lia.
    cbn [Nat.add].
    rewrite run_unfold by reflexivity. cbn [weak step]. rewrite Hat. cbn [fst snd].
    rewrite run_unfold by reflexivity. cbn [weak step]. rewrite Hset by done.
    cbn [fst snd op val result done]. rewrite set_slot_twice. fold c0.
    rewrite run_unfold by reflexivity. cbn [weak step hd tl]. unfold try_lock.
    rewrite Hl0. cbn [negb andb fst snd].
    fold c1. rewrite Hscan. cbn [Nat.add].
    rewrite run_unfold by reflexivity. cbn [weak step fst snd].
    rewrite run_unfold by reflexivity. cbn [weak step]. rewrite Hat2. cbn [fst snd].
    rewrite run_unfold by reflexivity. cbn [weak step]. rewrite Hset by done.
    cbn [result]. destruct (result y =? -1) eqn:E; cbn [fst snd].
    + by apply run_done.
    + rewrite run_unfold by reflexivity. cbn [weak step]. rewrite Hset by done.
      cbn [fst snd result]. by apply run_done.
Qed.


(** What a caller makes of the [result] of its slot. *)
Definition reported (x : Z) : ret := if x =? -1 then Empty_error else Int x.

(** The contents of [data], and the [result] of every slot. *)
Definition contents (c : container) : list Z * list Z := (data c, result <$> slots c).

(** Calls made one at a time, as they act on [data] and on the results left
    in the slots: [pop] and [dequeue] on an empty [data] report what the slot
    of the caller holds. *)
Definition served (q : request) (st : list Z * list Z) : ret * (list Z * list Z) :=
  match arg q, fst st with
  | Some v, d => (Void, (put v d, snd st))
  | None, v :: d => (reported v, (d, <[Z.to_nat (slot_of q) := v]> (snd st)))
  | None, [] => (reported (snd st !!! Z.to_nat (slot_of q)), ([], snd st))
  end.

Lemma call_served q c :
  quiescent c → 0 ≤ slot_of q < MAX_THREADS →
  ∃ c', call q c = Returns (fst (served q (contents c))) c'
        ∧ quiescent c' ∧ contents c' = snd (served q (contents c)).
Proof.
  intros Hq Hs. pose proof Hq as (Hl & Hlen & Hidle).
  destruct q as [s [v|]]; unfold call, served, contents; cbn [slot_of arg fst snd] in *.
  - destruct (push_alone put alone s v c Hq Hs) as (x & Hx & ->).
    eexists. split; [done|]. split.
    + split; [done|]. split; [cbn [slots]; by rewrite length_insert|].
      intros i y. cbn [slots].
      intros [[_ [<- _]]|[_ Hy]]%list_lookup_insert_Some; [done|]. by eapply Hidle.
    + cbn [data slots]. f_equal. rewrite list_fmap_insert. cbn [result].
      apply list_insert_id. by rewrite list_lookup_fmap, Hx.
  - destruct (pop_alone put alone s c Hq Hs) as (x & Hx & ->).
    destruct (data c) as [|v d] eqn:Hd.
    + assert ((result <$> slots c) !!! Z.to_nat s = result x) as ->.
      { apply list_lookup_total_correct. by rewrite list_lookup_fmap, Hx. }
      eexists. split; [done|]. split.
      * split; [done|]. split; [cbn [slots]; by rewrite length_insert|].
        intros i y. cbn [slots].
        intros [[_ [<- _]]|[_ Hy]]%list_lookup_insert_Some; [done|]. by eapply Hidle.
      * cbn [data slots snd]. f_equal. rewrite list_fmap_insert. cbn [result].
        apply list_insert_id. by rewrite list_lookup_fmap, Hx.
    + eexists. split; [done|]. split.
      * split; [done|]. split; [cbn [slots]; by rewrite length_insert|].
        intros i y. cbn [slots].
        intros [[_ [<- _]]|[_ Hy]]%list_lookup_insert_Some; [done|]. by eapply Hidle.
      * cbn [data slots snd]. f_equal. by rewrite list_fmap_insert.
Qed.

(** A program of calls made one at a time. *)
Lemma program_served qs : ∀ c fuel,
  quiescent c → Forall (λ q, 0 ≤ slot_of q < MAX_THREADS) qs → (104 ≤ fuel)%nat →
  ∃ c', run_ops start step weak inspect fuel [] qs c
        = Some (fst (spec_ops served qs (contents c)), c')
        ∧ quiescent c' ∧ contents c' = snd (spec_ops served qs (contents c)).
Proof.
  induction qs as [|q qs IH]; intros c fuel Hq Hqs Hfuel; cbn [run_ops spec_ops].
  - eauto.
  - apply Forall_cons in Hqs as [Hs Hqs]. pose proof Hq as (Hl & Hlen & _).
    destruct (call_alone q c Hl Hlen Hs) as (r & c1 & Hcall & Hrun).
    destruct (call_served q c Hq Hs) as (c1' & Hcall' & Hq1 & Hc1).
    rewrite Hcall in Hcall'. injection Hcall' as -> <-.
    rewrite (Hrun fuel Hfuel).
    destruct (IH c1 fuel Hq1 Hqs Hfuel) as (c2 & -> & Hq2 & Hc2).
    rewrite Hc1 in *. destruct (served q (contents c)) as [r st1]. cbn [fst snd] in *.
    destruct (spec_ops served qs st1) as [rs st2]. cbn [fst snd] in *. eauto.
Qed.

(** *** Waiting for the combiner *)

(** A thread that has returned, or that waits for [done] of its slot while
    it is [false]. *)
Definition parked (c : container) (p : pc) : Prop :=
  match p with
  | Return _ => True
  | Wait s _ => ∃ x, slot_at s c = Some x ∧ done x = false
  | _ => False
  end.

Lemma parked_step b p c : parked c p → step b p c = (p, c).
Proof.
  destruct p; try done; cbn [parked step]. by intros (x & -> & ->).
Qed.

Lemma parked_fire e (c c' : conf) :
  (∀ t p, threads c !! t = Some p → parked (shared c) p) →
  is_step e → fire start step inspect e c = Some c' → c' = c.
Proof.
  intros Hall He. destruct e as [q|t q|t b]; try done. cbn [fire].
  destruct (threads c !! t) as [p|] eqn:Ht; [|done].
  destruct (inspect p); try done. intros [= <-].
  rewrite (parked_step b p (shared c)) by (by eapply Hall). cbn [fst snd].
  rewrite list_insert_id by done. by destruct c.
Qed.

Lemma parked_play es : ∀ (c c' : conf),
  (∀ t p, threads c !! t = Some p → parked (shared c) p) →
  Forall is_step es → play start step inspect es c = Some c' → c' = c.
Proof.
  induction es as [|e es IH]; intros c c' Hall Hes; cbn [play].
  - by intros [= <-].
  - apply Forall_cons in Hes as [He Hes].
    destruct (fire start step inspect e c) as [c1|] eqn:E; [|done].
    apply (parked_fire e c c1 Hall He) in E as ->. by apply IH.
Qed.

Lemma parked_run fuel o s a c :
  parked c (Wait s a) → run step weak inspect fuel o (Wait s a) c = Out_of_fuel.
Proof.
  intros Hp.
  apply (run_stuck step weak inspect (λ p c0, p = Wait s a ∧ c0 = c)); [| |done].
  - by intros p c0 [-> _].
  - intros b p c0 [-> ->]. by rewrite (parked_step b _ c Hp).
Qed.

Lemma play_app es1 es2 (c : conf) :
  play start step inspect (es1 ++ es2) c
  = match play start step inspect es1 c with
    | Some c1 => play start step inspect es2 c1
    | None => None
    end.
Proof.
  revert c. induction es1 as [|e es1 IH]; intros c; cbn [play app]; [done|].
  by destruct (fire start step inspect e c).
Qed.


(** *** The result of a slot and the report of the caller *)










(** The calls as calls on a list: [SglSteps.apply]. *)
Hypothesis put_elem : ∀ v d x, x ∈ put v d ↔ x = v ∨ x ∈ d.

Lemma program_clean qs : ∀ c fuel,
  quiescent c → Forall (λ q, 0 ≤ slot_of q < MAX_THREADS) qs → (104 ≤ fuel)%nat →
  (-1) ∉ data c → Forall (λ q, arg q ≠ Some (-1)) qs →
  Empty_error ∉ fst (spec_ops (SglSteps.apply put) (arg <$> qs) (data c)) →
  ∃ c', run_ops start step weak inspect fuel [] qs c
        = Some (fst (spec_ops (SglSteps.apply put) (arg <$> qs) (data c)), c')
        ∧ quiescent c'
        ∧ data c' = snd (spec_ops (SglSteps.apply put) (arg <$> qs) (data c)).
Proof.
  induction qs as [|q qs IH]; intros c fuel Hq Hqs Hfuel Hd Hargs Hne;
    cbn [run_ops spec_ops fmap list_fmap].
  - eauto.
  - apply Forall_cons in Hqs as [Hs Hqs]. apply Forall_cons in Hargs as [Harg Hargs].
    pose proof Hq as (Hl & Hlen & _).
    destruct (call_alone q c Hl Hlen Hs) as (r & c1 & Hcall & Hrun).
    destruct (call_served q c Hq Hs) as (c1' & Hcall' & Hq1 & Hc1).
    rewrite Hcall in Hcall'. injection Hcall' as -> <-.
    rewrite (Hrun fuel Hfuel). cbn [spec_ops fmap list_fmap] in Hne.
    assert (fst (served q (contents c)) = fst (SglSteps.apply put (arg q) (data c))
            ∧ data c1 = snd (SglSteps.apply put (arg q) (data c))
            ∧ (-1) ∉ data c1) as (Hr & Hd1 & Hd1').
    { assert (data c1 = fst (snd (served q (contents c)))) as ->
        by (by rewrite <- Hc1).
      unfold served, contents, SglSteps.apply; cbn [fst snd].
      destruct (arg q) as [v|] eqn:Ha.
      - cbn [fst snd]. split; [done|]. split; [done|].
        rewrite put_elem. intros [E|E]; [|done].
        by rewrite <- E in Harg.
      - destruct (data c) as [|v d] eqn:Hdc.
        + exfalso. apply Hne. unfold SglSteps.apply.
          destruct (spec_ops _ _ _). cbn [fst]. by left.
        + cbn [fst snd]. unfold reported.
          assert (v ≠ -1) as Hv by (intros ->; apply Hd; by left).
          apply Z.eqb_neq in Hv. rewrite Hv. split; [done|]. split; [done|].
          intros Hin. apply Hd. by right. }
    rewrite Hr.
    destruct (SglSteps.apply put (arg q) (data c)) as [r d1] eqn:Happ.
    cbn [fst snd] in *. subst d1.
    destruct (IH c1 fuel Hq1 Hqs Hfuel Hd1' Hargs) as (c2 & -> & Hq2 & Hc2).
    { intros Hin. apply Hne.
      destruct (spec_ops (SglSteps.apply put) (arg <$> qs) (data c1)).
      cbn [fst] in *. by right. }
    destruct (spec_ops (SglSteps.apply put) (arg <$> qs) (data c1)) as [rs d2].
    cbn [fst snd] in *. eauto.
Qed.


End Steps.


(** *** Schedules *)

(** Thread [t] takes [n] steps, with no spurious failure. *)
Definition steps (t n : nat) : list (@event request) := replicate n (Step t false).

(** Thread 0 calls [push(v)] with slot 0 and thread 1 calls [pop()] with
    slot 1.  Thread 1 takes the lock and passes slot 0; thread 0 posts its
    request and finds the lock taken; thread 1 goes through the other slots,
    unlocks and returns. *)
Definition overtaken (v : Z) : list (@event request) :=
  [Spawn (Request 0 (Some v)); Spawn (Request 1 None)]
  ++ steps 1 4 ++ steps 0 4 ++ steps 1 37.

(** Thread 0 calls [push(v)] with slot 0 and returns, then calls [push(w)]
    and stops after [slots[0].op = 1].  Thread 1 calls [pop()] with slot 1
    and returns; thread 0 goes on and returns. *)
Definition early (v w : Z) : list (@event request) :=
  [Spawn (Request 0 (Some v))] ++ steps 0 40
  ++ [Call 0 (Request 0 (Some w)); Spawn (Request 1 None)]
  ++ steps 0 1 ++ steps 1 43 ++ steps 0 39.

(** Thread 1 calls [pop()] once more, with no other thread running. *)
Definition pop_again : list (@event request) :=
  [Call 1 (Request 1 None)] ++ steps 1 41.

(** The calls of [early] followed by [pop_again] twice, on a stack and on a
    queue. *)
Definition early_stack_calls (v w : Z) : list stack_op :=
  [Push v; Push w; Pop; Pop; Pop].
Definition early_queue_calls (v w : Z) : list queue_op :=
  [Enqueue v; Enqueue w; Dequeue; Dequeue; Dequeue].


Lemma overtaken_plays put v :
  play start (step put) inspect (overtaken v) (Config (new (λ _, (0, 0))) [])
  = Some (Config (Container [] false
                    (<[0%nat := Slot 1 v 0 false]>
                       (<[1%nat := Slot 0 0 0 true]> (slots (new (λ _, (0, 0)))))))
                 [Wait 0 (Some v); Return (Int 0)]).
Proof. by vm_compute. Qed.

Lemma early_plays_stack v w :
  v ≠ -1 →
  play start (step stack_put) inspect (early v w) (Config (new (λ _, (0, 0))) [])
  = Some (Config (Container [w; v] false
                    (<[0%nat := Slot 0 w 0 true]>
                       (<[1%nat := Slot 0 0 v true]> (slots (new (λ _, (0, 0)))))))
                 [Return Void; Return (Int v)]).
Proof. intros Hv. destruct v as [|p|[p|p|]]; try done; by vm_compute. Qed.

Lemma early_plays_queue v w :
  v ≠ -1 →
  play start (step queue_put) inspect (early v w) (Config (new (λ _, (0, 0))) [])
  = Some (Config (Container [v; w] false
                    (<[0%nat := Slot 0 w 0 true]>
                       (<[1%nat := Slot 0 0 v true]> (slots (new (λ _, (0, 0)))))))
                 [Return Void; Return (Int v)]).
Proof. intros Hv. destruct v as [|p|[p|p|]]; try done; by vm_compute. Qed.



(** The state after [early], and after one and two more calls of [pop()] or
    [dequeue()] by thread 1: [data], and the value left in [result] of
    slot 1. *)
Definition after_early (d : list Z) (w r : Z) (p : pc) : @config pc container :=
  Config (Container d false
            (<[0%nat := Slot 0 w 0 true]>
               (<[1%nat := Slot 0 0 r true]> (slots (new (λ _, (0, 0)))))))
         [Return Void; p].

Lemma pop_again_plays put z d w r r0 :
  z ≠ -1 →
  play start (step put) inspect pop_again (after_early (z :: d) w r (Return r0))
  = Some (after_early d w z (Return (Int z))).
Proof. intros Hz. destruct z as [|p|[p|p|]]; try done; by vm_compute. Qed.

(** *** The calls of a stack and of a queue *)

Definition stack_request (s : Z) (op : stack_op) : request :=
  Request s (match op with Push v => Some v | Pop => None end).

Definition queue_request (s : Z) (op : queue_op) : request :=
  Request s (match op with Enqueue v => Some v | Dequeue => None end).

Lemma stack_put_elem v d x : x ∈ stack_put v d ↔ x = v ∨ x ∈ d.
Proof. unfold stack_put. apply elem_of_cons. Qed.

Lemma queue_put_elem v d x : x ∈ queue_put v d ↔ x = v ∨ x ∈ d.
Proof.
  unfold queue_put. rewrite elem_of_app, list_elem_of_singleton. tauto.
Qed.

Lemma stack_requests_spec s ops : ∀ d,
  spec_ops (SglSteps.apply stack_put) (arg <$> (stack_request s <$> ops)) d
  = spec_ops stack_spec ops d.
Proof.
  induction ops as [|op ops IH]; intros d; [done|].
  cbn [fmap list_fmap spec_ops]. fold (fmap (M:=list) (stack_request s)).
  fold (fmap (M:=list) arg).
  assert (SglSteps.apply stack_put (arg (stack_request s op)) d = stack_spec op d) as ->.
  { by destruct op, d. }
  destruct (stack_spec op d) as [r d1]. by rewrite IH.
Qed.

Lemma queue_requests_spec s ops : ∀ d,
  spec_ops (SglSteps.apply queue_put) (arg <$> (queue_request s <$> ops)) d
  = spec_ops queue_spec ops d.
Proof.
  induction ops as [|op ops IH]; intros d; [done|].
  cbn [fmap list_fmap spec_ops]. fold (fmap (M:=list) (queue_request s)).
  fold (fmap (M:=list) arg).
  assert (SglSteps.apply queue_put (arg (queue_request s op)) d = queue_spec op d) as ->.
  { by destruct op, d. }
  destruct (queue_spec op d) as [r d1]. by rewrite IH.
Qed.

(** The numbers of calls that put a value in and that take one out. *)
Definition stack_puts (ops : list stack_op) : nat :=
  length (omap (λ op, match op with Push v => Some v | Pop => None end) ops).
Definition stack_takes (ops : list stack_op) : nat :=
  length (omap (λ op, match op with Pop => Some () | Push _ => None end) ops).
Definition queue_puts (ops : list queue_op) : nat :=
  length (omap (λ op, match op with Enqueue v => Some v | Dequeue => None end) ops).
Definition queue_takes (ops : list queue_op) : nat :=
  length (omap (λ op, match op with Dequeue => Some () | Enqueue _ => None end) ops).

(** On a stack and on a queue, calls of which none throws the empty error
    take out no more values than were there or were put in. *)
Lemma stack_takes_bound ops : ∀ d,
  Empty_error ∉ fst (spec_ops stack_spec ops d) →
  (stack_takes ops ≤ length d + stack_puts ops)%nat.
Proof.
  unfold stack_takes, stack_puts.
  induction ops as [|op ops IH]; intros d Hne; cbn [omap list_omap length]; [lia|].
  cbn [spec_ops] in Hne. destruct op as [v|]; cbn [stack_spec] in Hne.
  - specialize (IH (v :: d)). destruct (spec_ops stack_spec ops (v :: d)) as [rs d2].
    cbn [fst length] in *. rewrite not_elem_of_cons in Hne. specialize (IH (proj2 Hne)).
    unfold omap in *. lia.
  - destruct d as [|v d].
    + destruct (spec_ops stack_spec ops []). cbn [fst] in Hne.
      exfalso. apply Hne. by left.
    + specialize (IH d). destruct (spec_ops stack_spec ops d) as [rs d2].
      cbn [fst length] in *. rewrite not_elem_of_cons in Hne. specialize (IH (proj2 Hne)).
      unfold omap in *. lia.
Qed.

Lemma queue_takes_bound ops : ∀ d,
  Empty_error ∉ fst (spec_ops queue_spec ops d) →
  (queue_takes ops ≤ length d + queue_puts ops)%nat.
Proof.
  unfold queue_takes, queue_puts.
  induction ops as [|op ops IH]; intros d Hne; cbn [omap list_omap length]; [lia|].
  cbn [spec_ops] in Hne. destruct op as [v|]; cbn [queue_spec] in Hne.
  - specialize (IH (d ++ [v])). destruct (spec_ops queue_spec ops (d ++ [v])) as [rs d2].
    cbn [fst] in *. rewrite not_elem_of_cons in Hne. specialize (IH (proj2 Hne)).
    rewrite length_app in IH. cbn [length] in *. unfold omap in *. lia.
  - destruct d as [|v d].
    + destruct (spec_ops queue_spec ops []). cbn [fst] in Hne.
      exfalso. apply Hne. by left.
    + specialize (IH d). destruct (spec_ops queue_spec ops d) as [rs d2].
      cbn [fst length] in *. rewrite not_elem_of_cons in Hne. specialize (IH (proj2 Hne)).
      unfold omap in *. lia.
Qed.

(** The orders of the calls of [early_stack_calls] and of
    [early_queue_calls]: some call throws the empty error. *)
Lemma stack_short v w ops :
  ops ≡ₚ early_stack_calls v w → Empty_error ∈ fst (spec_ops stack_spec ops []).
Proof.
  intros Hp. destruct (decide (Empty_error ∈ fst (spec_ops stack_spec ops []))) as [|Hn];
    [done|].
  apply stack_takes_bound in Hn. unfold stack_takes, stack_puts in Hn.
  rewrite Hp in Hn. cbn in Hn. lia.
Qed.

Lemma queue_short v w ops :
  ops ≡ₚ early_queue_calls v w → Empty_error ∈ fst (spec_ops queue_spec ops []).
Proof.
  intros Hp. destruct (decide (Empty_error ∈ fst (spec_ops queue_spec ops []))) as [|Hn];
    [done|].
  apply queue_takes_bound in Hn. unfold queue_takes, queue_puts in Hn.
  rewrite Hp in Hn. cbn in Hn. lia.
Qed.


End FCSteps.





(** X21. In every interleaving of calls on a flat-combining stack or queue
    that are made with slots inside the array, with any spurious failures of
    [try_lock]: no access to [slots] is outside the array; at most one
    thread is between a successful [try_lock] and [unlock], and [lock] is
    held while one is; and a step of any other thread leaves [data] as it
    is, so that only the holder of the lock reads or writes [data]. *)
Theorem fc_interleavings_safe (put : Z → list Z → list Z) (memory : nat → Z * Z)
    (es : list (@event FCSteps.request)) (c : @config FCSteps.pc FC.container) :
  Forall FCSteps.in_range es →
  play FCSteps.start (FCSteps.step put) FCSteps.inspect es (Config (FC.new memory) [])
  = Some c →
  (∀ t p, threads c !! t = Some p → p ≠ FCSteps.Fault)
  ∧ (∀ t p b, threads c !! t = Some p →
              fst (FCSteps.step put b p (shared c)) ≠ FCSteps.Fault)
  ∧ length (FC.slots (shared c)) = Z.to_nat FC.MAX_THREADS
  ∧ (∀ t1 t2 p1 p2, threads c !! t1 = Some p1 → threads c !! t2 = Some p2 →
       FCSteps.combining p1 = true → FCSteps.combining p2 = true → t1 = t2)
  ∧ (∀ t p, threads c !! t = Some p → FCSteps.combining p = true →
            FC.lock (shared c) = true)
  ∧ (∀ t p b, threads c !! t = Some p → FCSteps.combining p = false →
              FC.data (snd (FCSteps.step put b p (shared c))) = FC.data (shared c)).
Proof.
  intros Hes Hplay.
  pose proof (FCSteps.inv_play put es _ c (FCSteps.fc_inv_new memory) Hes Hplay)
    as (Hlen & Hth & Hex).
  split. { intros t p Hp ->. by destruct (Hth t _ Hp). }
  split.
  { intros t p b Hp Hf. destruct (Hth t p Hp) as [Ha _].
    pose proof (FCSteps.step_in_array put b p (shared c) Hlen Ha) as Ha'.
    by rewrite Hf in Ha'. }
  split; [done|]. split; [exact Hex|]. split.
  - intros t p Hp Hc. destruct (Hth t p Hp) as [_ Hl]. by apply Hl.
  - intros t p b Hp Hc. by destruct (FCSteps.fc_outsider_step put b p (shared c) Hc).
Qed.

(** Thread 1 is the combiner and has passed slot 0; thread 0 has posted
    [push(5)] and found the lock taken. *)
Definition combiner_and_waiter : list (@event FCSteps.request) :=
  [Spawn (FCSteps.Request 0 (Some 5)); Spawn (FCSteps.Request 1 None)]
  ++ FCSteps.steps 1 4 ++ FCSteps.steps 0 4.

Definition combiner_and_waiter_state : @config FCSteps.pc FC.container :=
  Config (FC.Container [] true
            (<[0%nat := FC.Slot 1 5 0 false]>
               (<[1%nat := FC.Slot 2 0 0 false]> (FC.slots (FC.new (λ _, (0, 0)))))))
         [FCSteps.Wait 0 (Some 5); FCSteps.Scan 1 None 1].

Lemma combiner_and_waiter_plays :
  play FCSteps.start (FCSteps.step FC.stack_put) FCSteps.inspect
    combiner_and_waiter (Config (FC.new (λ _, (0, 0))) [])
  = Some combiner_and_waiter_state.
Proof. by vm_compute. Qed.

Lemma fc_interleavings_safe_witness :
  ∃ c, play FCSteps.start (FCSteps.step FC.stack_put) FCSteps.inspect
         combiner_and_waiter (Config (FC.new (λ _, (0, 0))) []) = Some c
       ∧ threads c = [FCSteps.Wait 0 (Some 5); FCSteps.Scan 1 None 1]
       ∧ FC.lock (shared c) = true
       ∧ ∀ t p, threads c !! t = Some p → p ≠ FCSteps.Fault.
Proof.
  exists combiner_and_waiter_state.
  split; [exact combiner_and_waiter_plays|]. split; [reflexivity|]. split; [reflexivity|].
  refine (proj1 (fc_interleavings_safe FC.stack_put (λ _, (0, 0)) combiner_and_waiter
                   _ _ combiner_and_waiter_plays)).
  unfold combiner_and_waiter, FCSteps.steps. cbn [app replicate].
  repeat (apply Forall_cons; split; [by vm_compute|]). by apply Forall_nil.
Defined.

(** X22. Calls on a flat-combining stack or queue made one at a time, each
    by any thread whose slot is inside the array, from a state with no call
    in progress: every call returns and leaves no call in progress.  [push]
    and [enqueue] put their value into [data].  [pop] and [dequeue] take
    the value [v] at the head of [data], leave [v] in [result] of the slot of
    the caller, and report the empty error when [v] is -1 and [v] otherwise;
    when [data] is empty they change nothing and report in the same way
    what [result] of the slot of the caller holds, which is the value that
    the last such call through this slot took. *)
Theorem fc_calls_one_at_a_time (put : Z → list Z → list Z)
    (qs : list FCSteps.request) (c : FC.container) (fuel : nat) :
  FC.quiescent c →
  Forall (λ q, 0 ≤ FCSteps.slot_of q < FC.MAX_THREADS) qs →
  (104 ≤ fuel)%nat →
  ∃ c', run_ops FCSteps.start (FCSteps.step put) FCSteps.weak FCSteps.inspect
          fuel [] qs c
        = Some (fst (spec_ops (FCSteps.served put) qs (FCSteps.contents c)), c')
        ∧ FC.quiescent c'
        ∧ FCSteps.contents c' = snd (spec_ops (FCSteps.served put) qs (FCSteps.contents c)).
Proof. intros Hq Hqs Hfuel. by apply FCSteps.program_served. Qed.

Lemma fc_calls_one_at_a_time_witness :
  ∃ c', run_ops FCSteps.start (FCSteps.step FC.stack_put) FCSteps.weak FCSteps.inspect
          104 []
          [FCSteps.Request 0 (Some 5); FCSteps.Request 0 None; FCSteps.Request 1 None;
           FCSteps.Request 0 None]
          (FC.new (λ _, (0, 0)))
        = Some ([Void; Int 5; Int 0; Int 5], c')
        ∧ FC.quiescent c'
        ∧ FC.data c' = [].
Proof.
  destruct (fc_calls_one_at_a_time FC.stack_put
              [FCSteps.Request 0 (Some 5); FCSteps.Request 0 None; FCSteps.Request 1 None;
               FCSteps.Request 0 None]
              (FC.new (λ _, (0, 0))) 104 (FC.quiescent_new _))
    as (c' & Hrun & Hq & Hc).
  - repeat (apply Forall_cons; split; [by vm_compute|]). by apply Forall_nil.
  - lia.
  - exists c'. split; [exact Hrun|]. split; [exact Hq|].
    exact (f_equal fst Hc).
Defined.

(** X23. Used by one thread whose slot is inside the array, the
    flat-combining stack is a last-in first-out stack as long as the value
    -1 is not in it and no [pop] finds it empty: from a state with no call
    in progress and without -1 in [data], a sequence of calls that never
    pushes -1 and in which, on a list, no [pop] throws the empty error,
    returns what it returns on the list [data] and leaves in [data] what it
    leaves there, with no call in progress. *)
Theorem fc_stack_sequential_lifo (s : Z) (ops : list stack_op) (c : FC.container)
    (fuel : nat) :
  FC.quiescent c → 0 ≤ s < FC.MAX_THREADS → (104 ≤ fuel)%nat →
  (-1) ∉ FC.data c → Push (-1) ∉ ops →
  Empty_error ∉ fst (spec_ops stack_spec ops (FC.data c)) →
  ∃ c', run_ops FCSteps.start (FCSteps.step FC.stack_put) FCSteps.weak FCSteps.inspect
          fuel [] (FCSteps.stack_request s <$> ops) c
        = Some (fst (spec_ops stack_spec ops (FC.data c)), c')
        ∧ FC.quiescent c'
        ∧ FC.data c' = snd (spec_ops stack_spec ops (FC.data c)).
Proof.
  intros Hq Hs Hfuel Hd Hops Hne.
  rewrite <- (FCSteps.stack_requests_spec s ops (FC.data c)) in *.
  apply (FCSteps.program_clean FC.stack_put FCSteps.stack_put_elem); try done.
  - apply Forall_fmap, Forall_forall. by intros op _.
  - apply Forall_fmap, Forall_forall. intros op Hop. cbn [FCSteps.arg FCSteps.stack_request].
    destruct op as [v|]; [|done]. intros [= ->]. by apply Hops.
Qed.

Lemma fc_stack_sequential_lifo_witness :
  ∃ c', run_ops FCSteps.start (FCSteps.step FC.stack_put) FCSteps.weak FCSteps.inspect
          104 [] (FCSteps.stack_request 3 <$> [Push 1; Push 2; Pop; Push 3; Pop; Pop])
          (FC.new (λ _, (0, 0)))
        = Some ([Void; Void; Int 2; Void; Int 3; Int 1], c')
        ∧ FC.quiescent c'
        ∧ FC.data c' = [].
Proof.
  apply (fc_stack_sequential_lifo 3 [Push 1; Push 2; Pop; Push 3; Pop; Pop]
           (FC.new (λ _, (0, 0))) 104 (FC.quiescent_new _)).
  - by vm_compute.
  - lia.
  - cbn [FC.data FC.new]. apply not_elem_of_nil.
  - intros Hin. repeat (apply elem_of_cons in Hin as [Hin|Hin]; [done|]).
    by apply elem_of_nil in Hin.
  - intros Hin. cbn in Hin. repeat (apply elem_of_cons in Hin as [Hin|Hin]; [done|]).
    by apply elem_of_nil in Hin.
Defined.

(** X24. Used by one thread whose slot is inside the array, the
    flat-combining queue is a first-in first-out queue as long as the value
    -1 is not in it and no [dequeue] finds it empty: from a state with no
    call in progress and without -1 in [data], a sequence of calls that
    never enqueues -1 and in which, on a list, no [dequeue] throws the empty
    error, returns what it returns on the list [data] and leaves in [data]
    what it leaves there, with no call in progress. *)
Theorem fc_queue_sequential_fifo (s : Z) (ops : list queue_op) (c : FC.container)
    (fuel : nat) :
  FC.quiescent c → 0 ≤ s < FC.MAX_THREADS → (104 ≤ fuel)%nat →
  (-1) ∉ FC.data c → Enqueue (-1) ∉ ops →
  Empty_error ∉ fst (spec_ops queue_spec ops (FC.data c)) →
  ∃ c', run_ops FCSteps.start (FCSteps.step FC.queue_put) FCSteps.weak FCSteps.inspect
          fuel [] (FCSteps.queue_request s <$> ops) c
        = Some (fst (spec_ops queue_spec ops (FC.data c)), c')
        ∧ FC.quiescent c'
        ∧ FC.data c' = snd (spec_ops queue_spec ops (FC.data c)).
Proof.
  intros Hq Hs Hfuel Hd Hops Hne.
  rewrite <- (FCSteps.queue_requests_spec s ops (FC.data c)) in *.
  apply (FCSteps.program_clean FC.queue_put FCSteps.queue_put_elem); try done.
  - apply Forall_fmap, Forall_forall. by intros op _.
  - apply Forall_fmap, Forall_forall. intros op Hop. cbn [FCSteps.arg FCSteps.queue_request].
    destruct op as [v|]; [|done]. intros [= ->]. by apply Hops.
Qed.

Lemma fc_queue_sequential_fifo_witness :
  ∃ c', run_ops FCSteps.start (FCSteps.step FC.queue_put) FCSteps.weak FCSteps.inspect
          104 []
          (FCSteps.queue_request 3 <$> [Enqueue 1; Enqueue 2; Dequeue; Enqueue 3; Dequeue;
                                        Dequeue])
          (FC.new (λ _, (0, 0)))
        = Some ([Void; Void; Int 1; Void; Int 2; Int 3], c')
        ∧ FC.quiescent c'
        ∧ FC.data c' = [].
Proof.
  apply (fc_queue_sequential_fifo 3 [Enqueue 1; Enqueue 2; Dequeue; Enqueue 3; Dequeue;
                                     Dequeue]
           (FC.new (λ _, (0, 0))) 104 (FC.quiescent_new _)).
  - by vm_compute.
  - lia.
  - cbn [FC.data FC.new]. apply not_elem_of_nil.
  - intros Hin. repeat (apply elem_of_cons in Hin as [Hin|Hin]; [done|]).
    by apply elem_of_nil in Hin.
  - intros Hin. cbn in Hin. repeat (apply elem_of_cons in Hin as [Hin|Hin]; [done|]).
    by apply elem_of_nil in Hin.
Defined.

(** X25. A caller of a flat-combining stack or queue that did not get the
    lock never tries again: once every thread has either returned or waits
    for [done] of its slot while that is [false], no step of any thread
    changes anything, and a waiting thread never returns unless some thread
    makes a new call.  Such a state is reached with two threads and no
    spurious failure: thread 1, in [pop], takes the lock and passes slot 0;
    thread 0 then posts [push(v)] and finds the lock taken; thread 1 ends
    its pass, unlocks and returns, and thread 0 waits with its request
    posted, the lock free and [data] not changed. *)
Theorem fc_waiter_left_behind (put : Z → list Z → list Z) :
  (∀ c : @config FCSteps.pc FC.container,
     (∀ t p, threads c !! t = Some p → FCSteps.parked (shared c) p) →
     (∀ es c', Forall FCSteps.is_step es →
        play FCSteps.start (FCSteps.step put) FCSteps.inspect es c = Some c' → c' = c)
     ∧ (∀ t s a fuel o, threads c !! t = Some (FCSteps.Wait s a) →
          run (FCSteps.step put) FCSteps.weak FCSteps.inspect fuel o
            (FCSteps.Wait s a) (shared c) = Out_of_fuel))
  ∧ (∀ v, ∃ c x,
       play FCSteps.start (FCSteps.step put) FCSteps.inspect (FCSteps.overtaken v)
         (Config (FC.new (λ _, (0, 0))) []) = Some c
       ∧ threads c = [FCSteps.Wait 0 (Some v); FCSteps.Return (Int 0)]
       ∧ FC.slot_at 0 (shared c) = Some x
       ∧ FC.op x = 1 ∧ FC.val x = v ∧ FC.done x = false
       ∧ FC.lock (shared c) = false
       ∧ FC.data (shared c) = []
       ∧ ∀ t p, threads c !! t = Some p → FCSteps.parked (shared c) p).
Proof.
  split.
  - intros c Hall. split.
    + intros es c' Hes Hplay. by eapply FCSteps.parked_play.
    + intros t s a fuel o Ht. apply FCSteps.parked_run. by apply (Hall t).
  - intros v. eexists _, _. split; [apply FCSteps.overtaken_plays|].
    cbn [threads shared]. split; [done|]. split; [reflexivity|].
    cbn [FC.op FC.val FC.done FC.lock FC.data].
    do 5 (split; [done|]).
    intros [|[|t]] p [= <-]; cbn [FCSteps.parked]; [|done].
    eexists. split; reflexivity.
Qed.

(** X26. The flat-combining stack and queue are not linearizable: a
    combiner serves a request to [push] or [enqueue] as soon as [op] of the
    slot is set, before the caller has stored its value in [val], and it
    then puts in the value of the caller's previous call; the caller, once
    it gets the lock, puts in its own value as well.  With [v] and [w]
    other than -1: thread 0 calls [push(v)] and returns, then calls
    [push(w)] while thread 1 calls [pop()], which returns [v]; with both
    returned, [data] holds [w] and [v], and two more calls of [pop()] by
    thread 1 return [w] and [v].  Two values were pushed and three calls of
    [pop] have returned a value.  On the queue the three calls of [dequeue]
    return [v], [v] and [w].  On a stack and on a queue, in every order of
    these five calls one of them throws the empty error. *)
Theorem fc_serves_request_before_its_value (v w : Z) :
  v ≠ -1 → w ≠ -1 →
  (∃ c1 c2 c3,
     play FCSteps.start (FCSteps.step FC.stack_put) FCSteps.inspect
       (FCSteps.early v w) (Config (FC.new (λ _, (0, 0))) []) = Some c1
     ∧ threads c1 = [FCSteps.Return Void; FCSteps.Return (Int v)]
     ∧ FC.data (shared c1) = [w; v]
     ∧ play FCSteps.start (FCSteps.step FC.stack_put) FCSteps.inspect
         FCSteps.pop_again c1 = Some c2
     ∧ threads c2 = [FCSteps.Return Void; FCSteps.Return (Int w)]
     ∧ play FCSteps.start (FCSteps.step FC.stack_put) FCSteps.inspect
         FCSteps.pop_again c2 = Some c3
     ∧ threads c3 = [FCSteps.Return Void; FCSteps.Return (Int v)])
  ∧ (∃ c1 c2 c3,
       play FCSteps.start (FCSteps.step FC.queue_put) FCSteps.inspect
         (FCSteps.early v w) (Config (FC.new (λ _, (0, 0))) []) = Some c1
       ∧ threads c1 = [FCSteps.Return Void; FCSteps.Return (Int v)]
       ∧ FC.data (shared c1) = [v; w]
       ∧ play FCSteps.start (FCSteps.step FC.queue_put) FCSteps.inspect
           FCSteps.pop_again c1 = Some c2
       ∧ threads c2 = [FCSteps.Return Void; FCSteps.Return (Int v)]
       ∧ play FCSteps.start (FCSteps.step FC.queue_put) FCSteps.inspect
           FCSteps.pop_again c2 = Some c3
       ∧ threads c3 = [FCSteps.Return Void; FCSteps.Return (Int w)])
  ∧ (∀ ops, ops ≡ₚ FCSteps.early_stack_calls v w →
            Empty_error ∈ fst (spec_ops stack_spec ops []))
  ∧ (∀ ops, ops ≡ₚ FCSteps.early_queue_calls v w →
            Empty_error ∈ fst (spec_ops queue_spec ops [])).
Proof.
  intros Hv Hw. split; [|split; [|split]].
  - exists (FCSteps.after_early [w; v] w v (FCSteps.Return (Int v))),
           (FCSteps.after_early [v] w w (FCSteps.Return (Int w))),
           (FCSteps.after_early [] w v (FCSteps.Return (Int v))).
    split; [by apply FCSteps.early_plays_stack|]. split; [done|]. split; [done|].
    split; [by apply FCSteps.pop_again_plays|]. split; [done|].
    split; [by apply FCSteps.pop_again_plays|]. done.
  - exists (FCSteps.after_early [v; w] w v (FCSteps.Return (Int v))),
           (FCSteps.after_early [w] w v (FCSteps.Return (Int v))),
           (FCSteps.after_early [] w w (FCSteps.Return (Int w))).
    split; [by apply FCSteps.early_plays_queue|]. split; [done|]. split; [done|].
    split; [by apply FCSteps.pop_again_plays|]. split; [done|].
    split; [by apply FCSteps.pop_again_plays|]. done.
  - intros ops. apply FCSteps.stack_short.
  - intros ops. apply FCSteps.queue_short.
Qed.

Lemma fc_serves_request_before_its_value_witness :
  (∃ c1 c2 c3,
     play FCSteps.start (FCSteps.step FC.stack_put) FCSteps.inspect
       (FCSteps.early 7 9) (Config (FC.new (λ _, (0, 0))) []) = Some c1
     ∧ threads c1 = [FCSteps.Return Void; FCSteps.Return (Int 7)]
     ∧ FC.data (shared c1) = [9; 7]
     ∧ play FCSteps.start (FCSteps.step FC.stack_put) FCSteps.inspect
         FCSteps.pop_again c1 = Some c2
     ∧ threads c2 = [FCSteps.Return Void; FCSteps.Return (Int 9)]
     ∧ play FCSteps.start (FCSteps.step FC.stack_put) FCSteps.inspect
         FCSteps.pop_again c2 = Some c3
     ∧ threads c3 = [FCSteps.Return Void; FCSteps.Return (Int 7)])
  ∧ (∀ ops, ops ≡ₚ [Push 7; Push 9; Pop; Pop; Pop] →
            Empty_error ∈ fst (spec_ops stack_spec ops [])).
Proof.
  pose proof (fc_serves_request_before_its_value 7 9 ltac:(lia) ltac:(lia))
    as (Hs & _ & Hno & _).
  exact (conj Hs Hno).
Defined.

(** ** Flat combining: the slots of the threads *)

Module FCSlots.
Import FC.

Lemma wrap_small z : - 2 ^ 31 ≤ z < 2 ^ 31 → wrap z = z.
Proof. intros Hz. unfold wrap. rewrite Z.mod_small by lia. lia. Qed.

(** After [n] first calls of [fc_stack::get_slot], thread [t] holds [t]. *)
Lemma stack_arrive n :
  Z.of_nat n < 2 ^ 31 →
  counter (arrive stack_get_slot n no_threads) = Z.of_nat n
  ∧ ∀ t, my_slot (arrive stack_get_slot n no_threads) !! t
         = if decide (t < n)%nat then Some (Z.of_nat t) else None.
Proof.
  induction n as [|n IH]; intros Hn; [done|].
  destruct IH as [Hc Hm]; [lia|]. cbn [arrive].
  set (r := arrive stack_get_slot n no_threads) in *. unfold stack_get_slot.
  rewrite (Hm n). rewrite decide_False by lia. cbn [snd counter my_slot]. rewrite Hc.
  split; [rewrite wrap_small; lia|].
  intros t. destruct (decide (t = n)) as [->|Hne].
  - rewrite lookup_insert_eq. by rewrite decide_True by lia.
  - rewrite lookup_insert_ne by done. rewrite Hm.
    destruct (decide (t < n)%nat), (decide (t < S n)%nat); try done; lia.
Qed.

(** After [n] first calls of [fc_queue::get_slot], thread [t] holds
    [t % MAX_THREADS]. *)
Lemma queue_arrive n :
  Z.of_nat n < 2 ^ 31 →
  counter (arrive queue_get_slot n no_threads) = Z.of_nat n
  ∧ ∀ t, my_slot (arrive queue_get_slot n no_threads) !! t
         = if decide (t < n)%nat then Some (Z.of_nat t mod MAX_THREADS) else None.
Proof.
  induction n as [|n IH]; intros Hn; [done|].
  destruct IH as [Hc Hm]; [lia|]. cbn [arrive].
  set (r := arrive queue_get_slot n no_threads) in *. unfold queue_get_slot.
  rewrite (Hm n). rewrite decide_False by lia. cbn [Z.eqb Pos.eqb snd counter my_slot].
  rewrite Hc. split; [rewrite wrap_small; lia|].
  intros t. destruct (decide (t = n)) as [->|Hne].
  - rewrite lookup_insert_eq. rewrite decide_True by lia.
    by rewrite Z.rem_mod_nonneg by (unfold MAX_THREADS; lia).
  - rewrite lookup_insert_ne by done. rewrite Hm.
    destruct (decide (t < n)%nat), (decide (t < S n)%nat); try done; lia.
Qed.

Lemma stack_slot_of n t :
  Z.of_nat n < 2 ^ 31 → (t ≤ n)%nat →
  fst (stack_get_slot t (arrive stack_get_slot n no_threads)) = Z.of_nat t.
Proof.
  intros Hn Ht. destruct (stack_arrive n Hn) as [Hc Hm].
  set (r := arrive stack_get_slot n no_threads) in *. unfold stack_get_slot. rewrite Hm. destruct (decide (t < n)%nat); [done|].
  cbn [fst]. rewrite Hc. lia.
Qed.

Lemma queue_slot_of n t :
  Z.of_nat n < 2 ^ 31 → (t ≤ n)%nat →
  fst (queue_get_slot t (arrive queue_get_slot n no_threads))
  = Z.of_nat t mod MAX_THREADS.
Proof.
  intros Hn Ht. destruct (queue_arrive n Hn) as [Hc Hm].
  set (r := arrive queue_get_slot n no_threads) in *. unfold queue_get_slot. rewrite Hm. destruct (decide (t < n)%nat).
  - pose proof (Z.mod_pos_bound (Z.of_nat t) MAX_THREADS eq_refl) as Hb.
    destruct (Z.of_nat t mod MAX_THREADS =? -1) eqn:E; [|done].
    apply Z.eqb_eq in E. lia.
  - cbn [Z.eqb Pos.eqb fst]. rewrite Hc.
    replace t with n by lia.
    by rewrite Z.rem_mod_nonneg by (unfold MAX_THREADS; lia).
Qed.

End FCSlots.

(** X27. While fewer than 2^31 threads have called [get_slot], the thread
    that was the [t]-th to make its first call (counting from 0) gets slot
    [t] from [fc_stack::get_slot] and slot [t % MAX_THREADS] from
    [fc_queue::get_slot], at its first call and at every later one.  So two
    threads never get the same slot of a flat-combining stack, and they get
    the same slot of a flat-combining queue exactly when their ranks differ
    by a multiple of [MAX_THREADS]. *)
Theorem fc_slots_by_arrival (n t : nat) :
  Z.of_nat n < 2 ^ 31 → (t ≤ n)%nat →
  fst (FC.stack_get_slot t (FC.arrive FC.stack_get_slot n FC.no_threads)) = Z.of_nat t
  ∧ fst (FC.queue_get_slot t (FC.arrive FC.queue_get_slot n FC.no_threads))
    = Z.of_nat t mod FC.MAX_THREADS
  ∧ ∀ t', (t' ≤ n)%nat →
      (fst (FC.stack_get_slot t (FC.arrive FC.stack_get_slot n FC.no_threads))
       = fst (FC.stack_get_slot t' (FC.arrive FC.stack_get_slot n FC.no_threads))
       ↔ t = t')
      ∧ (fst (FC.queue_get_slot t (FC.arrive FC.queue_get_slot n FC.no_threads))
         = fst (FC.queue_get_slot t' (FC.arrive FC.queue_get_slot n FC.no_threads))
         ↔ (Z.of_nat t - Z.of_nat t') mod FC.MAX_THREADS = 0).
Proof.
  intros Hn Ht.
  split; [by apply FCSlots.stack_slot_of|]. split; [by apply FCSlots.queue_slot_of|].
  intros t' Ht'.
  rewrite !FCSlots.stack_slot_of, !FCSlots.queue_slot_of by done. split.
  - split; [lia|by intros ->].
  - unfold FC.MAX_THREADS. split; intros H; Z.div_mod_to_equations; lia.
Qed.

Lemma fc_slots_by_arrival_witness :
  fst (FC.stack_get_slot 35 (FC.arrive FC.stack_get_slot 40 FC.no_threads)) = 35
  ∧ fst (FC.queue_get_slot 35 (FC.arrive FC.queue_get_slot 40 FC.no_threads)) = 3
  ∧ fst (FC.queue_get_slot 3 (FC.arrive FC.queue_get_slot 40 FC.no_threads)) = 3.
Proof.
  pose proof (fc_slots_by_arrival 40 35 ltac:(lia) ltac:(lia)) as (Hs & Hq & Hsame).
  split; [exact Hs|]. split; [exact Hq|].
  destruct (Hsame 3%nat ltac:(lia)) as [_ Hiff].
  rewrite <- (proj2 Hiff eq_refl). exact Hq.
Defined.

(** The slot that [fc_queue::get_slot] gives to the thread of rank [t] when
    33 threads have made their first call. *)
Definition rank_slot (t : nat) : Z :=
  fst (FC.queue_get_slot t (FC.arrive FC.queue_get_slot 33 FC.no_threads)).

(** The threads of ranks 0 and 32 on a queue whose [result] fields start
    as [r]: the first posts [enqueue(v)], the second calls [dequeue()] and
    returns, the first goes on and returns. *)
Definition shared_slot (v r : Z) : list (@event FCSteps.request) :=
  [Spawn (FCSteps.Request (rank_slot 0) (Some v));
   Spawn (FCSteps.Request (rank_slot 32) None)]
  ++ FCSteps.steps 0 3 ++ FCSteps.steps 1 (if r =? -1 then 40 else 41)
  ++ FCSteps.steps 0 35.

(** X28. A flat-combining queue used by more than [MAX_THREADS] threads
    loses calls.  The threads of ranks 0 and 32 get the same slot.  When the
    first has posted [enqueue(v)] and the second then calls [dequeue()],
    the second overwrites the request; it finds [data] empty and reports
    what [result] of the slot held when the queue was made; the first, when
    it combines, finds no request and returns.  Both calls have returned,
    no call is in progress and [data] is empty, although on a queue the two
    calls in either order leave it empty only if [dequeue] returns [v]. *)
Theorem fc_queue_shared_slot_loses_enqueue (v r : Z) :
  rank_slot 0 = rank_slot 32
  ∧ (∃ c, play FCSteps.start (FCSteps.step FC.queue_put) FCSteps.inspect
            (shared_slot v r) (Config (FC.new (λ _, (0, r))) []) = Some c
          ∧ threads c = [FCSteps.Return Void; FCSteps.Return (FCSteps.reported r)]
          ∧ FC.data (shared c) = []
          ∧ FC.quiescent (shared c))
  ∧ (∀ ops, ops ≡ₚ [Enqueue v; Dequeue] →
       snd (spec_ops queue_spec ops []) = [] →
       fst (spec_ops queue_spec ops []) = [Void; Int v]).
Proof.
  split; [by vm_compute|]. split.
  - assert (∀ c : FC.container,
              length (FC.slots c) = 32%nat → FC.lock c = false →
              Forall (λ x, FC.op x = 0) (FC.slots c) → FC.quiescent c) as Hquiet.
    { intros c Hlen Hl Hall. split; [done|]. split; [done|].
      intros i x Hx. by eapply (proj1 (Forall_lookup _ _) Hall). }
    destruct r as [|p|[p|p|]]; (eexists; split; [by vm_compute|]);
      (split; [done|]); (split; [done|]);
      (apply Hquiet; [done|done|]); cbn [shared FC.slots];
      repeat (apply Forall_cons; split; [done|]); by apply Forall_nil.
  - intros ops Hp. symmetry in Hp. apply permutations_Permutation in Hp.
    cbn in Hp. repeat (apply elem_of_cons in Hp as [->|Hp]; [|]).
    + done.
    + done.
    + by apply elem_of_nil in Hp.
Qed.

(** ** The queue benchmark ([main.cpp]) *)

Module Bench.

(** [bench_queue]: the numbers of producer and of consumer threads,
    [int half = threads / 2; if(half == 0) half = 1;
     int prod_threads = half; int cons_threads = threads - half;
     if(cons_threads == 0) cons_threads = 1;]
    Division of [int] truncates. *)
Definition queue_threads (threads : Z) : Z * Z :=
  let half := Z.quot threads 2 in
  let half := if half =? 0 then 1 else half in
  let cons_threads := threads - half in
  (half, if cons_threads =? 0 then 1 else cons_threads).

(** [for(int t = 0; t < n; ++t) ts.emplace_back(...)] starts [n] threads,
    and none when [n] is not positive. *)
Definition started (n : Z) : nat := Z.to_nat n.

(** [long long total_ops = 1LL * ops_per_thread * (prod_threads + cons_threads)] *)
Definition total_ops (threads ops_per_thread : Z) : Z :=
  ops_per_thread * (fst (queue_threads threads) + snd (queue_threads threads)).

End Bench.

(** X29. Asked for at least one thread, the queue benchmark starts at
    least one producer and at least one consumer, as many consumers as
    producers or one more, and as many threads in all as it was asked for,
    except that asked for one thread it starts two; the number of
    operations that it reports is [ops_per_thread] times the number of
    threads started. *)
Theorem bench_queue_thread_split (threads ops_per_thread : Z) :
  1 ≤ threads < 2 ^ 31 →
  1 ≤ fst (Bench.queue_threads threads)
  ∧ fst (Bench.queue_threads threads) ≤ snd (Bench.queue_threads threads)
    ≤ fst (Bench.queue_threads threads) + 1
  ∧ fst (Bench.queue_threads threads) + snd (Bench.queue_threads threads)
    = Z.max threads 2
  ∧ Bench.total_ops threads ops_per_thread
    = ops_per_thread
      * Z.of_nat (Bench.started (fst (Bench.queue_threads threads))
                  + Bench.started (snd (Bench.queue_threads threads))).
Proof.
  intros Ht. unfold Bench.total_ops, Bench.started, Bench.queue_threads. cbn zeta.
  pose proof (Z.quot_rem' threads 2) as Hq.
  pose proof (Z.rem_bound_pos threads 2 ltac:(lia) ltac:(lia)) as Hr.
  destruct (Z.quot threads 2 =? 0) eqn:E0.
  - apply Z.eqb_eq in E0. rewrite E0 in *. assert (threads = 1) as -> by lia.
    change (1 - 1 =? 0) with true. cbn [fst snd].
    repeat split; try lia; f_equal; lia.
  - apply Z.eqb_neq in E0. cbn [fst snd].
    destruct (threads - Z.quot threads 2 =? 0) eqn:E1.
    + apply Z.eqb_eq in E1. lia.
    + apply Z.eqb_neq in E1. repeat split; try lia; f_equal; lia.
Qed.

Lemma bench_queue_thread_split_witness :
  Bench.queue_threads 1 = (1, 1) ∧ Bench.queue_threads 5 = (2, 3)
  ∧ fst (Bench.queue_threads 1) + snd (Bench.queue_threads 1) = 2.
Proof.
  split; [reflexivity|]. split; [reflexivity|].
  exact (proj1 (proj2 (proj2 (bench_queue_thread_split 1 100000 ltac:(lia))))).
Defined.
